(** * Turso3D loose octree (Scene/Octree.h): a shallow embedding

    The development follows [Turso3D/Scene/Octree.h].  The inline members of
    that header ([Octant::ChildIndex], the templated [Octree::CollectNodes]
    and [Octree::FindNodes]) are transcribed from the C++ text.  The members
    the header only declares are defined in [Octree.cpp]; their models are
    written from the design document and are marked as such.

    The second half of the development covers two files of the engine's
    base library the scene code builds on: the intrusive reference counting
    of [Turso3D/Base/SharedPtr.h] and the string class of
    [Turso3D/Base/String.cpp], both transcribed from the C++ text. *)

From Stdlib Require Import ZArith Bool.
From Stdlib Require Import SpecFloat.
From stdpp Require Import base list.

Set Default Proof Using "Type".

(** ** Scalars and math primitives *)

(** C++ [float]: an IEEE-754 value.  Only comparisons of floats are ever
    evaluated by the octree code itself, so the precision plays no role. *)
Definition float : Type := spec_float.

(** [a < b] on floats; false as soon as one side is a NaN. *)
Definition flt (a b : float) : bool := SFltb a b.

(** [a == b] on floats. *)
Definition feq (a b : float) : bool := SFeqb a b.

(** [Math/Vector3.h]: three float coordinates. *)
Record Vector3 : Type := mkVector3 { x : float; y : float; z : float }.

(** [Math/BoundingBox.h]: the two corner points ([min] and [max] in C++). *)
Record BoundingBox : Type := mkBoundingBox { bmin : Vector3; bmax : Vector3 }.

(** [Math/Math.h]: result of a containment test. *)
Inductive Intersection : Type := OUTSIDE | INTERSECT | INSIDE.

Global Instance Intersection_eq_dec : EqDecision Intersection.
Proof. solve_decision. Defined.

(** [static const size_t NUM_OCTANTS = 8;] *)
Definition NUM_OCTANTS : nat := 8.

(** A pointer to an [OctreeNode]: the address identifies the object. *)
Definition NodePtr : Type := nat.

Global Instance NodePtr_eq_dec : EqDecision NodePtr := Nat.eq_dec.

(** ** Octant *)

(** [struct Octant].  [children] is the array [Octant* children[NUM_OCTANTS]]
    with [None] for a null slot.  The [parent] pointer is the position of the
    octant in the tree and is not stored a second time.  [size_t] values are
    natural numbers: a child index is below 8 and a count is at most the
    number of live objects, so no operation on them wraps. *)
#[local] Unset Elimination Schemes.
Inductive Octant : Type := mkOctant {
  cullingBox : BoundingBox;
  worldBoundingBox : BoundingBox;
  center : Vector3;
  halfSize : Vector3;
  level : Z;
  nodes : list NodePtr;
  children : list (option Octant);
  numNodes : nat
}.
#[local] Set Elimination Schemes.

(** [size_t ChildIndex(const Vector3& position) const]
    {[ size_t ret = position.x < center.x ? 0 : 1;
       ret += position.y < center.y ? 0 : 2;
       ret += position.z < center.z ? 0 : 4;
       return ret; ]} *)
Definition ChildIndex (o : Octant) (position : Vector3) : nat :=
  let ret := if flt (x position) (x (center o)) then 0 else 1 in
  let ret := ret + (if flt (y position) (y (center o)) then 0 else 2) in
  let ret := ret + (if flt (z position) (z (center o)) then 0 else 4) in
  ret.


(** ** Tracked objects, volumes and the engine around the octree *)

(** The position of an octant: the child indices on the way from the root. *)
Definition OctantPath : Type := list nat.

(** [OctreeNode] as the octree sees it ([OctreeNode.h] is outside the
    sources at hand; [Octree.h] calls [Flags()] and [WorldBoundingBox()] on
    it): the flag bits, an [unsigned] that is only ever masked with [&], the
    world bounding box, and the back-reference to its octant, which is the
    position of that octant and [None] for a null pointer. *)
Record OctreeNode : Type := mkOctreeNode {
  Flags : N;
  WorldBoundingBox : BoundingBox;
  octant : option OctantPath
}.

(** The objects in memory, by address. *)
Definition Heap : Type := NodePtr → OctreeNode.

(** [struct RaycastResult]; [extraData] is an address. *)
Record RaycastResult : Type := mkRaycastResult {
  position : Vector3;
  normal : Vector3;
  distance : float;
  node : NodePtr;
  extraData : N
}.

(** The template parameter [T] of [FindNodes] and [CollectNodes]: a volume
    offers the exact test [IsInside] and the cheaper [IsInsideFast]. *)
Class Volume (T : Type) : Type := {
  IsInside : T → BoundingBox → Intersection;
  IsInsideFast : T → BoundingBox → Intersection
}.

(** The node flag bits are declared with the scene nodes, outside
    [Octree.h]; [NF_ENABLED] is the one the queries read. *)
Class NodeFlagDefs : Type := {
  NF_ENABLED : N
}.

(** [Math/BoundingBox.h]: the box operations the octree calls.  The float
    arithmetic behind them is not part of the octree. *)
Class BoundingBoxOps : Type := {
  Center : BoundingBox → Vector3;
  HalfSize : BoundingBox → Vector3;
  Size : BoundingBox → Vector3;
  BoxVolume :: Volume BoundingBox
}.

(** The numeric policies of [Octree.cpp] that the design document leaves to
    the implementer: the loose culling box of an octant, the bounds of its
    child number [index], the size rule of [FitBoundingBox] (a rule on the
    octant's own bounds, half size and level) and the clamping of the
    configured number of levels. *)
Class OctreePolicy : Type := {
  LooseBox : BoundingBox → BoundingBox;
  ChildBox : BoundingBox → nat → BoundingBox;
  MustStay : BoundingBox → Vector3 → Z → BoundingBox → Vector3 → bool;
  ClampLevels : Z → Z
}.

(** [Math/Ray.h] and the virtual [OctreeNode::OnRaycast]: whether a ray meets
    a box within a distance, and the hits an object reports for a ray. *)
Class RayOps (Ray : Type) : Type := {
  HitsBox : Ray → BoundingBox → float → bool;
  OnRaycast : NodePtr → OctreeNode → Ray → float → list RaycastResult
}.

(** [class Octree]: the update queue and the root octant (the allocator only
    owns the memory of the child octants). *)
Record Octree : Type := mkOctree {
  updateQueue : list NodePtr;
  root : Octant
}.

(** The octree together with the objects it refers to. *)
Record Scene : Type := mkScene {
  octree : Octree;
  objects : Heap
}.

(** An [unsigned] used as a condition. *)
Definition nonzero (v : N) : bool := negb (v =? 0)%N.

(** [children[index]], [None] for a null slot. *)
Definition child (o : Octant) (index : nat) : option Octant :=
  match children o !! index with
  | Some slot => slot
  | None => None
  end.

(** The octant at a position below [o]. *)
Fixpoint lookupOctant (p : OctantPath) (o : Octant) : option Octant :=
  match p with
  | [] => Some o
  | index :: p' =>
      match child o index with
      | Some c => lookupOctant p' c
      | None => None
      end
  end.

(** An octant with its object list, child slots and count replaced. *)
Definition withContent (o : Octant) (ns : list NodePtr)
    (ch : list (option Octant)) (count : nat) : Octant :=
  mkOctant (cullingBox o) (worldBoundingBox o) (center o) (halfSize o)
           (level o) ns ch count.

(** [node->octant = p] in the heap. *)
Definition setOctant (h : Heap) (n : NodePtr) (p : option OctantPath) : Heap :=
  λ m, if decide (m = n)
       then mkOctreeNode (Flags (h n)) (WorldBoundingBox (h n)) p
       else h m.

(** ** Queries ([Octree.h]) *)

Section Queries.
Context `{NodeFlagDefs}.
Variable heap : Heap.

(** [(flags & NF_ENABLED) && (flags & nodeFlags)] *)
Definition visible (nodeFlags : N) (n : NodePtr) : bool :=
  let flags := Flags (heap n) in
  nonzero (N.land flags NF_ENABLED) && nonzero (N.land flags nodeFlags).

(** The enabled bit of an object. *)
Definition enabled (n : NodePtr) : Prop :=
  N.land (Flags (heap n)) NF_ENABLED ≠ 0%N.

Global Instance enabled_dec n : Decision (enabled n).
Proof. unfold enabled. apply _. Defined.

(** Modelled from the spec: the overload
    [CollectNodes(Vector<OctreeNode*>& dest, const Octant* octant, unsigned nodeFlags)],
    declared in the header ("Get all visible nodes matching flags from an
    octant recursively") and defined in [Octree.cpp].  It appends every
    enabled object matching [nodeFlags] of the octant, then those of all
    existing children in index order, with no geometric test. *)
Fixpoint CollectNodesFlags (dest : list NodePtr) (o : Octant) (nodeFlags : N)
    {struct o} : list NodePtr :=
  match o with
  | mkOctant _ _ _ _ _ octantNodes octantChildren _ =>
      let dest := dest ++ filter (λ n, visible nodeFlags n = true) octantNodes in
      fold_left
        (λ dest slot,
           match slot with
           | Some c => CollectNodesFlags dest c nodeFlags
           | None => dest
           end)
        octantChildren dest
  end.

Section WithVolume.
Context {T : Type} `{Volume T}.

(** The per-object test of the INTERSECT branch:
    [(flags & NF_ENABLED) && (flags & nodeFlags) &&
     volume.IsInsideFast(node->WorldBoundingBox()) != OUTSIDE] *)
Definition passes (volume : T) (nodeFlags : N) (n : NodePtr) : bool :=
  visible nodeFlags n &&
  negb (bool_decide (IsInsideFast volume (WorldBoundingBox (heap n)) = OUTSIDE)).

(** The loop over [octant->nodes] of the INTERSECT branch. *)
Definition pushPassing (dest : list NodePtr) (octantNodes : list NodePtr)
    (volume : T) (nodeFlags : N) : list NodePtr :=
  fold_left
    (λ dest n, if passes volume nodeFlags n then dest ++ [n] else dest)
    octantNodes dest.

(** [template <class T> void CollectNodes(Vector<OctreeNode*>& dest,
    const Octant* octant, const T& volume, unsigned nodeFlags) const];
    the vector passed by reference is returned, [dest.Push(node)] appends,
    and the loop [for (size_t i = 0; i < NUM_OCTANTS; ++i)] over the
    non-null [children[i]] is the fold over the child slots. *)
Fixpoint CollectNodes (dest : list NodePtr) (o : Octant) (volume : T)
    (nodeFlags : N) {struct o} : list NodePtr :=
  match o with
  | mkOctant cullingBox _ _ _ _ octantNodes octantChildren _ =>
      match IsInside volume cullingBox with
      | OUTSIDE => dest
      | INSIDE => CollectNodesFlags dest o nodeFlags
      | INTERSECT =>
          let dest := pushPassing dest octantNodes volume nodeFlags in
          fold_left
            (λ dest slot,
               match slot with
               | Some c => CollectNodes dest c volume nodeFlags
               | None => dest
               end)
            octantChildren dest
      end
  end.

(** [template <class T> void FindNodes(Vector<OctreeNode*>& dest,
    const T& volume, unsigned nodeFlags) const]
    {[ dest.Clear(); CollectNodes(dest, &root, volume, nodeFlags); ]} *)
Definition FindNodes (t : Octree) (dest : list NodePtr) (volume : T)
    (nodeFlags : N) : list NodePtr :=
  let dest := [] in
  CollectNodes dest (root t) volume nodeFlags.
End WithVolume.

(** Modelled from the spec: the overload
    [CollectNodes(Vector<OctreeNode*>& dest, const Octant* octant)], declared
    in the header ("Get all nodes from an octant recursively") and defined
    in [Octree.cpp]: the objects of the octant, then those of its existing
    children in index order. *)
Fixpoint CollectNodesAll (dest : list NodePtr) (o : Octant) {struct o}
    : list NodePtr :=
  match o with
  | mkOctant _ _ _ _ _ octantNodes octantChildren _ =>
      fold_left
        (λ dest slot,
           match slot with
           | Some c => CollectNodesAll dest c
           | None => dest
           end)
        octantChildren (dest ++ octantNodes)
  end.
End Queries.

(** ** Mutation ([Octree.cpp]) *)

Section Mutation.
Context `{BoundingBoxOps} `{OctreePolicy}.

Definition zeroVector : Vector3 :=
  mkVector3 (S754_zero false) (S754_zero false) (S754_zero false).

(** Modelled from the spec: the constructor [Octant::Octant()], defined in
    [Octree.cpp].  A new octant holds no objects and no children ("created
    lazily") and counts 0; its bounds and level are set by [Initialize]. *)
Definition newOctant : Octant :=
  mkOctant (mkBoundingBox zeroVector zeroVector)
           (mkBoundingBox zeroVector zeroVector)
           zeroVector zeroVector 0 [] (replicate NUM_OCTANTS None) 0.

(** Modelled from the spec: [Octant::Initialize(parent, boundingBox, level)],
    defined in [Octree.cpp]: "sets worldBoundingBox, derives center/halfSize,
    computes cullingBox as box expanded by a fixed looseness factor on every
    axis. No children are created here."  The parent is the position in the
    tree. *)
Definition Initialize (o : Octant) (boundingBox : BoundingBox) (level_ : Z)
    : Octant :=
  mkOctant (LooseBox boundingBox) boundingBox (Center boundingBox)
           (HalfSize boundingBox) level_ (nodes o) (children o) (numNodes o).

(** Modelled from the spec: [Octant::FitBoundingBox(box, boxSize)], defined
    in [Octree.cpp]: true when the object "must remain at this level", false
    when it is "eligible to descend into a child half-sized octant"; "the
    decision compares boxSize against halfSize".  The ratio is a policy. *)
Definition FitBoundingBox (o : Octant) (box : BoundingBox) (boxSize : Vector3)
    : bool :=
  MustStay (worldBoundingBox o) (halfSize o) (level o) box boxSize.

(** Modelled from the spec: the octant that [Octree::CreateChildOctant(octant,
    index)] allocates, defined in [Octree.cpp].  The header keeps the
    configured number of levels nowhere but in the root's [level], so the
    root carries [numLevels] and every subdivision carries one less; the
    smallest octants have level 1. *)
Definition CreateChildOctant (o : Octant) (index : nat) : Octant :=
  Initialize newOctant (ChildBox (worldBoundingBox o) index) (level o - 1).

(** Modelled from the spec: the end of the descent of [Octree::InsertNode]
    ([Octree.cpp]), "add the object to the current octant's nodes", the
    count of that octant incremented with it. *)
Definition pushNode (n : NodePtr) (o : Octant) : Octant :=
  withContent o (nodes o ++ [n]) (children o) (S (numNodes o)).

(** Modelled from the spec: an octant the descent went through,
    "increment numNodes for every octant on the path"; its child [index] is
    the one the descent went on in. *)
Definition onPath (o : Octant) (index : nat) (c : Octant) : Octant :=
  withContent o (nodes o) (<[index := Some c]> (children o)) (S (numNodes o)).

(** Modelled from the spec: the descent of [Octree::InsertNode], defined in
    [Octree.cpp]: "at each level compute the candidate child via ChildIndex
    on the object's box center; if FitBoundingBox says the object must stay,
    or the maximum depth is reached, or the required child does not yet
    exist and creating it would exceed configured depth, stop and add the
    object to the current octant's nodes; otherwise lazily create the child
    (if absent) via CreateChildOctant and continue descending", with
    "increment numNodes for every octant on the path".  The result is the
    updated octant and the position of the chosen octant below it.  Every
    step lowers the level by one, so [fuel] is the level of the start. *)
Fixpoint descend (fuel : nat) (n : NodePtr) (box : BoundingBox) (o : Octant)
    : Octant * OctantPath :=
  match fuel with
  | 0 => (pushNode n o, [])
  | S fuel' =>
      let index := ChildIndex o (Center box) in
      if FitBoundingBox o box (Size box)
         || (level o <=? 1)%Z
         || (match child o index with None => (level o - 1 <? 1)%Z | Some _ => false end)
      then (pushNode n o, [])
      else
        let c := match child o index with
                 | Some c => c
                 | None => CreateChildOctant o index
                 end in
        let (c', p) := descend fuel' n box c in
        (onPath o index c', index :: p)
  end.

(** Modelled from the spec: the descent started at the octant at position
    [start] ("starting at the octant currently recorded on the object"); the
    octants above it are on the path to the root and are counted up as
    well.  A recorded octant always exists; should [start] leave the tree,
    the descent starts where it does. *)
Fixpoint insertFrom (start : OctantPath) (n : NodePtr) (box : BoundingBox)
    (o : Octant) : Octant * OctantPath :=
  match start with
  | [] => descend (Z.to_nat (level o)) n box o
  | index :: start' =>
      match child o index with
      | Some c =>
          let (c', p) := insertFrom start' n box c in
          (onPath o index c', index :: p)
      | None => descend (Z.to_nat (level o)) n box o
      end
  end.

Definition withRoot (s : Scene) (r : Octant) (h : Heap) : Scene :=
  mkScene (mkOctree (updateQueue (octree s)) r) h.

Definition withQueue (s : Scene) (q : list NodePtr) : Scene :=
  mkScene (mkOctree q (root (octree s))) (objects s).

(** Modelled from the spec: [Octree::InsertNode(node)], defined in
    [Octree.cpp]: the descent "starting at the octant currently recorded on
    the object (or the root if none)", and "record the resulting octant on
    the object". *)
Definition InsertNode (n : NodePtr) (s : Scene) : Scene :=
  let start := default [] (octant (objects s n)) in
  let (r, p) := insertFrom start n (WorldBoundingBox (objects s n))
                           (root (octree s)) in
  withRoot s r (setOctant (objects s) n (Some p)).

(** Modelled from the spec: "erase it from that octant's nodes"; one
    occurrence is erased, the first. *)
Fixpoint erase (n : NodePtr) (l : list NodePtr) : list NodePtr :=
  match l with
  | [] => []
  | m :: l' => if decide (m = n) then l' else m :: erase n l'
  end.

(** Modelled from the spec: an octant "becomes empty (numNodes == 0 and no
    live children)". *)
Definition isEmptyOctant (o : Octant) : bool :=
  (numNodes o =? 0) && forallb (λ slot, match slot with None => true | Some _ => false end) (children o).

(** Modelled from the spec: the slot a parent keeps for a child after a
    removal below it; an empty child is deleted, which "clears the parent's
    corresponding child slot" ([Octree::DeleteChildOctant]). *)
Definition keptSlot (c : Octant) : option Octant :=
  if isEmptyOctant c then None else Some c.

(** Modelled from the spec: [Octree::RemoveNode(node, octant)], defined in
    [Octree.cpp], for the octant at position [p] below [o]: "erase it from
    that octant's nodes, decrement numNodes along the path to root, then
    walk upward pruning any octant that becomes empty (numNodes == 0 and no
    live children) except the root", where pruning "clears the parent's
    corresponding child slot".  The walk upward is the return from the
    recursion; [o] itself is pruned by its parent. *)
Fixpoint removeAt (p : OctantPath) (n : NodePtr) (o : Octant) : Octant :=
  match p with
  | [] => withContent o (erase n (nodes o)) (children o) (pred (numNodes o))
  | index :: p' =>
      match child o index with
      | Some c =>
          let c' := removeAt p' n c in
          withContent o (nodes o)
            (<[index := keptSlot c']> (children o))
            (pred (numNodes o))
      | None => o
      end
  end.

(** Modelled from the spec: [Octree::RemoveNode(node)], defined in
    [Octree.cpp]: "look up the object's current octant", remove it there;
    "removing an object not currently tracked is a no-op".  The object is
    untracked afterwards. *)
Definition RemoveNode (n : NodePtr) (s : Scene) : Scene :=
  match octant (objects s n) with
  | None => s
  | Some p => withRoot s (removeAt p n (root (octree s)))
                       (setOctant (objects s) n None)
  end.

(** Modelled from the spec: [Octree::QueueUpdate(node)], defined in
    [Octree.cpp]: "mark an object as needing reinsertion; queuing the same
    object twice before the next drain is a no-op". *)
Definition QueueUpdate (n : NodePtr) (s : Scene) : Scene :=
  if decide (n ∈ updateQueue (octree s)) then s
  else withQueue s (updateQueue (octree s) ++ [n]).

(** Modelled from the spec: [Octree::CancelUpdate(node)], defined in
    [Octree.cpp]: "unmark an object"; "canceling an object not queued is a
    no-op". *)
Definition CancelUpdate (n : NodePtr) (s : Scene) : Scene :=
  withQueue s (filter (λ m, m ≠ n) (updateQueue (octree s))).

(** Modelled from the spec: the test of [Octree::Update], "its current
    octant no longer tightly contains its world box, or a smaller octant now
    fits it"; an object without an octant is inserted. *)
Definition needsReinsertion (s : Scene) (n : NodePtr) : bool :=
  let box := WorldBoundingBox (objects s n) in
  match octant (objects s n) with
  | None => true
  | Some p =>
      match lookupOctant p (root (octree s)) with
      | None => true
      | Some o =>
          negb (bool_decide (IsInside (cullingBox o) box = INSIDE))
          || (negb (FitBoundingBox o box (Size box)) && (1 <? level o)%Z)
      end
  end.

(** Modelled from the spec: one step of [Octree::Update], "perform
    RemoveNode followed by InsertNode starting the search from the root". *)
Definition reinsert (s : Scene) (n : NodePtr) : Scene :=
  if needsReinsertion s n then InsertNode n (RemoveNode n s) else s.

(** Modelled from the spec: [Octree::Update()], defined in [Octree.cpp]:
    "drains the queue once; for each object, if its current octant no longer
    tightly contains its world box, or a smaller octant now fits it, perform
    RemoveNode followed by InsertNode". *)
Definition Update (s : Scene) : Scene :=
  withQueue (fold_left reinsert (updateQueue (octree s)) s) [].

(** Modelled from the spec: [Octree::Resize(boundingBox, numLevels)], defined
    in [Octree.cpp]: "detach all currently tracked objects, destroy the
    entire non-root octant hierarchy (re-homing any surviving object
    references to none), reinitialize the root with the new bounds/depth,
    and reinsert every previously tracked object"; the number of levels is
    "clamped rather than rejected". *)
Definition Resize (boundingBox : BoundingBox) (numLevels : Z) (s : Scene)
    : Scene :=
  let tracked := CollectNodesAll [] (root (octree s)) in
  let detached := fold_left (λ h n, setOctant h n None) tracked (objects s) in
  let r := withContent (root (octree s)) [] (replicate NUM_OCTANTS None) 0 in
  let r := Initialize r boundingBox (ClampLevels numLevels) in
  fold_left (λ s n, InsertNode n s) tracked (withRoot s r detached).

(** Modelled from the spec: the octree after construction, "a single
    permanently-allocated Octant covering the configured world bounds and
    depth" and an empty queue. *)
Definition newOctree (boundingBox : BoundingBox) (numLevels : Z) : Octree :=
  mkOctree [] (Initialize newOctant boundingBox (ClampLevels numLevels)).

(** Modelled from the spec: what the "external code" does to an object
    between two calls of the octree; it moves or resizes it, or changes its
    flags.  The back-reference is written by the octree alone. *)
Definition SetWorldBoundingBox (n : NodePtr) (box : BoundingBox) (s : Scene)
    : Scene :=
  mkScene (octree s)
    (λ m, if decide (m = n)
          then mkOctreeNode (Flags (objects s n)) box (octant (objects s n))
          else objects s m).

Definition SetFlags (n : NodePtr) (flags : N) (s : Scene) : Scene :=
  mkScene (octree s)
    (λ m, if decide (m = n)
          then mkOctreeNode flags (WorldBoundingBox (objects s n)) (octant (objects s n))
          else objects s m).

(** The scenes the operations of the octree lead to, from a new octree
    whose objects are all untracked.  [InsertNode] is private: its callers
    pass an object that is in no octant.  [mayMove s n] says when the engine
    may change the bounds of object [n] in scene [s]. *)
Inductive reachableWhen (mayMove : Scene → NodePtr → Prop) : Scene → Prop :=
| reach_new boundingBox numLevels h :
    (∀ n, octant (h n) = None) →
    reachableWhen mayMove (mkScene (newOctree boundingBox numLevels) h)
| reach_InsertNode n s :
    reachableWhen mayMove s → octant (objects s n) = None →
    reachableWhen mayMove (InsertNode n s)
| reach_RemoveNode n s :
    reachableWhen mayMove s → reachableWhen mayMove (RemoveNode n s)
| reach_QueueUpdate n s :
    reachableWhen mayMove s → reachableWhen mayMove (QueueUpdate n s)
| reach_CancelUpdate n s :
    reachableWhen mayMove s → reachableWhen mayMove (CancelUpdate n s)
| reach_Update s :
    reachableWhen mayMove s → reachableWhen mayMove (Update s)
| reach_Resize boundingBox numLevels s :
    reachableWhen mayMove s → reachableWhen mayMove (Resize boundingBox numLevels s)
| reach_SetWorldBoundingBox n box s :
    reachableWhen mayMove s → mayMove s n →
    reachableWhen mayMove (SetWorldBoundingBox n box s)
| reach_SetFlags n flags s :
    reachableWhen mayMove s → reachableWhen mayMove (SetFlags n flags s).

(** Objects move at any time. *)
Definition reachable : Scene → Prop := reachableWhen (λ _ _, True).

(** Objects get their bounds only while they are in no octant: the tracked
    objects are at rest. *)
Definition reachableAtRest : Scene → Prop :=
  reachableWhen (λ s n, octant (objects s n) = None).

(** The reachable scenes by the number of levels the octree is configured
    with: the [numLevels] given to the constructor, or to the last
    [Resize]. *)
Inductive configuredWith : Z → Scene → Prop :=
| conf_new boundingBox numLevels h :
    (∀ n, octant (h n) = None) →
    configuredWith numLevels (mkScene (newOctree boundingBox numLevels) h)
| conf_Resize boundingBox numLevels before s :
    configuredWith before s →
    configuredWith numLevels (Resize boundingBox numLevels s)
| conf_InsertNode numLevels n s :
    configuredWith numLevels s → octant (objects s n) = None →
    configuredWith numLevels (InsertNode n s)
| conf_RemoveNode numLevels n s :
    configuredWith numLevels s → configuredWith numLevels (RemoveNode n s)
| conf_QueueUpdate numLevels n s :
    configuredWith numLevels s → configuredWith numLevels (QueueUpdate n s)
| conf_CancelUpdate numLevels n s :
    configuredWith numLevels s → configuredWith numLevels (CancelUpdate n s)
| conf_Update numLevels s :
    configuredWith numLevels s → configuredWith numLevels (Update s)
| conf_SetWorldBoundingBox numLevels n box s :
    configuredWith numLevels s →
    configuredWith numLevels (SetWorldBoundingBox n box s)
| conf_SetFlags numLevels n flags s :
    configuredWith numLevels s → configuredWith numLevels (SetFlags n flags s).

(** Modelled from the spec: "depth and bucket-style limits are clamped
    rather than rejected"; the policy clamps the number of levels to the
    range from [lowest] to [highest]. *)
Definition clampsLevels (lowest highest : Z) : Prop :=
  ∀ numLevels, ClampLevels numLevels = Z.max lowest (Z.min numLevels highest).
End Mutation.

(** ** Ray queries ([Octree.cpp]) *)

Section Raycasts.
Context `{NodeFlagDefs} {Ray : Type} `{RayOps Ray}.
Variable heap : Heap.

(** Modelled from the spec: the hits of one object, "for each qualifying
    enabled, flag-matching object, delegate to an object-specific ray test
    ... producing zero or more RaycastResult". *)
Definition objectHits (ray : Ray) (nodeFlags : N) (maxDistance : float)
    (n : NodePtr) : list RaycastResult :=
  if visible heap nodeFlags n then OnRaycast n (heap n) ray maxDistance else [].

(** Modelled from the spec: the overload
    [CollectNodes(Vector<RaycastResult>& dest, const Octant* octant, const Ray& ray,
    unsigned nodeFlags, float maxDistance)], declared in the header and
    defined in [Octree.cpp]: "traverse octants whose cullingBox intersects
    ray within maxDistance" and append the hits of their objects. *)
Fixpoint CollectNodesRay (dest : list RaycastResult) (o : Octant) (ray : Ray)
    (nodeFlags : N) (maxDistance : float) {struct o} : list RaycastResult :=
  match o with
  | mkOctant cullingBox _ _ _ _ octantNodes octantChildren _ =>
      if HitsBox ray cullingBox maxDistance then
        let dest :=
          fold_left (λ dest n, dest ++ objectHits ray nodeFlags maxDistance n)
                    octantNodes dest in
        fold_left
          (λ dest slot,
             match slot with
             | Some c => CollectNodesRay dest c ray nodeFlags maxDistance
             | None => dest
             end)
          octantChildren dest
      else dest
  end.

(** Modelled from the spec: [Octree::Raycast], defined in [Octree.cpp]:
    "Raycast(ray, nodeFlags, maxDistance) -> all hits". *)
Definition Raycast (t : Octree) (ray : Ray) (nodeFlags : N)
    (maxDistance : float) : list RaycastResult :=
  CollectNodesRay [] (root t) ray nodeFlags maxDistance.

(** Modelled from the spec: the nearest hit so far against the next hit; a
    hit replaces the best one only when it is strictly nearer ("ties
    resolved by traversal/object order — first found wins"). *)
Definition nearer (best : option RaycastResult) (hit : RaycastResult)
    : option RaycastResult :=
  match best with
  | None => Some hit
  | Some b => if flt (distance hit) (distance b) then Some hit else Some b
  end.

(** Modelled from the spec: the traversal of [Octree::RaycastSingle], the
    one of [Raycast], keeping the nearest hit only. *)
Fixpoint nearestHit (best : option RaycastResult) (o : Octant) (ray : Ray)
    (nodeFlags : N) (maxDistance : float) {struct o} : option RaycastResult :=
  match o with
  | mkOctant cullingBox _ _ _ _ octantNodes octantChildren _ =>
      if HitsBox ray cullingBox maxDistance then
        let best :=
          fold_left
            (λ best n, fold_left nearer (objectHits ray nodeFlags maxDistance n) best)
            octantNodes best in
        fold_left
          (λ best slot,
             match slot with
             | Some c => nearestHit best c ray nodeFlags maxDistance
             | None => best
             end)
          octantChildren best
      else best
  end.

(** Modelled from the spec: [Octree::RaycastSingle], defined in
    [Octree.cpp]: "returns the minimum-distance result across the whole
    traversal (ties resolved by traversal/object order — first found
    wins)"; "single-or-none". *)
Definition RaycastSingle (t : Octree) (ray : Ray) (nodeFlags : N)
    (maxDistance : float) : option RaycastResult :=
  nearestHit None (root t) ray nodeFlags maxDistance.
End Raycasts.

(** Distances sorted ascending: a stable insertion sort with the float
    comparison. *)
Fixpoint insertAscending (d : float) (l : list float) : list float :=
  match l with
  | [] => [d]
  | e :: l' => if flt e d then e :: insertAscending d l' else d :: l
  end.

Definition sortAscending (l : list float) : list float :=
  foldr insertAscending [] l.

(** A float that takes part in the order of the floats. *)
Definition ordered (d : float) : Prop := d ≠ S754_nan.

(** [r] is the hit number [i] of [hits], every earlier hit is strictly
    farther and no hit is nearer: the nearest hit, the first one among equally
    near ones. *)
Definition firstNearest (hits : list RaycastResult) (i : nat) (r : RaycastResult)
    : Prop :=
  hits !! i = Some r ∧
  (∀ j e, j < i → hits !! j = Some e → flt (distance r) (distance e) = true) ∧
  (∀ e, e ∈ hits → flt (distance e) (distance r) = false).

(** No distance of the hits is a NaN. *)
Definition allOrdered (hits : list RaycastResult) : bool :=
  forallb (λ r, match distance r with S754_nan => false | _ => true end) hits.

(** ** The objects of a hierarchy and its invariants *)

(** The objects below a child slot, each with its position seen from the
    parent. *)
Definition below (index : nat) (l : list (NodePtr * OctantPath))
    : list (NodePtr * OctantPath) :=
  (λ np, (np.1, index :: np.2)) <$> l.

(** The objects of a hierarchy with the position of their octant, in the
    order of the traversals: the objects of the octant, then those of the
    children by index. *)
Fixpoint placed (o : Octant) : list (NodePtr * OctantPath) :=
  match o with
  | mkOctant _ _ _ _ _ octantNodes octantChildren _ =>
      ((λ n, (n, [])) <$> octantNodes) ++
      (fix slots (index : nat) (ch : list (option Octant)) {struct ch} :=
         match ch with
         | [] => []
         | slot :: ch' =>
             match slot with
             | Some c => below index (placed c)
             | None => []
             end ++ slots (S index) ch'
         end) 0 octantChildren
  end.

(** The same list for an array of child slots whose first index is
    [index]. *)
Fixpoint placedSlots (index : nat) (ch : list (option Octant))
    : list (NodePtr * OctantPath) :=
  match ch with
  | [] => []
  | slot :: ch' =>
      match slot with
      | Some c => below index (placed c)
      | None => []
      end ++ placedSlots (S index) ch'
  end.

(** The objects below one child slot. *)
Definition slotPlaced (index : nat) (slot : option Octant)
    : list (NodePtr * OctantPath) :=
  match slot with
  | Some c => below index (placed c)
  | None => []
  end.

(** What the existing children contribute to a traversal, slot by slot. *)
Definition overSlots {A : Type} (g : Octant → list A) (ch : list (option Octant))
    : list A :=
  flat_map (λ slot, match slot with Some c => g c | None => [] end) ch.

(** A test that holds at every octant of a hierarchy. *)
Fixpoint everyOctant (test : Octant → bool) (o : Octant) {struct o} : bool :=
  test o &&
  match o with
  | mkOctant _ _ _ _ _ _ octantChildren _ =>
      forallb (λ slot, match slot with
                       | Some c => everyOctant test c
                       | None => true
                       end)
              octantChildren
  end.

(** The count a child slot contributes to its parent: "children absent
    contribute 0". *)
Definition slotCount (slot : option Octant) : nat :=
  match slot with
  | Some c => numNodes c
  | None => 0
  end.

(** [numNodes == |nodes| + Σ children[i]->numNodes] at one octant. *)
Definition countsAddUp (o : Octant) : Prop :=
  numNodes o = length (nodes o) + sum_list (slotCount <$> children o).

(** A well-formed hierarchy: eight child slots, the count equation, children
    one level below their parent, of level 1 at least and never empty, at
    every octant. *)
Inductive octant_ok : Octant → Prop :=
| octant_ok_intro o :
    length (children o) = NUM_OCTANTS →
    countsAddUp o →
    (∀ index c, child o index = Some c →
                level c = (level o - 1)%Z ∧ (1 ≤ level c)%Z ∧ 0 < numNodes c) →
    (∀ index c, child o index = Some c → octant_ok c) →
    octant_ok o.

(** A well-formed scene: a well-formed hierarchy in which no object occurs
    twice, the back-reference of every object is the position of the octant
    that lists it, and no object is queued twice. *)
(** [numNodes == |nodes| + Σ children[i]->numNodes] at every octant of the
    tree. *)
Definition countInvariant (s : Scene) : Prop :=
  ∀ p o, lookupOctant p (root (octree s)) = Some o → countsAddUp o.

Record scene_ok (s : Scene) : Prop := mk_scene_ok {
  ok_tree : octant_ok (root (octree s));
  ok_once : NoDup (placed (root (octree s))).*1;
  ok_backref : ∀ n p, octant (objects s n) = Some p ↔ (n, p) ∈ placed (root (octree s));
  ok_queue : NoDup (updateQueue (octree s))
}.

(** The existing octants of a hierarchy, by position, each with its count:
    the shape of the tree. *)
Fixpoint octantCounts (o : Octant) : list (OctantPath * nat) :=
  match o with
  | mkOctant _ _ _ _ _ _ octantChildren count =>
      ([], count) ::
      (fix slots (index : nat) (ch : list (option Octant)) {struct ch} :=
         match ch with
         | [] => []
         | slot :: ch' =>
             match slot with
             | Some c => (λ pc, (index :: pc.1, pc.2)) <$> octantCounts c
             | None => []
             end ++ slots (S index) ch'
         end) 0 octantChildren
  end.

Section Placement.
Context `{BoundingBoxOps} `{OctreePolicy}.

(** The contract of [FitBoundingBox] for an object with bounds [box] listed
    at position [p] below [o]: every octant above the one that lists it
    said the object may descend and had levels left, the way down follows
    [ChildIndex] on the center of the box, and the octant that lists it
    said the object must stay, or is of the last level. *)
Inductive placedBy (n : NodePtr) (box : BoundingBox) : Octant → OctantPath → Prop :=
| placedBy_here o :
    FitBoundingBox o box (Size box) = true ∨ (level o ≤ 1)%Z →
    n ∈ nodes o →
    placedBy n box o []
| placedBy_below o c p :
    FitBoundingBox o box (Size box) = false →
    (1 < level o)%Z →
    child o (ChildIndex o (Center box)) = Some c →
    placedBy n box c p →
    placedBy n box o (ChildIndex o (Center box) :: p).

(** Every tracked object honours the contract at the octant recorded on
    it. *)
Definition contractHolds (s : Scene) : Prop :=
  ∀ n p, octant (objects s n) = Some p →
         placedBy n (WorldBoundingBox (objects s n)) (root (octree s)) p.
End Placement.

(** ** A concrete engine and scene

    Single-precision arithmetic for the box operations, the usual loose
    octree policy (culling box grown by the half size, children halving the
    bounds, an object stays when it is at least half the octant or does not
    fit the child's culling box) and a small scene: the bounds
    (0,0,0)-(100,100,100) with 4 levels. *)
Module Demo.
Definition f32 (m e : Z) : float := binary_normalize 24 128 m e false.
Definition fadd : float → float → float := SFadd 24 128.
Definition fsub : float → float → float := SFsub 24 128.
Definition fmul : float → float → float := SFmul 24 128.
Definition half : float := f32 1 (-1).

Definition vadd (a b : Vector3) : Vector3 :=
  mkVector3 (fadd (x a) (x b)) (fadd (y a) (y b)) (fadd (z a) (z b)).
Definition vsub (a b : Vector3) : Vector3 :=
  mkVector3 (fsub (x a) (x b)) (fsub (y a) (y b)) (fsub (z a) (z b)).
Definition vscale (a : Vector3) (k : float) : Vector3 :=
  mkVector3 (fmul (x a) k) (fmul (y a) k) (fmul (z a) k).

(** [a <= b] on floats. *)
Definition fle (a b : float) : bool := SFleb a b.

Definition boxInside (outer inner : BoundingBox) : Intersection :=
  if flt (x (bmax inner)) (x (bmin outer)) || flt (x (bmax outer)) (x (bmin inner))
     || flt (y (bmax inner)) (y (bmin outer)) || flt (y (bmax outer)) (y (bmin inner))
     || flt (z (bmax inner)) (z (bmin outer)) || flt (z (bmax outer)) (z (bmin inner))
  then OUTSIDE
  else if flt (x (bmin inner)) (x (bmin outer)) || flt (x (bmax outer)) (x (bmax inner))
     || flt (y (bmin inner)) (y (bmin outer)) || flt (y (bmax outer)) (y (bmax inner))
     || flt (z (bmin inner)) (z (bmin outer)) || flt (z (bmax outer)) (z (bmax inner))
  then INTERSECT
  else INSIDE.

Global Instance box_volume : Volume BoundingBox :=
  {| IsInside := boxInside; IsInsideFast := boxInside |}.

Global Instance flags : NodeFlagDefs := {| NF_ENABLED := 1 |}.

Global Instance box_ops : BoundingBoxOps :=
  {| Center := λ b, vscale (vadd (bmin b) (bmax b)) half;
     HalfSize := λ b, vscale (vsub (bmax b) (bmin b)) half;
     Size := λ b, vsub (bmax b) (bmin b);
     BoxVolume := box_volume |}.

Definition childBox (b : BoundingBox) (index : nat) : BoundingBox :=
  let c := Center b in
  let lo := bmin b in
  let hi := bmax b in
  mkBoundingBox
    (mkVector3 (if Nat.testbit index 0 then x c else x lo)
               (if Nat.testbit index 1 then y c else y lo)
               (if Nat.testbit index 2 then z c else z lo))
    (mkVector3 (if Nat.testbit index 0 then x hi else x c)
               (if Nat.testbit index 1 then y hi else y c)
               (if Nat.testbit index 2 then z hi else z c)).

Definition mustStay (bounds : BoundingBox) (halfSize : Vector3) (level : Z)
    (box : BoundingBox) (boxSize : Vector3) : bool :=
  fle (x halfSize) (x boxSize) || fle (y halfSize) (y boxSize)
  || fle (z halfSize) (z boxSize)
  || negb (bool_decide
             (boxInside (mkBoundingBox (vsub (bmin bounds) (vscale halfSize half))
                                       (vadd (bmax bounds) (vscale halfSize half)))
                        box = INSIDE)).

Global Instance policy : OctreePolicy :=
  {| LooseBox := λ b, mkBoundingBox (vsub (bmin b) (HalfSize b))
                                    (vadd (bmax b) (HalfSize b));
     ChildBox := childBox;
     MustStay := mustStay;
     ClampLevels := λ n, Z.max 1 (Z.min n 256) |}.

(** A ray along one axis, hitting a box when it starts before its far
    face; an object reports one hit, at the near x face of its box. *)
Record AxisRay : Type := mkAxisRay { origin : Vector3 }.

Global Instance ray_ops : RayOps AxisRay :=
  {| HitsBox := λ r b maxDistance,
       fle (x (origin r)) (x (bmax b))
       && fle (fsub (x (bmin b)) (x (origin r))) maxDistance;
     OnRaycast := λ n obj r maxDistance,
       let d := fsub (x (bmin (WorldBoundingBox obj))) (x (origin r)) in
       if fle (f32 0 0) d && fle d maxDistance
       then [mkRaycastResult (bmin (WorldBoundingBox obj))
                             (mkVector3 (f32 (-1) 0) (f32 0 0) (f32 0 0))
                             d n 0]
       else [] |}.

Definition cube (lo hi : Z) : BoundingBox :=
  mkBoundingBox (mkVector3 (f32 lo 0) (f32 lo 0) (f32 lo 0))
                (mkVector3 (f32 hi 0) (f32 hi 0) (f32 hi 0)).

(** Objects 1, 2 and 3; every other address holds an untracked object. *)
Definition heap0 : Heap :=
  λ n, match n with
       | 1 => mkOctreeNode 1 (cube 10 20) None
       | 2 => mkOctreeNode 1 (cube 60 70) None
       | 3 => mkOctreeNode 2 (cube 0 100) None
       | _ => mkOctreeNode 0 (cube 0 0) None
       end.

Definition scene0 : Scene := mkScene (newOctree (cube 0 100) 4) heap0.
Definition scene1 : Scene := InsertNode 1 scene0.
Definition scene2 : Scene := Update (QueueUpdate 3 (QueueUpdate 2 scene1)).

(** Object 1 grows inside the culling box of its octant; the octree is
    told, and drains its queue. *)
Definition scene3 : Scene := SetWorldBoundingBox 1 (cube 7 31) scene2.
Definition scene4 : Scene := Update (QueueUpdate 1 scene3).

(** A new octree configured with no level at all. *)
Definition scene5 : Scene := mkScene (newOctree (cube 0 100) 0) heap0.

(** An octant of level 1 with center (1,1,1), and a ray along x. *)
Definition octant0 : Octant :=
  mkOctant (cube (-1) 3) (cube 0 2)
           (mkVector3 (f32 1 0) (f32 1 0) (f32 1 0))
           (mkVector3 (f32 1 0) (f32 1 0) (f32 1 0))
           1 [] (replicate NUM_OCTANTS None) 0.

Definition ray0 : AxisRay :=
  mkAxisRay (mkVector3 (f32 (-5) 0) (f32 15 0) (f32 15 0)).
End Demo.

(** ** Decidable checks on a hierarchy *)

Section Checks.
Context {T : Type} `{Volume T}.

(** The culling box of an octant answers for the objects below it: when
    the octant is OUTSIDE the volume so is every object below it by the
    approximate test, and when it is INSIDE none is. *)
Definition cullingAgrees (heap : Heap) (volume : T) (o : Octant) : bool :=
  forallb
    (λ n,
       match IsInside volume (cullingBox o) with
       | OUTSIDE =>
           bool_decide (IsInsideFast volume (WorldBoundingBox (heap n)) = OUTSIDE)
       | INSIDE =>
           negb (bool_decide (IsInsideFast volume (WorldBoundingBox (heap n)) = OUTSIDE))
       | INTERSECT => true
       end)
    (placed o).*1.

(** The octant is not INSIDE the volume. *)
Definition notInside (volume : T) (o : Octant) : bool :=
  negb (bool_decide (IsInside volume (cullingBox o) = INSIDE)).
End Checks.

(** * Intrusive reference counting ([Base/SharedPtr.h])

    [RefCounted] objects live in memory by address; a [SharedPtr] is an
    object of its own, holding one pointer.  Both are kept in a store, so
    that two references to the same [SharedPtr] (as in [p = p]) are the same
    cell.  An operation ends in a fault when an [assert] of the header fails
    or when it touches an object that has been deleted.

    [Module SharedPtr] has the operations on [SharedPtr]s that are variables
    of their own, whose memory no [delete] of the header frees.
    [Module Members] has them on [SharedPtr]s anywhere, also those that are
    members of a [RefCounted] object and whose memory goes with it. *)
Module SharedPtr.
(** The address of a [RefCounted] object. *)
Definition Address : Type := nat.

(** A [T*] is an [option Address]: [None] is the null pointer. *)

Inductive fault : Type :=
| assertion_failed
| deleted_object.

Inductive outcome (A : Type) : Type :=
| Done (a : A)
| Fault (f : fault).
Arguments Done {A} a.
Arguments Fault {A} f.

(** Sequencing: a fault ends the operation. *)
Global Instance outcome_bind : MBind outcome :=
  λ A B k m, match m with
             | Done a => k a
             | Fault f => Fault f
             end.

(** [refCount] of the live [RefCounted] objects ([None]: no object at the
    address, or a deleted one) and [ptr] of the [SharedPtr] objects, by
    their number. *)
Record Store : Type := mkStore {
  refCount : Address → option Z;
  ptr : list (option Address)
}.

(** [unsigned refCount]: 32 bits. *)
Definition UNSIGNED_BITS : Z := 32.
Definition wrap (v : Z) : Z := v mod 2 ^ UNSIGNED_BITS.

Definition setRefCount (σ : Store) (a : Address) (c : option Z) : Store :=
  mkStore (λ b, if decide (b = a) then c else refCount σ b) (ptr σ).

Definition setPtr (σ : Store) (this : nat) (p : option Address) : Store :=
  mkStore (refCount σ) (<[this := p]> (ptr σ)).

(** [RefCounted() : refCount(0)]: a new object at a free address. *)
Definition newRefCounted (a : Address) (σ : Store) : Store :=
  setRefCount σ a (Some 0%Z).

(** [void AddRef() { ++refCount; }] *)
Definition AddRef (a : Address) (σ : Store) : outcome Store :=
  match refCount σ a with
  | Some c => Done (setRefCount σ a (Some (wrap (c + 1))))
  | None => Fault deleted_object
  end.

(** [void ReleaseRef()]
    {[ assert(refCount > 0);
       --refCount;
       if (!refCount)
           delete this; ]}
    [delete this] runs [~RefCounted()], whose [assert(refCount == 0)]
    holds there, and frees the object: no count is left at the address.
    The destructor is not virtual and [this] is a [RefCounted*], so
    nothing of a class derived from [RefCounted] is destroyed: the
    [SharedPtr] members of such an object are not reset, and the memory
    they are in is freed with the object (see [Members.accessible]). *)
Definition ReleaseRef (a : Address) (σ : Store) : outcome Store :=
  match refCount σ a with
  | Some c =>
      if (0 <? c)%Z
      then let c := wrap (c - 1) in
           if (c =? 0)%Z
           then Done (setRefCount σ a None)
           else Done (setRefCount σ a (Some c))
      else Fault assertion_failed
  | None => Fault deleted_object
  end.

(** [unsigned RefCounted::Refs() const { return refCount; }] *)
Definition ObjectRefs (a : Address) (σ : Store) : outcome Z :=
  match refCount σ a with
  | Some c => Done c
  | None => Fault deleted_object
  end.

(** The [ptr] member of the [SharedPtr] number [this]. *)
Definition getPtr (this : nat) (σ : Store) : outcome (option Address) :=
  match ptr σ !! this with
  | Some p => Done p
  | None => Fault deleted_object
  end.

(** [SharedPtr() : ptr(0)]: a new [SharedPtr], with its number. *)
Definition construct (σ : Store) : nat * Store :=
  (length (ptr σ), mkStore (refCount σ) (ptr σ ++ [None])).

(** [void Reset()]
    {[ if (ptr) { ptr->ReleaseRef(); ptr = 0; } ]} *)
Definition Reset (this : nat) (σ : Store) : outcome Store :=
  p ← getPtr this σ;
  match p with
  | Some a => σ ← ReleaseRef a σ; Done (setPtr σ this None)
  | None => Done σ
  end.

(** [SharedPtr<T>& operator = (T* rhs)]
    {[ Reset(); ptr = rhs; if (ptr) ptr->AddRef(); ]} *)
Definition assign_pointer (this : nat) (rhs : option Address) (σ : Store)
    : outcome Store :=
  σ ← Reset this σ;
  let σ := setPtr σ this rhs in
  match rhs with
  | Some a => AddRef a σ
  | None => Done σ
  end.

(** [SharedPtr<T>& operator = (const SharedPtr<T>& rhs)]
    {[ Reset(); ptr = rhs.ptr; if (ptr) ptr->AddRef(); ]}
    [rhs] is a reference: [rhs.ptr] is read after the [Reset()]. *)
Definition assign (this rhs : nat) (σ : Store) : outcome Store :=
  σ ← Reset this σ;
  p ← getPtr rhs σ;
  let σ := setPtr σ this p in
  match p with
  | Some a => AddRef a σ
  | None => Done σ
  end.

(** [SharedPtr(T* rhs) : ptr(0) { *this = rhs; }] *)
Definition construct_pointer (rhs : option Address) (σ : Store) : outcome (nat * Store) :=
  let '(this, σ) := construct σ in
  σ ← assign_pointer this rhs σ; Done (this, σ).

(** [SharedPtr(const SharedPtr<T>& rhs) : ptr(0) { *this = rhs; }] *)
Definition construct_copy (rhs : nat) (σ : Store) : outcome (nat * Store) :=
  let '(this, σ) := construct σ in
  σ ← assign this rhs σ; Done (this, σ).

(** [~SharedPtr() { Reset(); }] *)
Definition destruct (this : nat) (σ : Store) : outcome Store := Reset this σ.

(** [template <class U> void StaticCast(const SharedPtr<U>& rhs)]
    {[ *this = static_cast<T*>(rhs.ptr); ]}
    The argument [rhs.ptr] is read before the assignment runs. *)
Definition StaticCast (this rhs : nat) (σ : Store) : outcome Store :=
  p ← getPtr rhs σ;
  assign_pointer this p σ.

(** [template <class U> void DynamicCast(const SharedPtr<U>& rhs)]
    {[ Reset();
       T* rhsObject = dynamic_cast<T*>(rhs.ptr);
       if (rhsObject)
           *this = rhsObject; ]}
    [isT a] tells whether the object at [a] is a [T]. *)
Definition DynamicCast (isT : Address → bool) (this rhs : nat) (σ : Store)
    : outcome Store :=
  σ ← Reset this σ;
  p ← getPtr rhs σ;
  let rhsObject := match p with
                   | Some a => if isT a then Some a else None
                   | None => None
                   end in
  match rhsObject with
  | Some _ => assign_pointer this rhsObject σ
  | None => Done σ
  end.

(** [bool operator == (const SharedPtr<T>& rhs) const { return ptr == rhs.ptr; }] *)
Definition eqb (this rhs : nat) (σ : Store) : outcome bool :=
  p ← getPtr this σ; q ← getPtr rhs σ; Done (bool_decide (p = q)).

(** [T* Get() const { return ptr; }] *)
Definition Get (this : nat) (σ : Store) : outcome (option Address) := getPtr this σ.

(** [unsigned Refs() const { return ptr ? ptr->Refs() : 0; }] *)
Definition Refs (this : nat) (σ : Store) : outcome Z :=
  p ← getPtr this σ;
  match p with
  | Some a => ObjectRefs a σ
  | None => Done 0%Z
  end.

(** [T* operator -> () const { assert(ptr); return ptr; }] *)
Definition arrow (this : nat) (σ : Store) : outcome Address :=
  p ← getPtr this σ;
  match p with
  | Some a => Done a
  | None => Fault assertion_failed
  end.

(** [bool IsNull() const { return ptr == 0; }] *)
Definition IsNull (this : nat) (σ : Store) : outcome bool :=
  p ← getPtr this σ; Done (bool_decide (p = None)).

(** The number of [SharedPtr]s that hold the address. *)
Definition holders (a : Address) (l : list (option Address)) : nat :=
  length (filter (λ p, p = Some a) l).

(** Every object is counted right: the count of a live object is the
    number of [SharedPtr]s that hold it, no [SharedPtr] holds a deleted
    object, and there are fewer [SharedPtr]s than an [unsigned] counts. *)
Record counted (σ : Store) : Prop := mk_counted {
  counted_refs : ∀ a c, refCount σ a = Some c → c = Z.of_nat (holders a (ptr σ));
  counted_live : ∀ this a, ptr σ !! this = Some (Some a) → is_Some (refCount σ a);
  counted_room : (Z.of_nat (length (ptr σ)) < 2 ^ UNSIGNED_BITS)%Z
}.

(** Two [SharedPtr]s on one object, a third that is null. *)
Definition store0 : Store :=
  mkStore (λ a, match a with 5 => Some 2%Z | 6 => Some 1%Z | _ => None end)
          [Some 5; Some 5; None; Some 6].
End SharedPtr.

(** The operations of [SharedPtr] on [SharedPtr]s that may be members of
    [RefCounted] objects: every read and write of [ptr] is a use of the
    memory the [SharedPtr] is in, and a fault once the object it is a member
    of has been deleted. *)
Module Members.
Import SharedPtr.

Section Layout.
(** [inside this] is the [RefCounted] object that [SharedPtr] number
    [this] is a member of; [None] for a [SharedPtr] that is a variable
    of its own. *)
Variable inside : nat → option Address.

(** The memory of the [SharedPtr] has not been freed. *)
Definition accessible (this : nat) (σ : Store) : bool :=
  match inside this with
  | Some a => match refCount σ a with Some _ => true | None => false end
  | None => true
  end.

(** A read of [ptr]. *)
Definition readPtr (this : nat) (σ : Store) : outcome (option Address) :=
  if accessible this σ then getPtr this σ else Fault deleted_object.

(** A write of [ptr]. *)
Definition writePtr (this : nat) (p : option Address) (σ : Store)
    : outcome Store :=
  if accessible this σ then Done (setPtr σ this p) else Fault deleted_object.

(** [void Reset()]
    {[ if (ptr) { ptr->ReleaseRef(); ptr = 0; } ]} *)
Definition Reset (this : nat) (σ : Store) : outcome Store :=
  p ← readPtr this σ;
  match p with
  | Some a => σ ← ReleaseRef a σ; writePtr this None σ
  | None => Done σ
  end.

(** [SharedPtr<T>& operator = (T* rhs)]
    {[ Reset(); ptr = rhs; if (ptr) ptr->AddRef(); ]} *)
Definition assign_pointer (this : nat) (rhs : option Address) (σ : Store)
    : outcome Store :=
  σ ← Reset this σ;
  σ ← writePtr this rhs σ;
  match rhs with
  | Some a => AddRef a σ
  | None => Done σ
  end.

(** [SharedPtr<T>& operator = (const SharedPtr<T>& rhs)]
    {[ Reset(); ptr = rhs.ptr; if (ptr) ptr->AddRef(); ]}
    [rhs] is a reference: [rhs.ptr] is read after the [Reset()]. *)
Definition assign (this rhs : nat) (σ : Store) : outcome Store :=
  σ ← Reset this σ;
  p ← readPtr rhs σ;
  σ ← writePtr this p σ;
  match p with
  | Some a => AddRef a σ
  | None => Done σ
  end.

(** [SharedPtr(const SharedPtr<T>& rhs) : ptr(0) { *this = rhs; }] *)
Definition construct_copy (rhs : nat) (σ : Store) : outcome (nat * Store) :=
  let '(this, σ) := construct σ in
  σ ← assign this rhs σ; Done (this, σ).

(** [~SharedPtr() { Reset(); }] *)
Definition destruct (this : nat) (σ : Store) : outcome Store := Reset this σ.

(** [template <class U> void StaticCast(const SharedPtr<U>& rhs)]
    {[ *this = static_cast<T*>(rhs.ptr); ]}
    The argument [rhs.ptr] is read before the assignment runs. *)
Definition StaticCast (this rhs : nat) (σ : Store) : outcome Store :=
  p ← readPtr rhs σ;
  assign_pointer this p σ.

(** [template <class U> void DynamicCast(const SharedPtr<U>& rhs)]
    {[ Reset();
       T* rhsObject = dynamic_cast<T*>(rhs.ptr);
       if (rhsObject)
           *this = rhsObject; ]}
    [isT a] tells whether the object at [a] is a [T]. *)
Definition DynamicCast (isT : Address → bool) (this rhs : nat) (σ : Store)
    : outcome Store :=
  σ ← Reset this σ;
  p ← readPtr rhs σ;
  let rhsObject := match p with
                   | Some a => if isT a then Some a else None
                   | None => None
                   end in
  match rhsObject with
  | Some _ => assign_pointer this rhsObject σ
  | None => Done σ
  end.

(** [SharedPtr] number [x] is no member of the object that [this] holds
    as its only holder: its memory is still there when [this] has been
    reset. *)
Definition outlives (this x : nat) (σ : Store) : Prop :=
  ∀ a, ptr σ !! this = Some (Some a) → holders a (ptr σ) = 1 →
       inside x ≠ Some a.
End Layout.

(** A list: the object at 7 has a member [SharedPtr], number 1, that
    holds the object at 8; [SharedPtr] number 0, a variable, is the only
    holder of the object at 7. *)
Definition layout1 : nat → option Address :=
  λ this, match this with 1 => Some 7 | _ => None end.
Definition store1 : Store :=
  mkStore (λ a, match a with 7 => Some 1%Z | 8 => Some 1%Z | _ => None end)
          [Some 7; Some 8; None].
End Members.

(** * Strings ([Base/String.cpp])

    A [char] is its bit pattern, a number from 0 to 255; a [size_t] that only
    counts up to the length of a string is a natural number.  The contents of
    a character buffer are the list of its bytes, a position in it is an
    index, and a read outside the buffer has no result. *)
Module Str.
(** The conversion of an [int] or [unsigned] to a [char]: the low 8 bits. *)
Definition to_char (v : Z) : Z := v mod 256.

(** [(unsigned char)c >= 0x80 && (unsigned char)c < 0xc0]: a UTF-8
    continuation byte. *)
Definition isContinuation (c : Z) : bool := (0x80 <=? c)%Z && (c <? 0xc0)%Z.

(** [void String::EncodeUTF8(char*& dest, unsigned unicodeChar)]: the bytes
    stored at [dest[0]], [dest[1]], ...; [dest] advances by their number. *)
Definition EncodeUTF8 (unicodeChar : Z) : list Z :=
  if (unicodeChar <? 0x80)%Z then
    [to_char unicodeChar]
  else if (unicodeChar <? 0x800)%Z then
    [to_char (Z.lor 0xc0 (Z.land (Z.shiftr unicodeChar 6) 0x1f));
     to_char (Z.lor 0x80 (Z.land unicodeChar 0x3f))]
  else if (unicodeChar <? 0x10000)%Z then
    [to_char (Z.lor 0xe0 (Z.land (Z.shiftr unicodeChar 12) 0xf));
     to_char (Z.lor 0x80 (Z.land (Z.shiftr unicodeChar 6) 0x3f));
     to_char (Z.lor 0x80 (Z.land unicodeChar 0x3f))]
  else if (unicodeChar <? 0x200000)%Z then
    [to_char (Z.lor 0xf0 (Z.land (Z.shiftr unicodeChar 18) 0x7));
     to_char (Z.lor 0x80 (Z.land (Z.shiftr unicodeChar 12) 0x3f));
     to_char (Z.lor 0x80 (Z.land (Z.shiftr unicodeChar 6) 0x3f));
     to_char (Z.lor 0x80 (Z.land unicodeChar 0x3f))]
  else if (unicodeChar <? 0x4000000)%Z then
    [to_char (Z.lor 0xf8 (Z.land (Z.shiftr unicodeChar 24) 0x3));
     to_char (Z.lor 0x80 (Z.land (Z.shiftr unicodeChar 18) 0x3f));
     to_char (Z.lor 0x80 (Z.land (Z.shiftr unicodeChar 12) 0x3f));
     to_char (Z.lor 0x80 (Z.land (Z.shiftr unicodeChar 6) 0x3f));
     to_char (Z.lor 0x80 (Z.land unicodeChar 0x3f))]
  else
    [to_char (Z.lor 0xfc (Z.land (Z.shiftr unicodeChar 30) 0x1));
     to_char (Z.lor 0x80 (Z.land (Z.shiftr unicodeChar 24) 0x3f));
     to_char (Z.lor 0x80 (Z.land (Z.shiftr unicodeChar 18) 0x3f));
     to_char (Z.lor 0x80 (Z.land (Z.shiftr unicodeChar 12) 0x3f));
     to_char (Z.lor 0x80 (Z.land (Z.shiftr unicodeChar 6) 0x3f));
     to_char (Z.lor 0x80 (Z.land unicodeChar 0x3f))].

(** The character ['?'] returned for malformed input. *)
Definition QUESTION_MARK : Z := 63.

(** [#define GET_NEXT_CONTINUATION_BYTE(ptr) *ptr;
     if ((unsigned char)*ptr < 0x80 || (unsigned char)*ptr >= 0xc0) return '?';
     else ++ptr;]
    followed by the rest [k] of the function, which gets the byte and the
    advanced pointer. *)
Definition GET_NEXT_CONTINUATION_BYTE (mem : list Z) (ptr : nat)
    (k : Z → nat → option (Z * nat)) : option (Z * nat) :=
  match mem !! ptr with
  | Some c =>
      if (c <? 0x80)%Z || (0xc0 <=? c)%Z
      then Some (QUESTION_MARK, ptr)
      else k c (S ptr)
  | None => None
  end.

(** [while ((unsigned char)*src >= 0x80 && (unsigned char)*src < 0xc0) ++src;]
    on the bytes from [src] on: the number of steps. *)
Fixpoint skipContinuation (rest : list Z) : option nat :=
  match rest with
  | c :: rest' =>
      if isContinuation c then S <$> skipContinuation rest' else Some 0
  | [] => None
  end.

(** [unsigned String::DecodeUTF8(const char*& src)] for a pointer into
    [mem] that is not null: the character and the advanced pointer. *)
Definition DecodeUTF8 (mem : list Z) (src : nat) : option (Z * nat) :=
  match mem !! src with
  | None => None
  | Some char1 =>
      let src := S src in
      (* Check if we are in the middle of a UTF8 character *)
      if isContinuation char1 then
        n ← skipContinuation (drop src mem); Some (QUESTION_MARK, src + n)
      else if (char1 <? 0x80)%Z then
        Some (char1, src)
      else if (char1 <? 0xe0)%Z then
        GET_NEXT_CONTINUATION_BYTE mem src (λ char2 src,
        Some (Z.lor (Z.land char2 0x3f) (Z.shiftl (Z.land char1 0x1f) 6), src))
      else if (char1 <? 0xf0)%Z then
        GET_NEXT_CONTINUATION_BYTE mem src (λ char2 src,
        GET_NEXT_CONTINUATION_BYTE mem src (λ char3 src,
        Some (Z.lor (Z.lor (Z.land char3 0x3f)
                           (Z.shiftl (Z.land char2 0x3f) 6))
                    (Z.shiftl (Z.land char1 0xf) 12), src)))
      else if (char1 <? 0xf8)%Z then
        GET_NEXT_CONTINUATION_BYTE mem src (λ char2 src,
        GET_NEXT_CONTINUATION_BYTE mem src (λ char3 src,
        GET_NEXT_CONTINUATION_BYTE mem src (λ char4 src,
        Some (Z.lor (Z.lor (Z.lor (Z.land char4 0x3f)
                                  (Z.shiftl (Z.land char3 0x3f) 6))
                           (Z.shiftl (Z.land char2 0x3f) 12))
                    (Z.shiftl (Z.land char1 0x7) 18), src))))
      else if (char1 <? 0xfc)%Z then
        GET_NEXT_CONTINUATION_BYTE mem src (λ char2 src,
        GET_NEXT_CONTINUATION_BYTE mem src (λ char3 src,
        GET_NEXT_CONTINUATION_BYTE mem src (λ char4 src,
        GET_NEXT_CONTINUATION_BYTE mem src (λ char5 src,
        Some (Z.lor (Z.lor (Z.lor (Z.lor (Z.land char5 0x3f)
                                         (Z.shiftl (Z.land char4 0x3f) 6))
                                  (Z.shiftl (Z.land char3 0x3f) 12))
                           (Z.shiftl (Z.land char2 0x3f) 18))
                    (Z.shiftl (Z.land char1 0x3) 24), src)))))
      else
        GET_NEXT_CONTINUATION_BYTE mem src (λ char2 src,
        GET_NEXT_CONTINUATION_BYTE mem src (λ char3 src,
        GET_NEXT_CONTINUATION_BYTE mem src (λ char4 src,
        GET_NEXT_CONTINUATION_BYTE mem src (λ char5 src,
        GET_NEXT_CONTINUATION_BYTE mem src (λ char6 src,
        Some (Z.lor (Z.lor (Z.lor (Z.lor (Z.lor (Z.land char6 0x3f)
                                                (Z.shiftl (Z.land char5 0x3f) 6))
                                         (Z.shiftl (Z.land char4 0x3f) 12))
                                  (Z.shiftl (Z.land char3 0x3f) 18))
                           (Z.shiftl (Z.land char2 0x3f) 24))
                    (Z.shiftl (Z.land char1 0x1) 30), src))))))
  end.

(** A decoding result seen from [n] bytes earlier. *)
Definition moved (n : nat) (r : Z * nat) : Z * nat := (r.1, n + r.2).

(** [class String]: [length], [capacity] and the memory [buffer] points to,
    which is the array of [capacity] bytes, or the single byte [endZero]
    while the capacity is zero. *)
Record String : Type := mkString {
  length : nat;
  capacity : nat;
  buffer : list Z
}.

(** A string as the class keeps it: every byte is a byte, the buffer has
    room for the length and the terminator, which is in its place. *)
Record wellFormed (s : String) : Prop := mk_wellFormed {
  wf_bytes : Forall (λ c, (0 ≤ c < 256)%Z) (buffer s);
  wf_room : length s < Datatypes.length (buffer s);
  wf_end : buffer s !! length s = Some 0%Z
}.

(** What a decoding step that starts at [byteOffset] inside the string has
    to deliver: a character of 31 bits at most and a pointer that has
    moved forward and not past the terminator. *)
Definition delivers (s : String) (byteOffset : nat) (r : option (Z * nat)) : Prop :=
  ∃ ch next, r = Some (ch, next)
             ∧ byteOffset < next ≤ length s ∧ (0 ≤ ch < 2 ^ 31)%Z.

(** [unsigned String::NextUTF8Char(size_t& byteOffset) const]
    {[ const char* src = buffer + byteOffset;
       unsigned ret = DecodeUTF8(src);
       byteOffset = src - buffer;
       return ret; ]} *)
Definition NextUTF8Char (s : String) (byteOffset : nat) : option (Z * nat) :=
  DecodeUTF8 (buffer s) byteOffset.

(** The loop of [LengthUTF8]
    {[ while (src < end) { DecodeUTF8(src); ++ret; } ]}
    with a bound on the number of rounds; [None] when the bound is used up
    or a read leaves the buffer. *)
Fixpoint LengthUTF8_loop (rounds : nat) (mem : list Z) (src end_ ret : nat)
    : option nat :=
  if src <? end_ then
    match rounds with
    | S rounds' =>
        match DecodeUTF8 mem src with
        | Some (_, src) => LengthUTF8_loop rounds' mem src end_ (S ret)
        | None => None
        end
    | 0 => None
    end
  else Some ret.

(** [size_t String::LengthUTF8() const]; every round moves [src] forward,
    so [length] rounds are enough. *)
Definition LengthUTF8 (s : String) : option nat :=
  LengthUTF8_loop (length s) (buffer s) 0 (length s) 0.

(** The loop of [ByteOffsetUTF8]
    {[ while (utfPos < index && byteOffset < length)
       { NextUTF8Char(byteOffset); ++utfPos; } ]}
    by the number [index - utfPos] of rounds left. *)
Fixpoint ByteOffsetUTF8_loop (left : nat) (s : String) (byteOffset : nat)
    : option nat :=
  match left with
  | S left' =>
      if byteOffset <? length s then
        match NextUTF8Char s byteOffset with
        | Some (_, byteOffset) => ByteOffsetUTF8_loop left' s byteOffset
        | None => None
        end
      else Some byteOffset
  | 0 => Some byteOffset
  end.

(** [size_t String::ByteOffsetUTF8(size_t index) const] *)
Definition ByteOffsetUTF8 (s : String) (index : nat) : option nat :=
  ByteOffsetUTF8_loop index s 0.

(** [unsigned String::AtUTF8(size_t index) const]
    {[ size_t byteOffset = ByteOffsetUTF8(index);
       return NextUTF8Char(byteOffset); ]} *)
Definition AtUTF8 (s : String) (index : nat) : option Z :=
  byteOffset ← ByteOffsetUTF8 s index;
  fst <$> NextUTF8Char s byteOffset.

(** The bytes of the encodings of a sequence of characters, in a row. *)
Definition encodeAll (chars : list Z) : list Z := flat_map EncodeUTF8 chars.

(** A string that holds the given bytes, with the least capacity. *)
Definition ofBytes (bytes : list Z) : String :=
  mkString (Datatypes.length bytes) (S (Datatypes.length bytes)) (bytes ++ [0%Z]).

(** The conversion to a 16-bit [wchar_t] or [unsigned short] (the
    [WIN32] build, in which [EncodeUTF16] and [DecodeUTF16] exist). *)
Definition to_wchar (v : Z) : Z := v mod 65536.

(** [void String::EncodeUTF16(wchar_t*& dest, unsigned unicodeChar)]
    {[ if (unicodeChar < 0x10000)
           *dest++ = (wchar_t)unicodeChar;
       else
       {
           unicodeChar -= 0x10000;
           *dest++ = 0xd800 | ((unicodeChar >> 10) & 0x3ff);
           *dest++ = 0xdc00 | (unicodeChar & 0x3ff);
       } ]}
    The words stored; [dest] advances by their number. *)
Definition EncodeUTF16 (unicodeChar : Z) : list Z :=
  if (unicodeChar <? 0x10000)%Z then
    [to_wchar unicodeChar]
  else
    let unicodeChar := ((unicodeChar - 0x10000) mod 2 ^ 32)%Z in
    [to_wchar (Z.lor 0xd800 (Z.land (Z.shiftr unicodeChar 10) 0x3ff));
     to_wchar (Z.lor 0xdc00 (Z.land unicodeChar 0x3ff))].

(** [while ( *src >= 0xdc00 && *src < 0xe000) ++src;] on the words from
    [src] on: the number of steps. *)
Fixpoint skipLowSurrogates (rest : list Z) : option nat :=
  match rest with
  | w :: rest' =>
      if (0xdc00 <=? w)%Z && (w <? 0xe000)%Z
      then S <$> skipLowSurrogates rest' else Some 0
  | [] => None
  end.

(** [unsigned String::DecodeUTF16(const wchar_t*& src)] for a pointer into
    [mem] that is not null
    {[ unsigned short word1 = *src;
       // Check if we are at a low surrogate
       word1 = *src++;
       if (word1 >= 0xdc00 && word1 < 0xe000)
       {
           while ( *src >= 0xdc00 && *src < 0xe000)
               ++src;
           return '?';
       }
       if (word1 < 0xd800 || word1 >= 0xe00)
           return word1;
       else
       {
           unsigned short word2 = *src++;
           if (word2 < 0xdc00 || word2 >= 0xe000)
           {
               --src;
               return '?';
           }
           else
               return ((word1 & 0x3ff) << 10) | (word2 & 0x3ff) | 0x10000;
       } ]} *)
Definition DecodeUTF16 (mem : list Z) (src : nat) : option (Z * nat) :=
  word1 ← mem !! src;
  let word1 := to_wchar word1 in
  let src := S src in
  if (0xdc00 <=? word1)%Z && (word1 <? 0xe000)%Z then
    n ← skipLowSurrogates (drop src mem); Some (QUESTION_MARK, src + n)
  else if (word1 <? 0xd800)%Z || (0xe00 <=? word1)%Z then
    Some (word1, src)
  else
    word2 ← mem !! src;
    let word2 := to_wchar word2 in
    let src := S src in
    if (word2 <? 0xdc00)%Z || (0xe000 <=? word2)%Z then
      Some (QUESTION_MARK, src - 1)
    else
      Some (Z.lor (Z.lor (Z.shiftl (Z.land word1 0x3ff) 10) (Z.land word2 0x3ff))
                  0x10000, src).

(** The loops of [Split] that run over separators, or up to one
    {[ while (pos < length) { if (stop(str[pos])) break; ++pos; } ]}
    by the number [length - pos] of characters left. *)
Fixpoint scan (left : nat) (str : list Z) (stop : Z → bool) (pos : nat) : nat :=
  match left with
  | S left' =>
      match str !! pos with
      | Some c => if stop c then pos else scan left' str stop (S pos)
      | None => pos
      end
  | 0 => pos
  end.

(** The main loop of [Split]
    {[ while (pos < length)
       {
           size_t start = pos;
           while (start < length) { if (str[start] == separator) break; ++start; }
           if (start == length)
           {
               ret.Push(String(&str[pos]));
               break;
           }
           size_t end = start;
           while (end < length) { if (str[end] != separator) break; ++end; }
           ret.Push(String(&str[pos], start - pos));
           pos = end;
       } ]}
    with a bound on the number of rounds.  [str] holds the characters up
    to the terminator, so [String(&str[pos])] is what follows [pos] and
    [String(&str[pos], n)] are its first [n] characters. *)
Fixpoint Split_loop (rounds : nat) (str : list Z) (separator : Z) (pos : nat)
    (ret : list (list Z)) : option (list (list Z)) :=
  let length := Datatypes.length str in
  if pos <? length then
    match rounds with
    | S rounds' =>
        let start := scan (length - pos) str (λ c, (c =? separator)%Z) pos in
        if start =? length then Some (ret ++ [drop pos str])
        else
          let end_ := scan (length - start) str (λ c, negb (c =? separator)%Z) start in
          Split_loop rounds' str separator end_
                     (ret ++ [take (start - pos) (drop pos str)])
    | 0 => None
    end
  else Some ret.

(** [Vector<String> String::Split(const char* str, char separator)]
    {[ Vector<String> ret;
       size_t pos = 0;
       size_t length = CStringLength(str);
       while (pos < length) { if (str[pos] != separator) break; ++pos; }
       ... the main loop ...
       return ret; ]}
    Every round of the main loop moves [pos] forward, so [length] rounds
    are enough. *)
Definition Split (str : list Z) (separator : Z) : option (list (list Z)) :=
  let length := Datatypes.length str in
  let pos := scan length str (λ c, negb (c =? separator)%Z) 0 in
  Split_loop length str separator pos [].

(** Fields with the separators that follow each, after some leading
    separators: the text they make up. *)
Definition laidOut (separator : Z) (leading : nat) (fields : list (list Z * nat))
    : list Z :=
  replicate leading separator
  ++ flat_map (λ f, f.1 ++ replicate f.2 separator) fields.

(** The conditions on the fields of a layout: no field is empty or holds
    the separator, and every field but the last is followed by one
    separator at least. *)
Definition fieldsOK (separator : Z) (fields : list (list Z * nat)) : Prop :=
  Forall (λ f, f.1 ≠ [] ∧ separator ∉ f.1) fields
  ∧ ∀ i f, fields !! i = Some f → S i < Datatypes.length fields → 0 < f.2.

(** [class WString]: [length] and the array [buffer] points to, [None]
    for a null pointer. *)
Record WString : Type := mkWString {
  wlength : nat;
  wbuffer : option (list Z)
}.

Section WideStrings.
(** What a new array of [n] elements holds before it is written. *)
Variable newArray : nat → list Z.

(** [void WString::Resize(size_t newLength)]
    {[ if (!newLength)
       {
           delete[] buffer;
           buffer = 0;
           length = 0;
       }
       else
       {
           wchar_t* newBuffer = new wchar_t[newLength + 1];
           if (buffer)
           {
               size_t copyLength = length < newLength ? length : newLength;
               memcpy(newBuffer, buffer, copyLength * sizeof(wchar_t));
               delete[] buffer;
           }
           newBuffer[newLength] = 0;
           buffer = newBuffer;
           length = newLength;
       } ]} *)
Definition WString_Resize (w : WString) (newLength : nat) : WString :=
  if newLength =? 0 then mkWString 0 None
  else
    let newBuffer := newArray (newLength + 1) in
    let newBuffer :=
      match wbuffer w with
      | Some old =>
          let copyLength := if wlength w <? newLength then wlength w
                            else newLength in
          take copyLength old ++ drop copyLength newBuffer
      | None => newBuffer
      end in
    mkWString newLength (Some (<[newLength := 0%Z]> newBuffer)).

(** The loop of [WString::WString(const String& str)]
    {[ while (byteOffset < str.Length())
           *dest++ = str.NextUTF8Char(byteOffset); ]}
    with a bound on the number of rounds; [dest] is the index into the
    array, and a write outside the array, or through a null pointer,
    has no result. *)
Fixpoint WString_fill (rounds : nat) (str : String) (byteOffset dest : nat)
    (array : option (list Z)) : option (option (list Z)) :=
  if byteOffset <? length str then
    match rounds with
    | S rounds' =>
        '(ch, byteOffset) ← NextUTF8Char str byteOffset;
        match array with
        | Some a =>
            if dest <? Datatypes.length a
            then WString_fill rounds' str byteOffset (S dest) (Some (<[dest := ch]> a))
            else None
        | None => None
        end
    | 0 => None
    end
  else Some array.

(** [WString::WString(const String& str) : length(0), buffer(0)], the
    build that is not [WIN32]
    {[ Resize(str.LengthUTF8());
       size_t byteOffset = 0;
       wchar_t* dest = buffer;
       ... the loop ... ]} *)
Definition WString_of (str : String) : option WString :=
  n ← LengthUTF8 str;
  let w := WString_Resize (mkWString 0 None) n in
  array ← WString_fill (length str) str 0 0 (wbuffer w);
  Some (mkWString (wlength w) array).
End WideStrings.

(** What [String.cpp] takes from outside: the width of [size_t], the
    constant [String::NPOS] and the functions [Turso3D::ToLower] and
    [Turso3D::ToUpper] of [String.h], [tolower] and [strcmp] of the C
    library, and whether a plain [char] is signed. *)
Class StringDefs : Type := {
  SIZE_BITS : Z;
  NPOS : Z;
  ToLower : Z → Z;
  ToUpper : Z → Z;
  tolower : Z → Z;
  strcmp : list Z → list Z → Z;
  CHAR_IS_SIGNED : bool
}.

Section Searching.
Context `{StringDefs}.

(** The value of a [size_t] expression: modulo [2 ^ SIZE_BITS]. *)
Definition size_t (v : Z) : Z := v mod 2 ^ SIZE_BITS.

(** [length] as a [size_t]. *)
Definition Length (s : String) : Z := Z.of_nat (length s).

(** [buffer[i]]; no result outside the buffer. *)
Definition at_ (s : String) (i : Z) : option Z := buffer s !! Z.to_nat i.

(** [c], or [ToLower(c)] when the search is not case sensitive. *)
Definition folded (caseSensitive : bool) (c : Z) : Z :=
  if caseSensitive then c else ToLower c.

(** The loop of [Find(char, ...)]
    {[ for (size_t i = startPos; i < length; ++i)
           if (test(buffer[i])) return i; ]}
    followed by [return NPOS], with a bound on the number of rounds. *)
Fixpoint Find_char_loop (rounds : nat) (s : String) (test : Z → bool) (i : Z)
    : option Z :=
  if (i <? Length s)%Z then
    match rounds with
    | S rounds' =>
        c ← at_ s i;
        if test c then Some i
        else Find_char_loop rounds' s test (size_t (i + 1))
    | 0 => None
    end
  else Some NPOS.

(** [size_t String::Find(char c, size_t startPos, bool caseSensitive) const]
    {[ if (caseSensitive)
           ... if (buffer[i] == c) return i; ...
       else
       {
           c = (char)tolower(c);
           ... if (Turso3D::ToLower(buffer[i]) == c) return i; ...
       }
       return NPOS; ]} *)
Definition Find_char (s : String) (c : Z) (startPos : Z) (caseSensitive : bool)
    : option Z :=
  if caseSensitive then
    Find_char_loop (length s) s (λ b, (b =? c)%Z) startPos
  else
    let c := to_char (tolower c) in
    Find_char_loop (length s) s (λ b, (ToLower b =? c)%Z) startPos.

(** The loop of [FindLast(char, ...)]
    {[ for (size_t i = startPos; i < length; --i)
           if (test(buffer[i])) return i; ]}
    followed by [return NPOS]; [--i] at zero wraps around, which ends
    the loop. *)
Fixpoint FindLast_char_loop (rounds : nat) (s : String) (test : Z → bool) (i : Z)
    : option Z :=
  if (i <? Length s)%Z then
    match rounds with
    | S rounds' =>
        c ← at_ s i;
        if test c then Some i
        else FindLast_char_loop rounds' s test (size_t (i - 1))
    | 0 => None
    end
  else Some NPOS.

(** [size_t String::FindLast(char c, size_t startPos, bool caseSensitive) const]
    {[ if (startPos >= length)
           startPos = length - 1;
       if (caseSensitive) ... if (buffer[i] == c) return i; ...
       else
       {
           c = Turso3D::ToLower(c);
           ... if (Turso3D::ToLower(buffer[i]) == c) return i; ...
       }
       return NPOS; ]} *)
Definition FindLast_char (s : String) (c : Z) (startPos : Z) (caseSensitive : bool)
    : option Z :=
  let startPos := if (Length s <=? startPos)%Z then size_t (Length s - 1)
                  else startPos in
  if caseSensitive then
    FindLast_char_loop (S (length s)) s (λ b, (b =? c)%Z) startPos
  else
    let c := ToLower c in
    FindLast_char_loop (S (length s)) s (λ b, (ToLower b =? c)%Z) startPos.

(** The inner loop of [Find(const String&, ...)]
    {[ for (size_t j = 1; j < str.length; ++j)
       {
           c = buffer[i + j];
           char d = str.buffer[j];
           if (!caseSensitive) { c = ToLower(c); d = ToLower(d); }
           if (skip == NPOS && c == first)
               skip = i + j - 1;
           if (c != d)
           {
               found = false;
               if (skip != NPOS)
                   i = skip;
               break;
           }
       } ]}
    by the number [str.length - j] of rounds left: [found] and [i] at
    its end. *)
Fixpoint Find_inner (left : nat) (s str : String) (caseSensitive : bool)
    (first : Z) (i j skip : Z) : option (bool * Z) :=
  match left with
  | S left' =>
      c ← at_ s (size_t (i + j));
      d ← at_ str j;
      let c := folded caseSensitive c in
      let d := folded caseSensitive d in
      let skip := if (skip =? NPOS)%Z && (c =? first)%Z
                  then size_t (size_t (i + j) - 1) else skip in
      if negb (c =? d)%Z then
        Some (false, if negb (skip =? NPOS)%Z then skip else i)
      else Find_inner left' s str caseSensitive first i (size_t (j + 1)) skip
  | 0 => Some (true, i)
  end.

(** The outer loop of [Find(const String&, ...)]
    {[ for (size_t i = startPos; i <= length - str.length; ++i)
       {
           char c = buffer[i];
           if (!caseSensitive) c = ToLower(c);
           if (c == first)
           {
               size_t skip = NPOS;
               bool found = true;
               ... the inner loop ...
               if (found)
                   return i;
           }
       } ]}
    followed by [return NPOS], with a bound on the number of rounds. *)
Fixpoint Find_outer (rounds : nat) (s str : String) (caseSensitive : bool)
    (first : Z) (i : Z) : option Z :=
  if (i <=? size_t (Length s - Length str))%Z then
    match rounds with
    | S rounds' =>
        c ← at_ s i;
        let c := folded caseSensitive c in
        if (c =? first)%Z then
          '(found, i) ← Find_inner (length str - 1) s str caseSensitive first
                                   i 1 NPOS;
          if found : bool then Some i
          else Find_outer rounds' s str caseSensitive first (size_t (i + 1))
        else Find_outer rounds' s str caseSensitive first (size_t (i + 1))
    | 0 => None
    end
  else Some NPOS.

(** [size_t String::Find(const String& str, size_t startPos, bool caseSensitive) const]
    {[ if (!str.length || str.length > length)
           return NPOS;
       char first = str.buffer[0];
       if (!caseSensitive)
           first = Turso3D::ToLower(first);
       ... the outer loop ...
       return NPOS; ]} *)
Definition Find (s str : String) (startPos : Z) (caseSensitive : bool)
    : option Z :=
  if (Length str =? 0)%Z || (Length s <? Length str)%Z then Some NPOS
  else
    first ← at_ str 0;
    let first := folded caseSensitive first in
    Find_outer (S (length s)) s str caseSensitive first startPos.

(** The inner loop of [FindLast(const String&, ...)]
    {[ for (size_t j = 1; j < str.length; ++j)
       {
           c = buffer[i + j];
           char d = str.buffer[j];
           if (!caseSensitive) { c = ToLower(c); d = ToLower(d); }
           if (c != d) { found = false; break; }
       } ]}
    by the number of rounds left: [found] at its end. *)
Fixpoint FindLast_inner (left : nat) (s str : String) (caseSensitive : bool)
    (i j : Z) : option bool :=
  match left with
  | S left' =>
      c ← at_ s (size_t (i + j));
      d ← at_ str j;
      let c := folded caseSensitive c in
      let d := folded caseSensitive d in
      if negb (c =? d)%Z then Some false
      else FindLast_inner left' s str caseSensitive i (size_t (j + 1))
  | 0 => Some true
  end.

(** The outer loop of [FindLast(const String&, ...)]
    {[ for (size_t i = startPos; i < length; --i)
       {
           char c = buffer[i];
           if (!caseSensitive) c = ToLower(c);
           if (c == first)
           {
               bool found = true;
               ... the inner loop ...
               if (found)
                   return i;
           }
       } ]}
    followed by [return NPOS]. *)
Fixpoint FindLast_outer (rounds : nat) (s str : String) (caseSensitive : bool)
    (first : Z) (i : Z) : option Z :=
  if (i <? Length s)%Z then
    match rounds with
    | S rounds' =>
        c ← at_ s i;
        let c := folded caseSensitive c in
        if (c =? first)%Z then
          found ← FindLast_inner (length str - 1) s str caseSensitive i 1;
          if found : bool then Some i
          else FindLast_outer rounds' s str caseSensitive first (size_t (i - 1))
        else FindLast_outer rounds' s str caseSensitive first (size_t (i - 1))
    | 0 => None
    end
  else Some NPOS.

(** [size_t String::FindLast(const String& str, size_t startPos, bool caseSensitive) const]
    {[ if (!str.length || str.length > length)
           return NPOS;
       if (startPos > length - str.length)
           startPos = length - str.length;
       char first = str.buffer[0];
       if (!caseSensitive)
           first = Turso3D::ToLower(first);
       ... the outer loop ...
       return NPOS; ]} *)
Definition FindLast (s str : String) (startPos : Z) (caseSensitive : bool)
    : option Z :=
  if (Length str =? 0)%Z || (Length s <? Length str)%Z then Some NPOS
  else
    let startPos := if (size_t (Length s - Length str) <? startPos)%Z
                    then size_t (Length s - Length str) else startPos in
    first ← at_ str 0;
    let first := folded caseSensitive first in
    FindLast_outer (S (length s)) s str caseSensitive first startPos.

(** [bool String::StartsWith(const String& str, bool caseSensitive) const]
    {[ return Find(str, 0, caseSensitive) == 0; ]} *)
Definition StartsWith (s str : String) (caseSensitive : bool) : option bool :=
  pos ← Find s str 0 caseSensitive; Some (pos =? 0)%Z.

(** [bool String::EndsWith(const String& str, bool caseSensitive) const]
    {[ size_t pos = FindLast(str, length - 1, caseSensitive);
       return pos != NPOS && pos == length - str.length; ]} *)
Definition EndsWith (s str : String) (caseSensitive : bool) : option bool :=
  pos ← FindLast s str (size_t (Length s - 1)) caseSensitive;
  Some (negb (pos =? NPOS)%Z && (pos =? size_t (Length s - Length str))%Z).

(** The byte at a position inside the buffer. *)
Definition byteAt (s : String) (i : Z) : Z := default 0%Z (at_ s i).

(** The characters of [str] stand in [s] from position [i] on, up to
    the folding of the case. *)
Definition occursAt (s str : String) (caseSensitive : bool) (i : Z) : Prop :=
  (0 ≤ i)%Z ∧ (i + Length str ≤ Length s)%Z ∧
  ∀ j, (0 ≤ j < Length str)%Z →
       folded caseSensitive (byteAt s (i + j)) = folded caseSensitive (byteAt str j).

(** The sizes fit: [size_t] has bits, [NPOS] is a [size_t] and no
    position in the string. *)
Record sizesFit (s : String) : Prop := mk_sizesFit {
  fit_bits : (0 < SIZE_BITS)%Z;
  fit_NPOS : (0 < NPOS < 2 ^ SIZE_BITS)%Z;
  fit_length : (Length s ≤ NPOS)%Z
}.

(** A size in the range of [size_t]. *)
Definition isSize (n : nat) : Prop := (Z.of_nat n < 2 ^ SIZE_BITS)%Z.

(** [int]: 32 bits; a size in the range of [int]. *)
Definition INT_BITS : Z := 32.
Definition isInt (n : nat) : Prop := (Z.of_nat n < 2 ^ (INT_BITS - 1))%Z.

(** The value of a [char] with the bit pattern [c]. *)
Definition charValue (c : Z) : Z :=
  if CHAR_IS_SIGNED && (128 <=? c)%Z then (c - 256)%Z else c.

(** The loop of the case-insensitive branch of [Compare]
    {[ for (;;)
       {
           char l = Turso3D::ToLower( *lhs );
           char r = Turso3D::ToLower( *rhs );
           if (!l || !r)
               return l ? 1 : (r ? -1 : 0);
           if (l < r)
               return -1;
           if (l > r)
               return 1;
           ++lhs;
           ++rhs;
       } ]}
    on the bytes from [lhs] and from [rhs] on; no result when a read
    leaves the memory. *)
Fixpoint Compare_loop (lhs rhs : list Z) : option Z :=
  match lhs, rhs with
  | l :: lhs', r :: rhs' =>
      let l := ToLower l in
      let r := ToLower r in
      if (l =? 0)%Z || (r =? 0)%Z then
        Some (if negb (l =? 0)%Z then 1 else if negb (r =? 0)%Z then -1 else 0)%Z
      else if (charValue l <? charValue r)%Z then Some (-1)%Z
      else if (charValue r <? charValue l)%Z then Some 1%Z
      else Compare_loop lhs' rhs'
  | _, _ => None
  end.

(** [int String::Compare(const char* lhs, const char* rhs, bool caseSensitive)]
    {[ if (!lhs || !rhs)
           return lhs ? 1 : (rhs ? -1 : 0);
       if (caseSensitive)
           return strcmp(lhs, rhs);
       else
           ... the loop ... ]}
    A pointer is [None] when null, and otherwise the bytes it points
    to. *)
Definition Compare (lhs rhs : option (list Z)) (caseSensitive : bool)
    : option Z :=
  match lhs, rhs with
  | Some lhs, Some rhs =>
      if caseSensitive then Some (strcmp lhs rhs) else Compare_loop lhs rhs
  | Some _, None => Some 1%Z
  | None, Some _ => Some (-1)%Z
  | None, None => Some 0%Z
  end.

(** A C string: the characters, none of them zero, and the
    terminator. *)
Definition CString (chars : list Z) : list Z := chars ++ [0%Z].
End Searching.

(** 64-bit [size_t], [NPOS] as large as it gets, ASCII case folding and a
    signed [char]. *)
Definition asciiLower (c : Z) : Z :=
  if (65 <=? c)%Z && (c <=? 90)%Z then (c + 32)%Z else c.
Definition asciiUpper (c : Z) : Z :=
  if (97 <=? c)%Z && (c <=? 122)%Z then (c - 32)%Z else c.
Fixpoint bytewise (lhs rhs : list Z) : Z :=
  match lhs, rhs with
  | l :: lhs', r :: rhs' =>
      if (l =? r)%Z then (if (l =? 0)%Z then 0 else bytewise lhs' rhs')%Z
      else (l - r)%Z
  | _, _ => 0%Z
  end.
Definition defs64 : StringDefs :=
  {| SIZE_BITS := 64; NPOS := 2 ^ 64 - 1; ToLower := asciiLower;
     ToUpper := asciiUpper; tolower := asciiLower; strcmp := bytewise;
     CHAR_IS_SIGNED := true |}.
(** What the functions that manage the buffer take from outside: the
    constant [String::MIN_CAPACITY] and the functions [String::CopyChars]
    and [String::MoveRange] of [String.h], and what [new char[n]]
    returns.  [CopyChars dest d src s n] is the array [dest] after
    [CopyChars(dest + d, src + s, n)], and [MoveRange buffer dest src n]
    is the buffer after [MoveRange(dest, src, n)]; there is no result
    when the call reads or writes outside the arrays. *)
Class MemoryDefs : Type := {
  MIN_CAPACITY : nat;
  newChars : nat → list Z;
  CopyChars : list Z → nat → list Z → nat → nat → option (list Z);
  MoveRange : list Z → nat → nat → nat → option (list Z)
}.

(** What is assumed of them: a new array has the size asked for and
    holds bytes, whichever; [CopyChars] copies [n] bytes when they are
    inside both arrays, and [MoveRange] moves [n] bytes inside the
    buffer, as they were before the call. *)
Record memoryFits `{MemoryDefs} : Prop := mk_memoryFits {
  newChars_length : ∀ n, Datatypes.length (newChars n) = n;
  newChars_bytes : ∀ n, Forall (λ c, (0 ≤ c < 256)%Z) (newChars n);
  CopyChars_copies : ∀ dest d src s n,
    d + n ≤ Datatypes.length dest → s + n ≤ Datatypes.length src →
    CopyChars dest d src s n
    = Some (take d dest ++ take n (drop s src) ++ drop (d + n) dest);
  MoveRange_moves : ∀ buffer dest src n,
    dest + n ≤ Datatypes.length buffer → src + n ≤ Datatypes.length buffer →
    MoveRange buffer dest src n
    = Some (take dest buffer ++ take n (drop src buffer) ++ drop (dest + n) buffer)
}.

(** The buffer is what the class has allocated: an array of [capacity]
    bytes, or the single byte [endZero] while the capacity is zero. *)
Definition allocated (s : String) : Prop :=
  Datatypes.length (buffer s) = if capacity s =? 0 then 1 else capacity s.

(** The characters of the string: the bytes before the terminator. *)
Definition content (s : String) : list Z := take (length s) (buffer s).

(** A string as the default constructor leaves it, and [String::EMPTY]:
    no capacity, [buffer] pointing to [endZero]. *)
Definition EMPTY : String := mkString 0 0 [0%Z].

(** A space or a tab: what [Trimmed] removes. *)
Definition blank (c : Z) : bool := (c =? 32)%Z || (c =? 9)%Z.

Section Buffers.
Context `{MemoryDefs}.

(** The loop of [Resize]
    {[ while (capacity < newLength + 1)
           capacity += (capacity + 1) >> 1; ]}
    with a bound on the number of rounds. *)
Fixpoint Resize_grow (rounds capacity newLength : nat) : option nat :=
  if capacity <? newLength + 1 then
    match rounds with
    | S rounds' =>
        Resize_grow rounds' (capacity + Nat.shiftr (capacity + 1) 1) newLength
    | 0 => None
    end
  else Some capacity.

(** The end of [Resize]
    {[ buffer[newLength] = 0;
       length = newLength; ]}
    with no result when the write is outside the buffer. *)
Definition Resize_finish (s : String) (newLength : nat) : option String :=
  if newLength <? Datatypes.length (buffer s)
  then Some (mkString newLength (capacity s) (<[newLength := 0%Z]> (buffer s)))
  else None.

(** [void String::Resize(size_t newLength)]
    {[ if (!capacity)
       {
           if (!newLength)
               return;
           capacity = newLength + 1;
           if (capacity < MIN_CAPACITY)
               capacity = MIN_CAPACITY;
           buffer = new char[capacity];
       }
       else
       {
           if (newLength && capacity < newLength + 1)
           {
               ... the loop ...
               char* newBuffer = new char[capacity];
               if (length)
                   CopyChars(newBuffer, buffer, length);
               delete[] buffer;
               buffer = newBuffer;
           }
       }
       ... the end ... ]}
    Sizes are natural numbers, and the arithmetic on them is exact:
    the definition is the function while no [size_t] computed wraps
    around, that is while [newLength + 1] and the capacities of the loop
    stay in the range of [size_t]. *)
Definition Resize (s : String) (newLength : nat) : option String :=
  if capacity s =? 0 then
    if newLength =? 0 then Some s
    else
      let capacity := newLength + 1 in
      let capacity := if capacity <? MIN_CAPACITY then MIN_CAPACITY else capacity in
      Resize_finish (mkString (length s) capacity (newChars capacity)) newLength
  else
    s ← (if negb (newLength =? 0) && (capacity s <? newLength + 1) then
           capacity ← Resize_grow (newLength + 1) (capacity s) newLength;
           let newBuffer := newChars capacity in
           newBuffer ← (if negb (length s =? 0)
                        then CopyChars newBuffer 0 (buffer s) 0 (length s)
                        else Some newBuffer);
           Some (mkString (length s) capacity newBuffer)
         else Some s);
    Resize_finish s newLength.

(** [void String::Reserve(size_t newCapacity)]
    {[ if (newCapacity < length + 1)
           newCapacity = length + 1;
       if (newCapacity == capacity)
           return;
       char* newBuffer = new char[newCapacity];
       CopyChars(newBuffer, buffer, length + 1);
       if (capacity)
           delete[] buffer;
       capacity = newCapacity;
       buffer = newBuffer; ]} *)
Definition Reserve (s : String) (newCapacity : nat) : option String :=
  let newCapacity :=
    if newCapacity <? length s + 1 then length s + 1 else newCapacity in
  if newCapacity =? capacity s then Some s
  else
    newBuffer ← CopyChars (newChars newCapacity) 0 (buffer s) 0 (length s + 1);
    Some (mkString (length s) newCapacity newBuffer).

(** [void String::Compact()]
    {[ if (capacity)
           Reserve(length + 1); ]} *)
Definition Compact (s : String) : option String :=
  if negb (capacity s =? 0) then Reserve s (length s + 1) else Some s.

(** [String String::Substring(size_t pos) const]
    {[ if (pos < length)
       {
           String ret;
           ret.Resize(length - pos);
           CopyChars(ret.buffer, buffer + pos, ret.length);
           return ret;
       }
       else
           return String(); ]} *)
Definition Substring_from (s : String) (pos : nat) : option String :=
  if pos <? length s then
    ret ← Resize EMPTY (length s - pos);
    buffer' ← CopyChars (buffer ret) 0 (buffer s) pos (length ret);
    Some (mkString (length ret) (capacity ret) buffer')
  else Some EMPTY.

(** [String String::Substring(size_t pos, size_t numChars) const]
    {[ if (pos < length)
       {
           String ret;
           if (pos + numChars > length)
               numChars = length - pos;
           ret.Resize(numChars);
           CopyChars(ret.buffer, buffer + pos, ret.length);
           return ret;
       }
       else
           return String(); ]}
    The sum [pos + numChars] is exact: the definition is the function
    while the sum stays in the range of [size_t]. *)
Definition Substring (s : String) (pos numChars : nat) : option String :=
  if pos <? length s then
    let numChars := if length s <? pos + numChars then length s - pos
                    else numChars in
    ret ← Resize EMPTY numChars;
    buffer' ← CopyChars (buffer ret) 0 (buffer s) pos (length ret);
    Some (mkString (length ret) (capacity ret) buffer')
  else Some EMPTY.

(** The first loop of [Trimmed]
    {[ while (trimStart < trimEnd)
       {
           char c = buffer[trimStart];
           if (c != ' ' && c != 9)
               break;
           ++trimStart;
       } ]}
    with a bound on the number of rounds. *)
Fixpoint Trimmed_start (rounds : nat) (s : String) (trimStart trimEnd : nat)
    : option nat :=
  if trimStart <? trimEnd then
    match rounds with
    | S rounds' =>
        c ← buffer s !! trimStart;
        if negb (c =? 32)%Z && negb (c =? 9)%Z then Some trimStart
        else Trimmed_start rounds' s (S trimStart) trimEnd
    | 0 => None
    end
  else Some trimStart.

(** The second loop of [Trimmed]
    {[ while (trimEnd > trimStart)
       {
           char c = buffer[trimEnd - 1];
           if (c != ' ' && c != 9)
               break;
           --trimEnd;
       } ]} *)
Fixpoint Trimmed_end (rounds : nat) (s : String) (trimStart trimEnd : nat)
    : option nat :=
  if trimStart <? trimEnd then
    match rounds with
    | S rounds' =>
        c ← buffer s !! (trimEnd - 1);
        if negb (c =? 32)%Z && negb (c =? 9)%Z then Some trimEnd
        else Trimmed_end rounds' s trimStart (trimEnd - 1)
    | 0 => None
    end
  else Some trimEnd.

(** [String String::Trimmed() const]: the two loops from
    [trimStart = 0] and [trimEnd = length], then
    [return Substring(trimStart, trimEnd - trimStart)]. *)
Definition Trimmed (s : String) : option String :=
  trimStart ← Trimmed_start (length s) s 0 (length s);
  trimEnd ← Trimmed_end (length s) s trimStart (length s);
  Substring s trimStart (trimEnd - trimStart).

(** [void String::Replace(size_t pos, size_t numChars, const char* srcStart, size_t srcLength)]
    {[ int delta = (int)srcLength - (int)numChars;
       if (pos + numChars < length)
       {
           if (delta < 0)
           {
               MoveRange(pos + srcLength, pos + numChars, length - pos - numChars);
               Resize(length + delta);
           }
           if (delta > 0)
           {
               Resize(length + delta);
               MoveRange(pos + srcLength, pos + numChars, length - pos - numChars - delta);
           }
       }
       else
           Resize(length + delta);
       CopyChars(buffer + pos, srcStart, srcLength); ]}
    [srcStart] points into memory that is not the buffer of the
    string.  The sums and the difference are exact: the definition is
    the function while [srcLength] and [numChars] are in the range of
    [int] and the sizes stay in the range of [size_t]. *)
Definition Replace_chars (s : String) (pos numChars : nat) (srcStart : list Z)
    (srcLength : nat) : option String :=
  let delta := (Z.of_nat srcLength - Z.of_nat numChars)%Z in
  s ← (if pos + numChars <? length s then
         s ← (if (delta <? 0)%Z then
                buffer' ← MoveRange (buffer s) (pos + srcLength) (pos + numChars)
                            (length s - pos - numChars);
                Resize (mkString (length s) (capacity s) buffer')
                  (Z.to_nat (Z.of_nat (length s) + delta))
              else Some s);
         (if (0 <? delta)%Z then
            s ← Resize s (Z.to_nat (Z.of_nat (length s) + delta));
            buffer' ← MoveRange (buffer s) (pos + srcLength) (pos + numChars)
                        (length s - pos - numChars - Z.to_nat delta);
            Some (mkString (length s) (capacity s) buffer')
          else Some s)
       else Resize s (Z.to_nat (Z.of_nat (length s) + delta)));
  buffer' ← CopyChars (buffer s) pos srcStart 0 srcLength;
  Some (mkString (length s) (capacity s) buffer').

(** [void String::Replace(size_t pos, size_t numChars, const String& replaceWith)]
    {[ if (pos + numChars > length)
           return;
       Replace(pos, numChars, replaceWith.buffer, replaceWith.length); ]}
    The sum [pos + numChars] is exact: the definition is the function
    while the sum stays in the range of [size_t]. *)
Definition Replace (s : String) (pos numChars : nat) (replaceWith : String)
    : option String :=
  if length s <? pos + numChars then Some s
  else Replace_chars s pos numChars (buffer replaceWith) (length replaceWith).

(** [void String::Erase(size_t pos, size_t numChars)]:
    [Replace(pos, numChars, String::EMPTY)]. *)
Definition Erase (s : String) (pos numChars : nat) : option String :=
  Replace s pos numChars EMPTY.
End Buffers.

(** A capacity of eight bytes at least, new arrays filled with one byte
    value, [CopyChars] copying byte by byte
    and [MoveRange] as a copy of the bytes as they were. *)
Definition copyChars (dest : list Z) (d : nat) (src : list Z) (s n : nat)
    : option (list Z) :=
  if (d + n <=? Datatypes.length dest) && (s + n <=? Datatypes.length src)
  then Some (take d dest ++ take n (drop s src) ++ drop (d + n) dest)
  else None.
Definition moveRange (buffer : list Z) (dest src n : nat) : option (list Z) :=
  copyChars buffer dest buffer src n.
Definition memory8 : MemoryDefs :=
  {| MIN_CAPACITY := 8; newChars := λ n, replicate n 0xcd%Z;
     CopyChars := copyChars; MoveRange := moveRange |}.
End Str.

(** * Proofs *)

(** Induction over an octant hierarchy: the property may be assumed for every
    child that exists. *)
Lemma Octant_ind (P : Octant → Prop) :
  (∀ cb wb c h lv ns ch nn,
      Forall (λ slot, ∀ o, slot = Some o → P o) ch →
      P (mkOctant cb wb c h lv ns ch nn)) →
  ∀ o, P o.
Proof.
  intros step. fix IH 1. intros [cb wb c h lv ns ch nn]. apply step.
  induction ch as [|[o|] ch IHch]; constructor; try assumption.
  - intros o' [= <-]. apply IH.
  - intros o' [=].
Qed.

(** ** ChildIndex *)


Lemma flt_irrefl (a : float) : flt a a = false.
Proof.
  unfold flt, SFltb.
  destruct a as [s|s| |s m e]; simpl; try reflexivity.
  - destruct s; reflexivity.
  - destruct s; rewrite Z.compare_refl, Pos.compare_cont_refl; reflexivity.
Qed.

Lemma feq_not_flt (a b : float) : feq a b = true → flt a b = false.
Proof.
  unfold feq, flt, SFeqb, SFltb.
  destruct (SFcompare a b) as [[]|]; intros; congruence.
Qed.

(** On ordered operands (no NaN) "not below" is "at or above". *)
Lemma flt_false_ordered (a b : float) :
  a ≠ S754_nan → b ≠ S754_nan → flt a b = false ↔ SFleb b a = true.
Proof.
  intros Ha Hb. unfold flt, SFltb, SFleb.
  destruct a as [[]|[]| |[] ma ea], b as [[]|[]| |[] mb eb];
    simpl; try congruence; try (split; congruence).
  all: rewrite (Z.compare_antisym ea eb);
    destruct (ea ?= eb)%Z eqn:He; simpl; try (split; congruence);
    change (Pos.compare_cont Eq mb ma) with (Pos.compare_cont (CompOpp Eq) mb ma);
    rewrite <- (Pos.compare_cont_antisym ma mb Eq);
    destruct (Pos.compare_cont Eq ma mb); simpl; split; congruence.
Qed.

Lemma ChildIndex_lt (o : Octant) (position : Vector3) :
  ChildIndex o position < NUM_OCTANTS.
Proof.
  unfold ChildIndex, NUM_OCTANTS.
  destruct (flt (x position) _), (flt (y position) _), (flt (z position) _);
    simpl; lia.
Qed.

(** C7: [ChildIndex] returns a value below 8 whose bit 0, bit 1 and bit 2 are
    set exactly when the x, y and z coordinate of the position is not below
    the corresponding coordinate of the octant's center. *)
Theorem ChildIndex_bits (o : Octant) (position : Vector3) :
  ChildIndex o position < NUM_OCTANTS ∧
  Nat.testbit (ChildIndex o position) 0 = negb (flt (x position) (x (center o))) ∧
  Nat.testbit (ChildIndex o position) 1 = negb (flt (y position) (y (center o))) ∧
  Nat.testbit (ChildIndex o position) 2 = negb (flt (z position) (z (center o))) ∧
  (∀ k, 3 ≤ k → Nat.testbit (ChildIndex o position) k = false).
Proof.
  unfold ChildIndex, NUM_OCTANTS.
  destruct (flt (x position) _), (flt (y position) _), (flt (z position) _);
    simpl; (split; [lia|]); repeat (split; [reflexivity|]);
    intros k Hk; do 3 (destruct k as [|k]; [lia|]); apply Nat.bits_0 ||
    (apply Nat.bits_above_log2; simpl; lia).
Qed.

(** C10: a coordinate equal to the center's coordinate goes to the positive
    half on that axis (the bit is set), and the center itself has index 7. *)
Theorem ChildIndex_on_center (o : Octant) (position : Vector3) :
  (feq (x position) (x (center o)) = true → Nat.testbit (ChildIndex o position) 0 = true) ∧
  (feq (y position) (y (center o)) = true → Nat.testbit (ChildIndex o position) 1 = true) ∧
  (feq (z position) (z (center o)) = true → Nat.testbit (ChildIndex o position) 2 = true) ∧
  ChildIndex o (center o) = 7.
Proof.
  repeat split.
  - intros E. unfold ChildIndex. rewrite (feq_not_flt _ _ E).
    destruct (flt (y position) _), (flt (z position) _); reflexivity.
  - intros E. unfold ChildIndex. rewrite (feq_not_flt _ _ E).
    destruct (flt (x position) _), (flt (z position) _); reflexivity.
  - intros E. unfold ChildIndex. rewrite (feq_not_flt _ _ E).
    destruct (flt (x position) _), (flt (y position) _); reflexivity.
  - unfold ChildIndex. now rewrite !flt_irrefl.
Qed.


(** ** The traversals append to their destination *)

Section AppendingFolds.
Context {A : Type}.

Lemma fold_left_slots (f : list A → Octant → list A) (ch : list (option Octant)) :
  Forall (λ slot, ∀ c, slot = Some c → ∀ dest, f dest c = dest ++ f [] c) ch →
  ∀ dest,
    fold_left (λ dest slot, match slot with Some c => f dest c | None => dest end)
              ch dest
    = dest ++ overSlots (f []) ch.
Proof.
  induction 1 as [|slot ch Hslot _ IH]; intros dest; simpl.
  - now rewrite app_nil_r.
  - rewrite IH. destruct slot as [c|]; simpl.
    + rewrite (Hslot c eq_refl dest). now rewrite <- app_assoc.
    + reflexivity.
Qed.

Lemma fold_left_append (g : NodePtr → list A) (l : list NodePtr) (dest : list A) :
  fold_left (λ dest n, dest ++ g n) l dest = dest ++ flat_map g l.
Proof.
  revert dest. induction l as [|n l IH]; intros dest; simpl.
  - now rewrite app_nil_r.
  - rewrite IH. now rewrite <- app_assoc.
Qed.

Lemma overSlots_ext (g g' : Octant → list A) (ch : list (option Octant)) :
  Forall (λ slot, ∀ c, slot = Some c → g c = g' c) ch →
  overSlots g ch = overSlots g' ch.
Proof.
  induction 1 as [|slot ch Hslot _ IH]; simpl; [reflexivity|].
  rewrite IH. destruct slot as [c|]; [|reflexivity].
  now rewrite (Hslot c eq_refl).
Qed.
End AppendingFolds.

Lemma filter_flat_map {A B : Type} (P : B → Prop) `{∀ b, Decision (P b)}
    (g : A → list B) (l : list A) :
  filter P (flat_map g l) = flat_map (λ a, filter P (g a)) l.
Proof.
  induction l as [|a l IH]; simpl; [reflexivity|].
  now rewrite filter_app, IH.
Qed.

Lemma filter_overSlots {B : Type} (P : B → Prop) `{∀ b, Decision (P b)}
    (g : Octant → list B) (ch : list (option Octant)) :
  filter P (overSlots g ch) = overSlots (λ c, filter P (g c)) ch.
Proof.
  unfold overSlots. rewrite filter_flat_map.
  apply flat_map_ext. intros [c|]; reflexivity.
Qed.

(** ** The objects of a hierarchy *)

Lemma placed_eq (o : Octant) :
  placed o = ((λ n, (n, [])) <$> nodes o) ++ placedSlots 0 (children o).
Proof.
  destruct o as [cb wb c h lv ns ch nn]. reflexivity.
Qed.

Lemma placedSlots_app (index : nat) (l1 l2 : list (option Octant)) :
  placedSlots index (l1 ++ l2)
  = placedSlots index l1 ++ placedSlots (index + length l1) l2.
Proof.
  revert index. induction l1 as [|slot l1 IH]; intros index; simpl.
  - now rewrite Nat.add_0_r.
  - rewrite IH, <- app_assoc. do 3 f_equal. lia.
Qed.

Lemma below_fst (index : nat) (l : list (NodePtr * OctantPath)) :
  (below index l).*1 = l.*1.
Proof. unfold below. rewrite <- list_fmap_compose. reflexivity. Qed.

Lemma placedSlots_fst (index : nat) (ch : list (option Octant)) :
  (placedSlots index ch).*1 = overSlots (λ c, (placed c).*1) ch.
Proof.
  revert index. induction ch as [|slot ch IH]; intros index; simpl.
  - reflexivity.
  - rewrite fmap_app, IH. destruct slot as [c|]; simpl.
    + now rewrite below_fst.
    + reflexivity.
Qed.

Lemma placed_fst (o : Octant) :
  (placed o).*1 = nodes o ++ overSlots (λ c, (placed c).*1) (children o).
Proof.
  rewrite placed_eq, fmap_app, placedSlots_fst. f_equal.
  rewrite <- list_fmap_compose. apply list_fmap_id.
Qed.

Section QueryFacts.
Context `{NodeFlagDefs}.
Variable heap : Heap.

Lemma CollectNodesAll_unfold (dest : list NodePtr) (o : Octant) :
  CollectNodesAll dest o
  = dest ++ nodes o ++ overSlots (CollectNodesAll []) (children o).
Proof.
  revert dest. induction o as [cb wb c h lv ns ch nn IH] using Octant_ind.
  intros dest. simpl. rewrite fold_left_slots.
  - now rewrite <- app_assoc.
  - eapply Forall_impl; [exact IH|]. intros slot Hslot c' -> dest'.
    rewrite (Hslot c' eq_refl dest'), (Hslot c' eq_refl []). reflexivity.
Qed.

Lemma CollectNodesFlags_unfold (dest : list NodePtr) (o : Octant) (nodeFlags : N) :
  CollectNodesFlags heap dest o nodeFlags
  = dest ++ filter (λ n, visible heap nodeFlags n = true) (nodes o)
         ++ overSlots (λ c, CollectNodesFlags heap [] c nodeFlags) (children o).
Proof.
  revert dest. induction o as [cb wb c h lv ns ch nn IH] using Octant_ind.
  intros dest. simpl.
  rewrite (fold_left_slots (λ dest c, CollectNodesFlags heap dest c nodeFlags)).
  - now rewrite <- app_assoc.
  - eapply Forall_impl; [exact IH|]. intros slot Hslot c' -> dest'.
    rewrite (Hslot c' eq_refl dest'), (Hslot c' eq_refl []). reflexivity.
Qed.

(** The full traversal lists the objects of the hierarchy in order. *)
Lemma CollectNodesAll_placed (o : Octant) :
  CollectNodesAll [] o = (placed o).*1.
Proof.
  induction o as [cb wb c h lv ns ch nn IH] using Octant_ind.
  rewrite CollectNodesAll_unfold, placed_fst. simpl. f_equal.
  apply overSlots_ext. exact IH.
Qed.

(** The flag-only traversal is the list of the objects of the hierarchy
    filtered by the flags: no geometric test takes part. *)
Lemma CollectNodesFlags_placed (o : Octant) (nodeFlags : N) :
  CollectNodesFlags heap [] o nodeFlags
  = filter (λ n, visible heap nodeFlags n = true) (placed o).*1.
Proof.
  induction o as [cb wb c h lv ns ch nn IH] using Octant_ind.
  rewrite CollectNodesFlags_unfold, placed_fst. simpl.
  rewrite filter_app, filter_overSlots. f_equal.
  apply overSlots_ext. exact IH.
Qed.

Section WithVolume.
Context {T : Type} `{Volume T}.

Lemma pushPassing_filter (dest ns : list NodePtr) (volume : T) (nodeFlags : N) :
  pushPassing heap dest ns volume nodeFlags
  = dest ++ filter (λ n, passes heap volume nodeFlags n = true) ns.
Proof.
  unfold pushPassing. revert dest.
  induction ns as [|n ns IH]; intros dest; simpl.
  - now rewrite app_nil_r.
  - rewrite IH, filter_cons.
    destruct (passes heap volume nodeFlags n) eqn:E.
    + rewrite decide_True by reflexivity. now rewrite <- app_assoc.
    + rewrite decide_False by discriminate. reflexivity.
Qed.

Lemma CollectNodes_eq (dest : list NodePtr) (o : Octant) (volume : T)
    (nodeFlags : N) :
  CollectNodes heap dest o volume nodeFlags
  = match IsInside volume (cullingBox o) with
    | OUTSIDE => dest
    | INSIDE => CollectNodesFlags heap dest o nodeFlags
    | INTERSECT =>
        fold_left
          (λ dest slot,
             match slot with
             | Some c => CollectNodes heap dest c volume nodeFlags
             | None => dest
             end)
          (children o) (pushPassing heap dest (nodes o) volume nodeFlags)
    end.
Proof. destruct o; reflexivity. Qed.

Lemma CollectNodes_app (dest : list NodePtr) (o : Octant) (volume : T)
    (nodeFlags : N) :
  CollectNodes heap dest o volume nodeFlags
  = dest ++ CollectNodes heap [] o volume nodeFlags.
Proof.
  revert dest. induction o as [cb wb c h lv ns ch nn IH] using Octant_ind.
  intros dest. rewrite (CollectNodes_eq dest), (CollectNodes_eq []).
  cbn [cullingBox nodes children]. destruct (IsInside volume cb).
  - now rewrite app_nil_r.
  - assert (Hch : Forall (λ slot, ∀ c', slot = Some c' → ∀ dest',
              CollectNodes heap dest' c' volume nodeFlags
              = dest' ++ CollectNodes heap [] c' volume nodeFlags) ch).
    { eapply Forall_impl; [exact IH|]. intros slot Hslot c' -> dest'.
      apply (Hslot c' eq_refl). }
    rewrite !(fold_left_slots (λ dest c, CollectNodes heap dest c volume nodeFlags))
      by exact Hch.
    rewrite !pushPassing_filter. simpl. now rewrite <- app_assoc.
  - rewrite (CollectNodesFlags_unfold dest), (CollectNodesFlags_unfold []).
    reflexivity.
Qed.

(** C2: the three-way traversal.  OUTSIDE adds nothing of the octant or
    below it; INSIDE adds every enabled, flag-matching object of the octant
    and of all its descendants, with no geometric test; INTERSECT adds the
    objects of the octant that are enabled, flag-matching and not OUTSIDE
    by the approximate test, then what the traversal of each existing
    child adds. *)
Theorem CollectNodes_three_way (dest : list NodePtr) (o : Octant) (volume : T)
    (nodeFlags : N) :
  (IsInside volume (cullingBox o) = OUTSIDE →
     CollectNodes heap dest o volume nodeFlags = dest) ∧
  (IsInside volume (cullingBox o) = INSIDE →
     CollectNodes heap dest o volume nodeFlags
     = dest ++ filter (λ n, visible heap nodeFlags n = true) (placed o).*1) ∧
  (IsInside volume (cullingBox o) = INTERSECT →
     CollectNodes heap dest o volume nodeFlags
     = dest ++ filter (λ n, passes heap volume nodeFlags n = true) (nodes o)
            ++ overSlots (λ c, CollectNodes heap [] c volume nodeFlags)
                         (children o)
     ∧ ∀ n, passes heap volume nodeFlags n = true ↔
            N.land (Flags (heap n)) NF_ENABLED ≠ 0%N ∧
            N.land (Flags (heap n)) nodeFlags ≠ 0%N ∧
            IsInsideFast volume (WorldBoundingBox (heap n)) ≠ OUTSIDE).
Proof.
  rewrite CollectNodes_app, CollectNodes_eq.
  split; [|split].
  - intros ->. now rewrite app_nil_r.
  - intros ->. f_equal. apply CollectNodesFlags_placed.
  - intros ->. split.
    + rewrite pushPassing_filter.
      rewrite (fold_left_slots (λ dest c, CollectNodes heap dest c volume nodeFlags)).
      * reflexivity.
      * apply Forall_forall. intros slot _ c' _ dest'. apply CollectNodes_app.
    + intros n. unfold passes, visible, nonzero.
      rewrite !andb_true_iff, !negb_true_iff, !N.eqb_neq, bool_decide_eq_false.
      tauto.
Qed.

(** C9: the result of [FindNodes] does not depend on what the destination
    held: it is the result for an empty destination, while the traversal
    itself only appends. *)
Theorem FindNodes_replaces (t : Octree) (dest : list NodePtr) (volume : T)
    (nodeFlags : N) :
  FindNodes heap t dest volume nodeFlags = FindNodes heap t [] volume nodeFlags ∧
  CollectNodes heap dest (root t) volume nodeFlags
  = dest ++ FindNodes heap t dest volume nodeFlags.
Proof.
  split; [reflexivity|]. unfold FindNodes. apply CollectNodes_app.
Qed.
End WithVolume.
End QueryFacts.

(** ** Child slots *)

Lemma child_Some (o : Octant) (index : nat) (c : Octant) :
  child o index = Some c ↔ children o !! index = Some (Some c).
Proof.
  unfold child. destruct (children o !! index) as [slot|]; split; congruence.
Qed.

Lemma child_None (o : Octant) (index : nat) :
  index < length (children o) →
  child o index = None → children o !! index = Some None.
Proof.
  intros Hlt. unfold child.
  destruct (lookup_lt_is_Some_2 _ _ Hlt) as [slot ->]. congruence.
Qed.

Lemma child_withContent_eq (o : Octant) ns ch count index slot :
  index < length ch →
  child (withContent o ns (<[index := slot]> ch) count) index = slot.
Proof.
  intros Hlt. unfold child. simpl. now rewrite list_lookup_insert_eq.
Qed.

Lemma child_withContent_ne (o : Octant) ns count index j slot :
  index ≠ j →
  child (withContent o ns (<[index := slot]> (children o)) count) j = child o j.
Proof.
  intros Hne. unfold child. simpl. now rewrite list_lookup_insert_ne.
Qed.

Lemma withContent_id (o : Octant) :
  withContent o (nodes o) (children o) (numNodes o) = o.
Proof. destruct o; reflexivity. Qed.

Lemma sum_slots_insert (ch : list (option Octant)) (index : nat) (old new : option Octant) :
  ch !! index = Some old →
  sum_list (slotCount <$> <[index := new]> ch) + slotCount old
  = sum_list (slotCount <$> ch) + slotCount new.
Proof.
  revert index. induction ch as [|slot ch IH]; intros [|index] Hl; csimpl in *;
    try discriminate.
  - injection Hl as ->. lia.
  - specialize (IH index Hl). lia.
Qed.

Lemma sum_slots_none (ch : list (option Octant)) :
  forallb (λ slot, match slot with None => true | Some _ => false end) ch = true →
  sum_list (slotCount <$> ch) = 0.
Proof.
  induction ch as [|[c|] ch IH]; csimpl; intros E; try discriminate; auto.
Qed.

Lemma sum_slots_zero (ch : list (option Octant)) (index : nat) (c : Octant) :
  sum_list (slotCount <$> ch) = 0 → ch !! index = Some (Some c) → numNodes c = 0.
Proof.
  revert index. induction ch as [|slot ch IH]; intros [|index] Hs Hl; csimpl in *;
    try discriminate.
  - injection Hl as ->. simpl in Hs. lia.
  - apply (IH index); [lia|exact Hl].
Qed.

Lemma slots_none_lookup (ch : list (option Octant)) (index : nat) (c : Octant) :
  forallb (λ slot, match slot with None => true | Some _ => false end) ch = true →
  ch !! index ≠ Some (Some c).
Proof.
  revert index. induction ch as [|[c'|] ch IH]; intros [|index] E; simpl in *;
    try discriminate; try congruence.
  apply IH. exact E.
Qed.

Lemma slots_some_lookup (ch : list (option Octant)) :
  forallb (λ slot, match slot with None => true | Some _ => false end) ch = false →
  ∃ index c, ch !! index = Some (Some c).
Proof.
  induction ch as [|[c'|] ch IH]; simpl; intros E; try discriminate.
  - exists 0, c'. reflexivity.
  - destruct (IH E) as (index & c & Hl). exists (S index), c. exact Hl.
Qed.

(** ** Positions of the objects under the child slots *)

Lemma placedSlots_split (index i : nat) (ch : list (option Octant)) (slot : option Octant) :
  ch !! i = Some slot →
  placedSlots index ch
  = placedSlots index (take i ch) ++ slotPlaced (index + i) slot
      ++ placedSlots (index + S i) (drop (S i) ch).
Proof.
  intros Hl. rewrite <- (take_drop_middle ch i slot Hl) at 1.
  rewrite placedSlots_app. simpl.
  rewrite length_take_le by (apply lookup_lt_Some in Hl; lia).
  do 3 f_equal. lia.
Qed.

Lemma placedSlots_insert (index i : nat) (ch : list (option Octant)) (slot : option Octant) :
  i < length ch →
  placedSlots index (<[i := slot]> ch)
  = placedSlots index (take i ch) ++ slotPlaced (index + i) slot
      ++ placedSlots (index + S i) (drop (S i) ch).
Proof.
  intros Hlt. rewrite insert_take_drop by exact Hlt.
  rewrite placedSlots_app. simpl. rewrite length_take_le by lia.
  do 3 f_equal. lia.
Qed.

(** Replacing a slot replaces what lies under it and nothing else. *)
Lemma placedSlots_replace (i : nat) (ch : list (option Octant)) (old new : option Octant)
    (l : list (NodePtr * OctantPath)) :
  ch !! i = Some old →
  slotPlaced i new ≡ₚ l ++ slotPlaced i old →
  placedSlots 0 (<[i := new]> ch) ≡ₚ l ++ placedSlots 0 ch.
Proof.
  intros Hl Hp.
  rewrite (placedSlots_split 0 i ch old Hl).
  rewrite (placedSlots_insert 0 i ch new) by (eapply lookup_lt_Some; exact Hl).
  simpl. rewrite Hp. rewrite !(Permutation_app_swap_app (placedSlots 0 (take i ch))).
  now rewrite <- !app_assoc.
Qed.

Lemma elem_of_below (index : nat) (l : list (NodePtr * OctantPath)) n p :
  (n, p) ∈ below index l ↔ ∃ p', p = index :: p' ∧ (n, p') ∈ l.
Proof.
  unfold below. rewrite list_elem_of_fmap. split.
  - intros ([m q] & [= -> ->] & Hin). eauto.
  - intros (p' & -> & Hin). exists (n, p'). auto.
Qed.

Lemma elem_of_placedSlots (index : nat) (ch : list (option Octant)) n p :
  (n, p) ∈ placedSlots index ch ↔
  ∃ i c p', p = (index + i) :: p' ∧ ch !! i = Some (Some c) ∧ (n, p') ∈ placed c.
Proof.
  revert index. induction ch as [|slot ch IH]; intros index; simpl.
  - split; [intros Hin; inversion Hin|]. intros (i & c & p' & _ & Hl & _).
    destruct i; discriminate.
  - rewrite elem_of_app, IH. split.
    + intros [Hin|(i & c & p' & -> & Hl & Hin)].
      * destruct slot as [c|]; [|inversion Hin].
        apply elem_of_below in Hin as (p' & -> & Hin).
        exists 0, c, p'. rewrite Nat.add_0_r. auto.
      * exists (S i), c, p'. repeat split; auto. f_equal. lia.
    + intros (i & c & p' & -> & Hl & Hin). destruct i as [|i]; simpl in Hl.
      * injection Hl as ->. left. apply elem_of_below. exists p'.
        rewrite Nat.add_0_r. auto.
      * right. exists i, c, p'. repeat split; auto. f_equal. lia.
Qed.

Lemma elem_of_placed_here (o : Octant) (n : NodePtr) :
  (n, []) ∈ placed o ↔ n ∈ nodes o.
Proof.
  rewrite placed_eq, elem_of_app, list_elem_of_fmap, elem_of_placedSlots. split.
  - intros [(m & [= ->] & Hin)|(i & c & p' & Hp & _)]; [exact Hin|discriminate].
  - intros Hin. left. exists n. auto.
Qed.

Lemma elem_of_placed_below (o : Octant) (n : NodePtr) (index : nat) (p : OctantPath) :
  (n, index :: p) ∈ placed o ↔ ∃ c, child o index = Some c ∧ (n, p) ∈ placed c.
Proof.
  rewrite placed_eq, elem_of_app, list_elem_of_fmap, elem_of_placedSlots. split.
  - intros [(m & [=] & _)|(i & c & p' & [= -> ->] & Hl & Hin)].
    exists c. rewrite child_Some. auto.
  - intros (c & Hc & Hin). right. exists index, c, p. rewrite <- child_Some. auto.
Qed.

(** An object occurs in the hierarchy exactly at the octants that list it. *)
Lemma elem_of_placed (o : Octant) (n : NodePtr) (p : OctantPath) :
  (n, p) ∈ placed o ↔ ∃ o', lookupOctant p o = Some o' ∧ n ∈ nodes o'.
Proof.
  revert o. induction p as [|index p IH]; intros o; simpl.
  - rewrite elem_of_placed_here. split; [eauto|]. now intros (o' & [= <-] & Hin).
  - rewrite elem_of_placed_below. split.
    + intros (c & -> & Hin). now apply IH.
    + destruct (child o index) as [c|]; [|now intros (o' & [=] & _)].
      intros Hin. exists c. split; [reflexivity|]. now apply IH.
Qed.

(** ** Insertion and removal in a hierarchy *)

Lemma erase_Permutation (n : NodePtr) (l : list NodePtr) :
  n ∈ l → l ≡ₚ n :: erase n l.
Proof.
  induction l as [|m l IH]; intros Hin; [inversion Hin|]. simpl.
  destruct (decide (m = n)) as [->|Hne]; [reflexivity|].
  apply elem_of_cons in Hin as [->|Hin]; [congruence|].
  rewrite (IH Hin) at 1. apply perm_swap.
Qed.

Lemma erase_snoc (n : NodePtr) (l : list NodePtr) :
  n ∉ l → erase n (l ++ [n]) = l.
Proof.
  induction l as [|m l IH]; intros Hnin; simpl.
  - now rewrite decide_True.
  - apply not_elem_of_cons in Hnin as [Hne Hnin].
    rewrite decide_False by congruence. now rewrite IH.
Qed.

Lemma octant_ok_length (o : Octant) : octant_ok o → length (children o) = NUM_OCTANTS.
Proof. now destruct 1. Qed.

Lemma octant_ok_counts (o : Octant) : octant_ok o → countsAddUp o.
Proof. now destruct 1. Qed.

Lemma octant_ok_child (o : Octant) (index : nat) (c : Octant) :
  octant_ok o → child o index = Some c →
  octant_ok c ∧ level c = (level o - 1)%Z ∧ 0 < numNodes c.
Proof.
  destruct 1 as [o _ _ Hl Hc]. intros E. destruct (Hl _ _ E) as (? & ? & ?). eauto.
Qed.

Lemma octant_ok_child_level (o : Octant) (index : nat) (c : Octant) :
  octant_ok o → child o index = Some c → (1 ≤ level c)%Z.
Proof. destruct 1 as [o _ _ Hl Hc]. intros E. now destruct (Hl _ _ E) as (? & ? & ?). Qed.

Lemma octant_ok_lookup (p : OctantPath) (o o' : Octant) :
  octant_ok o → lookupOctant p o = Some o' → octant_ok o'.
Proof.
  revert o. induction p as [|index p IH]; intros o Hok; simpl.
  - now intros [= <-].
  - destruct (child o index) as [c|] eqn:Hc; [|discriminate].
    apply IH. now apply (octant_ok_child o index c).
Qed.

(** An octant that counts no object lists none and has no children. *)
Lemma octant_ok_empty (o : Octant) :
  octant_ok o → numNodes o = 0 → placed o = [] ∧ isEmptyOctant o = true.
Proof.
  intros Hok Hz. pose proof (octant_ok_counts o Hok) as Hc. unfold countsAddUp in Hc.
  assert (Hn : nodes o = []) by (apply length_zero_iff_nil; lia).
  assert (Hs : sum_list (slotCount <$> children o) = 0) by lia.
  assert (Hnone : ∀ index c, children o !! index ≠ Some (Some c)).
  { intros index c Hl. pose proof (sum_slots_zero _ _ _ Hs Hl) as Hz'.
    destruct (octant_ok_child o index c Hok) as (_ & _ & Hpos); [|lia].
    now apply child_Some. }
  split.
  - rewrite placed_eq, Hn. simpl. apply elem_of_nil_inv. intros [n p] Hin.
    apply elem_of_placedSlots in Hin as (i & c & p' & _ & Hl & _).
    exact (Hnone i c Hl).
  - unfold isEmptyOctant. rewrite Hz. simpl.
    destruct (forallb _ (children o)) eqn:E; [reflexivity|].
    destruct (slots_some_lookup _ E) as (index & c & Hl). destruct (Hnone _ _ Hl).
Qed.

(** An octant that is not empty counts at least one object. *)
Lemma octant_ok_nonempty (o : Octant) :
  octant_ok o → isEmptyOctant o = false → 0 < numNodes o.
Proof.
  intros Hok He. destruct (numNodes o) as [|k] eqn:Hz; [|lia].
  destruct (octant_ok_empty o Hok Hz) as [_ E]. congruence.
Qed.

Section TreeOps.
Context `{BoundingBoxOps} `{OctreePolicy}.

Lemma child_replicate_None (o : Octant) (index : nat) :
  children o = replicate NUM_OCTANTS None → child o index = None.
Proof.
  intros E. unfold child. rewrite E.
  destruct (replicate NUM_OCTANTS (@None Octant) !! index) as [slot|] eqn:E';
    [|reflexivity].
  now apply lookup_replicate in E' as [-> _].
Qed.

(** An octant without objects and children is well-formed. *)
Lemma bare_ok (o : Octant) :
  children o = replicate NUM_OCTANTS None → nodes o = [] → numNodes o = 0 →
  octant_ok o.
Proof.
  intros Hch Hn Hz.
  constructor.
  - now rewrite Hch.
  - unfold countsAddUp. now rewrite Hch, Hn, Hz.
  - intros index c E. now rewrite child_replicate_None in E.
  - intros index c E. now rewrite child_replicate_None in E.
Qed.

Lemma Initialize_ok (o : Octant) (box : BoundingBox) (lv : Z) :
  octant_ok (Initialize (withContent o [] (replicate NUM_OCTANTS None) 0) box lv).
Proof. now apply bare_ok. Qed.

Lemma CreateChildOctant_ok (o : Octant) (index : nat) :
  octant_ok (CreateChildOctant o index).
Proof. now apply bare_ok. Qed.

Lemma pushNode_ok (n : NodePtr) (o : Octant) :
  octant_ok o → octant_ok (pushNode n o).
Proof.
  destruct 1 as [o Hlen Hcount Hlv Hch].
  constructor; auto. unfold countsAddUp in *. simpl.
  rewrite length_app. simpl. lia.
Qed.

Lemma pushNode_placed (n : NodePtr) (o : Octant) :
  placed (pushNode n o) ≡ₚ (n, []) :: placed o.
Proof.
  rewrite !placed_eq. simpl. rewrite fmap_app. simpl.
  rewrite <- app_assoc. simpl. now rewrite <- Permutation_middle.
Qed.

(** Replacing child [index] by an octant that counts one more. *)
Lemma onPath_ok (o : Octant) (index : nat) (old : option Octant) (c' : Octant) :
  octant_ok o →
  children o !! index = Some old →
  octant_ok c' →
  level c' = (level o - 1)%Z →
  (1 < level o)%Z →
  numNodes c' = S (slotCount old) →
  octant_ok (onPath o index c').
Proof.
  intros Hok Hl Hok' Hlv Hcap Hn.
  pose proof (lookup_lt_Some _ _ _ Hl) as Hlt.
  constructor.
  - simpl. rewrite length_insert. now apply octant_ok_length.
  - pose proof (octant_ok_counts o Hok) as Hc. unfold countsAddUp in *. simpl.
    pose proof (sum_slots_insert (children o) index old (Some c') Hl) as Hs.
    simpl in Hs. lia.
  - intros j c E. destruct (decide (index = j)) as [<-|Hne].
    + unfold onPath in E. rewrite child_withContent_eq in E by exact Hlt.
      injection E as <-. split; [exact Hlv|split; lia].
    + unfold onPath in E. rewrite child_withContent_ne in E by exact Hne.
      destruct (octant_ok_child o j c Hok E) as (_ & ? & ?).
      pose proof (octant_ok_child_level o j c Hok E). auto.
  - intros j c E. destruct (decide (index = j)) as [<-|Hne].
    + unfold onPath in E. rewrite child_withContent_eq in E by exact Hlt.
      now injection E as <-.
    + unfold onPath in E. rewrite child_withContent_ne in E by exact Hne.
      now destruct (octant_ok_child o j c Hok E).
Qed.

Lemma onPath_placed (o : Octant) (index : nat) (old : option Octant) (c' : Octant)
    (n : NodePtr) (p : OctantPath) :
  children o !! index = Some old →
  placed c' ≡ₚ (n, p) :: match old with Some c => placed c | None => [] end →
  placed (onPath o index c') ≡ₚ (n, index :: p) :: placed o.
Proof.
  intros Hl Hp. rewrite !placed_eq. simpl.
  rewrite (placedSlots_replace index (children o) old (Some c') [(n, index :: p)] Hl).
  - simpl. now rewrite <- Permutation_middle.
  - simpl. unfold below at 1. rewrite Hp. simpl.
    destruct old; reflexivity.
Qed.

(** The descent: the hierarchy stays well-formed and gains exactly the
    object, at the position returned, which honours the contract of
    [FitBoundingBox]. *)
Lemma descend_spec (fuel : nat) (n : NodePtr) (box : BoundingBox) :
  ∀ o o' p,
    octant_ok o → (level o ≤ Z.of_nat fuel)%Z →
    descend fuel n box o = (o', p) →
    octant_ok o' ∧ numNodes o' = S (numNodes o) ∧ level o' = level o ∧
    placed o' ≡ₚ (n, p) :: placed o ∧ placedBy n box o' p.
Proof.
  induction fuel as [|fuel IH]; intros o o' p Hok Hfuel; simpl.
  - intros [= <- <-]. (split; [|split; [|split; [|split]]]); try reflexivity.
    + now apply pushNode_ok.
    + apply pushNode_placed.
    + apply placedBy_here; [right; simpl; lia|].
      simpl. apply elem_of_app. right. now left.
  - destruct (FitBoundingBox o box (Size box) || (level o <=? 1)%Z || _) eqn:Hstop.
    + intros [= <- <-]. (split; [|split; [|split; [|split]]]); try reflexivity.
      * now apply pushNode_ok.
      * apply pushNode_placed.
      * apply placedBy_here.
        -- apply orb_true_iff in Hstop as [Hstop|Hstop].
           ++ apply orb_true_iff in Hstop as [Hfit|Hlv]; [now left|].
              right. simpl. lia.
           ++ right. simpl. destruct (child o _); [discriminate|]. lia.
        -- simpl. apply elem_of_app. right. now left.
    + apply orb_false_iff in Hstop as [Hstop _].
      apply orb_false_iff in Hstop as [Hfit Hlv].
      apply Z.leb_gt in Hlv.
      set (index := ChildIndex o (Center box)).
      assert (Hlt : index < length (children o)).
      { rewrite (octant_ok_length o Hok). apply ChildIndex_lt. }
      destruct (child o index) as [c|] eqn:Hc.
      * destruct (octant_ok_child o index c Hok Hc) as (Hokc & Hlvc & Hpos).
        destruct (descend fuel n box c) as [c' p'] eqn:Hd.
        destruct (IH c c' p' Hokc ltac:(lia) Hd) as (Hok' & Hn' & Hlv' & Hp' & Hby).
        intros [= <- <-]. apply child_Some in Hc as Hl. (split; [|split; [|split; [|split]]]); try reflexivity.
        -- apply (onPath_ok o index (Some c) c' Hok Hl Hok'); simpl; lia.
        -- apply (onPath_placed o index (Some c) c' n p' Hl Hp').
        -- change (placedBy n box (onPath o index c')
                    (ChildIndex (onPath o index c') (Center box) :: p')).
           apply (placedBy_below n box (onPath o index c') c' p');
             [exact Hfit|exact Hlv| |exact Hby].
           change (ChildIndex (onPath o index c') (Center box)) with index.
           unfold onPath. now rewrite child_withContent_eq.
      * destruct (descend fuel n box (CreateChildOctant o index)) as [c' p'] eqn:Hd.
        destruct (IH _ c' p' (CreateChildOctant_ok o index) ltac:(simpl; lia) Hd)
          as (Hok' & Hn' & Hlv' & Hp' & Hby).
        intros [= <- <-]. pose proof (child_None o index Hlt Hc) as Hl. (split; [|split; [|split; [|split]]]); try reflexivity.
        -- apply (onPath_ok o index None c' Hok Hl Hok'); simpl in *; lia.
        -- apply (onPath_placed o index None c' n p' Hl Hp').
        -- change (placedBy n box (onPath o index c')
                    (ChildIndex (onPath o index c') (Center box) :: p')).
           apply (placedBy_below n box (onPath o index c') c' p');
             [exact Hfit|exact Hlv| |exact Hby].
           change (ChildIndex (onPath o index c') (Center box)) with index.
           unfold onPath. now rewrite child_withContent_eq.
Qed.
End TreeOps.

Section Removal.
Context `{BoundingBoxOps} `{OctreePolicy}.

Lemma erase_length (n : NodePtr) (l : list NodePtr) :
  n ∈ l → S (length (erase n l)) = length l.
Proof.
  intros Hin. apply erase_Permutation in Hin.
  apply Permutation_length in Hin. simpl in Hin. lia.
Qed.

Lemma keptSlot_count (c : Octant) :
  octant_ok c → slotCount (keptSlot c) = numNodes c.
Proof.
  intros Hok. unfold keptSlot. destruct (isEmptyOctant c) eqn:E; [|reflexivity].
  simpl. unfold isEmptyOctant in E. apply andb_true_iff in E as [E _].
  apply Nat.eqb_eq in E. lia.
Qed.

Lemma keptSlot_placed (index : nat) (c : Octant) :
  octant_ok c → slotPlaced index (keptSlot c) = below index (placed c).
Proof.
  intros Hok. unfold keptSlot. destruct (isEmptyOctant c) eqn:E; [|reflexivity].
  simpl. unfold isEmptyOctant in E. apply andb_true_iff in E as [E _].
  apply Nat.eqb_eq in E. destruct (octant_ok_empty c Hok E) as [-> _]. reflexivity.
Qed.

(** The removal: the hierarchy stays well-formed and loses exactly the
    object at its position. *)
Lemma removeAt_spec (p : OctantPath) (n : NodePtr) :
  ∀ o, octant_ok o → (n, p) ∈ placed o →
    octant_ok (removeAt p n o) ∧ S (numNodes (removeAt p n o)) = numNodes o ∧
    level (removeAt p n o) = level o ∧
    placed o ≡ₚ (n, p) :: placed (removeAt p n o).
Proof.
  induction p as [|index p IH]; intros o Hok Hin; simpl.
  - apply elem_of_placed_here in Hin.
    pose proof (octant_ok_counts o Hok) as Hc. unfold countsAddUp in Hc.
    pose proof (erase_length n (nodes o) Hin) as Hlen.
    (split; [|split; [|split]]); try reflexivity.
    + destruct Hok as [o Hl Hcount Hlv Hch]. constructor; auto.
      unfold countsAddUp in *. simpl. lia.
    + simpl. lia.
    + rewrite !placed_eq. simpl.
      rewrite (erase_Permutation n (nodes o) Hin) at 1. reflexivity.
  - apply elem_of_placed_below in Hin as (c & Hc & Hin). rewrite Hc.
    destruct (octant_ok_child o index c Hok Hc) as (Hokc & Hlvc & Hpos).
    destruct (IH c Hokc Hin) as (Hok' & Hn' & Hlv' & Hp').
    set (c' := removeAt p n c) in *.
    apply child_Some in Hc as Hl.
    pose proof (lookup_lt_Some _ _ _ Hl) as Hlt.
    pose proof (octant_ok_counts o Hok) as Hcount. unfold countsAddUp in Hcount.
    pose proof (sum_slots_insert (children o) index (Some c) (keptSlot c') Hl) as Hs.
    rewrite (keptSlot_count c' Hok') in Hs. simpl in Hs.
    (split; [|split; [|split]]); try reflexivity.
    + constructor.
      * simpl. rewrite length_insert. now apply octant_ok_length.
      * unfold countsAddUp. simpl. lia.
      * intros j d E. destruct (decide (index = j)) as [<-|Hne].
        -- rewrite child_withContent_eq in E by exact Hlt.
           unfold keptSlot in E. destruct (isEmptyOctant c') eqn:Hemp; [discriminate|].
           injection E as <-.
           pose proof (octant_ok_child_level o index c Hok Hc).
           split; [simpl; lia|split; [lia|]].
           now apply octant_ok_nonempty.
        -- rewrite child_withContent_ne in E by exact Hne.
           destruct (octant_ok_child o j d Hok E) as (_ & ? & ?).
           pose proof (octant_ok_child_level o j d Hok E). auto.
      * intros j d E. destruct (decide (index = j)) as [<-|Hne].
        -- rewrite child_withContent_eq in E by exact Hlt.
           unfold keptSlot in E. destruct (isEmptyOctant c'); [discriminate|].
           now injection E as <-.
        -- rewrite child_withContent_ne in E by exact Hne.
           now destruct (octant_ok_child o j d Hok E).
    + simpl. lia.
    + rewrite !placed_eq. simpl.
      rewrite (placedSlots_split 0 index (children o) (Some c) Hl).
      rewrite (placedSlots_insert 0 index (children o) (keptSlot c') Hlt).
      simpl. rewrite (keptSlot_placed index c' Hok').
      unfold below at 1. rewrite Hp'. simpl.
      rewrite <- !Permutation_middle. reflexivity.
Qed.

Lemma CreateChildOctant_empty (o : Octant) (index : nat) :
  isEmptyOctant (CreateChildOctant o index) = true
  ∧ placed (CreateChildOctant o index) = [].
Proof. split; reflexivity. Qed.

(** Removing an object right after the descent that placed it gives the
    octant back as it was: the octants the descent created are pruned, the
    others keep their children and counts. *)
Lemma descend_removeAt (fuel : nat) (n : NodePtr) (box : BoundingBox) :
  ∀ o o' p,
    octant_ok o → n ∉ (placed o).*1 →
    descend fuel n box o = (o', p) → removeAt p n o' = o.
Proof.
  assert (Hhere : ∀ o, n ∉ (placed o).*1 → removeAt [] n (pushNode n o) = o).
  { intros o Hnin.
    assert (Hn : n ∉ nodes o).
    { intros Hin. apply Hnin. rewrite placed_fst. apply elem_of_app. now left. }
    destruct o as [cb wb c h lv ns ch nn]. unfold pushNode, withContent. simpl in *.
    now rewrite erase_snoc. }
  induction fuel as [|fuel IH]; intros o o' p Hok Hnin; simpl.
  - intros [= <- <-]. now apply Hhere.
  - destruct (FitBoundingBox o box (Size box) || (level o <=? 1)%Z || _) eqn:Hstop.
    + intros [= <- <-]. now apply Hhere.
    + set (index := ChildIndex o (Center box)).
      assert (Hlt : index < length (children o)).
      { rewrite (octant_ok_length o Hok). apply ChildIndex_lt. }
      destruct (child o index) as [c|] eqn:Hc.
      * destruct (octant_ok_child o index c Hok Hc) as (Hokc & Hlvc & Hpos).
        destruct (descend fuel n box c) as [c' p'] eqn:Hd.
        intros [= <- <-]. simpl.
        unfold onPath. rewrite child_withContent_eq by exact Hlt.
        assert (Hninc : n ∉ (placed c).*1).
        { intros Hin. apply Hnin. rewrite placed_fst. apply elem_of_app. right.
          apply child_Some in Hc. unfold overSlots.
          apply list_elem_of_In, in_flat_map. exists (Some c). split.
          - apply list_elem_of_In. eapply list_elem_of_lookup_2. exact Hc.
          - apply list_elem_of_In. exact Hin. }
        rewrite (IH c c' p' Hokc Hninc Hd).
        assert (Hne : isEmptyOctant c = false).
        { unfold isEmptyOctant. destruct (numNodes c); [lia|]. reflexivity. }
        unfold keptSlot. rewrite Hne. simpl. rewrite list_insert_insert_eq.
        rewrite (list_insert_id (children o) index (Some c))
          by (apply child_Some; exact Hc).
        destruct o; reflexivity.
      * destruct (descend fuel n box (CreateChildOctant o index)) as [c' p'] eqn:Hd.
        intros [= <- <-]. simpl.
        unfold onPath. rewrite child_withContent_eq by exact Hlt.
        assert (Hninc : n ∉ (placed (CreateChildOctant o index)).*1).
        { intros Hin. inversion Hin. }
        rewrite (IH _ c' p' (CreateChildOctant_ok o index) Hninc Hd).
        unfold keptSlot.
        change (isEmptyOctant (CreateChildOctant o index)) with true.
        simpl. rewrite list_insert_insert_eq.
        rewrite (list_insert_id (children o) index None)
          by (apply child_None; [exact Hlt|exact Hc]).
        destruct o; reflexivity.
Qed.

(** The fuel of the descent is never what stops it: any fuel that covers
    the level of the start gives the same result. *)
Lemma descend_fuel (fuel fuel' : nat) (n : NodePtr) (box : BoundingBox) :
  ∀ o, octant_ok o → (level o ≤ Z.of_nat fuel)%Z → (level o ≤ Z.of_nat fuel')%Z →
    descend fuel n box o = descend fuel' n box o.
Proof.
  revert fuel'. induction fuel as [|fuel IH]; intros [|fuel'] o Hok Hf Hf'; simpl;
    try reflexivity.
  - rewrite (proj2 (Z.leb_le (level o) 1)) by lia. now rewrite orb_true_r.
  - rewrite (proj2 (Z.leb_le (level o) 1)) by lia. now rewrite orb_true_r.
  - destruct (FitBoundingBox o box (Size box) || (level o <=? 1)%Z || _) eqn:Hstop;
      [reflexivity|].
    destruct (child o (ChildIndex o (Center box))) as [c|] eqn:Hc.
    + destruct (octant_ok_child o _ c Hok Hc) as (Hokc & Hlvc & _).
      rewrite (IH fuel' c Hokc) by lia. reflexivity.
    + rewrite (IH fuel' _ (CreateChildOctant_ok o _)) by (simpl; lia). reflexivity.
Qed.
End Removal.

(** ** The contract of FitBoundingBox while the objects are at rest *)

Section Contract.
Context `{BoundingBoxOps} `{OctreePolicy}.

Lemma elem_of_erase (n m : NodePtr) (l : list NodePtr) :
  n ≠ m → n ∈ l → n ∈ erase m l.
Proof.
  intros Hne. induction l as [|k l IH]; intros Hin; [inversion Hin|]. simpl.
  destruct (decide (k = m)) as [->|Hk].
  - apply elem_of_cons in Hin as [->|Hin]; [congruence|exact Hin].
  - apply elem_of_cons in Hin as [->|Hin]; [now left|right; auto].
Qed.

(** An object that honours the contract at a position is listed there. *)
Lemma placedBy_placed (n : NodePtr) (box : BoundingBox) (o : Octant) (p : OctantPath) :
  placedBy n box o p → (n, p) ∈ placed o.
Proof.
  induction 1 as [o Hstay Hin|o c p Hfit Hlv Hc Hby IH].
  - now apply elem_of_placed_here.
  - apply elem_of_placed_below. eauto.
Qed.

(** Replacing the counts and the content of an octant by ones that keep
    what the contract reads keeps the contract. *)
Lemma placedBy_here_content (n : NodePtr) (box : BoundingBox) (o : Octant)
    ns ch count :
  placedBy n box o [] → n ∈ ns → placedBy n box (withContent o ns ch count) [].
Proof.
  intros Hby Hin. inversion Hby as [o' Hstay Hn|]; subst.
  now apply placedBy_here.
Qed.

Lemma placedBy_below_content (n : NodePtr) (box : BoundingBox) (o c : Octant)
    (p : OctantPath) ns ch count :
  FitBoundingBox o box (Size box) = false → (1 < level o)%Z →
  child (withContent o ns ch count) (ChildIndex o (Center box)) = Some c →
  placedBy n box c p →
  placedBy n box (withContent o ns ch count) (ChildIndex o (Center box) :: p).
Proof.
  intros Hfit Hlv Hc Hby.
  exact (placedBy_below n box (withContent o ns ch count) c p Hfit Hlv Hc Hby).
Qed.

(** The descent for one object leaves the others where the contract put
    them. *)
Lemma descend_keeps (fuel : nat) (m : NodePtr) (boxm : BoundingBox)
    (n : NodePtr) (box : BoundingBox) :
  ∀ o o' pm p,
    octant_ok o → descend fuel m boxm o = (o', pm) →
    placedBy n box o p → placedBy n box o' p.
Proof.
  assert (Hpush : ∀ o p, placedBy n box o p → placedBy n box (pushNode m o) p).
  { intros o p Hby. inversion Hby as [o1 Hstay Hin|o1 c q Hfit Hlv Hc Hq]; subst.
    - apply placedBy_here_content; [exact Hby|]. apply elem_of_app. now left.
    - exact (placedBy_below_content n box o c q _ _ _ Hfit Hlv Hc Hq). }
  induction fuel as [|fuel IH]; intros o o' pm p Hok; simpl.
  - intros [= <- <-]. apply Hpush.
  - destruct (FitBoundingBox o boxm (Size boxm) || (level o <=? 1)%Z || _).
    + intros [= <- <-]. apply Hpush.
    + assert (Hlt : ChildIndex o (Center boxm) < length (children o)).
      { rewrite (octant_ok_length o Hok). apply ChildIndex_lt. }
      intros Hd Hby.
      inversion Hby as [o1 Hstay Hin|o1 d r Hfit Hlv Hc Hr]; subst.
      * destruct (child o (ChildIndex o (Center boxm))) as [c|];
          destruct (descend fuel m boxm _) as [c' q]; injection Hd as <- <-;
          now apply placedBy_here_content.
      * destruct (decide (ChildIndex o (Center boxm) = ChildIndex o (Center box)))
          as [E|Hne].
        -- rewrite E in *. rewrite Hc in Hd.
           destruct (octant_ok_child o _ d Hok Hc) as (Hokd & _ & _).
           destruct (descend fuel m boxm d) as [c' q] eqn:Hdc. injection Hd as <- <-.
           apply (placedBy_below_content n box o c' r); auto.
           ++ now rewrite child_withContent_eq.
           ++ exact (IH d c' q r Hokd Hdc Hr).
        -- destruct (child o (ChildIndex o (Center boxm))) as [c|];
             destruct (descend fuel m boxm _) as [c' q]; injection Hd as <- <-;
             apply (placedBy_below_content n box o d r); auto;
             now rewrite child_withContent_ne.
Qed.

(** The removal of one object leaves the others where the contract put
    them. *)
Lemma removeAt_keeps (pm : OctantPath) (m n : NodePtr) (box : BoundingBox) :
  n ≠ m →
  ∀ o p, octant_ok o → (m, pm) ∈ placed o →
         placedBy n box o p → placedBy n box (removeAt pm m o) p.
Proof.
  intros Hne. induction pm as [|index pm IH]; intros o p Hok Hm Hby; simpl.
  - inversion Hby as [o1 Hstay Hin|o1 d r Hfit Hlv Hc Hr]; subst.
    + apply placedBy_here_content; [exact Hby|]. now apply elem_of_erase.
    + exact (placedBy_below_content n box o d r _ _ _ Hfit Hlv Hc Hr).
  - apply elem_of_placed_below in Hm as (c & Hc & Hm). rewrite Hc.
    destruct (octant_ok_child o index c Hok Hc) as (Hokc & _ & _).
    assert (Hlt : index < length (children o)).
    { apply child_Some in Hc. eapply lookup_lt_Some. exact Hc. }
    inversion Hby as [o1 Hstay Hin|o1 d r Hfit Hlv Hd Hr]; subst.
    + now apply placedBy_here_content.
    + apply (placedBy_below_content n box o
               (if decide (index = ChildIndex o (Center box))
                then removeAt pm m c else d) r); auto.
      * destruct (decide (index = ChildIndex o (Center box))) as [E|Hne'].
        -- rewrite <- E in *. rewrite child_withContent_eq by exact Hlt.
           assert (d = c) by congruence. subst d.
           pose proof (IH c r Hokc Hm Hr) as Hkept.
           destruct (removeAt_spec pm m c Hokc Hm) as (Hok' & _ & _ & _).
           unfold keptSlot.
           destruct (isEmptyOctant (removeAt pm m c)) eqn:Hemp; [|reflexivity].
           exfalso. apply placedBy_placed in Hkept.
           unfold isEmptyOctant in Hemp. apply andb_true_iff in Hemp as [Hz _].
           apply Nat.eqb_eq in Hz.
           destruct (octant_ok_empty _ Hok' Hz) as [Hnil _].
           rewrite Hnil in Hkept. inversion Hkept.
        -- now rewrite child_withContent_ne.
      * destruct (decide (index = ChildIndex o (Center box))) as [E|Hne'];
          [|exact Hr].
        rewrite <- E in *. assert (d = c) by congruence. subst d.
        exact (IH c r Hokc Hm Hr).
Qed.
End Contract.

(** ** The operations keep a scene well-formed *)

Section SceneFacts.
Context `{BoundingBoxOps} `{OctreePolicy}.

Lemma setOctant_same (h : Heap) (n : NodePtr) (p : option OctantPath) :
  octant (setOctant h n p n) = p.
Proof. unfold setOctant. now rewrite decide_True. Qed.

Lemma setOctant_other (h : Heap) (n m : NodePtr) (p : option OctantPath) :
  m ≠ n → setOctant h n p m = h m.
Proof. intros Hne. unfold setOctant. now rewrite decide_False. Qed.

(** An untracked object is listed nowhere. *)
Lemma untracked_not_placed (s : Scene) (n : NodePtr) :
  scene_ok s → octant (objects s n) = None → n ∉ (placed (root (octree s))).*1.
Proof.
  intros Hok Hnone Hin. apply list_elem_of_fmap in Hin as ([m p] & -> & Hin).
  apply (ok_backref s Hok) in Hin. simpl in Hnone. congruence.
Qed.

Lemma tracked_placed (s : Scene) (n : NodePtr) :
  scene_ok s → octant (objects s n) ≠ None ↔ n ∈ (placed (root (octree s))).*1.
Proof.
  intros Hok. split.
  - destruct (octant (objects s n)) as [p|] eqn:E; [|congruence]. intros _.
    apply (ok_backref s Hok) in E. apply list_elem_of_fmap. exists (n, p). auto.
  - intros Hin E. now apply (untracked_not_placed s n Hok E).
Qed.

(** The scene after the insertion of an untracked object. *)
Lemma InsertNode_untracked (n : NodePtr) (s : Scene) :
  octant (objects s n) = None →
  InsertNode n s
  = let rp := descend (Z.to_nat (level (root (octree s)))) n
                      (WorldBoundingBox (objects s n)) (root (octree s)) in
    withRoot s rp.1 (setOctant (objects s) n (Some rp.2)).
Proof.
  intros E. unfold InsertNode. rewrite E. simpl.
  destruct (descend _ n _ (root (octree s))) as [r p]. reflexivity.
Qed.

Lemma InsertNode_ok (n : NodePtr) (s : Scene) :
  scene_ok s → octant (objects s n) = None → scene_ok (InsertNode n s).
Proof.
  intros Hok E. rewrite (InsertNode_untracked n s E).
  destruct (descend _ n _ (root (octree s))) as [r p] eqn:Hd. simpl.
  assert (Hfuel : (level (root (octree s))
                   ≤ Z.of_nat (Z.to_nat (level (root (octree s)))))%Z) by lia.
  destruct (descend_spec _ n _ _ r p (ok_tree s Hok) Hfuel Hd)
    as (Hok' & _ & _ & Hp & _).
  pose proof (untracked_not_placed s n Hok E) as Hnin.
  constructor; simpl.
  - exact Hok'.
  - rewrite Hp. simpl. apply NoDup_cons. split; [exact Hnin|apply (ok_once s Hok)].
  - intros m q. rewrite Hp, elem_of_cons. destruct (decide (m = n)) as [->|Hne].
    + rewrite setOctant_same. split.
      * intros [= ->]. now left.
      * intros [[= ->]|Hin]; [reflexivity|]. destruct Hnin.
        apply list_elem_of_fmap. exists (n, q). auto.
    + rewrite setOctant_other by exact Hne. rewrite (ok_backref s Hok). split.
      * now right.
      * intros [[= -> _]|Hin]; [congruence|exact Hin].
  - apply (ok_queue s Hok).
Qed.

Lemma InsertNode_octant_other (n m : NodePtr) (s : Scene) :
  m ≠ n → objects (InsertNode n s) m = objects s m.
Proof.
  intros Hne. unfold InsertNode.
  destruct (insertFrom _ n _ (root (octree s))) as [r p]. simpl.
  now apply setOctant_other.
Qed.

Lemma InsertNode_queue (n : NodePtr) (s : Scene) :
  updateQueue (octree (InsertNode n s)) = updateQueue (octree s).
Proof.
  unfold InsertNode. destruct (insertFrom _ n _ (root (octree s))) as [r p].
  reflexivity.
Qed.

Lemma RemoveNode_ok (n : NodePtr) (s : Scene) :
  scene_ok s → scene_ok (RemoveNode n s).
Proof.
  intros Hok. unfold RemoveNode.
  destruct (octant (objects s n)) as [p|] eqn:E; [|exact Hok].
  pose proof (proj1 (ok_backref s Hok n p) E) as Hin.
  destruct (removeAt_spec p n _ (ok_tree s Hok) Hin) as (Hok' & _ & _ & Hp).
  pose proof (ok_once s Hok) as Hnd. rewrite Hp in Hnd. simpl in Hnd.
  apply NoDup_cons in Hnd as [Hnin Hnd].
  constructor; simpl.
  - exact Hok'.
  - exact Hnd.
  - intros m q. destruct (decide (m = n)) as [->|Hne].
    + rewrite setOctant_same. split; [discriminate|]. intros Hin'.
      destruct Hnin. apply list_elem_of_fmap. exists (n, q). auto.
    + rewrite setOctant_other by exact Hne. rewrite (ok_backref s Hok), Hp.
      rewrite elem_of_cons. split.
      * intros [[= -> _]|Hin']; [congruence|exact Hin'].
      * now right.
  - apply (ok_queue s Hok).
Qed.

Lemma RemoveNode_untracks (n : NodePtr) (s : Scene) :
  octant (objects (RemoveNode n s) n) = None.
Proof.
  unfold RemoveNode. destruct (octant (objects s n)) as [p|] eqn:E; [|exact E].
  simpl. apply setOctant_same.
Qed.

Lemma QueueUpdate_ok (n : NodePtr) (s : Scene) :
  scene_ok s → scene_ok (QueueUpdate n s).
Proof.
  intros Hok. unfold QueueUpdate.
  destruct (decide (n ∈ updateQueue (octree s))) as [Hin|Hnin]; [exact Hok|].
  destruct Hok as [Ht Ho Hb Hq]. constructor; simpl; auto.
  apply NoDup_app. repeat split; auto.
  - intros m Hm Hm'. apply list_elem_of_singleton in Hm'. congruence.
  - apply NoDup_singleton.
Qed.

Lemma CancelUpdate_ok (n : NodePtr) (s : Scene) :
  scene_ok s → scene_ok (CancelUpdate n s).
Proof.
  intros [Ht Ho Hb Hq]. constructor; simpl; auto. now apply NoDup_filter.
Qed.

Lemma reinsert_ok (s : Scene) (n : NodePtr) : scene_ok s → scene_ok (reinsert s n).
Proof.
  intros Hok. unfold reinsert. destruct (needsReinsertion s n); [|exact Hok].
  apply InsertNode_ok; [now apply RemoveNode_ok|apply RemoveNode_untracks].
Qed.

Lemma fold_reinsert_ok (l : list NodePtr) (s : Scene) :
  scene_ok s → scene_ok (fold_left reinsert l s).
Proof.
  revert s. induction l as [|n l IH]; intros s Hok; simpl; [exact Hok|].
  apply IH. now apply reinsert_ok.
Qed.

Lemma Update_ok (s : Scene) : scene_ok s → scene_ok (Update s).
Proof.
  intros Hok. unfold Update.
  destruct (fold_reinsert_ok (updateQueue (octree s)) s Hok) as [Ht Ho Hb Hq].
  constructor; simpl; auto. apply NoDup_nil_2.
Qed.

Lemma fold_InsertNode_ok (l : list NodePtr) (s : Scene) :
  NoDup l → scene_ok s → (∀ n, n ∈ l → octant (objects s n) = None) →
  scene_ok (fold_left (λ s n, InsertNode n s) l s).
Proof.
  revert s. induction l as [|n l IH]; intros s Hnd Hok Hun; simpl; [exact Hok|].
  apply NoDup_cons in Hnd as [Hnin Hnd]. apply IH; [exact Hnd| |].
  - apply InsertNode_ok; [exact Hok|]. apply Hun. now left.
  - intros m Hm. rewrite InsertNode_octant_other by (intros ->; contradiction).
    apply Hun. now right.
Qed.

Lemma detach_octant (l : list NodePtr) (h : Heap) (m : NodePtr) :
  octant (fold_left (λ h n, setOctant h n None) l h m)
  = if decide (m ∈ l) then None else octant (h m).
Proof.
  revert h. induction l as [|n l IH]; intros h; simpl; [reflexivity|].
  rewrite IH. destruct (decide (m ∈ l)) as [Hin|Hnin].
  - rewrite decide_True by now right. reflexivity.
  - destruct (decide (m = n)) as [->|Hne].
    + rewrite decide_True by now left. apply setOctant_same.
    + rewrite decide_False by (rewrite elem_of_cons; tauto).
      now rewrite setOctant_other.
Qed.

(** The scene [Resize] reinserts into: the root alone, every object
    untracked. *)
Lemma Resize_start_ok (boundingBox : BoundingBox) (lv : Z) (s : Scene) :
  scene_ok s →
  let tracked := CollectNodesAll [] (root (octree s)) in
  let detached := fold_left (λ h n, setOctant h n None) tracked (objects s) in
  let r := Initialize (withContent (root (octree s)) [] (replicate NUM_OCTANTS None) 0)
                      boundingBox lv in
  scene_ok (withRoot s r detached) ∧ NoDup tracked ∧ ∀ n, octant (detached n) = None.
Proof.
  intros Hok tracked detached r.
  assert (Hun : ∀ n, octant (detached n) = None).
  { intros n. unfold detached. rewrite detach_octant.
    destruct (decide (n ∈ tracked)) as [Hin|Hnin]; [reflexivity|].
    destruct (octant (objects s n)) as [p|] eqn:E; [|reflexivity].
    destruct Hnin. unfold tracked. rewrite CollectNodesAll_placed.
    apply (tracked_placed s n Hok). congruence. }
  split; [|split; [|exact Hun]].
  - constructor; simpl.
    + apply Initialize_ok.
    + apply NoDup_nil_2.
    + intros n p. rewrite Hun. split; [discriminate|]. intros Hin. inversion Hin.
    + apply (ok_queue s Hok).
  - unfold tracked. rewrite CollectNodesAll_placed. apply (ok_once s Hok).
Qed.

Lemma Resize_ok (boundingBox : BoundingBox) (numLevels : Z) (s : Scene) :
  scene_ok s → scene_ok (Resize boundingBox numLevels s).
Proof.
  intros Hok. unfold Resize.
  destruct (Resize_start_ok boundingBox (ClampLevels numLevels) s Hok)
    as (Hok' & Hnd & Hun).
  apply fold_InsertNode_ok; [exact Hnd|exact Hok'|]. intros n _. apply Hun.
Qed.

Lemma newOctree_ok (boundingBox : BoundingBox) (numLevels : Z) (h : Heap) :
  (∀ n, octant (h n) = None) → scene_ok (mkScene (newOctree boundingBox numLevels) h).
Proof.
  intros Hun. constructor; simpl.
  - now apply bare_ok.
  - apply NoDup_nil_2.
  - intros n p. rewrite Hun. split; [discriminate|]. intros Hin. inversion Hin.
  - apply NoDup_nil_2.
Qed.

Lemma SetWorldBoundingBox_ok (n : NodePtr) (box : BoundingBox) (s : Scene) :
  scene_ok s → scene_ok (SetWorldBoundingBox n box s).
Proof.
  intros [Ht Ho Hb Hq]. constructor; simpl; auto.
  intros m p. rewrite <- Hb. destruct (decide (m = n)) as [->|]; reflexivity.
Qed.

Lemma SetFlags_ok (n : NodePtr) (flags : N) (s : Scene) :
  scene_ok s → scene_ok (SetFlags n flags s).
Proof.
  intros [Ht Ho Hb Hq]. constructor; simpl; auto.
  intros m p. rewrite <- Hb. destruct (decide (m = n)) as [->|]; reflexivity.
Qed.

(** Every scene the operations lead to is well-formed. *)
Lemma reachableWhen_ok (mayMove : Scene → NodePtr → Prop) (s : Scene) :
  reachableWhen mayMove s → scene_ok s.
Proof.
  induction 1.
  - now apply newOctree_ok.
  - now apply InsertNode_ok.
  - now apply RemoveNode_ok.
  - now apply QueueUpdate_ok.
  - now apply CancelUpdate_ok.
  - now apply Update_ok.
  - now apply Resize_ok.
  - now apply SetWorldBoundingBox_ok.
  - now apply SetFlags_ok.
Qed.

Lemma reachable_ok (s : Scene) : reachable s → scene_ok s.
Proof. apply reachableWhen_ok. Qed.

Lemma reachableAtRest_reachable (s : Scene) : reachableAtRest s → reachable s.
Proof.
  unfold reachableAtRest, reachable. induction 1.
  - now apply reach_new.
  - now apply reach_InsertNode.
  - now apply reach_RemoveNode.
  - now apply reach_QueueUpdate.
  - now apply reach_CancelUpdate.
  - now apply reach_Update.
  - now apply reach_Resize.
  - now apply reach_SetWorldBoundingBox.
  - now apply reach_SetFlags.
Qed.
End SceneFacts.

Section AtRest.
Context `{BoundingBoxOps} `{OctreePolicy}.

Lemma setOctant_box (h : Heap) (n m : NodePtr) (p : option OctantPath) :
  WorldBoundingBox (setOctant h n p m) = WorldBoundingBox (h m).
Proof. unfold setOctant. destruct (decide (m = n)) as [->|]; reflexivity. Qed.

Lemma contract_InsertNode (m : NodePtr) (s : Scene) :
  scene_ok s → contractHolds s → octant (objects s m) = None →
  contractHolds (InsertNode m s).
Proof.
  intros Hok Hc E. rewrite (InsertNode_untracked m s E).
  destruct (descend _ m _ (root (octree s))) as [r pm] eqn:Hd. simpl.
  assert (Hfuel : (level (root (octree s))
                   ≤ Z.of_nat (Z.to_nat (level (root (octree s)))))%Z) by lia.
  destruct (descend_spec _ m _ _ r pm (ok_tree s Hok) Hfuel Hd)
    as (_ & _ & _ & _ & Hby).
  intros n p. simpl. rewrite setOctant_box.
  destruct (decide (n = m)) as [->|Hne].
  - rewrite setOctant_same. now intros [= <-].
  - rewrite setOctant_other by exact Hne. intros Hn.
    apply (descend_keeps _ m _ n _ _ r pm p (ok_tree s Hok) Hd). now apply Hc.
Qed.

Lemma contract_RemoveNode (m : NodePtr) (s : Scene) :
  scene_ok s → contractHolds s → contractHolds (RemoveNode m s).
Proof.
  intros Hok Hc. unfold RemoveNode.
  destruct (octant (objects s m)) as [pm|] eqn:E; [|exact Hc].
  intros n p. simpl. rewrite setOctant_box.
  destruct (decide (n = m)) as [->|Hne].
  - rewrite setOctant_same. discriminate.
  - rewrite setOctant_other by exact Hne. intros Hn.
    apply removeAt_keeps; [exact Hne|apply (ok_tree s Hok)| |now apply Hc].
    now apply (ok_backref s Hok).
Qed.

Lemma contract_reinsert (s : Scene) (n : NodePtr) :
  scene_ok s → contractHolds s → contractHolds (reinsert s n).
Proof.
  intros Hok Hc. unfold reinsert. destruct (needsReinsertion s n); [|exact Hc].
  apply contract_InsertNode.
  - now apply RemoveNode_ok.
  - now apply contract_RemoveNode.
  - apply RemoveNode_untracks.
Qed.

Lemma contract_fold_reinsert (l : list NodePtr) (s : Scene) :
  scene_ok s → contractHolds s → contractHolds (fold_left reinsert l s).
Proof.
  revert s. induction l as [|n l IH]; intros s Hok Hc; simpl; [exact Hc|].
  apply IH; [now apply reinsert_ok|now apply contract_reinsert].
Qed.

Lemma contract_fold_InsertNode (l : list NodePtr) (s : Scene) :
  NoDup l → scene_ok s → contractHolds s →
  (∀ n, n ∈ l → octant (objects s n) = None) →
  contractHolds (fold_left (λ s n, InsertNode n s) l s).
Proof.
  revert s. induction l as [|n l IH]; intros s Hnd Hok Hc Hun; simpl; [exact Hc|].
  apply NoDup_cons in Hnd as [Hnin Hnd].
  assert (En : octant (objects s n) = None) by (apply Hun; now left).
  apply IH; [exact Hnd|now apply InsertNode_ok|now apply contract_InsertNode|].
  intros m Hm. rewrite InsertNode_octant_other by (intros ->; contradiction).
  apply Hun. now right.
Qed.

(** While the tracked objects are at rest, every one of them honours the
    contract at the octant recorded on it. *)
Lemma reachableAtRest_contract (s : Scene) : reachableAtRest s → contractHolds s.
Proof.
  unfold reachableAtRest.
  induction 1 as [boundingBox numLevels h Hun|n s Hr IH E|n s Hr IH|n s Hr IH
                 |n s Hr IH|s Hr IH|boundingBox numLevels s Hr IH
                 |n box s Hr IH E|n flags s Hr IH];
    try (pose proof (reachableWhen_ok _ s Hr) as Hok).
  - intros n p. simpl. now rewrite Hun.
  - now apply contract_InsertNode.
  - now apply contract_RemoveNode.
  - unfold QueueUpdate. now destruct (decide _).
  - exact IH.
  - intros n p. apply (contract_fold_reinsert (updateQueue (octree s)) s Hok IH).
  - unfold Resize.
    destruct (Resize_start_ok boundingBox (ClampLevels numLevels) s Hok)
      as (Hok' & Hnd & Hun).
    apply contract_fold_InsertNode; [exact Hnd|exact Hok'| |intros n _; apply Hun].
    intros n p. simpl. now rewrite Hun.
  - intros m p. simpl. destruct (decide (m = n)) as [->|Hne].
    + simpl. now rewrite E.
    + apply IH.
  - intros m p. simpl. destruct (decide (m = n)) as [->|Hne]; apply IH.
Qed.
End AtRest.

(** ** Properties of the reachable scenes *)

Lemma filter_agree {A : Type} (P Q : A → Prop) `{∀ a, Decision (P a)}
    `{∀ a, Decision (Q a)} (l : list A) :
  (∀ a, a ∈ l → P a ↔ Q a) → filter P l = filter Q l.
Proof.
  induction l as [|a l IH]; intros Hl; [reflexivity|].
  rewrite !filter_cons, IH by (intros b Hb; apply Hl; now right).
  destruct (decide (P a)) as [HP|HP], (decide (Q a)) as [HQ|HQ]; try reflexivity;
    destruct (Hl a ltac:(now left)); tauto.
Qed.

Lemma lookup_level (p : OctantPath) :
  ∀ o o', octant_ok o → lookupOctant p o = Some o' →
    level o' = (level o - Z.of_nat (length p))%Z ∧ (p ≠ [] → (1 ≤ level o')%Z).
Proof.
  induction p as [|index p IH]; intros o o' Hok; simpl.
  - intros [= <-]. split; [lia|congruence].
  - destruct (child o index) as [c|] eqn:Hc; [|discriminate]. intros Hl.
    destruct (octant_ok_child o index c Hok Hc) as (Hokc & Hlv & _).
    pose proof (octant_ok_child_level o index c Hok Hc) as Hone.
    destruct (IH c o' Hokc Hl) as [E Hp]. split; [lia|]. intros _.
    destruct p as [|j p]; [|apply Hp; discriminate].
    simpl in Hl. injection Hl as <-. exact Hone.
Qed.

Section Claims.
Context `{NodeFlagDefs} `{BoundingBoxOps} `{OctreePolicy}.

Lemma scene_ok_counts (s : Scene) : scene_ok s → countInvariant s.
Proof.
  intros Hok p o Hl. apply octant_ok_counts.
  exact (octant_ok_lookup p _ o (ok_tree s Hok) Hl).
Qed.

(** C1: in every scene the operations lead to, and so after every
    [InsertNode], [RemoveNode], [Update] and [Resize], every octant of the
    tree has [numNodes] equal to the length of its [nodes] plus the sum of
    the [numNodes] of its existing children. *)
Theorem numNodes_invariant (s : Scene) :
  reachable s →
  countInvariant s ∧
  (∀ n, octant (objects s n) = None → countInvariant (InsertNode n s)) ∧
  (∀ n, countInvariant (RemoveNode n s)) ∧
  countInvariant (Update s) ∧
  (∀ boundingBox numLevels, countInvariant (Resize boundingBox numLevels s)).
Proof.
  intros Hr. pose proof (reachable_ok s Hr) as Hok.
  split; [|split; [|split; [|split]]].
  - now apply scene_ok_counts.
  - intros n E. apply scene_ok_counts. now apply InsertNode_ok.
  - intros n. apply scene_ok_counts. now apply RemoveNode_ok.
  - apply scene_ok_counts. now apply Update_ok.
  - intros boundingBox numLevels. apply scene_ok_counts. now apply Resize_ok.
Qed.

Lemma visible_true (h : Heap) (nodeFlags : N) (n : NodePtr) :
  visible h nodeFlags n = true ↔
  enabled h n ∧ N.land (Flags (h n)) nodeFlags ≠ 0%N.
Proof.
  unfold visible, enabled, nonzero.
  now rewrite andb_true_iff, !negb_true_iff, !N.eqb_neq.
Qed.

Section Enclosing.
Context {T : Type} `{Volume T}.
Variables (h : Heap) (volume : T) (nodeFlags : N).

(** With no octant and no object outside the volume and every object
    matching the flags, the traversal lists the enabled objects of the
    hierarchy, in order. *)
Lemma CollectNodes_enclosing (o : Octant) :
  (∀ p o', lookupOctant p o = Some o' → IsInside volume (cullingBox o') ≠ OUTSIDE) →
  (∀ n, n ∈ (placed o).*1 →
        IsInsideFast volume (WorldBoundingBox (h n)) ≠ OUTSIDE
        ∧ N.land (Flags (h n)) nodeFlags ≠ 0%N) →
  CollectNodes h [] o volume nodeFlags = filter (enabled h) (placed o).*1.
Proof.
  induction o as [cb wb c hs lv ns ch nn IH] using Octant_ind.
  intros Hoct Hobj. set (o := mkOctant cb wb c hs lv ns ch nn) in *.
  assert (Hvis : ∀ n, n ∈ (placed o).*1 → visible h nodeFlags n = true ↔ enabled h n).
  { intros n Hn. rewrite visible_true. destruct (Hobj n Hn). tauto. }
  rewrite CollectNodes_eq.
  destruct (IsInside volume (cullingBox o)) eqn:Hin.
  - destruct (Hoct [] o eq_refl Hin).
  - rewrite pushPassing_filter.
    rewrite (fold_left_slots (λ dest c, CollectNodes h dest c volume nodeFlags))
      by (apply Forall_forall; intros slot _ c' _ dest'; apply CollectNodes_app).
    rewrite placed_fst, filter_app, filter_overSlots. simpl. f_equal.
    + apply filter_agree. intros n Hn.
      assert (Hn' : n ∈ (placed o).*1).
      { rewrite placed_fst. apply elem_of_app. now left. }
      unfold passes. rewrite andb_true_iff, negb_true_iff, bool_decide_eq_false.
      rewrite (Hvis n Hn'). destruct (Hobj n Hn'). tauto.
    + apply overSlots_ext. apply Forall_lookup. intros index slot Hl c' ->.
      rewrite Forall_lookup in IH. apply (IH index (Some c') Hl c' eq_refl).
      * intros p o' Hp. apply (Hoct (index :: p) o'). simpl.
        unfold child. simpl. now rewrite Hl.
      * intros n Hn. apply Hobj. rewrite placed_fst. apply elem_of_app. right.
        unfold overSlots. apply list_elem_of_In, in_flat_map. exists (Some c').
        split; [|now apply list_elem_of_In].
        apply list_elem_of_In. eapply list_elem_of_lookup_2. exact Hl.
  - rewrite CollectNodesFlags_placed. now apply filter_agree.
Qed.
End Enclosing.

(** C3: in a reachable scene, for a volume that leaves no octant and no
    tracked object OUTSIDE and flags that match every tracked object,
    [FindNodes] returns the enabled tracked objects, each exactly once. *)
Theorem FindNodes_enclosing {T : Type} `{Volume T} (s : Scene) (volume : T)
    (nodeFlags : N) (dest : list NodePtr) :
  reachable s →
  (∀ p o, lookupOctant p (root (octree s)) = Some o →
          IsInside volume (cullingBox o) ≠ OUTSIDE) →
  (∀ n, octant (objects s n) ≠ None →
        IsInsideFast volume (WorldBoundingBox (objects s n)) ≠ OUTSIDE) →
  (∀ n, octant (objects s n) ≠ None →
        N.land (Flags (objects s n)) nodeFlags ≠ 0%N) →
  NoDup (FindNodes (objects s) (octree s) dest volume nodeFlags) ∧
  ∀ n, n ∈ FindNodes (objects s) (octree s) dest volume nodeFlags ↔
       octant (objects s n) ≠ None ∧ N.land (Flags (objects s n)) NF_ENABLED ≠ 0%N.
Proof.
  intros Hr Hoct Hbox Hflags. pose proof (reachable_ok s Hr) as Hok.
  unfold FindNodes. rewrite CollectNodes_enclosing.
  - split.
    + apply NoDup_filter, (ok_once s Hok).
    + intros n. rewrite list_elem_of_filter, <- (tracked_placed s n Hok).
      unfold enabled. tauto.
  - exact Hoct.
  - intros n Hn. apply (tracked_placed s n Hok) in Hn. auto.
Qed.

(** C5: in a reachable scene, inserting an untracked object and removing it
    at once gives back the tree as it was: the same octants with the same
    counts (and the same object lists), and the object is untracked again. *)
Theorem insert_remove_roundtrip (s : Scene) (n : NodePtr) :
  reachable s → octant (objects s n) = None →
  octantCounts (root (octree (RemoveNode n (InsertNode n s))))
  = octantCounts (root (octree s)) ∧
  root (octree (RemoveNode n (InsertNode n s))) = root (octree s) ∧
  octant (objects (RemoveNode n (InsertNode n s)) n) = None.
Proof.
  intros Hr E. pose proof (reachable_ok s Hr) as Hok.
  assert (Hroot : root (octree (RemoveNode n (InsertNode n s))) = root (octree s)).
  { rewrite (InsertNode_untracked n s E).
    destruct (descend _ n _ (root (octree s))) as [r p] eqn:Hd. simpl.
    unfold RemoveNode. simpl. rewrite setOctant_same. simpl.
    apply (descend_removeAt _ n _ _ r p (ok_tree s Hok)
             (untracked_not_placed s n Hok E) Hd). }
  split; [now rewrite Hroot|]. split; [exact Hroot|]. apply RemoveNode_untracks.
Qed.

Lemma descend_level (fuel : nat) (n : NodePtr) (box : BoundingBox) (o : Octant) :
  level (descend fuel n box o).1 = level o.
Proof.
  destruct fuel as [|fuel]; simpl; [reflexivity|].
  destruct (FitBoundingBox o box (Size box) || (level o <=? 1)%Z || _);
    [reflexivity|].
  destruct (descend fuel n box _); reflexivity.
Qed.

Lemma InsertNode_level (n : NodePtr) (s : Scene) :
  level (root (octree (InsertNode n s))) = level (root (octree s)).
Proof.
  unfold InsertNode.
  destruct (default [] (octant (objects s n))) as [|index start]; simpl.
  - pose proof (descend_level (Z.to_nat (level (root (octree s)))) n
                  (WorldBoundingBox (objects s n)) (root (octree s))) as E.
    destruct (descend _ n _ (root (octree s))). exact E.
  - destruct (child (root (octree s)) index).
    + destruct (insertFrom start n _ _). reflexivity.
    + pose proof (descend_level (Z.to_nat (level (root (octree s)))) n
                    (WorldBoundingBox (objects s n)) (root (octree s))) as E.
      destruct (descend _ n _ (root (octree s))). exact E.
Qed.

Lemma Resize_level (boundingBox : BoundingBox) (numLevels : Z) (s : Scene) :
  level (root (octree (Resize boundingBox numLevels s))) = ClampLevels numLevels.
Proof.
  unfold Resize.
  generalize (fold_left (λ h n, setOctant h n None)
                        (CollectNodesAll [] (root (octree s))) (objects s)).
  intros detached.
  set (s0 := withRoot s _ detached).
  assert (E : level (root (octree s0)) = ClampLevels numLevels) by reflexivity.
  revert E. generalize s0.
  induction (CollectNodesAll [] (root (octree s))) as [|n l IH]; intros s1 E; simpl.
  - exact E.
  - apply IH. now rewrite InsertNode_level.
Qed.

Lemma removeAt_level (p : OctantPath) (n : NodePtr) (o : Octant) :
  level (removeAt p n o) = level o.
Proof.
  destruct p as [|index p]; simpl; [reflexivity|].
  destruct (child o index); reflexivity.
Qed.

Lemma RemoveNode_level (n : NodePtr) (s : Scene) :
  level (root (octree (RemoveNode n s))) = level (root (octree s)).
Proof.
  unfold RemoveNode. destruct (octant (objects s n)); [|reflexivity].
  simpl. apply removeAt_level.
Qed.

Lemma reinsert_level (s : Scene) (n : NodePtr) :
  level (root (octree (reinsert s n))) = level (root (octree s)).
Proof.
  unfold reinsert. destruct (needsReinsertion s n); [|reflexivity].
  now rewrite InsertNode_level, RemoveNode_level.
Qed.

Lemma Update_level (s : Scene) :
  level (root (octree (Update s))) = level (root (octree s)).
Proof.
  unfold Update. simpl. generalize (updateQueue (octree s)). intros q.
  revert s. induction q as [|n q IH]; intros s; simpl; [reflexivity|].
  now rewrite IH, reinsert_level.
Qed.

(** The root keeps the number of levels it was configured with, as the
    policy has clamped it. *)
Lemma configuredWith_level (numLevels : Z) (s : Scene) :
  configuredWith numLevels s → level (root (octree s)) = ClampLevels numLevels.
Proof.
  induction 1 as [| |k n s _ IH _|k n s _ IH|k n s _ IH|k n s _ IH|k s _ IH
                  |k n box s _ IH|k n flags s _ IH].
  - reflexivity.
  - apply Resize_level.
  - now rewrite InsertNode_level.
  - now rewrite RemoveNode_level.
  - unfold QueueUpdate. now destruct (decide _).
  - exact IH.
  - now rewrite Update_level.
  - exact IH.
  - exact IH.
Qed.

Lemma configuredWith_reachable (numLevels : Z) (s : Scene) :
  configuredWith numLevels s → reachable s.
Proof.
  unfold reachable. induction 1.
  - now apply reach_new.
  - now apply reach_Resize.
  - now apply reach_InsertNode.
  - now apply reach_RemoveNode.
  - now apply reach_QueueUpdate.
  - now apply reach_CancelUpdate.
  - now apply reach_Update.
  - now apply reach_SetWorldBoundingBox.
  - now apply reach_SetFlags.
Qed.

Lemma reachable_configuredWith (s : Scene) :
  reachable s → ∃ numLevels, configuredWith numLevels s.
Proof.
  unfold reachable.
  induction 1 as [box k h Hh|n s _ [k IH] E|n s _ [k IH]|n s _ [k IH]|n s _ [k IH]
                  |s _ [k IH]|box k' s _ [k IH]|n box s _ [k IH] _|n flags s _ [k IH]].
  - exists k. now apply conf_new.
  - exists k. now apply conf_InsertNode.
  - exists k. now apply conf_RemoveNode.
  - exists k. now apply conf_QueueUpdate.
  - exists k. now apply conf_CancelUpdate.
  - exists k. now apply conf_Update.
  - exists k'. now apply (conf_Resize _ _ k).
  - exists k. now apply conf_SetWorldBoundingBox.
  - exists k. now apply conf_SetFlags.
Qed.


Lemma filter_ne_id (n : NodePtr) (l : list NodePtr) :
  n ∉ l → filter (λ m, m ≠ n) l = l.
Proof.
  induction l as [|m l IH]; intros Hnin; [reflexivity|].
  apply not_elem_of_cons in Hnin as [Hne Hnin].
  rewrite filter_cons, decide_True by congruence. now rewrite IH.
Qed.

Lemma QueueUpdate_queued (n : NodePtr) (s : Scene) :
  n ∈ updateQueue (octree (QueueUpdate n s)).
Proof.
  unfold QueueUpdate. destruct (decide (n ∈ updateQueue (octree s))); [assumption|].
  simpl. apply elem_of_app. right. now left.
Qed.

(** C8: queueing an object a second time changes nothing, and in a
    reachable scene the object is then in the queue exactly once; cancelling
    an object that is not queued and removing an object that is not tracked
    change nothing.  The operations are total: there is no error result. *)
Theorem queue_cancel_remove_noops (s : Scene) (n : NodePtr) :
  QueueUpdate n (QueueUpdate n s) = QueueUpdate n s ∧
  (reachable s →
     length (filter (λ m, m = n) (updateQueue (octree (QueueUpdate n (QueueUpdate n s))))) = 1) ∧
  (n ∉ updateQueue (octree s) → CancelUpdate n s = s) ∧
  (octant (objects s n) = None → RemoveNode n s = s).
Proof.
  assert (Hidem : QueueUpdate n (QueueUpdate n s) = QueueUpdate n s).
  { unfold QueueUpdate at 1. now rewrite decide_True by apply QueueUpdate_queued. }
  split; [exact Hidem|]. split; [|split].
  - intros Hr. rewrite Hidem.
    pose proof (ok_queue _ (QueueUpdate_ok n s (reachable_ok s Hr))) as Hnd.
    pose proof (QueueUpdate_queued n s) as Hin.
    induction (updateQueue (octree (QueueUpdate n s))) as [|m l IH];
      [inversion Hin|].
    apply NoDup_cons in Hnd as [Hnin Hnd]. rewrite filter_cons.
    destruct (decide (m = n)) as [->|Hne].
    + simpl. f_equal. apply length_zero_iff_nil.
      apply elem_of_nil_inv. intros k Hk.
      apply list_elem_of_filter in Hk as [-> Hk]. contradiction.
    + apply IH; [exact Hnd|]. apply elem_of_cons in Hin as [->|Hin]; [congruence|exact Hin].
  - intros Hnin. unfold CancelUpdate. rewrite filter_ne_id by exact Hnin.
    destruct s as [[q r] hp]. reflexivity.
  - intros E. unfold RemoveNode. now rewrite E.
Qed.
End Claims.

(** ** Ray queries *)

Lemma flt_asym (a b : float) : flt a b = true → flt b a = false.
Proof.
  unfold flt, SFltb.
  destruct a as [[]|[]| |[] ma ea], b as [[]|[]| |[] mb eb];
    simpl; try congruence.
  all: rewrite (Z.compare_antisym ea eb);
    destruct (ea ?= eb)%Z; simpl; try congruence;
    change (Pos.compare_cont Eq mb ma) with (Pos.compare_cont (CompOpp Eq) mb ma);
    rewrite <- (Pos.compare_cont_antisym ma mb Eq);
    destruct (Pos.compare_cont Eq ma mb); simpl; congruence.
Qed.

Ltac order_cases :=
  repeat match goal with
  | |- context [(?a ?= ?b)%Z] => destruct (Z.compare_spec a b); subst
  | |- context [Pos.compare_cont Eq ?a ?b] =>
      change (Pos.compare_cont Eq a b) with (Pos.compare a b);
      destruct (Pos.compare_spec a b); subst
  end; simpl; try congruence; try lia.

(** Among ordered floats, what is below [b] is below everything that is not
    below [b]. *)
Lemma flt_below (a b c : float) :
  ordered a → ordered b → ordered c →
  flt a b = true → flt c b = false → flt a c = true.
Proof.
  unfold flt, SFltb, ordered. intros Ha Hb Hc.
  destruct a as [[]|[]| |[] ma ea], b as [[]|[]| |[] mb eb], c as [[]|[]| |[] mc ec];
    simpl; try congruence.
  all: order_cases.
Qed.

Lemma head_insertAscending (d : float) (l : list float) :
  head (insertAscending d l)
  = Some (match head l with
          | Some e => if flt e d then e else d
          | None => d
          end).
Proof. destruct l as [|e l]; simpl; [reflexivity|]. now destruct (flt e d). Qed.

(** The first element of the sorted distances is the first of the least
    ones. *)
Lemma head_sortAscending (ds : list float) :
  Forall ordered ds →
  match head (sortAscending ds) with
  | None => ds = []
  | Some d =>
      ∃ i, ds !! i = Some d ∧
           (∀ j e, j < i → ds !! j = Some e → flt d e = true) ∧
           (∀ e, e ∈ ds → flt e d = false)
  end.
Proof.
  induction 1 as [|x ds Hx Hds IH]; [reflexivity|].
  simpl. rewrite head_insertAscending.
  destruct (head (sortAscending ds)) as [d|].
  - destruct IH as (i & Hi & Hbefore & Hall).
    assert (Hd : ordered d).
    { rewrite Forall_forall in Hds. apply Hds. eapply list_elem_of_lookup_2. exact Hi. }
    destruct (flt d x) eqn:Hdx.
    + exists (S i). split; [exact Hi|]. split.
      * intros [|j] e Hj Hl; simpl in Hl.
        -- now injection Hl as <-.
        -- apply (Hbefore j e); [lia|exact Hl].
      * intros e He. apply elem_of_cons in He as [->|He]; [now apply flt_asym|auto].
    + exists 0. split; [reflexivity|]. split; [intros j e Hj; lia|].
      intros e He. apply elem_of_cons in He as [->|He]; [apply flt_irrefl|].
      destruct (flt e x) eqn:Hex; [|reflexivity].
      assert (He' : ordered e) by (rewrite Forall_forall in Hds; now apply Hds).
      pose proof (flt_below e x d He' Hx Hd Hex Hdx) as Hed.
      rewrite (Hall e He) in Hed. discriminate.
  - subst ds. exists 0. split; [reflexivity|]. split; [intros j e Hj; lia|].
    intros e He. apply list_elem_of_singleton in He as ->. apply flt_irrefl.
Qed.

(** Folding [nearer] over ordered hits yields their first nearest hit. *)
Lemma fold_nearer_firstNearest (hits : list RaycastResult) :
  Forall (λ r, ordered (distance r)) hits →
  match fold_left nearer hits None with
  | None => hits = []
  | Some r => ∃ i, firstNearest hits i r
  end.
Proof.
  induction hits as [|x l IH] using rev_ind; [reflexivity|].
  intros Hall. apply Forall_app in Hall as [Hl Hx].
  apply Forall_inv in Hx. specialize (IH Hl).
  rewrite fold_left_app. simpl.
  destruct (fold_left nearer l None) as [r|]; simpl.
  - destruct IH as (i & Hi & Hbefore & Hnone).
    assert (Hr : ordered (distance r)).
    { rewrite Forall_forall in Hl. apply Hl. eapply list_elem_of_lookup_2. exact Hi. }
    pose proof (lookup_lt_Some _ _ _ Hi) as Hlt.
    destruct (flt (distance x) (distance r)) eqn:Hxr.
    + assert (Hfar : ∀ e, e ∈ l → flt (distance x) (distance e) = true).
      { intros e He.
        assert (He' : ordered (distance e)).
        { rewrite Forall_forall in Hl. now apply Hl. }
        exact (flt_below _ _ _ Hx Hr He' Hxr (Hnone e He)). }
      exists (length l). split; [|split].
      * now rewrite lookup_app_r, Nat.sub_diag by lia.
      * intros j e Hj Hje. rewrite lookup_app_l in Hje by exact Hj.
        apply Hfar. eapply list_elem_of_lookup_2. exact Hje.
      * intros e He. apply elem_of_app in He as [He|He].
        -- apply flt_asym. now apply Hfar.
        -- apply list_elem_of_singleton in He as ->. apply flt_irrefl.
    + exists i. split; [|split].
      * now rewrite lookup_app_l by exact Hlt.
      * intros j e Hj Hje. rewrite lookup_app_l in Hje by lia. now apply (Hbefore j).
      * intros e He. apply elem_of_app in He as [He|He]; [now apply Hnone|].
        now apply list_elem_of_singleton in He as ->.
  - subst l. exists 0. split; [reflexivity|]. split; [intros j e Hj; lia|].
    intros e He. apply list_elem_of_singleton in He as ->. apply flt_irrefl.
Qed.

Lemma fold_left_flat_map {A B C : Type} (f : A → C → A) (g : B → list C)
    (l : list B) (a : A) :
  fold_left (λ a b, fold_left f (g b) a) l a = fold_left f (flat_map g l) a.
Proof.
  revert a. induction l as [|b l IH]; intros a; simpl; [reflexivity|].
  now rewrite IH, fold_left_app.
Qed.

Section RaycastFacts.
Context `{NodeFlagDefs} {Ray : Type} `{RayOps Ray}.
Variables (heap : Heap) (ray : Ray) (nodeFlags : N) (maxDistance : float).

Lemma CollectNodesRay_eq (dest : list RaycastResult) (o : Octant) :
  CollectNodesRay heap dest o ray nodeFlags maxDistance
  = if HitsBox ray (cullingBox o) maxDistance then
      fold_left
        (λ dest slot,
           match slot with
           | Some c => CollectNodesRay heap dest c ray nodeFlags maxDistance
           | None => dest
           end)
        (children o)
        (fold_left (λ dest n, dest ++ objectHits heap ray nodeFlags maxDistance n)
                   (nodes o) dest)
    else dest.
Proof. destruct o; reflexivity. Qed.

Lemma nearestHit_eq (best : option RaycastResult) (o : Octant) :
  nearestHit heap best o ray nodeFlags maxDistance
  = if HitsBox ray (cullingBox o) maxDistance then
      fold_left
        (λ best slot,
           match slot with
           | Some c => nearestHit heap best c ray nodeFlags maxDistance
           | None => best
           end)
        (children o)
        (fold_left
           (λ best n, fold_left nearer (objectHits heap ray nodeFlags maxDistance n) best)
           (nodes o) best)
    else best.
Proof. destruct o; reflexivity. Qed.

Lemma CollectNodesRay_app (dest : list RaycastResult) (o : Octant) :
  CollectNodesRay heap dest o ray nodeFlags maxDistance
  = dest ++ CollectNodesRay heap [] o ray nodeFlags maxDistance.
Proof.
  revert dest. induction o as [cb wb c h lv ns ch nn IH] using Octant_ind.
  intros dest. rewrite (CollectNodesRay_eq dest), (CollectNodesRay_eq []).
  cbn [cullingBox nodes children].
  destruct (HitsBox ray cb maxDistance); [|now rewrite app_nil_r].
  assert (Hch : Forall (λ slot, ∀ c', slot = Some c' → ∀ dest',
              CollectNodesRay heap dest' c' ray nodeFlags maxDistance
              = dest' ++ CollectNodesRay heap [] c' ray nodeFlags maxDistance) ch).
  { eapply Forall_impl; [exact IH|]. intros slot Hslot c' -> dest'.
    apply (Hslot c' eq_refl). }
  rewrite !(fold_left_slots
              (λ dest c, CollectNodesRay heap dest c ray nodeFlags maxDistance))
    by exact Hch.
  rewrite !fold_left_append. simpl. now rewrite <- app_assoc.
Qed.

(** The hits of a hierarchy: those of the objects of the octant, then those
    of the children. *)
Lemma CollectNodesRay_hits (o : Octant) :
  CollectNodesRay heap [] o ray nodeFlags maxDistance
  = if HitsBox ray (cullingBox o) maxDistance then
      flat_map (objectHits heap ray nodeFlags maxDistance) (nodes o)
      ++ overSlots (λ c, CollectNodesRay heap [] c ray nodeFlags maxDistance)
                   (children o)
    else [].
Proof.
  rewrite CollectNodesRay_eq. destruct (HitsBox ray (cullingBox o) maxDistance);
    [|reflexivity].
  rewrite (fold_left_slots
             (λ dest c, CollectNodesRay heap dest c ray nodeFlags maxDistance))
    by (apply Forall_forall; intros slot _ c' _ dest'; apply CollectNodesRay_app).
  now rewrite fold_left_append.
Qed.

(** Keeping the nearest hit along the traversal is folding [nearer] over
    the hits the traversal collects. *)
Lemma nearestHit_fold (o : Octant) :
  ∀ best, nearestHit heap best o ray nodeFlags maxDistance
          = fold_left nearer (CollectNodesRay heap [] o ray nodeFlags maxDistance) best.
Proof.
  induction o as [cb wb c h lv ns ch nn IH] using Octant_ind.
  intros best. rewrite nearestHit_eq, CollectNodesRay_hits.
  cbn [cullingBox nodes children].
  destruct (HitsBox ray cb maxDistance); [|reflexivity].
  rewrite fold_left_app, fold_left_flat_map.
  generalize (fold_left nearer
                (flat_map (objectHits heap ray nodeFlags maxDistance) ns) best).
  induction IH as [|slot ch Hslot _ IHch]; intros b; simpl; [reflexivity|].
  rewrite fold_left_app, <- IHch. destruct slot as [c'|]; simpl; [|reflexivity].
  now rewrite (Hslot c' eq_refl).
Qed.

(** C4: when the distances of the hits are ordered (none is a NaN), the
    distance of the result of [RaycastSingle] is the first element of the
    distances of the hits of [Raycast] sorted ascending, and the result is
    the nearest hit of [Raycast], the first one in traversal order among
    equally near ones; there is no result exactly when there is no hit. *)
Theorem RaycastSingle_nearest (t : Octree) :
  (∀ r, r ∈ Raycast heap t ray nodeFlags maxDistance → ordered (distance r)) →
  distance <$> RaycastSingle heap t ray nodeFlags maxDistance
  = head (sortAscending (distance <$> Raycast heap t ray nodeFlags maxDistance)) ∧
  match RaycastSingle heap t ray nodeFlags maxDistance with
  | None => Raycast heap t ray nodeFlags maxDistance = []
  | Some r => ∃ i, firstNearest (Raycast heap t ray nodeFlags maxDistance) i r
  end.
Proof.
  intros Hord. unfold RaycastSingle. rewrite nearestHit_fold.
  fold (Raycast heap t ray nodeFlags maxDistance).
  set (hits := Raycast heap t ray nodeFlags maxDistance) in *.
  assert (Hall : Forall (λ r, ordered (distance r)) hits)
    by (now apply Forall_forall).
  pose proof (fold_nearer_firstNearest hits Hall) as Hnear.
  split; [|exact Hnear].
  assert (Hds : Forall ordered (distance <$> hits)).
  { apply Forall_fmap. exact Hall. }
  pose proof (head_sortAscending (distance <$> hits) Hds) as Hsort.
  destruct (fold_left nearer hits None) as [r|].
  - destruct Hnear as (i & Hi & Hbefore & Hnone).
    destruct (head (sortAscending (distance <$> hits))) as [d|].
    + destruct Hsort as (k & Hk & Hbefore' & Hnone').
      simpl. f_equal.
      apply list_lookup_fmap_Some in Hk as (r' & -> & Hk).
      destruct (Nat.lt_trichotomy i k) as [Hlt|[->|Hlt]].
      * pose proof (Hbefore' i (distance r) Hlt
                      ltac:(rewrite list_lookup_fmap, Hi; reflexivity)) as E1.
        rewrite (Hnone r') in E1; [discriminate|].
        eapply list_elem_of_lookup_2. exact Hk.
      * congruence.
      * pose proof (Hbefore k r' Hlt Hk) as E1.
        rewrite (Hnone' (distance r)) in E1; [discriminate|].
        apply list_elem_of_fmap. exists r. split; [reflexivity|].
        eapply list_elem_of_lookup_2. exact Hi.
    + apply fmap_nil_inv in Hsort. rewrite Hsort in Hi. discriminate.
  - rewrite Hnear. reflexivity.
Qed.
End RaycastFacts.

(** ** Checks on a concrete hierarchy *)

Lemma everyOctant_eq (test : Octant → bool) (o : Octant) :
  everyOctant test o
  = test o && forallb (λ slot, match slot with
                               | Some c => everyOctant test c
                               | None => true
                               end) (children o).
Proof. destruct o; reflexivity. Qed.

Lemma everyOctant_lookup (test : Octant → bool) (p : OctantPath) :
  ∀ o o', everyOctant test o = true → lookupOctant p o = Some o' → test o' = true.
Proof.
  induction p as [|index p IH]; intros o o' Hall; rewrite everyOctant_eq in Hall;
    apply andb_true_iff in Hall as [Hhere Hch]; simpl.
  - now intros [= <-].
  - destruct (child o index) as [c|] eqn:Hc; [|discriminate].
    apply IH. apply child_Some in Hc.
    rewrite forallb_forall in Hch.
    apply (Hch (Some c)). apply list_elem_of_In. eapply list_elem_of_lookup_2. exact Hc.
Qed.

Lemma allOrdered_ordered (hits : list RaycastResult) :
  allOrdered hits = true → ∀ r, r ∈ hits → ordered (distance r).
Proof.
  unfold allOrdered. rewrite forallb_forall. intros Hall r Hr E.
  apply list_elem_of_In in Hr. specialize (Hall r Hr). now rewrite E in Hall.
Qed.

Lemma Demo_heap0_untracked (n : NodePtr) : octant (Demo.heap0 n) = None.
Proof. destruct n as [|[|[|[|n]]]]; reflexivity. Qed.

Lemma Demo_scene2_reachableWhen (mayMove : Scene → NodePtr → Prop) :
  reachableWhen mayMove Demo.scene2.
Proof.
  unfold Demo.scene2, Demo.scene1, Demo.scene0.
  refine (reach_Update _ _ (reach_QueueUpdate _ _ _ (reach_QueueUpdate _ _ _
            (reach_InsertNode _ _ _ (reach_new _ _ _ _ Demo_heap0_untracked) _)))).
  reflexivity.
Qed.

Lemma Demo_scene2_reachable : reachable Demo.scene2.
Proof. apply Demo_scene2_reachableWhen. Qed.

(** Objects 1, 2 and 3 are the tracked objects of the scene. *)
Lemma Demo_scene2_tracked (n : NodePtr) :
  octant (objects Demo.scene2 n) ≠ None → n = 1 ∨ n = 2 ∨ n = 3.
Proof.
  destruct n as [|[|[|[|n]]]]; intros Hn; auto; exfalso; apply Hn;
    vm_compute; reflexivity.
Qed.


(** ** The properties on the concrete scene *)

Lemma ChildIndex_bits_witness :
  ChildIndex Demo.octant0 (mkVector3 (Demo.f32 1 0) (Demo.f32 0 0) (Demo.f32 2 0))
  < NUM_OCTANTS
  ∧ Nat.testbit
      (ChildIndex Demo.octant0 (mkVector3 (Demo.f32 1 0) (Demo.f32 0 0) (Demo.f32 2 0)))
      3 = false.
Proof.
  pose proof (ChildIndex_bits Demo.octant0
                (mkVector3 (Demo.f32 1 0) (Demo.f32 0 0) (Demo.f32 2 0)))
    as (Hlt & _ & _ & _ & Hhigh).
  assert (Hk : 3 ≤ 3) by lia.
  exact (conj Hlt (Hhigh 3 Hk)).
Defined.

Lemma ChildIndex_on_center_witness :
  Nat.testbit
    (ChildIndex Demo.octant0 (mkVector3 (Demo.f32 1 0) (Demo.f32 0 0) (Demo.f32 0 0))) 0
  = true.
Proof.
  pose proof (ChildIndex_on_center Demo.octant0
                (mkVector3 (Demo.f32 1 0) (Demo.f32 0 0) (Demo.f32 0 0)))
    as (Hx & _ & _ & _).
  assert (E : feq (x (mkVector3 (Demo.f32 1 0) (Demo.f32 0 0) (Demo.f32 0 0)))
                  (x (center Demo.octant0)) = true) by reflexivity.
  exact (Hx E).
Defined.

Lemma CollectNodes_three_way_witness :
  CollectNodes (objects Demo.scene2) [9] (root (octree Demo.scene2))
               (Demo.cube 200 300) 3 = [9]
  ∧ CollectNodes (objects Demo.scene2) [9] (root (octree Demo.scene2))
                 (Demo.cube (-1000) 1000) 3
    = [9] ++ filter (λ n, visible (objects Demo.scene2) 3 n = true)
                    (placed (root (octree Demo.scene2))).*1
  ∧ CollectNodes (objects Demo.scene2) [9] (root (octree Demo.scene2))
                 (Demo.cube 0 30) 3
    = [9] ++ filter (λ n, passes (objects Demo.scene2) (Demo.cube 0 30) 3 n = true)
                    (nodes (root (octree Demo.scene2)))
          ++ overSlots (λ c, CollectNodes (objects Demo.scene2) [] c (Demo.cube 0 30) 3)
                       (children (root (octree Demo.scene2))).
Proof.
  pose proof (CollectNodes_three_way (objects Demo.scene2) [9]
                (root (octree Demo.scene2)) (Demo.cube 200 300) 3) as (Hout & _ & _).
  pose proof (CollectNodes_three_way (objects Demo.scene2) [9]
                (root (octree Demo.scene2)) (Demo.cube (-1000) 1000) 3) as (_ & Hin & _).
  pose proof (CollectNodes_three_way (objects Demo.scene2) [9]
                (root (octree Demo.scene2)) (Demo.cube 0 30) 3) as (_ & _ & Hcut).
  assert (E1 : IsInside (Demo.cube 200 300) (cullingBox (root (octree Demo.scene2)))
               = OUTSIDE) by (vm_compute; reflexivity).
  assert (E2 : IsInside (Demo.cube (-1000) 1000) (cullingBox (root (octree Demo.scene2)))
               = INSIDE) by (vm_compute; reflexivity).
  assert (E3 : IsInside (Demo.cube 0 30) (cullingBox (root (octree Demo.scene2)))
               = INTERSECT) by (vm_compute; reflexivity).
  destruct (Hcut E3) as [Hcut' _].
  exact (conj (Hout E1) (conj (Hin E2) Hcut')).
Defined.

Lemma FindNodes_replaces_witness :
  FindNodes (objects Demo.scene2) (octree Demo.scene2) [7; 8] (Demo.cube 0 30) 3
  = FindNodes (objects Demo.scene2) (octree Demo.scene2) [] (Demo.cube 0 30) 3.
Proof.
  pose proof (FindNodes_replaces (objects Demo.scene2) (octree Demo.scene2) [7; 8]
                (Demo.cube 0 30) 3) as (Hsame & _).
  exact Hsame.
Defined.

Lemma numNodes_invariant_witness :
  countInvariant Demo.scene2 ∧ countInvariant (Update Demo.scene2).
Proof.
  pose proof (numNodes_invariant Demo.scene2 Demo_scene2_reachable)
    as (Hnow & _ & _ & Hupdate & _).
  exact (conj Hnow Hupdate).
Defined.

Lemma FindNodes_enclosing_witness :
  NoDup (FindNodes (objects Demo.scene2) (octree Demo.scene2) [5]
                   (Demo.cube (-1000) 1000) 3)
  ∧ ∀ n, n ∈ FindNodes (objects Demo.scene2) (octree Demo.scene2) [5]
               (Demo.cube (-1000) 1000) 3 ↔
         octant (objects Demo.scene2 n) ≠ None
         ∧ N.land (Flags (objects Demo.scene2 n)) NF_ENABLED ≠ 0%N.
Proof.
  pose proof (FindNodes_enclosing Demo.scene2 (Demo.cube (-1000) 1000) 3 [5]
                Demo_scene2_reachable) as Hthm.
  assert (Hoct : ∀ p o, lookupOctant p (root (octree Demo.scene2)) = Some o →
                        IsInside (Demo.cube (-1000) 1000) (cullingBox o) ≠ OUTSIDE).
  { intros p o Hl E.
    assert (Hevery : everyOctant
                       (λ o, bool_decide
                               (IsInside (Demo.cube (-1000) 1000) (cullingBox o)
                                ≠ OUTSIDE))
                       (root (octree Demo.scene2)) = true) by (vm_compute; reflexivity).
    pose proof (everyOctant_lookup _ p _ o Hevery Hl) as Htest.
    apply bool_decide_eq_true in Htest. contradiction. }
  assert (Hbox : ∀ n, octant (objects Demo.scene2 n) ≠ None →
                      IsInsideFast (Demo.cube (-1000) 1000)
                                   (WorldBoundingBox (objects Demo.scene2 n)) ≠ OUTSIDE).
  { intros n Hn. destruct (Demo_scene2_tracked n Hn) as [-> | [-> | ->]];
      vm_compute; discriminate. }
  assert (Hflags : ∀ n, octant (objects Demo.scene2 n) ≠ None →
                        N.land (Flags (objects Demo.scene2 n)) 3 ≠ 0%N).
  { intros n Hn. destruct (Demo_scene2_tracked n Hn) as [-> | [-> | ->]];
      vm_compute; discriminate. }
  exact (Hthm Hoct Hbox Hflags).
Defined.

Lemma RaycastSingle_nearest_witness :
  distance <$> RaycastSingle (objects Demo.scene2) (octree Demo.scene2) Demo.ray0 3
                             (Demo.f32 1000 0)
  = head (sortAscending
            (distance <$> Raycast (objects Demo.scene2) (octree Demo.scene2) Demo.ray0 3
                                  (Demo.f32 1000 0))).
Proof.
  pose proof (RaycastSingle_nearest (objects Demo.scene2) Demo.ray0 3
                (Demo.f32 1000 0) (octree Demo.scene2)) as Hthm.
  assert (Hord : ∀ r, r ∈ Raycast (objects Demo.scene2) (octree Demo.scene2) Demo.ray0 3
                            (Demo.f32 1000 0) → ordered (distance r)).
  { refine (allOrdered_ordered _ _). vm_compute. reflexivity. }
  destruct (Hthm Hord) as [Hdist _]. exact Hdist.
Defined.

Lemma insert_remove_roundtrip_witness :
  octantCounts (root (octree (RemoveNode 5 (InsertNode 5 Demo.scene2))))
  = octantCounts (root (octree Demo.scene2)).
Proof.
  pose proof (insert_remove_roundtrip Demo.scene2 5 Demo_scene2_reachable) as Hthm.
  assert (E : octant (objects Demo.scene2 5) = None) by (vm_compute; reflexivity).
  destruct (Hthm E) as [Hshape _]. exact Hshape.
Defined.

Lemma Demo_scene2_configuredWith : configuredWith 4 Demo.scene2.
Proof.
  unfold Demo.scene2, Demo.scene1, Demo.scene0.
  refine (conf_Update _ _ (conf_QueueUpdate _ _ _ (conf_QueueUpdate _ _ _
            (conf_InsertNode _ _ _ (conf_new _ _ _ Demo_heap0_untracked) _)))).
  reflexivity.
Qed.

Lemma Demo_clampsLevels : clampsLevels 1 256.
Proof. intros numLevels. reflexivity. Qed.


(** On the way down to the octant that lists an object by the contract,
    every octant above it has said that the object may descend. *)
Lemma placedBy_above `{BoundingBoxOps} `{OctreePolicy} (n : NodePtr)
    (box : BoundingBox) (r : Octant) (p : OctantPath) :
  placedBy n box r p →
  ∀ k o, k < length p → lookupOctant (take k p) r = Some o →
         FitBoundingBox o box (Size box) = false.
Proof.
  induction 1 as [o Hfit Hin|o c p Hfit Hlevel Hc _ IH]; intros k o' Hk Hl.
  - simpl in Hk. lia.
  - destruct k as [|k]; simpl in Hl.
    + now injection Hl as <-.
    + rewrite Hc in Hl. apply (IH k o'); [simpl in Hk; lia|exact Hl].
Qed.


Lemma queue_cancel_remove_noops_witness :
  length (filter (λ m, m = 5)
                 (updateQueue (octree (QueueUpdate 5 (QueueUpdate 5 Demo.scene2))))) = 1
  ∧ CancelUpdate 5 Demo.scene2 = Demo.scene2
  ∧ RemoveNode 5 Demo.scene2 = Demo.scene2.
Proof.
  pose proof (queue_cancel_remove_noops Demo.scene2 5)
    as (_ & Honce & Hcancel & Hremove).
  assert (Hnot : 5 ∉ updateQueue (octree Demo.scene2)).
  { vm_compute. intros Hin. inversion Hin. }
  assert (E : octant (objects Demo.scene2 5) = None) by (vm_compute; reflexivity).
  exact (conj (Honce Demo_scene2_reachable) (conj (Hcancel Hnot) (Hremove E))).
Defined.

(** ** More on the volume queries of [Octree.h] *)

Lemma overSlots_sublist {A : Type} (g g' : Octant → list A)
    (ch : list (option Octant)) :
  Forall (λ slot, ∀ c, slot = Some c → g c `sublist_of` g' c) ch →
  overSlots g ch `sublist_of` overSlots g' ch.
Proof.
  induction 1 as [|slot ch Hslot _ IH]; simpl; [constructor|].
  apply sublist_app; [|exact IH].
  destruct slot as [c|]; [now apply Hslot|constructor].
Qed.

Lemma overSlots_split {A : Type} (g : Octant → list A) (ch : list (option Octant))
    (index : nat) (c : Octant) :
  ch !! index = Some (Some c) →
  overSlots g ch
  = overSlots g (take index ch) ++ g c ++ overSlots g (drop (S index) ch).
Proof.
  intros Hl. rewrite <- (take_drop_middle ch index (Some c) Hl) at 1.
  unfold overSlots. rewrite flat_map_app. reflexivity.
Qed.

Lemma elem_of_overSlots {A : Type} (g : Octant → list A) (ch : list (option Octant))
    (a : A) :
  a ∈ overSlots g ch ↔ ∃ index c, ch !! index = Some (Some c) ∧ a ∈ g c.
Proof.
  unfold overSlots. rewrite list_elem_of_In, in_flat_map. split.
  - intros ([c|] & Hin & Ha); [|destruct Ha].
    apply list_elem_of_In, list_elem_of_lookup_1 in Hin as [index Hl].
    exists index, c. now rewrite list_elem_of_In.
  - intros (index & c & Hl & Ha). exists (Some c). split.
    + apply list_elem_of_In. eapply list_elem_of_lookup_2. exact Hl.
    + now apply list_elem_of_In.
Qed.

Lemma filter_none {A : Type} (P : A → Prop) `{∀ a, Decision (P a)} (l : list A) :
  (∀ a, a ∈ l → ¬ P a) → filter P l = [].
Proof.
  induction l as [|a l IH]; intros Hl; [reflexivity|].
  rewrite filter_cons, decide_False by (apply Hl; left).
  apply IH. intros b Hb. apply Hl. now right.
Qed.

(** In a well-formed hierarchy the count of an octant is the length of its
    listing. *)
Lemma octant_ok_listing (o : Octant) :
  octant_ok o → length (placed o).*1 = numNodes o.
Proof.
  induction o as [cb wb c h lv ns ch nn IH] using Octant_ind.
  intros Hok. pose proof (octant_ok_counts _ Hok) as Hc. unfold countsAddUp in Hc.
  rewrite placed_fst, length_app. cbn [nodes children numNodes] in *.
  rewrite Hc. f_equal.
  assert (Hch : Forall (λ slot, ∀ c', slot = Some c' →
                  length (placed c').*1 = numNodes c') ch).
  { apply Forall_lookup. intros index slot Hl c' ->.
    rewrite Forall_lookup in IH. apply (IH index (Some c') Hl c' eq_refl).
    apply (octant_ok_child _ index c' Hok). unfold child. simpl. now rewrite Hl. }
  clear -Hch. induction Hch as [|slot ch Hslot _ IHch]; [reflexivity|].
  simpl. rewrite length_app, IHch. f_equal.
  destruct slot as [c'|]; [now apply Hslot|reflexivity].
Qed.

Section MoreQueryFacts.
Context `{NodeFlagDefs}.
Variable heap : Heap.
Context {T : Type} `{Volume T}.

Lemma CollectNodes_intersect (o : Octant) (volume : T) (nodeFlags : N) :
  IsInside volume (cullingBox o) = INTERSECT →
  CollectNodes heap [] o volume nodeFlags
  = filter (λ n, passes heap volume nodeFlags n = true) (nodes o)
    ++ overSlots (λ c, CollectNodes heap [] c volume nodeFlags) (children o).
Proof.
  intros E. rewrite CollectNodes_eq, E, pushPassing_filter.
  rewrite (fold_left_slots (λ dest c, CollectNodes heap dest c volume nodeFlags))
    by (apply Forall_forall; intros slot _ c' _ dest'; apply CollectNodes_app).
  reflexivity.
Qed.

Lemma passes_true (volume : T) (nodeFlags : N) (n : NodePtr) :
  passes heap volume nodeFlags n = true ↔
  visible heap nodeFlags n = true
  ∧ IsInsideFast volume (WorldBoundingBox (heap n)) ≠ OUTSIDE.
Proof.
  unfold passes. now rewrite andb_true_iff, negb_true_iff, bool_decide_eq_false.
Qed.

Lemma CollectNodes_sublist (o : Octant) (volume : T) (nodeFlags : N) :
  CollectNodes heap [] o volume nodeFlags `sublist_of` (placed o).*1.
Proof.
  induction o as [cb wb c h lv ns ch nn IH] using Octant_ind.
  set (o := mkOctant cb wb c h lv ns ch nn) in *.
  destruct (IsInside volume (cullingBox o)) eqn:E.
  - rewrite CollectNodes_eq, E. apply sublist_nil_l.
  - rewrite (CollectNodes_intersect o volume nodeFlags E), placed_fst.
    apply sublist_app; [apply sublist_filter|].
    apply overSlots_sublist. exact IH.
  - rewrite CollectNodes_eq, E, CollectNodesFlags_placed. apply sublist_filter.
Qed.

Lemma CollectNodes_visible (o : Octant) (volume : T) (nodeFlags : N) (n : NodePtr) :
  n ∈ CollectNodes heap [] o volume nodeFlags → visible heap nodeFlags n = true.
Proof.
  induction o as [cb wb c h lv ns ch nn IH] using Octant_ind.
  set (o := mkOctant cb wb c h lv ns ch nn) in *.
  destruct (IsInside volume (cullingBox o)) eqn:E.
  - rewrite CollectNodes_eq, E. intros Hn. now apply elem_of_nil in Hn.
  - rewrite (CollectNodes_intersect o volume nodeFlags E), elem_of_app.
    intros [Hn|Hn].
    + apply list_elem_of_filter in Hn as [Hn _]. now apply passes_true in Hn.
    + apply elem_of_overSlots in Hn as (index & c' & Hl & Hn).
      rewrite Forall_lookup in IH. exact (IH index (Some c') Hl c' eq_refl Hn).
  - rewrite CollectNodes_eq, E, CollectNodesFlags_placed.
    intros Hn. now apply list_elem_of_filter in Hn as [Hn _].
Qed.


(** Whatever the volume answers, every object [FindNodes] returns has the
    [NF_ENABLED] bit set and shares a bit with [nodeFlags]: a disabled
    object and an object of another category are never returned, and with
    [nodeFlags = 0] nothing is. *)
Theorem FindNodes_flags (t : Octree) (dest : list NodePtr) (volume : T)
    (nodeFlags : N) :
  (∀ n, n ∈ FindNodes heap t dest volume nodeFlags →
        N.land (Flags (heap n)) NF_ENABLED ≠ 0%N
        ∧ N.land (Flags (heap n)) nodeFlags ≠ 0%N)
  ∧ FindNodes heap t dest volume 0 = [].
Proof.
  split.
  - intros n Hn. apply CollectNodes_visible in Hn.
    apply visible_true in Hn. exact Hn.
  - destruct (FindNodes heap t dest volume 0) as [|n l] eqn:E; [reflexivity|].
    assert (Hn : n ∈ FindNodes heap t dest volume 0) by (rewrite E; left).
    apply CollectNodes_visible, visible_true in Hn as [_ Hn].
    now rewrite N.land_0_r in Hn.
Qed.

Lemma CollectNodes_exhaustive (volume : T) (nodeFlags : N) (o : Octant) :
  (∀ p o', lookupOctant p o = Some o' → ∀ n, n ∈ (placed o').*1 →
     (IsInside volume (cullingBox o') = OUTSIDE →
        IsInsideFast volume (WorldBoundingBox (heap n)) = OUTSIDE)
     ∧ (IsInside volume (cullingBox o') = INSIDE →
        IsInsideFast volume (WorldBoundingBox (heap n)) ≠ OUTSIDE)) →
  CollectNodes heap [] o volume nodeFlags
  = filter (λ n, passes heap volume nodeFlags n = true) (placed o).*1.
Proof.
  induction o as [cb wb c h lv ns ch nn IH] using Octant_ind.
  set (o := mkOctant cb wb c h lv ns ch nn) in *. intros Hcons.
  destruct (IsInside volume (cullingBox o)) eqn:E.
  - rewrite CollectNodes_eq, E. symmetry.
    apply filter_none. intros n Hn Hp.
    apply passes_true in Hp as [_ Hp].
    destruct (Hcons [] o eq_refl n Hn) as [Hout _]. auto.
  - rewrite (CollectNodes_intersect o volume nodeFlags E), placed_fst, filter_app,
      filter_overSlots.
    f_equal. apply overSlots_ext, Forall_lookup. intros index slot Hl c' ->.
    rewrite Forall_lookup in IH. apply (IH index (Some c') Hl c' eq_refl).
    intros p o' Hp. apply (Hcons (index :: p) o'). cbn [lookupOctant].
    unfold child. rewrite Hl. exact Hp.
  - rewrite CollectNodes_eq, E, CollectNodesFlags_placed.
    apply filter_agree. intros n Hn. rewrite passes_true.
    destruct (Hcons [] o eq_refl n Hn) as [_ Hin]. split; [|tauto].
    intros Hv. split; [exact Hv|auto].
Qed.

(** The query agrees with testing every object of the tree when the
    culling boxes are conservative for the volume: if no object below an
    octant classified OUTSIDE would pass the approximate test, and every
    object below an octant classified INSIDE does, [FindNodes] returns
    exactly the objects of the tree that are enabled, match [nodeFlags] and
    are not OUTSIDE by [IsInsideFast], in traversal order. *)
Theorem FindNodes_exhaustive (t : Octree) (dest : list NodePtr) (volume : T)
    (nodeFlags : N) :
  (∀ p o, lookupOctant p (root t) = Some o → ∀ n, n ∈ (placed o).*1 →
     (IsInside volume (cullingBox o) = OUTSIDE →
        IsInsideFast volume (WorldBoundingBox (heap n)) = OUTSIDE)
     ∧ (IsInside volume (cullingBox o) = INSIDE →
        IsInsideFast volume (WorldBoundingBox (heap n)) ≠ OUTSIDE)) →
  FindNodes heap t dest volume nodeFlags
  = filter (λ n, passes heap volume nodeFlags n = true) (placed (root t)).*1.
Proof. intros Hcons. unfold FindNodes. now apply CollectNodes_exhaustive. Qed.

Lemma land_subset (flags f g : N) :
  N.land f g = f → N.land flags f ≠ 0%N → N.land flags g ≠ 0%N.
Proof.
  intros Hfg Hf Hg. apply Hf.
  rewrite <- Hfg, N.land_assoc, (N.land_comm flags f), <- N.land_assoc, Hg.
  apply N.land_0_r.
Qed.

Lemma CollectNodes_mask (volume : T) (f g : N) (o : Octant) :
  N.land f g = f →
  CollectNodes heap [] o volume f
  = filter (λ n, nonzero (N.land (Flags (heap n)) f) = true)
           (CollectNodes heap [] o volume g).
Proof.
  intros Hfg.
  assert (Hvis : ∀ n, visible heap f n = true ↔
                      nonzero (N.land (Flags (heap n)) f) = true
                      ∧ visible heap g n = true).
  { intros n. rewrite !visible_true. unfold nonzero.
    rewrite negb_true_iff, N.eqb_neq. split.
    - intros [He Hf]. split; [exact Hf|split; [exact He|]].
      exact (land_subset _ _ _ Hfg Hf).
    - tauto. }
  induction o as [cb wb c h lv ns ch nn IH] using Octant_ind.
  set (o := mkOctant cb wb c h lv ns ch nn) in *.
  destruct (IsInside volume (cullingBox o)) eqn:E.
  - rewrite !CollectNodes_eq, E. reflexivity.
  - rewrite !(CollectNodes_intersect o volume _ E), filter_app, filter_overSlots.
    f_equal.
    + rewrite list_filter_filter. apply filter_agree. intros n _.
      rewrite !passes_true, Hvis. tauto.
    + apply overSlots_ext. eapply Forall_impl; [exact IH|].
      intros slot Hslot c' ->. exact (Hslot c' eq_refl).
  - rewrite !CollectNodes_eq, E, !CollectNodesFlags_placed, list_filter_filter.
    apply filter_agree. intros n _. apply Hvis.
Qed.

(** Narrowing the mask filters the result: when every bit of [f] is a bit
    of [g], the query with [f] returns the objects the query with [g]
    returns that share a bit with [f], in the same order. *)
Theorem FindNodes_narrower_mask (t : Octree) (dest : list NodePtr) (volume : T)
    (f g : N) :
  N.land f g = f →
  FindNodes heap t dest volume f
  = filter (λ n, nonzero (N.land (Flags (heap n)) f) = true)
           (FindNodes heap t dest volume g).
Proof. intros Hfg. unfold FindNodes. now apply CollectNodes_mask. Qed.

Lemma CollectNodes_pruned (volume : T) (nodeFlags : N) (p : OctantPath) :
  ∀ o o', NoDup (placed o).*1 →
    lookupOctant p o = Some o' →
    (∀ q a, q `prefix_of` p → lookupOctant q o = Some a →
            IsInside volume (cullingBox a) ≠ INSIDE) →
    IsInside volume (cullingBox o') = OUTSIDE →
    ∀ n, n ∈ (placed o').*1 → n ∉ CollectNodes heap [] o volume nodeFlags.
Proof.
  induction p as [|index p IH]; intros o o' Hnd Hp Hanc Hout n Hn.
  - injection Hp as <-. rewrite CollectNodes_eq, Hout. apply not_elem_of_nil.
  - simpl in Hp. destruct (child o index) as [c|] eqn:Hc; [|discriminate].
    apply child_Some in Hc.
    assert (Hnc : n ∈ (placed c).*1).
    { eapply elem_of_sublist; [exact Hn|]. clear -Hp.
      revert c Hp. induction p as [|j p IHp]; intros c Hp.
      - injection Hp as <-. reflexivity.
      - simpl in Hp. destruct (child c j) as [c'|] eqn:Hc'; [|discriminate].
        apply child_Some in Hc'. etrans; [exact (IHp c' Hp)|].
        rewrite (placed_fst c), (overSlots_split _ _ j c' Hc').
        apply sublist_inserts_l, sublist_inserts_l, sublist_inserts_r. reflexivity. }
    rewrite placed_fst, (overSlots_split _ _ index c Hc) in Hnd.
    apply NoDup_app in Hnd as (_ & Hns & Hnd).
    apply NoDup_app in Hnd as (_ & Hl1 & Hnd).
    apply NoDup_app in Hnd as (Hndc & Hl2 & _).
    destruct (IsInside volume (cullingBox o)) eqn:E.
    + rewrite CollectNodes_eq, E. apply not_elem_of_nil.
    + rewrite (CollectNodes_intersect o volume nodeFlags E),
        (overSlots_split _ _ index c Hc), !elem_of_app.
      intros [Hin|[Hin|[Hin|Hin]]].
      * apply list_elem_of_filter in Hin as [_ Hin].
        apply (Hns n Hin). rewrite !elem_of_app. auto.
      * apply elem_of_overSlots in Hin as (j & c' & Hl & Hin).
        apply (Hl1 n); [|rewrite elem_of_app; auto].
        apply elem_of_overSlots. exists j, c'. split; [exact Hl|].
        eapply elem_of_sublist; [exact Hin|apply CollectNodes_sublist].
      * revert Hin. apply (IH c o' Hndc Hp); [|exact Hout|exact Hn].
        intros q a Hq Ha. apply (Hanc (index :: q) a).
        -- now apply prefix_cons.
        -- simpl. unfold child. now rewrite Hc.
      * apply elem_of_overSlots in Hin as (j & c' & Hl & Hin).
        apply (Hl2 n Hnc). apply elem_of_overSlots. exists j, c'.
        split; [exact Hl|].
        eapply elem_of_sublist; [exact Hin|apply CollectNodes_sublist].
    + destruct (Hanc [] o (prefix_nil _) eq_refl E).
Qed.

(** An octant classified OUTSIDE hides everything below it: when no octant
    on the way down to it is classified INSIDE, none of the objects listed
    in it or in its descendants is returned, whatever the approximate test
    says about their own boxes.  Each object is listed once in the tree. *)
Theorem FindNodes_pruned (t : Octree) (dest : list NodePtr) (volume : T)
    (nodeFlags : N) (p : OctantPath) (o : Octant) :
  NoDup (placed (root t)).*1 →
  lookupOctant p (root t) = Some o →
  (∀ q a, q `prefix_of` p → lookupOctant q (root t) = Some a →
          IsInside volume (cullingBox a) ≠ INSIDE) →
  IsInside volume (cullingBox o) = OUTSIDE →
  ∀ n, n ∈ (placed o).*1 → n ∉ FindNodes heap t dest volume nodeFlags.
Proof. intros Hnd Hp Hanc Hout n Hn. unfold FindNodes. eapply CollectNodes_pruned; eauto. Qed.
End MoreQueryFacts.

(** A NaN coordinate, of the position or of the center, sends the position
    to the upper half on that axis: the comparison [<] is false, so the bit
    is added. *)
Theorem ChildIndex_nan (o : Octant) (position : Vector3) :
  (x position = S754_nan ∨ x (center o) = S754_nan →
     Nat.testbit (ChildIndex o position) 0 = true) ∧
  (y position = S754_nan ∨ y (center o) = S754_nan →
     Nat.testbit (ChildIndex o position) 1 = true) ∧
  (z position = S754_nan ∨ z (center o) = S754_nan →
     Nat.testbit (ChildIndex o position) 2 = true).
Proof.
  assert (Hnan : ∀ a b, a = S754_nan ∨ b = S754_nan → flt a b = false).
  { intros a b [-> | ->]; [reflexivity|]. now destruct a. }
  unfold ChildIndex. split; [|split]; intros E; rewrite (Hnan _ _ E).
  - destruct (flt (y position) _), (flt (z position) _); reflexivity.
  - destruct (flt (x position) _), (flt (z position) _); reflexivity.
  - destruct (flt (x position) _), (flt (y position) _); reflexivity.
Qed.

(** *** The query properties on the concrete scene *)

Lemma Demo_scene2_ok : scene_ok Demo.scene2.
Proof. apply reachable_ok, Demo_scene2_reachable. Qed.


Lemma FindNodes_flags_witness :
  N.land (Flags (objects Demo.scene2 1)) NF_ENABLED ≠ 0%N
  ∧ N.land (Flags (objects Demo.scene2 1)) 3 ≠ 0%N.
Proof.
  pose proof (FindNodes_flags (objects Demo.scene2) (octree Demo.scene2) [9]
                (Demo.cube 0 30) 3) as (Hin & _).
  assert (E : 1 ∈ FindNodes (objects Demo.scene2) (octree Demo.scene2) [9]
                            (Demo.cube 0 30) 3).
  { replace (FindNodes (objects Demo.scene2) (octree Demo.scene2) [9]
                       (Demo.cube 0 30) 3) with [1] by (vm_compute; reflexivity).
    left. }
  exact (Hin 1 E).
Defined.

Lemma cullingAgrees_lookup {T : Type} `{Volume T} (heap : Heap) (volume : T)
    (r : Octant) :
  everyOctant (cullingAgrees heap volume) r = true →
  ∀ p o, lookupOctant p r = Some o → ∀ n, n ∈ (placed o).*1 →
    (IsInside volume (cullingBox o) = OUTSIDE →
       IsInsideFast volume (WorldBoundingBox (heap n)) = OUTSIDE)
    ∧ (IsInside volume (cullingBox o) = INSIDE →
       IsInsideFast volume (WorldBoundingBox (heap n)) ≠ OUTSIDE).
Proof.
  intros Hall p o Hp n Hn.
  pose proof (everyOctant_lookup _ p _ o Hall Hp) as Ho.
  unfold cullingAgrees in Ho. rewrite forallb_forall in Ho.
  specialize (Ho n (proj1 (list_elem_of_In _ _) Hn)).
  split; intros E; rewrite E in Ho.
  - now apply bool_decide_eq_true in Ho.
  - now rewrite negb_true_iff, bool_decide_eq_false in Ho.
Qed.

Lemma notInside_lookup {T : Type} `{Volume T} (volume : T) (r : Octant) :
  everyOctant (notInside volume) r = true →
  ∀ q a, lookupOctant q r = Some a → IsInside volume (cullingBox a) ≠ INSIDE.
Proof.
  intros Hall q a Ha. pose proof (everyOctant_lookup _ q _ a Hall Ha) as Hq.
  unfold notInside in Hq. now rewrite negb_true_iff, bool_decide_eq_false in Hq.
Qed.

Lemma FindNodes_exhaustive_witness :
  FindNodes (objects Demo.scene2) (octree Demo.scene2) [9] (Demo.cube 0 30) 3
  = filter (λ n, passes (objects Demo.scene2) (Demo.cube 0 30) 3 n = true)
           (placed (root (octree Demo.scene2))).*1.
Proof.
  pose proof (FindNodes_exhaustive (objects Demo.scene2) (octree Demo.scene2) [9]
                (Demo.cube 0 30) 3) as Hthm.
  assert (Hall : everyOctant (cullingAgrees (objects Demo.scene2) (Demo.cube 0 30))
                             (root (octree Demo.scene2)) = true)
    by (vm_compute; reflexivity).
  exact (Hthm (cullingAgrees_lookup _ _ _ Hall)).
Defined.

Lemma FindNodes_narrower_mask_witness :
  FindNodes (objects Demo.scene2) (octree Demo.scene2) [9] (Demo.cube 0 1000) 1
  = filter (λ n, nonzero (N.land (Flags (objects Demo.scene2 n)) 1) = true)
           (FindNodes (objects Demo.scene2) (octree Demo.scene2) [9]
                      (Demo.cube 0 1000) 3).
Proof.
  pose proof (FindNodes_narrower_mask (objects Demo.scene2) (octree Demo.scene2) [9]
                (Demo.cube 0 1000) 1 3) as Hthm.
  assert (E : N.land 1 3 = 1%N) by reflexivity.
  exact (Hthm E).
Defined.

Lemma FindNodes_pruned_witness :
  2 ∉ FindNodes (objects Demo.scene2) (octree Demo.scene2) [9] (Demo.cube 0 30) 3.
Proof.
  destruct (lookupOctant [7; 0] (root (octree Demo.scene2))) as [o|] eqn:Ho;
    [|vm_compute in Ho; discriminate].
  pose proof (FindNodes_pruned (objects Demo.scene2) (octree Demo.scene2) [9]
                (Demo.cube 0 30) 3 [7; 0] o) as Hthm.
  pose proof (ok_once _ Demo_scene2_ok) as Honce.
  assert (Hall : everyOctant (notInside (Demo.cube 0 30))
                             (root (octree Demo.scene2)) = true)
    by (vm_compute; reflexivity).
  assert (Hanc : ∀ q a, q `prefix_of` [7; 0] →
            lookupOctant q (root (octree Demo.scene2)) = Some a →
            IsInside (Demo.cube 0 30) (cullingBox a) ≠ INSIDE).
  { intros q a _. apply (notInside_lookup _ _ Hall). }
  assert (Hout : IsInside (Demo.cube 0 30) (cullingBox o) = OUTSIDE).
  { vm_compute in Ho. injection Ho as <-. vm_compute. reflexivity. }
  assert (Hn : 2 ∈ (placed o).*1).
  { vm_compute in Ho. injection Ho as <-. vm_compute. left. }
  exact (Hthm Honce Ho Hanc Hout 2 Hn).
Defined.

Lemma ChildIndex_nan_witness :
  Nat.testbit
    (ChildIndex Demo.octant0 (mkVector3 S754_nan (Demo.f32 0 0) (Demo.f32 0 0))) 0
  = true.
Proof.
  pose proof (ChildIndex_nan Demo.octant0
                (mkVector3 S754_nan (Demo.f32 0 0) (Demo.f32 0 0))) as (Hx & _ & _).
  assert (E : x (mkVector3 S754_nan (Demo.f32 0 0) (Demo.f32 0 0)) = S754_nan
              ∨ x (center Demo.octant0) = S754_nan) by (left; reflexivity).
  exact (Hx E).
Defined.

(** * Reference counting ([Base/SharedPtr.h]): properties *)

Section SharedPtrFacts.
Import SharedPtr.

Implicit Types (σ : Store) (a b : Address) (l : list (option Address)) (p : option Address).

Lemma holders_cons a p l :
  holders a (p :: l) = (if decide (p = Some a) then 1 else 0) + holders a l.
Proof.
  unfold holders. rewrite filter_cons.
  repeat case_decide; try reflexivity; contradiction.
Qed.

Lemma holders_app a l1 l2 : holders a (l1 ++ l2) = holders a l1 + holders a l2.
Proof. unfold holders. now rewrite filter_app, length_app. Qed.

Lemma holders_le_length a l : holders a l ≤ length l.
Proof. unfold holders. apply length_filter. Qed.

Lemma holders_insert a l (i : nat) (old new : option Address) :
  l !! i = Some old →
  holders a (<[i := new]> l) + (if decide (old = Some a) then 1 else 0)
  = holders a l + (if decide (new = Some a) then 1 else 0).
Proof.
  revert i. induction l as [|q l IH]; intros i Hl; [discriminate|].
  destruct i as [|i]; simpl in *.
  - injection Hl as ->. rewrite !holders_cons. lia.
  - rewrite !holders_cons. specialize (IH i Hl). lia.
Qed.

Lemma holders_drop a l (i : nat) :
  l !! i = Some (Some a) →
  holders a (<[i := None]> l) + 1 = holders a l
  ∧ ∀ b, b ≠ a → holders b (<[i := None]> l) = holders b l.
Proof.
  intros Hl. split; [|intros b Hne].
  - pose proof (holders_insert a l i (Some a) None Hl) as E.
    repeat case_decide; try congruence; lia.
  - pose proof (holders_insert b l i (Some a) None Hl) as E.
    repeat case_decide; try congruence; lia.
Qed.

Lemma holders_take a l (i : nat) :
  l !! i = Some None →
  holders a (<[i := Some a]> l) = holders a l + 1
  ∧ ∀ b, b ≠ a → holders b (<[i := Some a]> l) = holders b l.
Proof.
  intros Hl. split; [|intros b Hne].
  - pose proof (holders_insert a l i None (Some a) Hl) as E.
    repeat case_decide; try congruence; lia.
  - pose proof (holders_insert b l i None (Some a) Hl) as E.
    repeat case_decide; try congruence; lia.
Qed.

Lemma holders_pos a l (i : nat) : l !! i = Some (Some a) → 0 < holders a l.
Proof. intros Hl. destruct (holders_drop a l i Hl) as [E _]. lia. Qed.

Lemma holders_none a l : holders a l = 0 → ∀ i, l !! i ≠ Some (Some a).
Proof. intros Hz i Hl. apply holders_pos in Hl. lia. Qed.

Lemma wrap_small (v : Z) : (0 ≤ v < 2 ^ UNSIGNED_BITS)%Z → wrap v = v.
Proof. intros Hv. unfold wrap. now apply Z.mod_small. Qed.

Lemma getPtr_Done this σ p : ptr σ !! this = Some p → getPtr this σ = Done p.
Proof. unfold getPtr. now intros ->. Qed.

Lemma bind_Done {A B : Type} (x : A) (k : A → outcome B) : (Done x ≫= k) = k x.
Proof. reflexivity. Qed.

Lemma Reset_null this σ : ptr σ !! this = Some None → Reset this σ = Done σ.
Proof. intros Hthis. unfold Reset. now rewrite (getPtr_Done _ _ _ Hthis). Qed.

(** Letting go of the object a [SharedPtr] holds. *)
Lemma release_counted σ (this : nat) a :
  counted σ → ptr σ !! this = Some (Some a) →
  ∃ σ', Reset this σ = Done σ'
        ∧ counted σ'
        ∧ ptr σ' = <[this := None]> (ptr σ)
        ∧ (∀ b, b ≠ a → refCount σ' b = refCount σ b)
        ∧ refCount σ' a = (if decide (holders a (ptr σ) = 1) then None
                           else Some (Z.of_nat (holders a (ptr σ)) - 1)%Z).
Proof.
  intros [Hrefs Hlive Hroom] Hthis.
  destruct (Hlive this a Hthis) as [c Hc].
  pose proof (Hrefs a c Hc) as Hcount.
  pose proof (holders_pos a _ this Hthis) as Hpos.
  pose proof (holders_le_length a (ptr σ)) as Hle.
  unfold Reset. rewrite (getPtr_Done _ _ _ Hthis). cbn -[holders].
  unfold ReleaseRef. rewrite Hc.
  destruct (Z.ltb_spec 0 c) as [_|]; [|lia].
  rewrite wrap_small by lia.
  destruct (holders_drop a _ this Hthis) as [Hdrop Hkeep].
  destruct (Z.eqb_spec (c - 1) 0) as [Hz|Hnz]; cbn -[holders]; eexists; (split; [reflexivity|]).
  - split; [|split; [reflexivity|split]].
    + split; cbn -[holders].
      * intros b c'. destruct (decide (b = a)) as [->|Hne]; [discriminate|].
        intros Hb. now rewrite (Hrefs b c' Hb), (Hkeep b Hne).
      * intros j b Hj. destruct (decide (b = a)) as [->|Hne].
        -- exfalso. apply holders_pos in Hj. lia.
        -- destruct (decide (j = this)) as [->|Hjne].
           ++ rewrite list_lookup_insert_eq in Hj; [discriminate|].
              now apply lookup_lt_Some in Hthis.
           ++ rewrite list_lookup_insert_ne in Hj by congruence. eauto.
      * now rewrite length_insert.
    + intros b Hne. cbn -[holders]. now rewrite decide_False.
    + cbn -[holders]. rewrite decide_True by reflexivity.
      rewrite decide_True by lia. reflexivity.
  - split; [|split; [reflexivity|split]].
    + split; cbn -[holders].
      * intros b c'. destruct (decide (b = a)) as [->|Hne].
        -- intros [= <-]. lia.
        -- intros Hb. now rewrite (Hrefs b c' Hb), (Hkeep b Hne).
      * intros j b Hj. destruct (decide (b = a)) as [->|Hne]; [eauto|].
        destruct (decide (j = this)) as [->|Hjne].
        -- rewrite list_lookup_insert_eq in Hj; [discriminate|].
           now apply lookup_lt_Some in Hthis.
        -- rewrite list_lookup_insert_ne in Hj by congruence. eauto.
      * now rewrite length_insert.
    + intros b Hne. cbn -[holders]. now rewrite decide_False.
    + cbn -[holders]. rewrite decide_True by reflexivity. rewrite decide_False by lia.
      do 2 f_equal. lia.
Qed.

Lemma Reset_counted σ (this : nat) :
  counted σ → this < length (ptr σ) →
  ∃ σ', Reset this σ = Done σ'
        ∧ counted σ'
        ∧ ptr σ' = <[this := None]> (ptr σ)
        ∧ (∀ b, ptr σ !! this ≠ Some (Some b) → refCount σ' b = refCount σ b).
Proof.
  intros Hc Hlt. destruct (lookup_lt_is_Some_2 _ _ Hlt) as [[a|] Hthis].
  - destruct (release_counted σ this a Hc Hthis) as (σ' & E & Hc' & Hp & Hother & _).
    exists σ'. split; [exact E|split; [exact Hc'|split; [exact Hp|]]].
    intros b Hb. apply Hother. congruence.
  - exists σ. unfold Reset. rewrite (getPtr_Done _ _ _ Hthis). cbn -[holders].
    split; [reflexivity|split; [exact Hc|split]].
    + now rewrite list_insert_id.
    + reflexivity.
Qed.

(** Taking hold of a live object with a [SharedPtr] that is null. *)
Lemma acquire_counted σ (this : nat) a :
  counted σ → ptr σ !! this = Some None → is_Some (refCount σ a) →
  ∃ σ', AddRef a (setPtr σ this (Some a)) = Done σ'
        ∧ counted σ'
        ∧ ptr σ' = <[this := Some a]> (ptr σ)
        ∧ (∀ b, b ≠ a → refCount σ' b = refCount σ b)
        ∧ refCount σ' a = Some (Z.of_nat (holders a (ptr σ)) + 1)%Z.
Proof.
  intros [Hrefs Hlive Hroom] Hthis [c Hc].
  pose proof (Hrefs a c Hc) as Hcount.
  destruct (holders_take a _ this Hthis) as [Htake Hkeep].
  pose proof (holders_le_length a (<[this := Some a]> (ptr σ))) as Hle.
  rewrite length_insert, Htake in Hle.
  unfold AddRef. cbn -[holders]. rewrite Hc. rewrite wrap_small by lia.
  eexists. split; [reflexivity|]. split; [|split; [reflexivity|split]].
  - split; cbn -[holders].
    + intros b c'. destruct (decide (b = a)) as [->|Hne].
      * intros [= <-]. lia.
      * intros Hb. now rewrite (Hrefs b c' Hb), (Hkeep b Hne).
    + intros j b Hj. destruct (decide (b = a)) as [->|Hne]; [eauto|].
      destruct (decide (j = this)) as [->|Hjne].
      * rewrite list_lookup_insert_eq in Hj by (now apply lookup_lt_Some in Hthis).
        congruence.
      * rewrite list_lookup_insert_ne in Hj by congruence. eauto.
    + now rewrite length_insert.
  - intros b Hne. cbn -[holders]. now rewrite decide_False.
  - cbn -[holders]. rewrite decide_True by reflexivity. do 2 f_equal. lia.
Qed.

Lemma assign_pointer_counted σ (this : nat) (rhs : option Address) :
  counted σ → this < length (ptr σ) →
  (∀ a, rhs = Some a →
        is_Some (refCount σ a)
        ∧ (ptr σ !! this = Some (Some a) → 1 < holders a (ptr σ))) →
  ∃ σ', assign_pointer this rhs σ = Done σ'
        ∧ counted σ'
        ∧ ptr σ' = <[this := rhs]> (ptr σ).
Proof.
  intros Hc Hlt Hrhs. unfold assign_pointer.
  destruct (lookup_lt_is_Some_2 _ _ Hlt) as [old Hthis].
  assert (Hreset : ∃ σ1, Reset this σ = Done σ1 ∧ counted σ1
                         ∧ ptr σ1 = <[this := None]> (ptr σ)
                         ∧ ∀ a, rhs = Some a → is_Some (refCount σ1 a)).
  { destruct old as [b|].
    - destruct (release_counted σ this b Hc Hthis)
        as (σ1 & E & Hc1 & Hp & Hother & Hb).
      exists σ1. split; [exact E|split; [exact Hc1|split; [exact Hp|]]].
      intros a ->. destruct (Hrhs a eq_refl) as [Hl Hsole].
      destruct (decide (a = b)) as [->|Hne].
      + rewrite Hb. specialize (Hsole Hthis).
        rewrite decide_False by lia. eauto.
      + now rewrite (Hother a Hne).
    - exists σ. unfold Reset. rewrite (getPtr_Done _ _ _ Hthis). cbn -[holders].
      split; [reflexivity|split; [exact Hc|split]].
      + now rewrite list_insert_id.
      + intros a Ha. now destruct (Hrhs a Ha). }
  destruct Hreset as (σ1 & -> & Hc1 & Hp1 & Hlive). cbn -[holders].
  assert (Hnull : ptr σ1 !! this = Some None).
  { rewrite Hp1. now apply list_lookup_insert_eq. }
  destruct rhs as [a|].
  - destruct (acquire_counted σ1 this a Hc1 Hnull (Hlive a eq_refl))
      as (σ' & E & Hc' & Hp' & _).
    exists σ'. split; [exact E|split; [exact Hc'|]].
    rewrite Hp', Hp1. apply list_insert_insert_eq.
  - exists (setPtr σ1 this None). split; [reflexivity|]. split.
    + destruct Hc1 as [Hr Hl Hroom]. unfold setPtr.
      rewrite (list_insert_id _ _ _ Hnull). now split.
    + cbn -[holders]. rewrite Hp1. apply list_insert_insert_eq.
Qed.

Lemma assign_counted σ (this rhs : nat) :
  counted σ → this < length (ptr σ) → rhs < length (ptr σ) →
  ∃ σ', assign this rhs σ = Done σ'
        ∧ counted σ'
        ∧ ptr σ' = <[this := if decide (this = rhs) then None
                             else default None (ptr σ !! rhs)]> (ptr σ).
Proof.
  intros Hc Hlt Hrlt. unfold assign.
  destruct (Reset_counted σ this Hc Hlt) as (σ1 & -> & Hc1 & Hp1 & _). cbn -[holders].
  assert (Hnull : ptr σ1 !! this = Some None).
  { rewrite Hp1. now apply list_lookup_insert_eq. }
  destruct (decide (this = rhs)) as [<-|Hne].
  - rewrite (getPtr_Done _ _ _ Hnull). cbn -[holders].
    exists (setPtr σ1 this None). split; [reflexivity|]. split.
    + destruct Hc1 as [Hr Hl Hroom]. unfold setPtr.
      rewrite (list_insert_id _ _ _ Hnull). now split.
    + cbn -[holders]. rewrite Hp1. apply list_insert_insert_eq.
  - destruct (lookup_lt_is_Some_2 _ _ Hrlt) as [p Hrhs]. rewrite Hrhs. cbn -[holders].
    assert (Hrhs1 : ptr σ1 !! rhs = Some p).
    { rewrite Hp1. now rewrite list_lookup_insert_ne. }
    rewrite (getPtr_Done _ _ _ Hrhs1). cbn -[holders].
    destruct p as [a|].
    + destruct (acquire_counted σ1 this a Hc1 Hnull
                  (counted_live _ Hc1 rhs a Hrhs1))
        as (σ' & E & Hc' & Hp' & _).
      exists σ'. split; [exact E|split; [exact Hc'|]].
      rewrite Hp', Hp1. apply list_insert_insert_eq.
    + exists (setPtr σ1 this None). split; [reflexivity|]. split.
      * destruct Hc1 as [Hr Hl Hroom]. unfold setPtr.
        rewrite (list_insert_id _ _ _ Hnull). now split.
      * cbn -[holders]. rewrite Hp1. apply list_insert_insert_eq.
Qed.

Lemma construct_counted σ :
  counted σ → (Z.of_nat (length (ptr σ)) + 1 < 2 ^ UNSIGNED_BITS)%Z →
  counted (construct σ).2
  ∧ ptr (construct σ).2 !! (construct σ).1 = Some None
  ∧ (construct σ).1 = length (ptr σ).
Proof.
  intros [Hr Hl Hroom] Hlen. cbn -[holders]. split; [split; cbn|split].
  - intros a c Ha. change (c = Z.of_nat (holders a (ptr σ ++ [None]))).
    rewrite holders_app, (Hr a c Ha), holders_cons, decide_False by discriminate.
    change (holders a []) with 0. lia.
  - intros j a Hj. apply lookup_app_Some in Hj as [Hj|[_ Hj]]; [eauto|].
    destruct (j - length (ptr σ)) as [|k]; discriminate.
  - rewrite length_app. cbn -[holders]. lia.
  - rewrite lookup_app_r by lia. now rewrite Nat.sub_diag.
  - reflexivity.
Qed.

(** The operations on [SharedPtr]s that are variables of their own, in a
    store where every object is counted right. *)
Lemma operations_counted σ (this rhs : nat) :
  counted σ → this < length (ptr σ) → rhs < length (ptr σ) →
  (∃ σ', Reset this σ = Done σ' ∧ counted σ'
         ∧ ptr σ' = <[this := None]> (ptr σ)
         ∧ ∀ a, ptr σ !! this = Some (Some a) →
                refCount σ' a = (if decide (holders a (ptr σ) = 1) then None
                                 else Some (Z.of_nat (holders a (ptr σ)) - 1)%Z))
  ∧ (∃ σ', assign this rhs σ = Done σ' ∧ counted σ'
           ∧ (this ≠ rhs → ptr σ' !! this = ptr σ !! rhs))
  ∧ ((Z.of_nat (length (ptr σ)) + 1 < 2 ^ UNSIGNED_BITS)%Z →
     ∃ new σ', construct_copy rhs σ = Done (new, σ') ∧ counted σ'
               ∧ new = length (ptr σ) ∧ ptr σ' !! new = ptr σ !! rhs)
  ∧ (this ≠ rhs →
     ∃ σ', StaticCast this rhs σ = Done σ' ∧ counted σ'
           ∧ ptr σ' !! this = ptr σ !! rhs)
  ∧ (∀ isT, ∃ σ', DynamicCast isT this rhs σ = Done σ' ∧ counted σ')
  ∧ (∀ a, is_Some (refCount σ a) →
          (ptr σ !! this = Some (Some a) → 1 < holders a (ptr σ)) →
          ∃ σ', assign_pointer this (Some a) σ = Done σ' ∧ counted σ'
                ∧ ptr σ' !! this = Some (Some a)).
Proof.
  intros Hc Hlt Hrlt.
  destruct (lookup_lt_is_Some_2 _ _ Hrlt) as [p Hrhs].
  split; [|split; [|split; [|split; [|split]]]].
  - destruct (Reset_counted σ this Hc Hlt) as (σ' & E & Hc' & Hp & _).
    exists σ'. split; [exact E|split; [exact Hc'|split; [exact Hp|]]].
    intros a Ha.
    destruct (release_counted σ this a Hc Ha) as (σ'' & E' & _ & _ & _ & Hb).
    rewrite E in E'. injection E' as <-. exact Hb.
  - destruct (assign_counted σ this rhs Hc Hlt Hrlt) as (σ' & E & Hc' & Hp).
    exists σ'. split; [exact E|split; [exact Hc'|]].
    intros Hne. rewrite Hp, decide_False, list_lookup_insert_eq by assumption.
    now rewrite Hrhs.
  - intros Hroom. unfold construct_copy.
    destruct (construct_counted σ Hc Hroom) as (Hc1 & Hnull & Hnew).
    destruct (construct σ) as [new σ1] eqn:Hcons. cbn -[holders] in Hc1, Hnull, Hnew.
    assert (Hp1 : ptr σ1 = ptr σ ++ [None]).
    { unfold construct in Hcons. now injection Hcons as _ <-. }
    assert (Hlt1 : new < length (ptr σ1)).
    { rewrite Hp1, length_app. cbn -[holders]. lia. }
    assert (Hrlt1 : rhs < length (ptr σ1)).
    { rewrite Hp1, length_app. cbn -[holders]. lia. }
    destruct (assign_counted σ1 new rhs Hc1 Hlt1 Hrlt1) as (σ' & E & Hc' & Hp).
    exists new, σ'. rewrite E. cbn -[holders].
    split; [reflexivity|split; [exact Hc'|split; [exact Hnew|]]].
    rewrite Hp, decide_False, list_lookup_insert_eq by lia.
    rewrite Hp1, lookup_app_l, Hrhs by lia. reflexivity.
  - intros Hne. unfold StaticCast. rewrite (getPtr_Done _ _ _ Hrhs). cbn -[holders].
    destruct (assign_pointer_counted σ this p Hc Hlt) as (σ' & E & Hc' & Hp).
    + intros a ->. split; [exact (counted_live _ Hc rhs a Hrhs)|].
      intros Hthis.
      destruct (holders_drop a _ this Hthis) as [E _].
      assert (Hrhs' : <[this := None]> (ptr σ) !! rhs = Some (Some a))
        by now rewrite list_lookup_insert_ne.
      apply holders_pos in Hrhs'. lia.
    + exists σ'. split; [exact E|split; [exact Hc'|]].
      rewrite Hp, list_lookup_insert_eq by assumption. now rewrite Hrhs.
  - intros isT. unfold DynamicCast.
    destruct (Reset_counted σ this Hc Hlt) as (σ1 & -> & Hc1 & Hp1 & _). cbn -[holders].
    assert (Hnull : ptr σ1 !! this = Some None).
    { rewrite Hp1. now apply list_lookup_insert_eq. }
    assert (Hlt1 : this < length (ptr σ1)) by (now rewrite Hp1, length_insert).
    assert (Hrlt1 : rhs < length (ptr σ1)) by (now rewrite Hp1, length_insert).
    destruct (lookup_lt_is_Some_2 _ _ Hrlt1) as [q Hq].
    rewrite (getPtr_Done _ _ _ Hq). cbn -[holders].
    destruct q as [a|]; [destruct (isT a)|]; try (exists σ1; now split).
    destruct (assign_pointer_counted σ1 this (Some a) Hc1 Hlt1) as (σ' & E & Hc' & _).
    + intros a' [= <-]. split; [exact (counted_live _ Hc1 rhs a Hq)|].
      rewrite Hnull. discriminate.
    + exists σ'. now split.
  - intros a Hlive Hsole.
    destruct (assign_pointer_counted σ this (Some a) Hc Hlt) as (σ' & E & Hc' & Hp).
    + intros a' [= <-]. now split.
    + exists σ'. split; [exact E|split; [exact Hc'|]].
      rewrite Hp. now apply list_lookup_insert_eq.
Qed.

(** Assigning a [SharedPtr] to itself does not keep it: [Reset()] runs
    first and [rhs.ptr] is read afterwards, so the [SharedPtr] ends up
    null and the object has lost a reference; it is deleted when this was
    the last one. *)
Theorem SharedPtr_self_assignment σ (this : nat) a (c : Z) :
  ptr σ !! this = Some (Some a) → refCount σ a = Some c →
  (0 < c < 2 ^ UNSIGNED_BITS)%Z →
  ∃ σ', assign this this σ = Done σ'
        ∧ ptr σ' = <[this := None]> (ptr σ)
        ∧ refCount σ' a = (if decide (c = 1%Z) then None else Some (c - 1)%Z)
        ∧ ∀ b, b ≠ a → refCount σ' b = refCount σ b.
Proof.
  intros Hthis Hc Hrange. unfold assign, Reset.
  rewrite (getPtr_Done _ _ _ Hthis). cbn -[holders]. unfold ReleaseRef. rewrite Hc.
  destruct (Z.ltb_spec 0 c) as [_|]; [|lia].
  rewrite wrap_small by lia.
  assert (Hlt : this < length (ptr σ)) by now apply lookup_lt_Some in Hthis.
  destruct (Z.eqb_spec (c - 1) 0) as [Hz|Hnz]; cbn -[holders];
    unfold getPtr; cbn -[holders]; rewrite list_lookup_insert_eq by assumption; cbn -[holders];
    eexists; (split; [reflexivity|]); cbn -[holders];
    (split; [now rewrite list_insert_insert_eq|]);
    (split; [rewrite decide_True by reflexivity|
             intros b Hne; now rewrite decide_False]).
  - now rewrite decide_True by lia.
  - now rewrite decide_False by lia.
Qed.

(** Assigning to a [SharedPtr] the pointer of the object it alone holds
    ([p = p.Get()], or [p.StaticCast(p)]) uses the object after it has
    been deleted: [Reset()] drops the last reference, then [AddRef] is
    called on the deleted object. *)
Theorem SharedPtr_sole_owner_reassigned σ (this : nat) a :
  ptr σ !! this = Some (Some a) → refCount σ a = Some 1%Z →
  assign_pointer this (Some a) σ = Fault deleted_object
  ∧ (p ← Get this σ; assign_pointer this p σ) = Fault deleted_object
  ∧ StaticCast this this σ = Fault deleted_object.
Proof.
  intros Hthis Hc.
  assert (E : assign_pointer this (Some a) σ = Fault deleted_object).
  { unfold assign_pointer, Reset. rewrite (getPtr_Done _ _ _ Hthis). cbn -[holders].
    unfold ReleaseRef. rewrite Hc. cbn -[holders wrap].
    change (wrap (1 - 1)) with 0%Z. cbn -[holders]. unfold AddRef. cbn -[holders].
    now rewrite decide_True. }
  split; [exact E|split].
  - unfold Get. now rewrite (getPtr_Done _ _ _ Hthis).
  - unfold StaticCast. now rewrite (getPtr_Done _ _ _ Hthis).
Qed.

(** Copying a [SharedPtr] and destroying the copy gives back every count:
    the copy constructor adds one reference, the destructor removes it,
    and no object is deleted on the way. *)
Theorem SharedPtr_copy_destroyed σ (rhs : nat) (p : option Address) :
  ptr σ !! rhs = Some p →
  (∀ a, p = Some a → ∃ c, refCount σ a = Some c ∧ (0 < c < 2 ^ UNSIGNED_BITS - 1)%Z) →
  ∃ new σ1 σ2,
    construct_copy rhs σ = Done (new, σ1)
    ∧ ptr σ1 !! new = Some p
    ∧ (∀ a, p = Some a → ∃ c, refCount σ a = Some c ∧ Refs new σ1 = Done (c + 1)%Z)
    ∧ destruct new σ1 = Done σ2
    ∧ (∀ b, refCount σ2 b = refCount σ b)
    ∧ ptr σ2 = ptr σ ++ [None].
Proof.
  intros Hrhs Hlive.
  assert (Hlt : rhs < length (ptr σ)) by now apply lookup_lt_Some in Hrhs.
  unfold construct_copy, construct.
  set (new := length (ptr σ)).
  set (σ0 := mkStore (refCount σ) (ptr σ ++ [None])).
  assert (Hnull : ptr σ0 !! new = Some None).
  { unfold σ0, new. cbn [ptr]. now rewrite lookup_app_r, Nat.sub_diag by lia. }
  assert (Hrhs0 : ptr σ0 !! rhs = Some p).
  { unfold σ0. cbn [ptr]. now rewrite lookup_app_l by lia. }
  assert (Hins : ∀ q, <[new := q]> (ptr σ0) = ptr σ ++ [q]).
  { intros q. unfold σ0, new. cbn [ptr].
    now rewrite insert_app_r_alt, Nat.sub_diag by lia. }
  unfold assign. rewrite (Reset_null _ _ Hnull), bind_Done.
  rewrite (getPtr_Done _ _ _ Hrhs0), bind_Done.
  destruct p as [a|].
  - destruct (Hlive a eq_refl) as (c & Hc & Hrange).
    unfold AddRef. cbn [refCount setPtr]. unfold σ0 at 1. cbn [refCount].
    rewrite Hc, bind_Done, wrap_small by lia.
    set (σ1 := setRefCount (setPtr σ0 new (Some a)) a (Some (c + 1)%Z)).
    assert (Hnew1 : ptr σ1 !! new = Some (Some a)).
    { unfold σ1. cbn [ptr setRefCount setPtr]. rewrite Hins.
      unfold new. now rewrite lookup_app_r, Nat.sub_diag by lia. }
    assert (Hc1 : refCount σ1 a = Some (c + 1)%Z).
    { unfold σ1. cbn [refCount setRefCount]. now rewrite decide_True. }
    eexists new, σ1, _. split; [reflexivity|]. split; [exact Hnew1|]. split.
    { intros a' [= <-]. exists c. split; [exact Hc|].
      unfold Refs. rewrite (getPtr_Done _ _ _ Hnew1), bind_Done.
      unfold ObjectRefs. now rewrite Hc1. }
    unfold destruct, Reset. rewrite (getPtr_Done _ _ _ Hnew1), bind_Done.
    unfold ReleaseRef. rewrite Hc1.
    destruct (Z.ltb_spec 0 (c + 1)) as [_|]; [|lia].
    rewrite wrap_small by lia.
    destruct (Z.eqb_spec (c + 1 - 1) 0) as [|_]; [lia|]. rewrite bind_Done.
    split; [reflexivity|]. split.
    + intros b. cbn [refCount setPtr setRefCount]. unfold σ1, σ0.
      cbn [refCount setPtr setRefCount].
      destruct (decide (b = a)) as [->|Hne]; [|reflexivity].
      rewrite Hc. f_equal. lia.
    + cbn [ptr setPtr setRefCount]. unfold σ1. cbn [ptr setPtr setRefCount].
      rewrite list_insert_insert_eq. apply Hins.
  - set (σ1 := setPtr σ0 new None).
    assert (Hnew1 : ptr σ1 !! new = Some None).
    { unfold σ1. cbn [ptr setPtr]. rewrite Hins.
      unfold new. now rewrite lookup_app_r, Nat.sub_diag by lia. }
    eexists new, σ1, _. rewrite bind_Done.
    split; [reflexivity|]. split; [exact Hnew1|]. split; [discriminate|].
    unfold destruct. rewrite (Reset_null _ _ Hnew1).
    split; [reflexivity|]. split; [reflexivity|].
    unfold σ1. cbn [ptr setPtr]. apply Hins.
Qed.
End SharedPtrFacts.

Section MembersFacts.
Import SharedPtr.
Variable inside : nat → option Address.

Implicit Types (σ : Store) (a b : Address) (p : option Address).

Lemma accessible_ext (x : nat) σ σ' :
  (∀ b, inside x = Some b → is_Some (refCount σ b) → is_Some (refCount σ' b)) →
  Members.accessible inside x σ = true → Members.accessible inside x σ' = true.
Proof.
  unfold Members.accessible. intros Hkeep.
  destruct (inside x) as [b|]; [|reflexivity].
  destruct (refCount σ b) as [c|] eqn:E; [|discriminate]. intros _.
  destruct (Hkeep b eq_refl ltac:(eauto)) as [c' ->]. reflexivity.
Qed.

Lemma accessible_setPtr (x this : nat) p σ :
  Members.accessible inside x (setPtr σ this p) = Members.accessible inside x σ.
Proof. reflexivity. Qed.

Lemma readPtr_accessible (x : nat) σ :
  Members.accessible inside x σ = true → Members.readPtr inside x σ = getPtr x σ.
Proof. unfold Members.readPtr. now intros ->. Qed.

Lemma writePtr_accessible (x : nat) p σ :
  Members.accessible inside x σ = true →
  Members.writePtr inside x p σ = Done (setPtr σ x p).
Proof. unfold Members.writePtr. now intros ->. Qed.

(** While the memory of the [SharedPtr]s that an operation uses is there
    when it uses them, the operation does what it does on variables. *)
Lemma Reset_same (this : nat) σ :
  Members.accessible inside this σ = true →
  (∀ σ1, Reset this σ = Done σ1 → Members.accessible inside this σ1 = true) →
  Members.Reset inside this σ = Reset this σ.
Proof.
  intros Hthis Hafter. unfold Members.Reset. rewrite (readPtr_accessible _ _ Hthis).
  revert Hafter. unfold Reset. destruct (getPtr this σ) as [[a|]|f]; try reflexivity.
  cbn [mbind outcome_bind]. destruct (ReleaseRef a σ) as [σ1|f]; [|reflexivity].
  intros Hafter. apply writePtr_accessible.
  rewrite <- (accessible_setPtr this this None). now apply Hafter.
Qed.

Lemma ReleaseRef_ptr a σ σ1 : ReleaseRef a σ = Done σ1 → ptr σ1 = ptr σ.
Proof.
  unfold ReleaseRef. destruct (refCount σ a) as [c|]; [|discriminate].
  destruct (0 <? c)%Z; [|discriminate].
  destruct (wrap (c - 1) =? 0)%Z; now intros [= <-].
Qed.

Lemma Reset_null_after (this : nat) σ σ1 :
  this < length (ptr σ) → Reset this σ = Done σ1 →
  ptr σ1 !! this = Some None ∧ Reset this σ1 = Done σ1.
Proof.
  intros Hlt. unfold Reset, getPtr.
  destruct (lookup_lt_is_Some_2 _ _ Hlt) as [[a|] Hthis]; rewrite Hthis;
    cbn [mbind outcome_bind].
  - destruct (ReleaseRef a σ) as [σ2|f] eqn:E; [|discriminate]. intros [= <-].
    apply ReleaseRef_ptr in E.
    cbn [ptr setPtr]. rewrite list_lookup_insert_eq by (now rewrite E).
    split; reflexivity.
  - intros [= <-]. rewrite Hthis. split; reflexivity.
Qed.

Lemma assign_pointer_same (this : nat) (rhs : option Address) σ :
  Members.accessible inside this σ = true →
  (∀ σ1, Reset this σ = Done σ1 → Members.accessible inside this σ1 = true) →
  Members.assign_pointer inside this rhs σ = assign_pointer this rhs σ.
Proof.
  intros Hthis Hafter. unfold Members.assign_pointer, assign_pointer.
  rewrite (Reset_same _ _ Hthis Hafter).
  destruct (Reset this σ) as [σ1|f] eqn:E; [|reflexivity].
  cbn [mbind outcome_bind]. now rewrite (writePtr_accessible _ _ _ (Hafter σ1 eq_refl)).
Qed.

Lemma assign_same (this rhs : nat) σ :
  Members.accessible inside this σ = true →
  (∀ σ1, Reset this σ = Done σ1 →
         Members.accessible inside this σ1 = true
         ∧ Members.accessible inside rhs σ1 = true) →
  Members.assign inside this rhs σ = assign this rhs σ.
Proof.
  intros Hthis Hafter. unfold Members.assign, assign.
  rewrite (Reset_same _ _ Hthis (λ σ1 E, proj1 (Hafter σ1 E))).
  destruct (Reset this σ) as [σ1|f] eqn:E; [|reflexivity].
  destruct (Hafter σ1 eq_refl) as [H1 H2].
  cbn [mbind outcome_bind]. rewrite (readPtr_accessible _ _ H2).
  destruct (getPtr rhs σ1) as [p|f]; [|reflexivity].
  cbn [mbind outcome_bind]. now rewrite (writePtr_accessible _ _ _ H1).
Qed.

(** The memory of [SharedPtr] number [x] outlasts the [Reset] of [this]
    when [x] is no member of an object that the [Reset] deletes. *)
Lemma Reset_outlived (this x : nat) σ σ1 :
  counted σ → Members.outlives inside this x σ →
  Members.accessible inside x σ = true →
  Reset this σ = Done σ1 → Members.accessible inside x σ1 = true.
Proof.
  intros Hc Hout Hx E. revert Hx. apply accessible_ext. intros b Hb Hlive.
  destruct (ptr σ !! this) as [[a|]|] eqn:Hthis.
  - destruct (release_counted σ this a Hc Hthis) as (σ' & E' & _ & _ & Hother & Ha).
    rewrite E in E'. injection E' as <-.
    destruct (decide (b = a)) as [->|Hne]; [|now rewrite (Hother b Hne)].
    rewrite Ha. destruct (decide (holders a (ptr σ) = 1)) as [Hone|]; [|eauto].
    destruct (Hout a Hthis Hone Hb).
  - rewrite (Reset_null _ _ Hthis) in E. now injection E as <-.
  - unfold Reset, getPtr in E. rewrite Hthis in E. discriminate.
Qed.

End MembersFacts.

(** *** The properties on a small store *)

Lemma SharedPtr_store0_counted : SharedPtr.counted SharedPtr.store0.
Proof.
  split.
  - intros a c. unfold SharedPtr.store0. cbn [SharedPtr.refCount SharedPtr.ptr].
    destruct a as [|[|[|[|[|[|[|a]]]]]]]; intros [= <-]; vm_compute; reflexivity.
  - intros this a. unfold SharedPtr.store0. cbn [SharedPtr.refCount SharedPtr.ptr].
    destruct this as [|[|[|[|this]]]]; cbn; intros [= <-]; eexists; reflexivity.
  - vm_compute. reflexivity.
Qed.

Lemma Members_store1_counted : SharedPtr.counted Members.store1.
Proof.
  split.
  - intros a c. unfold Members.store1. cbn [SharedPtr.refCount SharedPtr.ptr].
    destruct a as [|[|[|[|[|[|[|[|[|a]]]]]]]]]; intros [= <-]; vm_compute; reflexivity.
  - intros this a. unfold Members.store1. cbn [SharedPtr.refCount SharedPtr.ptr].
    destruct this as [|[|[|this]]]; cbn; intros [= <-]; eexists; reflexivity.
  - vm_compute. reflexivity.
Qed.


Lemma SharedPtr_self_assignment_witness :
  ∃ σ', SharedPtr.assign 0 0 SharedPtr.store0 = SharedPtr.Done σ'
        ∧ SharedPtr.ptr σ' = [None; Some 5; None; Some 6]
        ∧ SharedPtr.refCount σ' 5 = Some 1%Z.
Proof.
  assert (Hp : SharedPtr.ptr SharedPtr.store0 !! 0 = Some (Some 5)) by reflexivity.
  assert (Hc : SharedPtr.refCount SharedPtr.store0 5 = Some 2%Z) by reflexivity.
  assert (Hr : (0 < 2 < 2 ^ SharedPtr.UNSIGNED_BITS)%Z) by (vm_compute; split; reflexivity).
  destruct (SharedPtr_self_assignment SharedPtr.store0 0 5 2 Hp Hc Hr)
    as (σ' & E & Hptr & Hcount & _).
  exists σ'. exact (conj E (conj Hptr Hcount)).
Defined.

Lemma SharedPtr_sole_owner_reassigned_witness :
  SharedPtr.assign_pointer 3 (Some 6) SharedPtr.store0
  = SharedPtr.Fault SharedPtr.deleted_object.
Proof.
  assert (Hp : SharedPtr.ptr SharedPtr.store0 !! 3 = Some (Some 6)) by reflexivity.
  assert (Hc : SharedPtr.refCount SharedPtr.store0 6 = Some 1%Z) by reflexivity.
  exact (proj1 (SharedPtr_sole_owner_reassigned SharedPtr.store0 3 6 Hp Hc)).
Defined.

Lemma SharedPtr_copy_destroyed_witness :
  ∃ new σ1 σ2,
    SharedPtr.construct_copy 0 SharedPtr.store0 = SharedPtr.Done (new, σ1)
    ∧ SharedPtr.destruct new σ1 = SharedPtr.Done σ2
    ∧ ∀ b, SharedPtr.refCount σ2 b = SharedPtr.refCount SharedPtr.store0 b.
Proof.
  assert (Hp : SharedPtr.ptr SharedPtr.store0 !! 0 = Some (Some 5)) by reflexivity.
  assert (Hlive : ∀ a, Some 5 = Some a →
            ∃ c, SharedPtr.refCount SharedPtr.store0 a = Some c
                 ∧ (0 < c < 2 ^ SharedPtr.UNSIGNED_BITS - 1)%Z).
  { intros a [= <-]. exists 2%Z. split; [reflexivity|]. vm_compute. split; reflexivity. }
  destruct (SharedPtr_copy_destroyed SharedPtr.store0 0 (Some 5) Hp Hlive)
    as (new & σ1 & σ2 & E1 & _ & _ & E2 & Hsame & _).
  exists new, σ1, σ2. exact (conj E1 (conj E2 Hsame)).
Defined.

(** * UTF-8 in [Base/String.cpp]: properties *)

Section BitArithmetic.
Local Open Scope Z_scope.

Lemma lor_disjoint (hi lo k : Z) :
  0 ≤ k → 0 ≤ lo < 2 ^ k → Z.lor (hi * 2 ^ k) lo = hi * 2 ^ k + lo.
Proof.
  intros Hk Hlo.
  assert (E : Z.land (hi * 2 ^ k) lo = 0).
  { apply Z.bits_inj'. intros n Hn. rewrite Z.land_spec, Z.bits_0.
    destruct (Z.lt_ge_cases n k) as [Hlt|Hge].
    - rewrite Z.mul_pow2_bits_low by lia. reflexivity.
    - rewrite andb_false_iff. right.
      destruct (Z.eq_dec lo 0) as [->|Hnz]; [apply Z.bits_0|].
      apply Z.bits_above_log2; [lia|].
      apply Z.log2_lt_pow2; [lia|].
      eapply Z.lt_le_trans; [apply Hlo|]. apply Z.pow_le_mono_r; lia. }
  pose proof (Z.add_lor_land (hi * 2 ^ k) lo) as Hadd. lia.
Qed.

Lemma land_63 (x : Z) : Z.land x 63 = x mod 64.
Proof. change 63 with (Z.ones 6). now rewrite Z.land_ones. Qed.
Lemma land_31 (x : Z) : Z.land x 31 = x mod 32.
Proof. change 31 with (Z.ones 5). now rewrite Z.land_ones. Qed.
Lemma land_15 (x : Z) : Z.land x 15 = x mod 16.
Proof. change 15 with (Z.ones 4). now rewrite Z.land_ones. Qed.
Lemma land_7 (x : Z) : Z.land x 7 = x mod 8.
Proof. change 7 with (Z.ones 3). now rewrite Z.land_ones. Qed.
Lemma land_3 (x : Z) : Z.land x 3 = x mod 4.
Proof. change 3 with (Z.ones 2). now rewrite Z.land_ones. Qed.
Lemma land_1 (x : Z) : Z.land x 1 = x mod 2.
Proof. change 1 with (Z.ones 1). now rewrite Z.land_ones. Qed.

Lemma shiftr_6 (x : Z) : Z.shiftr x 6 = x / 64.
Proof. now rewrite Z.shiftr_div_pow2. Qed.
Lemma shiftr_12 (x : Z) : Z.shiftr x 12 = x / 4096.
Proof. now rewrite Z.shiftr_div_pow2. Qed.
Lemma shiftr_18 (x : Z) : Z.shiftr x 18 = x / 262144.
Proof. now rewrite Z.shiftr_div_pow2. Qed.
Lemma shiftr_24 (x : Z) : Z.shiftr x 24 = x / 16777216.
Proof. now rewrite Z.shiftr_div_pow2. Qed.
Lemma shiftr_30 (x : Z) : Z.shiftr x 30 = x / 1073741824.
Proof. now rewrite Z.shiftr_div_pow2. Qed.

(** [prefix | payload] when the payload fits below the prefix bits. *)
Lemma lor_prefix (prefix m k lo : Z) :
  prefix = m * 2 ^ k → 0 ≤ k → 0 ≤ lo < 2 ^ k → Z.lor prefix lo = prefix + lo.
Proof. intros -> Hk Hlo. now apply lor_disjoint. Qed.

(** [lo | (hi << k)] when [lo] fits below bit [k]. *)
Lemma lor_shiftl (lo hi k : Z) :
  0 ≤ k → 0 ≤ lo < 2 ^ k → Z.lor lo (Z.shiftl hi k) = lo + hi * 2 ^ k.
Proof.
  intros Hk Hlo. rewrite Z.shiftl_mul_pow2 by exact Hk.
  rewrite Z.lor_comm, lor_disjoint by (exact Hk || exact Hlo). lia.
Qed.
End BitArithmetic.

Ltac land_to_mod :=
  rewrite ?land_63, ?land_31, ?land_15, ?land_7, ?land_3, ?land_1,
    ?shiftr_6, ?shiftr_12, ?shiftr_18, ?shiftr_24, ?shiftr_30.

Ltac compare_bytes :=
  repeat match goal with
    | |- context [Z.ltb ?a ?b] =>
        first [rewrite (proj2 (Z.ltb_lt a b)) by (Z.div_mod_to_equations; lia)
              | rewrite (proj2 (Z.ltb_ge a b)) by (Z.div_mod_to_equations; lia)]
    | |- context [Z.leb ?a ?b] =>
        first [rewrite (proj2 (Z.leb_le a b)) by (Z.div_mod_to_equations; lia)
              | rewrite (proj2 (Z.leb_gt a b)) by (Z.div_mod_to_equations; lia)]
    end.

Ltac join_bits :=
  repeat match goal with
    | |- context [Z.lor ?lo (Z.shiftl ?hi ?k)] =>
        rewrite (lor_shiftl lo hi k) by (simpl (2 ^ _)%Z; Z.div_mod_to_equations; lia)
    end.

Section UTF8.
Local Open Scope Z_scope.

Lemma to_char_small (v : Z) : 0 ≤ v < 256 → Str.to_char v = v.
Proof. intros Hv. unfold Str.to_char. now apply Z.mod_small. Qed.

(** The bytes [EncodeUTF8] stores, in arithmetic: the usual layout of
    UTF-8, and its extension to five and six bytes. *)
Lemma EncodeUTF8_bytes (c : Z) :
  0 ≤ c < 2 ^ 32 →
  Str.EncodeUTF8 c
  = if c <? 0x80 then [c]
    else if c <? 0x800 then [192 + (c / 64) mod 32; 128 + c mod 64]
    else if c <? 0x10000 then
      [224 + (c / 4096) mod 16; 128 + (c / 64) mod 64; 128 + c mod 64]
    else if c <? 0x200000 then
      [240 + (c / 262144) mod 8; 128 + (c / 4096) mod 64;
       128 + (c / 64) mod 64; 128 + c mod 64]
    else if c <? 0x4000000 then
      [248 + (c / 16777216) mod 4; 128 + (c / 262144) mod 64;
       128 + (c / 4096) mod 64; 128 + (c / 64) mod 64; 128 + c mod 64]
    else
      [252 + (c / 1073741824) mod 2; 128 + (c / 16777216) mod 64;
       128 + (c / 262144) mod 64; 128 + (c / 4096) mod 64;
       128 + (c / 64) mod 64; 128 + c mod 64].
Proof.
  intros Hc. unfold Str.EncodeUTF8. land_to_mod.
  rewrite !(lor_prefix 0x80 2 6), !(lor_prefix 0xc0 6 5), !(lor_prefix 0xe0 14 4),
    !(lor_prefix 0xf0 30 3), !(lor_prefix 0xf8 62 2), !(lor_prefix 0xfc 126 1)
    by (reflexivity || lia || (simpl (2 ^ _); Z.div_mod_to_equations; lia)).
  destruct (Z.ltb_spec c 0x80).
  - now rewrite to_char_small by lia.
  - now rewrite !to_char_small by (Z.div_mod_to_equations; lia).
Qed.

Lemma isContinuation_iff (c : Z) : Str.isContinuation c = true ↔ 128 ≤ c < 192.
Proof. unfold Str.isContinuation. rewrite andb_true_iff, Z.leb_le, Z.ltb_lt. lia. Qed.

Lemma isContinuation_no (c : Z) : c < 128 ∨ 192 ≤ c → Str.isContinuation c = false.
Proof.
  intros Hc. apply not_true_is_false. rewrite isContinuation_iff. lia.
Qed.

Lemma isContinuation_yes (c : Z) : 128 ≤ c < 192 → Str.isContinuation c = true.
Proof. apply isContinuation_iff. Qed.

Lemma continuation_next (mem : list Z) (ptr : nat) (c : Z)
    (k : Z → nat → option (Z * nat)) :
  mem !! ptr = Some c → 128 ≤ c < 192 →
  Str.GET_NEXT_CONTINUATION_BYTE mem ptr k = k c (S ptr).
Proof.
  intros Hl Hc. unfold Str.GET_NEXT_CONTINUATION_BYTE. rewrite Hl.
  rewrite (proj2 (Z.ltb_ge c 0x80)), (proj2 (Z.leb_gt 0xc0 c)) by lia. reflexivity.
Qed.

Lemma continuation_stop (mem : list Z) (ptr : nat) (c : Z)
    (k : Z → nat → option (Z * nat)) :
  mem !! ptr = Some c → c < 128 ∨ 192 ≤ c →
  Str.GET_NEXT_CONTINUATION_BYTE mem ptr k = Some (Str.QUESTION_MARK, ptr).
Proof.
  intros Hl Hc. unfold Str.GET_NEXT_CONTINUATION_BYTE. rewrite Hl.
  destruct Hc as [Hc|Hc].
  - now rewrite (proj2 (Z.ltb_lt c 0x80)) by lia.
  - rewrite (proj2 (Z.leb_le 0xc0 c)) by lia. now rewrite orb_true_r.
Qed.

(** Decoding at the start of the bytes [EncodeUTF8] stored. *)
Lemma DecodeUTF8_EncodeUTF8_0 (c : Z) (after : list Z) :
  0 ≤ c < 2 ^ 32 →
  Str.DecodeUTF8 (Str.EncodeUTF8 c ++ after) 0
  = Some (c mod 2 ^ 31, length (Str.EncodeUTF8 c)).
Proof.
  intros Hc. rewrite EncodeUTF8_bytes by exact Hc.
  destruct (Z.ltb_spec c 0x80);
    [|destruct (Z.ltb_spec c 0x800);
      [|destruct (Z.ltb_spec c 0x10000);
        [|destruct (Z.ltb_spec c 0x200000);
          [|destruct (Z.ltb_spec c 0x4000000)]]]];
    unfold Str.DecodeUTF8, Str.GET_NEXT_CONTINUATION_BYTE;
    cbn [app lookup list_lookup length];
    rewrite isContinuation_no by (Z.div_mod_to_equations; lia);
    compare_bytes; cbn [orb length]; do 2 f_equal;
    land_to_mod; join_bits; simpl (2 ^ _); Z.div_mod_to_equations; lia.
Qed.

(** Decoding does not look back: bytes before the pointer play no role. *)
Lemma continuation_shift (before mem : list Z) (ptr : nat)
    (k k' : Z → nat → option (Z * nat)) :
  (∀ c p, k' c (length before + p)%nat = Str.moved (length before) <$> k c p) →
  Str.GET_NEXT_CONTINUATION_BYTE (before ++ mem) (length before + ptr) k'
  = Str.moved (length before) <$> Str.GET_NEXT_CONTINUATION_BYTE mem ptr k.
Proof.
  intros Hk. unfold Str.GET_NEXT_CONTINUATION_BYTE.
  rewrite lookup_app_r, Nat.add_comm, Nat.add_sub by lia.
  destruct (mem !! ptr) as [c|]; [|reflexivity].
  destruct (_ || _); [now rewrite Nat.add_comm|].
  rewrite <- Hk. f_equal. lia.
Qed.

Lemma DecodeUTF8_shift (before mem : list Z) (src : nat) :
  Str.DecodeUTF8 (before ++ mem) (length before + src)
  = Str.moved (length before) <$> Str.DecodeUTF8 mem src.
Proof.
  unfold Str.DecodeUTF8.
  rewrite lookup_app_r, Nat.add_comm, Nat.add_sub by lia.
  destruct (mem !! src) as [char1|]; [|reflexivity].
  replace (S (src + length before)) with (length before + S src)%nat by lia.
  rewrite drop_app_add.
  destruct (Str.isContinuation char1).
  { destruct (Str.skipContinuation (drop (S src) mem)) as [n|]; [|reflexivity].
    cbn. unfold Str.moved. cbn. do 2 f_equal. lia. }
  repeat (destruct (_ <? _)%Z; [first [reflexivity
    | repeat (apply continuation_shift; intros ? ?); reflexivity]|]).
  repeat (apply continuation_shift; intros ? ?); reflexivity.
Qed.

Lemma EncodeUTF8_length (c : Z) :
  0 ≤ c < 2 ^ 32 →
  length (Str.EncodeUTF8 c)
  = if c <? 0x80 then 1%nat
    else if c <? 0x800 then 2%nat
    else if c <? 0x10000 then 3%nat
    else if c <? 0x200000 then 4%nat
    else if c <? 0x4000000 then 5%nat
    else 6%nat.
Proof.
  intros Hc. rewrite EncodeUTF8_bytes by exact Hc.
  repeat (destruct (_ <? _); [reflexivity|]). reflexivity.
Qed.

Lemma DecodeUTF8_EncodeUTF8_at (c : Z) (before after : list Z) :
  0 ≤ c < 2 ^ 32 →
  Str.DecodeUTF8 (before ++ Str.EncodeUTF8 c ++ after) (length before)
  = Some (c mod 2 ^ 31, (length before + length (Str.EncodeUTF8 c))%nat).
Proof.
  intros Hc. rewrite <- (Nat.add_0_r (length before)) at 1.
  rewrite DecodeUTF8_shift, DecodeUTF8_EncodeUTF8_0 by exact Hc. reflexivity.
Qed.

Lemma EncodeUTF8_length_bounds (c : Z) :
  0 ≤ c < 2 ^ 32 → (1 ≤ length (Str.EncodeUTF8 c) ≤ 6)%nat.
Proof.
  intros Hc. rewrite EncodeUTF8_length by exact Hc.
  repeat (destruct (_ <? _); [lia|]). lia.
Qed.

Lemma EncodeUTF8_range (c : Z) :
  0 ≤ c < 2 ^ 32 → Forall (λ b, 0 ≤ b < 256) (Str.EncodeUTF8 c).
Proof.
  intros Hc. rewrite EncodeUTF8_bytes by exact Hc.
  repeat match goal with
         | |- context [Z.ltb c ?b] => destruct (Z.ltb_spec c b)
         end.
  all: repeat constructor; Z.div_mod_to_equations; lia.
Qed.

(** Round trip: [DecodeUTF8] at the place where [EncodeUTF8] stored a
    character gives the character back, for every character below
    [2^31], and stops right after the bytes stored, whatever bytes come
    before and after.  Of a character from [2^31] on the highest bit is
    lost: the six-byte form holds 31 bits. *)
Theorem EncodeUTF8_DecodeUTF8 (c : Z) (before after : list Z) :
  0 ≤ c < 2 ^ 32 →
  Str.DecodeUTF8 (before ++ Str.EncodeUTF8 c ++ after) (length before)
  = Some (c mod 2 ^ 31, (length before + length (Str.EncodeUTF8 c))%nat)
  ∧ (c < 2 ^ 31 → c mod 2 ^ 31 = c)
  ∧ (2 ^ 31 ≤ c → c mod 2 ^ 31 = c - 2 ^ 31)
  ∧ (1 ≤ length (Str.EncodeUTF8 c) ≤ 6)%nat.
Proof.
  intros Hc. split; [|split; [|split]].
  - now apply DecodeUTF8_EncodeUTF8_at.
  - intros Hlt. apply Z.mod_small. lia.
  - intros Hge. Z.div_mod_to_equations. lia.
  - now apply EncodeUTF8_length_bounds.
Qed.

(** The layout of what [EncodeUTF8] stores: one to six bytes by the size
    of the character, each a byte value; the first is not a continuation
    byte and all the others are, so the start of a character can be told
    from its middle; and no byte is zero unless the character is, so the
    terminator written after it ends the C string there. *)
Theorem EncodeUTF8_layout (c : Z) :
  0 ≤ c < 2 ^ 32 →
  length (Str.EncodeUTF8 c)
  = (if c <? 0x80 then 1%nat else if c <? 0x800 then 2%nat
     else if c <? 0x10000 then 3%nat else if c <? 0x200000 then 4%nat
     else if c <? 0x4000000 then 5%nat else 6%nat)
  ∧ Forall (λ b, 0 ≤ b < 256) (Str.EncodeUTF8 c)
  ∧ (∃ b rest, Str.EncodeUTF8 c = b :: rest
               ∧ Str.isContinuation b = false
               ∧ Forall (λ b, Str.isContinuation b = true) rest)
  ∧ (0 ∈ Str.EncodeUTF8 c → c = 0).
Proof.
  intros Hc. split; [now apply EncodeUTF8_length|].
  rewrite EncodeUTF8_bytes by exact Hc.
  destruct (Z.ltb_spec c 0x80);
    [|destruct (Z.ltb_spec c 0x800);
      [|destruct (Z.ltb_spec c 0x10000);
        [|destruct (Z.ltb_spec c 0x200000);
          [|destruct (Z.ltb_spec c 0x4000000)]]]].
  all: split; [repeat constructor; Z.div_mod_to_equations; lia|].
  all: split;
    [eexists _, _; split; [reflexivity|]; split;
      [apply isContinuation_no; Z.div_mod_to_equations; lia|
       repeat constructor; apply isContinuation_yes; Z.div_mod_to_equations; lia]|].
  all: rewrite list_elem_of_In; cbn [In]; intros Hin;
    repeat (destruct Hin as [Hin|Hin]; [Z.div_mod_to_equations; lia|]);
    destruct Hin.
Qed.

Section InString.
Variable s : Str.String.
Hypothesis Hwf : Str.wellFormed s.

(** A read up to the terminator stays in the buffer, and only a byte
    before the terminator can be a continuation byte. *)
Lemma read_in_string (ptr : nat) :
  (ptr ≤ Str.length s)%nat →
  ∃ c, Str.buffer s !! ptr = Some c ∧ 0 ≤ c < 256
       ∧ (128 ≤ c → (ptr < Str.length s)%nat).
Proof using Hwf.
  intros Hptr. destruct Hwf as [Hbytes Hroom Hend].
  destruct (lookup_lt_is_Some_2 (Str.buffer s) ptr) as [c Hc]; [lia|].
  exists c. split; [exact Hc|]. split.
  - rewrite Forall_lookup in Hbytes. exact (Hbytes ptr c Hc).
  - intros Hhigh. destruct (decide (ptr = Str.length s)) as [->|]; [|lia].
    rewrite Hend in Hc. injection Hc as <-. lia.
Qed.

Lemma skip_in_string (n : nat) :
  ∀ src, (Str.length s - src ≤ n)%nat → (src ≤ Str.length s)%nat →
         ∃ k, Str.skipContinuation (drop src (Str.buffer s)) = Some k
              ∧ (src + k ≤ Str.length s)%nat.
Proof using Hwf.
  induction n as [|n IH]; intros src Hn Hsrc;
    destruct (read_in_string src Hsrc) as (c & Hc & Hrange & Hcont);
    rewrite (drop_S _ _ _ Hc); cbn [Str.skipContinuation];
    destruct (Str.isContinuation c) eqn:E;
    try (exists 0%nat; split; [reflexivity|lia]);
    apply isContinuation_iff in E; specialize (Hcont ltac:(lia)); [lia|].
  destruct (IH (S src)) as (k & -> & Hk); [lia|lia|].
  exists (S k). split; [reflexivity|lia].
Qed.

Lemma continuation_in_string (byteOffset ptr : nat)
    (k : Z → nat → option (Z * nat)) :
  (byteOffset < ptr ≤ Str.length s)%nat →
  (∀ c, 128 ≤ c < 192 → (S ptr ≤ Str.length s)%nat →
        Str.delivers s byteOffset (k c (S ptr))) →
  Str.delivers s byteOffset (Str.GET_NEXT_CONTINUATION_BYTE (Str.buffer s) ptr k).
Proof using Hwf.
  intros Hptr Hk. destruct (read_in_string ptr) as (c & Hc & Hrange & Hcont); [lia|].
  unfold Str.GET_NEXT_CONTINUATION_BYTE. rewrite Hc.
  destruct (Z.ltb_spec c 0x80); [|destruct (Z.leb_spec 0xc0 c)]; cbn [orb].
  - exists Str.QUESTION_MARK, ptr. unfold Str.QUESTION_MARK.
    split; [reflexivity|]. split; lia.
  - exists Str.QUESTION_MARK, ptr. unfold Str.QUESTION_MARK.
    split; [reflexivity|]. split; lia.
  - apply Hk; [lia|]. specialize (Hcont ltac:(lia)). lia.
Qed.

Lemma DecodeUTF8_in_string (byteOffset : nat) :
  (byteOffset < Str.length s)%nat →
  Str.delivers s byteOffset (Str.DecodeUTF8 (Str.buffer s) byteOffset).
Proof using Hwf.
  intros Hlt.
  destruct (read_in_string byteOffset) as (char1 & Hc & Hrange & _); [lia|].
  unfold Str.DecodeUTF8. rewrite Hc.
  destruct (Str.isContinuation char1) eqn:Econt.
  { destruct (skip_in_string (Str.length s) (S byteOffset)) as (k & -> & Hk);
      [lia|lia|].
    exists Str.QUESTION_MARK, (S byteOffset + k)%nat. unfold Str.QUESTION_MARK.
    split; [reflexivity|]. split; lia. }
  assert (Hlead : char1 < 128 ∨ 192 ≤ char1).
  { destruct (Z.lt_ge_cases char1 128); [now left|].
    destruct (Z.lt_ge_cases char1 192); [|now right].
    rewrite isContinuation_yes in Econt by lia. discriminate. }
  destruct (Z.ltb_spec char1 0x80).
  { exists char1, (S byteOffset). split; [reflexivity|]. split; lia. }
  repeat match goal with
    | |- context [Z.ltb char1 ?b] => destruct (Z.ltb_spec char1 b)
    end;
    repeat (apply continuation_in_string; [lia|intros ? ? ?]);
    (eexists _, _; split; [reflexivity|]; split; [lia|]);
    land_to_mod; join_bits; simpl (2 ^ _); Z.div_mod_to_equations; lia.
Qed.

Lemma LengthUTF8_loop_in_string (rounds : nat) :
  ∀ src ret, (src ≤ Str.length s)%nat → (Str.length s - src ≤ rounds)%nat →
    ∃ n, Str.LengthUTF8_loop rounds (Str.buffer s) src (Str.length s) ret = Some n
         ∧ (ret ≤ n ≤ ret + (Str.length s - src))%nat
         ∧ ((src < Str.length s)%nat → (ret < n)%nat).
Proof using Hwf.
  induction rounds as [|rounds IH]; intros src ret Hsrc Hrounds;
    cbn [Str.LengthUTF8_loop]; destruct (Nat.ltb_spec src (Str.length s));
    try (exists ret; split; [reflexivity|lia]); [lia|].
  destruct (DecodeUTF8_in_string src) as (ch & next & -> & Hnext & _); [lia|].
  destruct (IH next (S ret)) as (n & -> & Hn & _); [lia|lia|].
  exists n. split; [reflexivity|lia].
Qed.

Lemma ByteOffsetUTF8_loop_in_string (left : nat) :
  ∀ byteOffset, (byteOffset ≤ Str.length s)%nat →
    ∃ off, Str.ByteOffsetUTF8_loop left s byteOffset = Some off
           ∧ (byteOffset ≤ off ≤ Str.length s)%nat.
Proof using Hwf.
  induction left as [|left IH]; intros byteOffset Hoff;
    cbn [Str.ByteOffsetUTF8_loop];
    [exists byteOffset; split; [reflexivity|lia]|].
  destruct (Nat.ltb_spec byteOffset (Str.length s));
    [|exists byteOffset; split; [reflexivity|lia]].
  unfold Str.NextUTF8Char.
  destruct (DecodeUTF8_in_string byteOffset) as (ch & next & -> & Hnext & _); [lia|].
  destruct (IH next) as (off & -> & Hoff'); [lia|].
  exists off. split; [reflexivity|lia].
Qed.

Lemma DecodeUTF8_terminator :
  Str.DecodeUTF8 (Str.buffer s) (Str.length s) = Some (0, S (Str.length s)).
Proof using Hwf.
  unfold Str.DecodeUTF8. now rewrite (Str.wf_end s Hwf).
Qed.
End InString.

(** On a well-formed string, whatever its bytes, a decoding step that
    starts inside the string reads inside the buffer, moves forward and
    stops at the terminator at the latest, and the character it returns
    has 31 bits at most: the terminator is no continuation byte, so no
    sequence runs over it. *)
Theorem NextUTF8Char_in_bounds (s : Str.String) (byteOffset : nat) :
  Str.wellFormed s → (byteOffset < Str.length s)%nat →
  ∃ ch next, Str.NextUTF8Char s byteOffset = Some (ch, next)
             ∧ (byteOffset < next ≤ Str.length s)%nat ∧ 0 ≤ ch < 2 ^ 31.
Proof. intros Hwf Hlt. now apply DecodeUTF8_in_string. Qed.

(** On a well-formed string, whatever its bytes, the walks over the
    characters end with a result: [LengthUTF8] counts at most [length]
    characters, and none only for the empty string; [ByteOffsetUTF8] stays
    within the string; [AtUTF8] returns a character for every index, the
    terminator 0 from the end of the string on. *)
Theorem UTF8_walks_in_bounds (s : Str.String) :
  Str.wellFormed s →
  (∃ n, Str.LengthUTF8 s = Some n ∧ (n ≤ Str.length s)%nat
        ∧ (n = 0%nat ↔ Str.length s = 0%nat))
  ∧ (∀ index, ∃ off, Str.ByteOffsetUTF8 s index = Some off
                     ∧ (off ≤ Str.length s)%nat)
  ∧ (∀ index, ∃ ch, Str.AtUTF8 s index = Some ch ∧ 0 ≤ ch < 2 ^ 31
                    ∧ (Str.ByteOffsetUTF8 s index = Some (Str.length s) → ch = 0)).
Proof.
  intros Hwf. split; [|split].
  - destruct (LengthUTF8_loop_in_string s Hwf (Str.length s) 0%nat 0%nat)
      as (n & E & Hn & Hpos); [lia|lia|].
    exists n. split; [exact E|]. split; [lia|]. split; [|intros Hz].
    + intros ->. destruct (Str.length s); [reflexivity|]. specialize (Hpos ltac:(lia)). lia.
    + lia.
  - intros index.
    destruct (ByteOffsetUTF8_loop_in_string s Hwf index 0%nat) as (off & E & Hoff); [lia|].
    exists off. split; [exact E|lia].
  - intros index. unfold Str.AtUTF8.
    destruct (ByteOffsetUTF8_loop_in_string s Hwf index 0%nat) as (off & E & Hoff); [lia|].
    unfold Str.ByteOffsetUTF8 in *. rewrite E. cbn [mbind option_bind].
    destruct (decide (off = Str.length s)) as [->|Hne].
    + unfold Str.NextUTF8Char. rewrite (DecodeUTF8_terminator s Hwf).
      exists 0. split; [reflexivity|]. split; [lia|reflexivity].
    + unfold Str.NextUTF8Char.
      destruct (DecodeUTF8_in_string s Hwf off) as (ch & next & -> & _ & Hch); [lia|].
      exists ch. split; [reflexivity|]. split; [exact Hch|].
      intros [= ->]. lia.
Qed.

Lemma encodeAll_app (a b : list Z) :
  Str.encodeAll (a ++ b) = Str.encodeAll a ++ Str.encodeAll b.
Proof. unfold Str.encodeAll. apply flat_map_app. Qed.

Lemma encodeAll_cons (c : Z) (l : list Z) :
  Str.encodeAll (c :: l) = Str.EncodeUTF8 c ++ Str.encodeAll l.
Proof. reflexivity. Qed.

Lemma encodeAll_bytes (chars : list Z) :
  Forall (λ c, 0 ≤ c < 2 ^ 32) chars →
  Forall (λ b, 0 ≤ b < 256) (Str.encodeAll chars).
Proof.
  induction 1 as [|c l Hc _ IH]; [constructor|].
  rewrite encodeAll_cons. apply Forall_app. split; [|exact IH].
  exact (EncodeUTF8_range c Hc).
Qed.

Lemma ofBytes_wellFormed (bytes : list Z) :
  Forall (λ b, 0 ≤ b < 256) bytes → Str.wellFormed (Str.ofBytes bytes).
Proof.
  intros Hb. split; cbn.
  - apply Forall_app. split; [exact Hb|]. repeat constructor; lia.
  - rewrite length_app. cbn. lia.
  - rewrite lookup_app_r, Nat.sub_diag by lia. reflexivity.
Qed.

Lemma ofBytes_length (bytes : list Z) : Str.length (Str.ofBytes bytes) = length bytes.
Proof. reflexivity. Qed.

Lemma ofBytes_buffer (bytes : list Z) : Str.buffer (Str.ofBytes bytes) = bytes ++ [0].
Proof. reflexivity. Qed.

Lemma decode_in_row (done rest : list Z) (c : Z) :
  0 ≤ c < 2 ^ 32 →
  Str.DecodeUTF8 (Str.encodeAll (done ++ c :: rest) ++ [0])
                 (length (Str.encodeAll done))
  = Some (c mod 2 ^ 31, length (Str.encodeAll (done ++ [c]))).
Proof.
  intros Hc. rewrite !encodeAll_app, !encodeAll_cons, <- !app_assoc.
  rewrite (DecodeUTF8_EncodeUTF8_at c (Str.encodeAll done)
             (Str.encodeAll rest ++ [0]) Hc).
  cbn [Str.encodeAll flat_map]. now rewrite app_nil_r, length_app.
Qed.

Lemma LengthUTF8_loop_in_row (rest : list Z) :
  ∀ done rounds ret,
    Forall (λ c, 0 ≤ c < 2 ^ 32) rest → (length rest ≤ rounds)%nat →
    Str.LengthUTF8_loop rounds (Str.encodeAll (done ++ rest) ++ [0])
      (length (Str.encodeAll done)) (length (Str.encodeAll (done ++ rest))) ret
    = Some (ret + length rest)%nat.
Proof.
  induction rest as [|c rest IH]; intros done rounds ret Hall Hrounds.
  - rewrite app_nil_r. destruct rounds; cbn [Str.LengthUTF8_loop];
      rewrite Nat.ltb_irrefl; f_equal; cbn; lia.
  - apply Forall_cons in Hall as [Hc Hall].
    destruct rounds as [|rounds]; [cbn in Hrounds; lia|].
    cbn [Str.LengthUTF8_loop].
    pose proof (EncodeUTF8_length_bounds c Hc) as Hlen.
    rewrite (proj2 (Nat.ltb_lt _ _))
      by (rewrite !encodeAll_app, encodeAll_cons, !length_app; lia).
    rewrite decode_in_row by exact Hc.
    replace (done ++ c :: rest) with ((done ++ [c]) ++ rest)
      by (now rewrite <- app_assoc).
    rewrite IH by (exact Hall || (cbn in Hrounds; lia)).
    f_equal. cbn. lia.
Qed.

Lemma ByteOffsetUTF8_loop_in_row (left : nat) :
  ∀ done rest,
    Forall (λ c, 0 ≤ c < 2 ^ 32) rest →
    Str.ByteOffsetUTF8_loop left (Str.ofBytes (Str.encodeAll (done ++ rest)))
      (length (Str.encodeAll done))
    = Some (length (Str.encodeAll (done ++ take left rest))).
Proof.
  induction left as [|left IH]; intros done rest Hall; cbn [Str.ByteOffsetUTF8_loop].
  - now rewrite take_0, app_nil_r.
  - destruct rest as [|c rest].
    + rewrite take_nil, !app_nil_r, ofBytes_length.
      now rewrite Nat.ltb_irrefl.
    + apply Forall_cons in Hall as [Hc Hall].
      pose proof (EncodeUTF8_length_bounds c Hc) as Hlen.
      rewrite ofBytes_length.
      rewrite (proj2 (Nat.ltb_lt _ _))
        by (rewrite !encodeAll_app, encodeAll_cons, !length_app; lia).
      unfold Str.NextUTF8Char. rewrite ofBytes_buffer.
      rewrite decode_in_row by exact Hc.
      replace (done ++ c :: rest) with ((done ++ [c]) ++ rest)
        by (now rewrite <- app_assoc).
      rewrite IH by exact Hall. cbn [take]. now rewrite <- app_assoc.
Qed.

(** A string whose bytes are the encodings of a sequence of characters,
    in a row, gives the sequence back: [LengthUTF8] is the number of
    characters, [ByteOffsetUTF8] of an index is the number of bytes of
    the characters before it, and [AtUTF8] returns the character at the
    index (its low 31 bits), and 0 for an index from the number of
    characters on. *)
Theorem UTF8_string_round_trip (chars : list Z) :
  Forall (λ c, 0 ≤ c < 2 ^ 32) chars →
  Str.wellFormed (Str.ofBytes (Str.encodeAll chars))
  ∧ Str.LengthUTF8 (Str.ofBytes (Str.encodeAll chars)) = Some (length chars)
  ∧ (∀ index,
       Str.ByteOffsetUTF8 (Str.ofBytes (Str.encodeAll chars)) index
       = Some (length (Str.encodeAll (take index chars))))
  ∧ (∀ index c, chars !! index = Some c →
       Str.AtUTF8 (Str.ofBytes (Str.encodeAll chars)) index = Some (c mod 2 ^ 31))
  ∧ (∀ index, (length chars ≤ index)%nat →
       Str.AtUTF8 (Str.ofBytes (Str.encodeAll chars)) index = Some 0).
Proof.
  intros Hall.
  pose proof (ofBytes_wellFormed _ (encodeAll_bytes chars Hall)) as Hwf.
  assert (Hoff : ∀ index,
            Str.ByteOffsetUTF8 (Str.ofBytes (Str.encodeAll chars)) index
            = Some (length (Str.encodeAll (take index chars)))).
  { intros index. unfold Str.ByteOffsetUTF8.
    exact (ByteOffsetUTF8_loop_in_row index [] chars Hall). }
  split; [exact Hwf|split; [|split; [exact Hoff|split]]].
  - unfold Str.LengthUTF8. rewrite ofBytes_length, ofBytes_buffer.
    assert (Hlen : (length chars ≤ length (Str.encodeAll chars))%nat).
    { clear Hwf Hoff. induction Hall as [|c l Hc _ IH]; [reflexivity|].
      rewrite encodeAll_cons, length_app. cbn [length].
      pose proof (EncodeUTF8_length_bounds c Hc) as Hl. lia. }
    exact (LengthUTF8_loop_in_row chars [] _ 0%nat Hall Hlen).
  - intros index c Hc. unfold Str.AtUTF8. rewrite Hoff. cbn [mbind option_bind].
    unfold Str.NextUTF8Char. rewrite ofBytes_buffer.
    rewrite <- (take_drop_middle chars index c Hc) at 1.
    rewrite decode_in_row; [reflexivity|].
    rewrite Forall_lookup in Hall. exact (Hall index c Hc).
  - intros index Hge. unfold Str.AtUTF8. rewrite Hoff. cbn [mbind option_bind].
    rewrite take_ge by exact Hge.
    unfold Str.NextUTF8Char.
    rewrite <- (ofBytes_length (Str.encodeAll chars)).
    now rewrite (DecodeUTF8_terminator _ Hwf).
Qed.

Lemma skipContinuation_run (conts : list Z) (stop : Z) (after : list Z) :
  Forall (λ b, Str.isContinuation b = true) conts →
  Str.isContinuation stop = false →
  Str.skipContinuation (conts ++ stop :: after) = Some (length conts).
Proof.
  intros Hconts Hstop. induction Hconts as [|b conts Hb _ IH]; cbn.
  - now rewrite Hstop.
  - now rewrite Hb, IH.
Qed.

(** Malformed input gives ['?'] and is stepped over in one piece: a run of
    continuation bytes with no lead byte is skipped up to the next byte
    that is not one; a lead byte followed by a byte that is no
    continuation byte gives ['?'] with the pointer left on that byte.
    Overlong forms are not refused: the two bytes [0xc0], [0x80 + x]
    decode to the character [x] below 64. *)
Theorem DecodeUTF8_malformed (before after : list Z) :
  (∀ b conts stop,
     Str.isContinuation b = true →
     Forall (λ b, Str.isContinuation b = true) conts →
     Str.isContinuation stop = false →
     Str.DecodeUTF8 (before ++ b :: conts ++ stop :: after) (length before)
     = Some (Str.QUESTION_MARK, (length before + 1 + length conts)%nat))
  ∧ (∀ lead next,
       192 ≤ lead → next < 128 ∨ 192 ≤ next →
       Str.DecodeUTF8 (before ++ lead :: next :: after) (length before)
       = Some (Str.QUESTION_MARK, (length before + 1)%nat))
  ∧ (∀ x, 0 ≤ x < 64 →
       Str.DecodeUTF8 (before ++ 0xc0 :: (0x80 + x) :: after) (length before)
       = Some (x, (length before + 2)%nat)).
Proof.
  split; [|split].
  - intros b conts stop Hb Hconts Hstop.
    rewrite <- (Nat.add_0_r (length before)) at 1. rewrite DecodeUTF8_shift.
    unfold Str.DecodeUTF8. cbn [lookup list_lookup skipn]. rewrite Hb, drop_0.
    rewrite (skipContinuation_run conts stop after Hconts Hstop).
    cbn. unfold Str.moved. cbn. do 2 f_equal. lia.
  - intros lead next Hlead Hnext.
    rewrite <- (Nat.add_0_r (length before)) at 1. rewrite DecodeUTF8_shift.
    unfold Str.DecodeUTF8. cbn [lookup list_lookup].
    rewrite isContinuation_no by lia.
    rewrite (proj2 (Z.ltb_ge lead 0x80)) by lia.
    repeat (destruct (_ <? _);
            [now rewrite (continuation_stop (lead :: next :: after) 1 next _ eq_refl Hnext)|]).
    now rewrite (continuation_stop (lead :: next :: after) 1 next _ eq_refl Hnext).
  - intros x Hx.
    rewrite <- (Nat.add_0_r (length before)) at 1. rewrite DecodeUTF8_shift.
    unfold Str.DecodeUTF8. cbn [lookup list_lookup].
    rewrite (continuation_next (0xc0 :: (0x80 + x) :: after) 1 (0x80 + x) _ eq_refl) by lia.
    cbn -[Z.lor Z.land Z.shiftl Z.add]. unfold Str.moved. cbn [fst snd].
    do 2 f_equal.
    land_to_mod. join_bits. simpl (2 ^ _). Z.div_mod_to_equations. lia.
Qed.
End UTF8.

(** *** The UTF-8 properties on concrete input *)

Lemma EncodeUTF8_DecodeUTF8_witness :
  Str.DecodeUTF8 ([65%Z] ++ Str.EncodeUTF8 0x20ac ++ [66%Z]) (length [65%Z])
  = Some ((0x20ac mod 2 ^ 31)%Z, length [65%Z] + length (Str.EncodeUTF8 0x20ac)).
Proof.
  assert (Hc : (0 ≤ 0x20ac < 2 ^ 32)%Z) by lia.
  exact (proj1 (EncodeUTF8_DecodeUTF8 0x20ac [65%Z] [66%Z] Hc)).
Defined.

Lemma EncodeUTF8_layout_witness :
  Forall (λ b, (0 ≤ b < 256)%Z) (Str.EncodeUTF8 0x20ac).
Proof.
  assert (Hc : (0 ≤ 0x20ac < 2 ^ 32)%Z) by lia.
  pose proof (EncodeUTF8_layout 0x20ac Hc) as (_ & Hbytes & _).
  exact Hbytes.
Defined.

Lemma NextUTF8Char_in_bounds_witness :
  ∃ ch next, Str.NextUTF8Char (Str.ofBytes [0xe2; 0x82]%Z) 0 = Some (ch, next)
             ∧ 0 < next ≤ Str.length (Str.ofBytes [0xe2; 0x82]%Z)
             ∧ (0 ≤ ch < 2 ^ 31)%Z.
Proof.
  assert (Hb : Forall (λ b, (0 ≤ b < 256)%Z) [0xe2; 0x82]%Z) by (repeat constructor; lia).
  assert (Hlt : 0 < Str.length (Str.ofBytes [0xe2; 0x82]%Z)) by (cbn; lia).
  exact (NextUTF8Char_in_bounds _ 0 (ofBytes_wellFormed _ Hb) Hlt).
Defined.

Lemma UTF8_walks_in_bounds_witness :
  ∃ n, Str.LengthUTF8 (Str.ofBytes [0xe2; 0x82]%Z) = Some n
       ∧ n ≤ Str.length (Str.ofBytes [0xe2; 0x82]%Z)
       ∧ (n = 0 ↔ Str.length (Str.ofBytes [0xe2; 0x82]%Z) = 0).
Proof.
  assert (Hb : Forall (λ b, (0 ≤ b < 256)%Z) [0xe2; 0x82]%Z) by (repeat constructor; lia).
  exact (proj1 (UTF8_walks_in_bounds _ (ofBytes_wellFormed _ Hb))).
Defined.

Lemma UTF8_string_round_trip_witness :
  Str.LengthUTF8 (Str.ofBytes (Str.encodeAll [0x41; 0x20ac; 0x1f600]%Z)) = Some 3
  ∧ Str.AtUTF8 (Str.ofBytes (Str.encodeAll [0x41; 0x20ac; 0x1f600]%Z)) 2
    = Some (0x1f600 mod 2 ^ 31)%Z.
Proof.
  assert (Hall : Forall (λ c, (0 ≤ c < 2 ^ 32)%Z) [0x41; 0x20ac; 0x1f600]%Z)
    by (repeat constructor; lia).
  pose proof (UTF8_string_round_trip _ Hall) as (_ & Hlen & _ & Hat & _).
  assert (H2 : [0x41; 0x20ac; 0x1f600]%Z !! 2 = Some 0x1f600%Z) by reflexivity.
  exact (conj Hlen (Hat 2 _ H2)).
Defined.

Lemma DecodeUTF8_malformed_witness :
  Str.DecodeUTF8 ([65%Z] ++ 0x82%Z :: [0xac%Z] ++ 66%Z :: []) (length [65%Z])
  = Some (Str.QUESTION_MARK, length [65%Z] + 1 + length [0xac%Z])
  ∧ Str.DecodeUTF8 ([65%Z] ++ 0xe2%Z :: 66%Z :: []) (length [65%Z])
    = Some (Str.QUESTION_MARK, length [65%Z] + 1)
  ∧ Str.DecodeUTF8 ([65%Z] ++ 0xc0%Z :: (0x80 + 0x2f)%Z :: []) (length [65%Z])
    = Some (0x2f%Z, length [65%Z] + 2).
Proof.
  pose proof (DecodeUTF8_malformed [65%Z] []) as (Hstray & Hcut & Hlong).
  assert (H1 : Str.isContinuation 0x82 = true) by reflexivity.
  assert (H2 : Forall (λ b, Str.isContinuation b = true) [0xac%Z])
    by (repeat constructor).
  assert (H3 : Str.isContinuation 66 = false) by reflexivity.
  assert (H4 : (192 ≤ 0xe2)%Z) by lia.
  assert (H5 : (66 < 128 ∨ 192 ≤ 66)%Z) by lia.
  assert (H6 : (0 ≤ 0x2f < 64)%Z) by lia.
  exact (conj (Hstray _ _ _ H1 H2 H3) (conj (Hcut _ _ H4 H5) (Hlong _ H6))).
Defined.

(** * Searching in strings ([Base/String.cpp]): properties *)

Section SearchFacts.
Context `{Str.StringDefs}.
Local Open Scope Z_scope.

Lemma size_t_small (v : Z) : 0 ≤ v < 2 ^ Str.SIZE_BITS → Str.size_t v = v.
Proof. intros Hv. unfold Str.size_t. now apply Z.mod_small. Qed.

Lemma size_t_minus_one : 0 < Str.SIZE_BITS → Str.size_t (-1) = 2 ^ Str.SIZE_BITS - 1.
Proof.
  intros Hbits. unfold Str.size_t.
  assert (Hpos : 0 < 2 ^ Str.SIZE_BITS) by (apply Z.pow_pos_nonneg; lia).
  symmetry. apply (Z.mod_unique_pos _ _ (-1)); lia.
Qed.

Section InString.
Variable s : Str.String.
Hypothesis Hwf : Str.wellFormed s.
Hypothesis Hfit : Str.sizesFit s.

Lemma Length_range : 0 ≤ Str.Length s < 2 ^ Str.SIZE_BITS.
Proof using Hfit.
  destruct Hfit as [Hbits HNPOS Hlen]. unfold Str.Length in *. lia.
Qed.

Lemma at_in_string (i : Z) :
  0 ≤ i ≤ Str.Length s → ∃ c, Str.at_ s i = Some c.
Proof using Hwf.
  intros Hi. unfold Str.at_, Str.Length in *.
  apply lookup_lt_is_Some_2. pose proof (Str.wf_room s Hwf). lia.
Qed.

Lemma Find_char_loop_spec (test : Z → bool) (rounds : nat) :
  ∀ i, 0 ≤ i → Str.Length s - i ≤ Z.of_nat rounds →
    ∃ r, Str.Find_char_loop rounds s test i = Some r
         ∧ ((r = Str.NPOS
             ∧ ∀ k b, i ≤ k < Str.Length s → Str.at_ s k = Some b → test b = false)
            ∨ (i ≤ r < Str.Length s
               ∧ (∃ b, Str.at_ s r = Some b ∧ test b = true)
               ∧ ∀ k b, i ≤ k < r → Str.at_ s k = Some b → test b = false)).
Proof using Hwf Hfit.
  pose proof Length_range as Hlen.
  induction rounds as [|rounds IH]; intros i Hi Hrounds;
    cbn [Str.Find_char_loop]; destruct (Z.ltb_spec i (Str.Length s));
    try (exists Str.NPOS; split; [reflexivity|left; split; [reflexivity|lia]]);
    [lia|].
  destruct (at_in_string i) as [c Hc]; [lia|]. rewrite Hc. cbn [mbind option_bind].
  destruct (test c) eqn:Etest.
  - exists i. split; [reflexivity|]. right. split; [lia|]. split; [eauto|]. lia.
  - rewrite size_t_small by lia.
    destruct (IH (i + 1)) as (r & -> & Hr); [lia|lia|].
    exists r. split; [reflexivity|].
    assert (Hhere : ∀ k b, k = i → Str.at_ s k = Some b → test b = false).
    { intros k b -> Hb. rewrite Hc in Hb. now injection Hb as <-. }
    destruct Hr as [[-> Hnone]|(Hrange & Hfound & Hnone)]; [left|right].
    + split; [reflexivity|]. intros k b Hk Hb.
      destruct (Z.eq_dec k i) as [->|]; [eauto|]. apply (Hnone k b); [lia|exact Hb].
    + split; [lia|]. split; [exact Hfound|]. intros k b Hk Hb.
      destruct (Z.eq_dec k i) as [->|]; [eauto|]. apply (Hnone k b); [lia|exact Hb].
Qed.

Lemma FindLast_char_loop_spec (test : Z → bool) (rounds : nat) :
  ∀ i, 0 ≤ i < Str.Length s → i < Z.of_nat rounds →
    ∃ r, Str.FindLast_char_loop rounds s test i = Some r
         ∧ ((r = Str.NPOS
             ∧ ∀ k b, 0 ≤ k ≤ i → Str.at_ s k = Some b → test b = false)
            ∨ (0 ≤ r ≤ i
               ∧ (∃ b, Str.at_ s r = Some b ∧ test b = true)
               ∧ ∀ k b, r < k ≤ i → Str.at_ s k = Some b → test b = false)).
Proof using Hwf Hfit.
  pose proof Length_range as Hlen. pose proof (Str.fit_bits s Hfit) as Hbits.
  induction rounds as [|rounds IH]; intros i Hi Hrounds; [lia|].
  cbn [Str.FindLast_char_loop]. destruct (Z.ltb_spec i (Str.Length s)); [|lia].
  destruct (at_in_string i) as [c Hc]; [lia|]. rewrite Hc. cbn [mbind option_bind].
  destruct (test c) eqn:Etest.
  - exists i. split; [reflexivity|]. right. split; [lia|]. split; [eauto|]. lia.
  - assert (Hhere : ∀ k b, k = i → Str.at_ s k = Some b → test b = false).
    { intros k b -> Hb. rewrite Hc in Hb. now injection Hb as <-. }
    destruct (Z.eq_dec i 0) as [->|Hnz].
    + change (0 - 1) with (-1). rewrite size_t_minus_one by exact Hbits.
      exists Str.NPOS. split.
      * destruct rounds; cbn [Str.FindLast_char_loop];
          destruct (Z.ltb_spec (2 ^ Str.SIZE_BITS - 1) (Str.Length s));
          try reflexivity; lia.
      * left. split; [reflexivity|]. intros k b Hk. apply Hhere. lia.
    + rewrite size_t_small by lia.
      destruct (IH (i - 1)) as (r & -> & Hr); [lia|lia|].
      exists r. split; [reflexivity|].
      destruct Hr as [[-> Hnone]|(Hrange & Hfound & Hnone)]; [left|right].
      * split; [reflexivity|]. intros k b Hk Hb.
        destruct (Z.eq_dec k i) as [->|]; [eauto|]. apply (Hnone k b); [lia|exact Hb].
      * split; [lia|]. split; [exact Hfound|]. intros k b Hk Hb.
        destruct (Z.eq_dec k i) as [->|]; [eauto|]. apply (Hnone k b); [lia|exact Hb].
Qed.
End InString.

(** [Find(char)] returns the first position from [startPos] on whose
    character is the one looked for, and [NPOS] when there is none, also
    when [startPos] lies behind the string.  Without case sensitivity the
    characters of the string go through [Turso3D::ToLower] and the one
    looked for through [tolower] of the C library. *)
Theorem Find_char_first (s : Str.String) (c startPos : Z) (caseSensitive : bool) :
  Str.wellFormed s → Str.sizesFit s → 0 ≤ startPos →
  ∃ r, Str.Find_char s c startPos caseSensitive = Some r
       ∧ ∀ test, test = (if caseSensitive then (λ b, b =? c)
                         else (λ b, Str.ToLower b =? Str.to_char (Str.tolower c))) →
         (r = Str.NPOS
          ∧ ∀ k b, startPos ≤ k < Str.Length s → Str.at_ s k = Some b → test b = false)
         ∨ (startPos ≤ r < Str.Length s
            ∧ (∃ b, Str.at_ s r = Some b ∧ test b = true)
            ∧ ∀ k b, startPos ≤ k < r → Str.at_ s k = Some b → test b = false).
Proof.
  intros Hwf Hfit Hstart. unfold Str.Find_char.
  assert (Hrounds : Str.Length s - startPos ≤ Z.of_nat (Str.length s))
    by (unfold Str.Length; lia).
  destruct caseSensitive.
  - destruct (Find_char_loop_spec s Hwf Hfit (λ b, b =? c) _ startPos Hstart Hrounds)
      as (r & E & Hr).
    exists r. split; [exact E|]. now intros test ->.
  - destruct (Find_char_loop_spec s Hwf Hfit
                (λ b, Str.ToLower b =? Str.to_char (Str.tolower c)) _ startPos
                Hstart Hrounds) as (r & E & Hr).
    exists r. split; [exact E|]. now intros test ->.
Qed.

(** [FindLast(char)] returns the last position up to [startPos] whose
    character is the one looked for, and [NPOS] when there is none; a
    [startPos] behind the string counts as its last position.  The loop
    counts down and ends when the position wraps around below zero; in
    the empty string [length - 1] wraps around at once and nothing is
    read. *)
Theorem FindLast_char_last (s : Str.String) (c startPos : Z) (caseSensitive : bool) :
  Str.wellFormed s → Str.sizesFit s → 0 ≤ startPos →
  ∃ r, Str.FindLast_char s c startPos caseSensitive = Some r
       ∧ ∀ test top,
           test = (if caseSensitive then (λ b, b =? c)
                   else (λ b, Str.ToLower b =? Str.ToLower c)) →
           top = Z.min startPos (Str.Length s - 1) →
           (r = Str.NPOS
            ∧ ∀ k b, 0 ≤ k ≤ top → Str.at_ s k = Some b → test b = false)
           ∨ (0 ≤ r ≤ top
              ∧ (∃ b, Str.at_ s r = Some b ∧ test b = true)
              ∧ ∀ k b, r < k ≤ top → Str.at_ s k = Some b → test b = false).
Proof.
  intros Hwf Hfit Hstart. unfold Str.FindLast_char.
  pose proof (Length_range s Hfit) as Hlen. pose proof (Str.fit_bits s Hfit) as Hbits.
  assert (Hgen : ∀ test,
    ∃ r, Str.FindLast_char_loop (S (Str.length s)) s test
           (if Str.Length s <=? startPos then Str.size_t (Str.Length s - 1)
            else startPos) = Some r
         ∧ ((r = Str.NPOS
             ∧ ∀ k b, 0 ≤ k ≤ Z.min startPos (Str.Length s - 1) →
                      Str.at_ s k = Some b → test b = false)
            ∨ (0 ≤ r ≤ Z.min startPos (Str.Length s - 1)
               ∧ (∃ b, Str.at_ s r = Some b ∧ test b = true)
               ∧ ∀ k b, r < k ≤ Z.min startPos (Str.Length s - 1) →
                        Str.at_ s k = Some b → test b = false))).
  { intros test. destruct (Z.eq_dec (Str.Length s) 0) as [Hz|Hnz].
    - rewrite Hz. rewrite (proj2 (Z.leb_le 0 startPos)) by lia.
      change (0 - 1) with (-1). rewrite size_t_minus_one by exact Hbits.
      exists Str.NPOS. split.
      + cbn [Str.FindLast_char_loop]. rewrite Hz.
        now rewrite (proj2 (Z.ltb_ge (2 ^ Str.SIZE_BITS - 1) 0)) by lia.
      + left. split; [reflexivity|]. intros k b Hk. lia.
    - destruct (Z.leb_spec (Str.Length s) startPos).
      + rewrite size_t_small by lia. rewrite Z.min_r by lia.
        apply (FindLast_char_loop_spec s Hwf Hfit); unfold Str.Length in *; lia.
      + rewrite Z.min_l by lia.
        apply (FindLast_char_loop_spec s Hwf Hfit); unfold Str.Length in *; lia. }
  destruct caseSensitive.
  - destruct (Hgen (λ b, b =? c)) as (r & E & Hr).
    exists r. split; [exact E|]. now intros test top -> ->.
  - destruct (Hgen (λ b, Str.ToLower b =? Str.ToLower c)) as (r & E & Hr).
    exists r. split; [exact E|]. now intros test top -> ->.
Qed.

Section Occurrences.
Variables s str : Str.String.
Variable caseSensitive : bool.
Hypothesis Hwf : Str.wellFormed s.
Hypothesis Hwf' : Str.wellFormed str.
Hypothesis Hfit : Str.sizesFit s.
Hypothesis Hlen : 1 ≤ Str.Length str ≤ Str.Length s.

Local Notation "'here'" := (Str.occursAt s str caseSensitive).
Local Notation "'fold'" := (Str.folded caseSensitive).

Lemma at_byteAt (t : Str.String) (i : Z) :
  Str.wellFormed t → 0 ≤ i ≤ Str.Length t → Str.at_ t i = Some (Str.byteAt t i).
Proof.
  intros Ht Hi. unfold Str.byteAt.
  destruct (at_in_string t Ht i Hi) as [c ->]. reflexivity.
Qed.

Lemma first_differs (k : Z) :
  fold (Str.byteAt s k) ≠ fold (Str.byteAt str 0) → ¬ here k.
Proof using Hlen.
  intros Hne (_ & _ & Hall). apply Hne.
  specialize (Hall 0 ltac:(lia)). now rewrite Z.add_0_r in Hall.
Qed.

Lemma Find_inner_spec (i : Z) (left : nat) :
  0 ≤ i → i + Str.Length str ≤ Str.Length s →
  ∀ j skip,
    1 ≤ j → j + Z.of_nat left = Str.Length str →
    (∀ j', 0 ≤ j' < j →
           fold (Str.byteAt s (i + j')) = fold (Str.byteAt str j')) →
    ((skip = Str.NPOS
      ∧ ∀ j', 1 ≤ j' < j → fold (Str.byteAt s (i + j')) ≠ fold (Str.byteAt str 0))
     ∨ (∃ j0, 1 ≤ j0 < j ∧ skip = i + j0 - 1
              ∧ ∀ j', 1 ≤ j' < j0 →
                      fold (Str.byteAt s (i + j')) ≠ fold (Str.byteAt str 0))) →
    ∃ found i',
      Str.Find_inner left s str caseSensitive (fold (Str.byteAt str 0)) i j skip
      = Some (found, i')
      ∧ (found = true → i' = i ∧ here i)
      ∧ (found = false →
         i ≤ i' < Str.Length s ∧ ∀ k, i ≤ k ≤ i' → ¬ here k).
Proof using Hwf Hwf' Hfit Hlen.
  intros Hi Hroom. pose proof (Length_range s Hfit) as Hrange.
  pose proof (Str.fit_NPOS s Hfit) as HNPOS.
  pose proof (Str.fit_length s Hfit) as HlenNPOS.
  induction left as [|left IH]; intros j skip Hj Hleft Hsame Hskip;
    cbn [Str.Find_inner].
  - exists true, i. split; [reflexivity|]. split; [|discriminate].
    intros _. split; [reflexivity|]. split; [lia|]. split; [lia|].
    intros j' Hj'. apply Hsame. lia.
  - rewrite (size_t_small (i + j)) by lia.
    rewrite (at_byteAt s (i + j) Hwf) by lia.
    rewrite (at_byteAt str j Hwf') by lia. cbn [mbind option_bind].
    rewrite (size_t_small (i + j - 1)) by lia.
    set (skip' := if (skip =? Str.NPOS) && (fold (Str.byteAt s (i + j))
                                            =? fold (Str.byteAt str 0))
                  then i + j - 1 else skip).
    assert (Hskip' :
      (skip' = Str.NPOS
       ∧ ∀ j', 1 ≤ j' < j + 1 →
               fold (Str.byteAt s (i + j')) ≠ fold (Str.byteAt str 0))
      ∨ (∃ j0, 1 ≤ j0 < j + 1 ∧ skip' = i + j0 - 1
               ∧ ∀ j', 1 ≤ j' < j0 →
                       fold (Str.byteAt s (i + j')) ≠ fold (Str.byteAt str 0))).
    { unfold skip'. destruct Hskip as [[-> Hnone]|(j0 & Hj0 & -> & Hnone)].
      - rewrite Z.eqb_refl. cbn [andb].
        destruct (Z.eqb_spec (fold (Str.byteAt s (i + j))) (fold (Str.byteAt str 0)))
          as [E|E].
        + right. exists j. split; [lia|]. split; [reflexivity|]. exact Hnone.
        + left. split; [reflexivity|]. intros j' Hj'.
          destruct (Z.eq_dec j' j) as [->|]; [exact E|]. apply Hnone. lia.
      - rewrite (proj2 (Z.eqb_neq (i + j0 - 1) Str.NPOS)) by lia. cbn [andb].
        right. exists j0. split; [lia|]. split; [reflexivity|]. exact Hnone. }
    destruct (Z.eqb_spec (fold (Str.byteAt s (i + j))) (fold (Str.byteAt str j)))
      as [E|E]; cbn [negb].
    + rewrite (size_t_small (j + 1)) by lia.
      apply IH; [lia|lia| |exact Hskip'].
      intros j' Hj'. destruct (Z.eq_dec j' j) as [->|]; [exact E|].
      apply Hsame. lia.
    + assert (Hnot : ¬ here i).
      { intros (_ & _ & Hall). apply E, Hall. lia. }
      destruct Hskip' as [[-> Hnone]|(j0 & Hj0 & -> & Hnone)].
      * rewrite Z.eqb_refl. cbn [negb].
        exists false, i. split; [reflexivity|]. split; [discriminate|].
        intros _. split; [lia|]. intros k Hk.
        assert (k = i) as -> by lia. exact Hnot.
      * rewrite (proj2 (Z.eqb_neq (i + j0 - 1) Str.NPOS)) by lia. cbn [negb].
        exists false, (i + j0 - 1). split; [reflexivity|]. split; [discriminate|].
        intros _. split; [lia|]. intros k Hk.
        destruct (Z.eq_dec k i) as [->|Hne]; [exact Hnot|].
        apply first_differs.
        replace k with (i + (k - i)) by lia. apply Hnone. lia.
Qed.

Lemma Find_outer_spec (rounds : nat) :
  ∀ i, 0 ≤ i → Str.Length s - Str.Length str + 1 - i ≤ Z.of_nat rounds →
    ∃ r, Str.Find_outer rounds s str caseSensitive (fold (Str.byteAt str 0)) i
         = Some r
         ∧ ((r = Str.NPOS ∧ ∀ k, i ≤ k → ¬ here k)
            ∨ (i ≤ r < Str.Length s ∧ here r ∧ ∀ k, i ≤ k < r → ¬ here k)).
Proof using Hwf Hwf' Hfit Hlen.
  pose proof (Length_range s Hfit) as Hrange.
  induction rounds as [|rounds IH]; intros i Hi Hrounds;
    cbn [Str.Find_outer]; rewrite (size_t_small (Str.Length s - Str.Length str)) by lia;
    destruct (Z.leb_spec i (Str.Length s - Str.Length str));
    try (exists Str.NPOS; split; [reflexivity|]; left; split; [reflexivity|];
         intros k Hk (_ & Hroom & _); lia); [lia|].
  rewrite (at_byteAt s i Hwf) by lia. cbn [mbind option_bind].
  destruct (Z.eqb_spec (fold (Str.byteAt s i)) (fold (Str.byteAt str 0))) as [E|E].
  - destruct (Find_inner_spec i (Str.length str - 1) Hi ltac:(lia) 1 Str.NPOS)
      as (found & i' & -> & Hfound & Hmissed).
    + lia.
    + unfold Str.Length in *. lia.
    + intros j' Hj'. assert (j' = 0) as -> by lia. now rewrite Z.add_0_r.
    + left. split; [reflexivity|]. intros j' Hj'. lia.
    + cbn [mbind option_bind]. destruct found.
      * destruct (Hfound eq_refl) as [-> Hhere]. exists i.
        split; [reflexivity|]. right. split; [lia|]. split; [exact Hhere|]. lia.
      * destruct (Hmissed eq_refl) as [Hi' Hnone].
        rewrite (size_t_small (i' + 1)) by lia.
        destruct (IH (i' + 1)) as (r & -> & Hr); [lia|lia|].
        exists r. split; [reflexivity|].
        destruct Hr as [[-> Hrest]|(Hr1 & Hr2 & Hrest)]; [left|right].
        -- split; [reflexivity|]. intros k Hk.
           destruct (Z.le_gt_cases k i'); [apply Hnone; lia|apply Hrest; lia].
        -- split; [lia|]. split; [exact Hr2|]. intros k Hk.
           destruct (Z.le_gt_cases k i'); [apply Hnone; lia|apply Hrest; lia].
  - rewrite (size_t_small (i + 1)) by lia.
    destruct (IH (i + 1)) as (r & -> & Hr); [lia|lia|].
    exists r. split; [reflexivity|].
    pose proof (first_differs i E) as Hnot.
    destruct Hr as [[-> Hrest]|(Hr1 & Hr2 & Hrest)]; [left|right].
    + split; [reflexivity|]. intros k Hk.
      destruct (Z.eq_dec k i) as [->|]; [exact Hnot|apply Hrest; lia].
    + split; [lia|]. split; [exact Hr2|]. intros k Hk.
      destruct (Z.eq_dec k i) as [->|]; [exact Hnot|apply Hrest; lia].
Qed.

Lemma FindLast_inner_spec (i : Z) (left : nat) :
  0 ≤ i → i + Str.Length str ≤ Str.Length s →
  ∀ j,
    1 ≤ j → j + Z.of_nat left = Str.Length str →
    (∀ j', 0 ≤ j' < j →
           fold (Str.byteAt s (i + j')) = fold (Str.byteAt str j')) →
    ∃ found,
      Str.FindLast_inner left s str caseSensitive i j = Some found
      ∧ (found = true → here i) ∧ (found = false → ¬ here i).
Proof using Hwf Hwf' Hfit Hlen.
  intros Hi Hroom. pose proof (Length_range s Hfit) as Hrange.
  induction left as [|left IH]; intros j Hj Hleft Hsame;
    cbn [Str.FindLast_inner].
  - exists true. split; [reflexivity|]. split; [|discriminate].
    intros _. split; [lia|]. split; [lia|].
    intros j' Hj'. apply Hsame. lia.
  - rewrite (size_t_small (i + j)) by lia.
    rewrite (at_byteAt s (i + j) Hwf) by lia.
    rewrite (at_byteAt str j Hwf') by lia. cbn [mbind option_bind].
    destruct (Z.eqb_spec (fold (Str.byteAt s (i + j))) (fold (Str.byteAt str j)))
      as [E|E]; cbn [negb].
    + rewrite (size_t_small (j + 1)) by lia.
      apply IH; [lia|lia|].
      intros j' Hj'. destruct (Z.eq_dec j' j) as [->|]; [exact E|].
      apply Hsame. lia.
    + exists false. split; [reflexivity|]. split; [discriminate|].
      intros _ (_ & _ & Hall). apply E, Hall. lia.
Qed.

Lemma FindLast_outer_spec (rounds : nat) :
  ∀ i, 0 ≤ i ≤ Str.Length s - Str.Length str → i < Z.of_nat rounds →
    ∃ r, Str.FindLast_outer rounds s str caseSensitive (fold (Str.byteAt str 0)) i
         = Some r
         ∧ ((r = Str.NPOS ∧ ∀ k, 0 ≤ k ≤ i → ¬ here k)
            ∨ (0 ≤ r ≤ i ∧ here r ∧ ∀ k, r < k ≤ i → ¬ here k)).
Proof using Hwf Hwf' Hfit Hlen.
  pose proof (Length_range s Hfit) as Hrange.
  pose proof (Str.fit_bits s Hfit) as Hbits.
  induction rounds as [|rounds IH]; intros i Hi Hrounds; [lia|].
  cbn [Str.FindLast_outer].
  destruct (Z.ltb_spec i (Str.Length s)); [|lia].
  rewrite (at_byteAt s i Hwf) by lia. cbn [mbind option_bind].
  assert (Hnext : ¬ here i →
    ∃ r, Str.FindLast_outer rounds s str caseSensitive (fold (Str.byteAt str 0))
           (Str.size_t (i - 1)) = Some r
         ∧ ((r = Str.NPOS ∧ ∀ k, 0 ≤ k ≤ i → ¬ here k)
            ∨ (0 ≤ r ≤ i ∧ here r ∧ ∀ k, r < k ≤ i → ¬ here k))).
  { intros Hnot. destruct (Z.eq_dec i 0) as [->|Hnz].
    - change (0 - 1) with (-1). rewrite size_t_minus_one by exact Hbits.
      exists Str.NPOS. split.
      + destruct rounds; cbn [Str.FindLast_outer];
          destruct (Z.ltb_spec (2 ^ Str.SIZE_BITS - 1) (Str.Length s));
          try reflexivity; lia.
      + left. split; [reflexivity|]. intros k Hk.
        assert (k = 0) as -> by lia. exact Hnot.
    - rewrite size_t_small by lia.
      destruct (IH (i - 1)) as (r & -> & Hr); [lia|lia|].
      exists r. split; [reflexivity|].
      destruct Hr as [[-> Hrest]|(Hr1 & Hr2 & Hrest)]; [left|right].
      + split; [reflexivity|]. intros k Hk.
        destruct (Z.eq_dec k i) as [->|]; [exact Hnot|apply Hrest; lia].
      + split; [lia|]. split; [exact Hr2|]. intros k Hk.
        destruct (Z.eq_dec k i) as [->|]; [exact Hnot|apply Hrest; lia]. }
  destruct (Z.eqb_spec (fold (Str.byteAt s i)) (fold (Str.byteAt str 0))) as [E|E].
  - destruct (FindLast_inner_spec i (Str.length str - 1) ltac:(lia) ltac:(lia) 1)
      as (found & -> & Hfound & Hmissed).
    + lia.
    + unfold Str.Length in *. lia.
    + intros j' Hj'. assert (j' = 0) as -> by lia. now rewrite Z.add_0_r.
    + cbn [mbind option_bind]. destruct found.
      * exists i. split; [reflexivity|]. right.
        split; [lia|]. split; [now apply Hfound|]. lia.
      * apply Hnext. now apply Hmissed.
  - apply Hnext. now apply first_differs.
Qed.
End Occurrences.

Lemma Find_String_spec (s str : Str.String) (startPos : Z)
    (caseSensitive : bool) :
  Str.wellFormed s → Str.wellFormed str → Str.sizesFit s → 0 ≤ startPos →
  ∃ r, Str.Find s str startPos caseSensitive = Some r
       ∧ (Str.Length str = 0 → r = Str.NPOS)
       ∧ (0 < Str.Length str →
          (r = Str.NPOS ∧ ∀ k, startPos ≤ k → ¬ Str.occursAt s str caseSensitive k)
          ∨ (startPos ≤ r < Str.Length s
             ∧ Str.occursAt s str caseSensitive r
             ∧ ∀ k, startPos ≤ k < r → ¬ Str.occursAt s str caseSensitive k)).
Proof.
  intros Hwf Hwf' Hfit Hstart. unfold Str.Find.
  destruct (Z.eqb_spec (Str.Length str) 0) as [Hz|Hnz]; cbn [orb].
  { exists Str.NPOS. split; [reflexivity|]. split; [reflexivity|lia]. }
  assert (Hpos : 0 < Str.Length str) by (unfold Str.Length in *; lia).
  destruct (Z.ltb_spec (Str.Length s) (Str.Length str)).
  { exists Str.NPOS. split; [reflexivity|]. split; [lia|]. intros _. left.
    split; [reflexivity|]. intros k Hk (Hk0 & Hroom & _). lia. }
  rewrite (at_byteAt str 0 Hwf') by lia. cbn [mbind option_bind].
  destruct (Find_outer_spec s str caseSensitive Hwf Hwf' Hfit ltac:(lia)
              (S (Str.length s)) startPos Hstart) as (r & -> & Hr).
  { unfold Str.Length in *. lia. }
  exists r. split; [reflexivity|]. split; [lia|]. intros _. exact Hr.
Qed.

(** [Find(const String&)] returns the first position from [startPos] on
    where [str] stands in the string (up to [ToLower] when the search is
    not case sensitive), and [NPOS] when there is none: the jump ahead
    that the inner loop prepares after a partial match skips no
    occurrence.  The empty string is never found. *)
Theorem Find_first_occurrence (s str : Str.String) (startPos : Z)
    (caseSensitive : bool) :
  Str.wellFormed s → Str.wellFormed str → Str.sizesFit s → 0 ≤ startPos →
  ∃ r, Str.Find s str startPos caseSensitive = Some r
       ∧ (Str.Length str = 0 → r = Str.NPOS)
       ∧ (0 < Str.Length str →
          (r = Str.NPOS ∧ ∀ k, startPos ≤ k → ¬ Str.occursAt s str caseSensitive k)
          ∨ (startPos ≤ r < Str.Length s
             ∧ Str.occursAt s str caseSensitive r
             ∧ ∀ k, startPos ≤ k < r → ¬ Str.occursAt s str caseSensitive k)).
Proof. exact (Find_String_spec s str startPos caseSensitive). Qed.

Lemma FindLast_String_spec (s str : Str.String) (startPos : Z)
    (caseSensitive : bool) :
  Str.wellFormed s → Str.wellFormed str → Str.sizesFit s → 0 ≤ startPos →
  ∃ r, Str.FindLast s str startPos caseSensitive = Some r
       ∧ (Str.Length str = 0 → r = Str.NPOS)
       ∧ (0 < Str.Length str →
          ∀ top, top = Z.min startPos (Str.Length s - Str.Length str) →
          (r = Str.NPOS ∧ ∀ k, 0 ≤ k ≤ top → ¬ Str.occursAt s str caseSensitive k)
          ∨ (0 ≤ r ≤ top
             ∧ Str.occursAt s str caseSensitive r
             ∧ ∀ k, r < k ≤ top → ¬ Str.occursAt s str caseSensitive k)).
Proof.
  intros Hwf Hwf' Hfit Hstart. unfold Str.FindLast.
  pose proof (Length_range s Hfit) as Hrange.
  destruct (Z.eqb_spec (Str.Length str) 0) as [Hz|Hnz]; cbn [orb].
  { exists Str.NPOS. split; [reflexivity|]. split; [reflexivity|lia]. }
  assert (Hpos : 0 < Str.Length str) by (unfold Str.Length in *; lia).
  destruct (Z.ltb_spec (Str.Length s) (Str.Length str)).
  { exists Str.NPOS. split; [reflexivity|]. split; [lia|]. intros _ top ->. left.
    split; [reflexivity|]. intros k Hk (Hk0 & Hroom & _). lia. }
  rewrite (size_t_small (Str.Length s - Str.Length str)) by lia.
  rewrite (at_byteAt str 0 Hwf') by lia. cbn [mbind option_bind].
  destruct (FindLast_outer_spec s str caseSensitive Hwf Hwf' Hfit ltac:(lia)
              (S (Str.length s))
              (if Str.Length s - Str.Length str <? startPos
               then Str.Length s - Str.Length str else startPos))
    as (r & -> & Hr).
  { destruct (Z.ltb_spec (Str.Length s - Str.Length str) startPos); lia. }
  { destruct (Z.ltb_spec (Str.Length s - Str.Length str) startPos);
      unfold Str.Length in *; lia. }
  exists r. split; [reflexivity|]. split; [lia|]. intros _ top ->.
  destruct (Z.ltb_spec (Str.Length s - Str.Length str) startPos).
  - now rewrite Z.min_r by lia.
  - now rewrite Z.min_l by lia.
Qed.

(** [FindLast(const String&)] returns the last position up to [startPos]
    where [str] stands in the string, and [NPOS] when there is none; a
    [startPos] behind the last place where [str] fits counts as that
    place.  The empty string is never found. *)
Theorem FindLast_last_occurrence (s str : Str.String) (startPos : Z)
    (caseSensitive : bool) :
  Str.wellFormed s → Str.wellFormed str → Str.sizesFit s → 0 ≤ startPos →
  ∃ r, Str.FindLast s str startPos caseSensitive = Some r
       ∧ (Str.Length str = 0 → r = Str.NPOS)
       ∧ (0 < Str.Length str →
          ∀ top, top = Z.min startPos (Str.Length s - Str.Length str) →
          (r = Str.NPOS ∧ ∀ k, 0 ≤ k ≤ top → ¬ Str.occursAt s str caseSensitive k)
          ∨ (0 ≤ r ≤ top
             ∧ Str.occursAt s str caseSensitive r
             ∧ ∀ k, r < k ≤ top → ¬ Str.occursAt s str caseSensitive k)).
Proof. exact (FindLast_String_spec s str startPos caseSensitive). Qed.

(** [StartsWith] and [EndsWith] hold exactly when [str] is not empty and
    stands at the start, or at the end, of the string: with the empty
    string as argument both return false. *)
Theorem StartsWith_EndsWith (s str : Str.String) (caseSensitive : bool) :
  Str.wellFormed s → Str.wellFormed str → Str.sizesFit s →
  (∃ b, Str.StartsWith s str caseSensitive = Some b
        ∧ (b = true ↔ 0 < Str.Length str ∧ Str.occursAt s str caseSensitive 0))
  ∧ (∃ b, Str.EndsWith s str caseSensitive = Some b
          ∧ (b = true ↔ 0 < Str.Length str
                        ∧ Str.occursAt s str caseSensitive
                            (Str.Length s - Str.Length str))).
Proof.
  intros Hwf Hwf' Hfit. pose proof (Length_range s Hfit) as Hrange.
  pose proof (Str.fit_NPOS s Hfit) as HNPOS.
  pose proof (Str.fit_length s Hfit) as HlenNPOS.
  pose proof (Str.fit_bits s Hfit) as Hbits.
  assert (Hstr : 0 ≤ Str.Length str) by (unfold Str.Length; lia).
  split.
  - unfold Str.StartsWith.
    destruct (Find_String_spec s str 0 caseSensitive Hwf Hwf' Hfit ltac:(lia))
      as (r & -> & Hempty & Hfound). cbn [mbind option_bind].
    eexists. split; [reflexivity|]. rewrite Z.eqb_eq.
    destruct (Z.eq_dec (Str.Length str) 0) as [Hz|Hnz].
    + rewrite (Hempty Hz). lia.
    + destruct (Hfound ltac:(lia)) as [[-> Hnone]|(Hr & Hhere & Hnone)].
      * split; [lia|]. intros [_ H0]. destruct (Hnone 0 ltac:(lia) H0).
      * split; [intros ->; split; [lia|exact Hhere]|].
        intros [_ H0]. destruct (Z.eq_dec r 0) as [|Hne]; [assumption|].
        destruct (Hnone 0 ltac:(lia) H0).
  - unfold Str.EndsWith.
    assert (Hstart : 0 ≤ Str.size_t (Str.Length s - 1)).
    { unfold Str.size_t. apply Z.mod_pos_bound. apply Z.pow_pos_nonneg; lia. }
    destruct (FindLast_String_spec s str _ caseSensitive Hwf Hwf' Hfit Hstart)
      as (r & -> & Hempty & Hfound). cbn [mbind option_bind].
    eexists. split; [reflexivity|].
    rewrite andb_true_iff, negb_true_iff, Z.eqb_neq, Z.eqb_eq.
    destruct (Z.eq_dec (Str.Length str) 0) as [Hz|Hnz].
    { rewrite (Hempty Hz). lia. }
    destruct (Z.lt_ge_cases (Str.Length s) (Str.Length str)) as [Hshort|Hfits].
    { destruct (Hfound ltac:(lia) _ eq_refl) as [[-> Hnone]|(Hr & Hhere & Hnone)].
      - split; [intros [Hne _]; lia|]. intros [_ (H0 & _)]. lia.
      - destruct Hhere as (H0 & Hroom & _). lia. }
    rewrite (size_t_small (Str.Length s - Str.Length str)) by lia.
    assert (Htop : Z.min (Str.size_t (Str.Length s - 1))
                         (Str.Length s - Str.Length str)
                   = Str.Length s - Str.Length str).
    { rewrite size_t_small by lia. lia. }
    destruct (Hfound ltac:(lia) _ eq_refl) as [[-> Hnone]|(Hr & Hhere & Hnone)];
      rewrite Htop in *.
    + split; [intros [Hne _]; lia|]. intros [_ Hend].
      destruct (Hnone (Str.Length s - Str.Length str) ltac:(lia) Hend).
    + split.
      * intros [_ ->]. split; [lia|exact Hhere].
      * intros [_ Hend]. split; [lia|].
        destruct (Z.eq_dec r (Str.Length s - Str.Length str)) as [|Hne]; [assumption|].
        destruct (Hnone (Str.Length s - Str.Length str) ltac:(lia) Hend).
Qed.
End SearchFacts.

(** * Comparing, splitting and UTF-16 ([Base/String.cpp]): properties *)

Section CompareFacts.
Context `{Str.StringDefs}.
Local Open Scope Z_scope.

Hypothesis ToLower_byte : ∀ c, 0 ≤ c < 256 → 0 ≤ Str.ToLower c < 256.
Hypothesis ToLower_zero : ∀ c, 0 ≤ c < 256 → (Str.ToLower c = 0 ↔ c = 0).

Lemma charValue_inj (l r : Z) :
  0 ≤ l < 256 → 0 ≤ r < 256 →
  (Str.charValue l <? Str.charValue r) = false →
  (Str.charValue r <? Str.charValue l) = false → l = r.
Proof.
  unfold Str.charValue. intros Hl Hr.
  destruct Str.CHAR_IS_SIGNED; cbn [andb];
    repeat match goal with
      | |- context [Z.leb ?a ?b] => destruct (Z.leb_spec a b)
      end; rewrite !Z.ltb_ge; lia.
Qed.

Lemma Compare_loop_spec (a : list Z) :
  ∀ b, Forall (λ c, 0 < c < 256) a → Forall (λ c, 0 < c < 256) b →
    ∃ r, Str.Compare_loop (Str.CString a) (Str.CString b) = Some r
         ∧ Str.Compare_loop (Str.CString b) (Str.CString a) = Some (- r)
         ∧ (r = -1 ∨ r = 0 ∨ r = 1)
         ∧ (r = 0 ↔ Str.ToLower <$> a = Str.ToLower <$> b).
Proof using ToLower_byte ToLower_zero.
  assert (Hzero : Str.ToLower 0 = 0) by (apply ToLower_zero; lia).
  assert (Hnz : ∀ c, 0 < c < 256 → (Str.ToLower c =? 0) = false).
  { intros c Hc. apply Z.eqb_neq. rewrite ToLower_zero by lia. lia. }
  induction a as [|x a IH]; intros b Ha Hb; destruct b as [|y b];
    cbn [Str.CString app Str.Compare_loop];
    try (apply Forall_cons in Ha as [Hx Ha]);
    try (apply Forall_cons in Hb as [Hy Hb]);
    rewrite ?Hzero, ?(Hnz x), ?(Hnz y) by assumption; cbn [Z.eqb orb negb].
  - exists 0. split; [reflexivity|]. split; [reflexivity|]. split; [lia|]. tauto.
  - exists (-1). split; [reflexivity|]. split; [reflexivity|]. split; [lia|].
    split; [lia|discriminate].
  - exists 1. split; [reflexivity|]. split; [reflexivity|]. split; [lia|].
    split; [lia|discriminate].
  - pose proof (ToLower_byte x ltac:(lia)) as Hlx.
    pose proof (ToLower_byte y ltac:(lia)) as Hly.
    destruct (Str.charValue (Str.ToLower x) <? Str.charValue (Str.ToLower y)) eqn:Elt.
    { apply Z.ltb_lt in Elt.
      rewrite (proj2 (Z.ltb_ge (Str.charValue (Str.ToLower y))
                               (Str.charValue (Str.ToLower x)))) by lia.
      exists (-1). split; [reflexivity|]. split; [reflexivity|]. split; [lia|].
      split; [lia|]. cbn. intros [= E _]. rewrite E in Elt. lia. }
    destruct (Str.charValue (Str.ToLower y) <? Str.charValue (Str.ToLower x)) eqn:Egt.
    { exists 1. split; [reflexivity|]. split; [reflexivity|]. split; [lia|].
      split; [lia|]. cbn. intros [= E _]. rewrite E in Egt.
      apply Z.ltb_lt in Egt. lia. }
    pose proof (charValue_inj _ _ Hlx Hly Elt Egt) as Exy.
    destruct (IH b Ha Hb) as (r & E1 & E2 & Hr & Hiff).
    exists r. split; [exact E1|]. split; [exact E2|]. split; [exact Hr|].
    rewrite Hiff. cbn. rewrite Exy. split; [now intros ->|now intros [= ->]].
Qed.

(** The comparison that ignores case is an order on C strings up to
    [ToLower]: the result is -1, 0 or 1, it is 0 exactly for strings equal
    after [ToLower], and swapping the arguments negates it.  [ToLower]
    maps bytes to bytes and only the terminator to zero. *)
Theorem Compare_ignoring_case (a b : list Z) :
  Forall (λ c, 0 < c < 256) a → Forall (λ c, 0 < c < 256) b →
  ∃ r, Str.Compare (Some (Str.CString a)) (Some (Str.CString b)) false = Some r
       ∧ Str.Compare (Some (Str.CString b)) (Some (Str.CString a)) false = Some (- r)
       ∧ (r = -1 ∨ r = 0 ∨ r = 1)
       ∧ (r = 0 ↔ Str.ToLower <$> a = Str.ToLower <$> b).
Proof using ToLower_byte ToLower_zero.
  intros Ha Hb. unfold Str.Compare. now apply Compare_loop_spec.
Qed.
End CompareFacts.

Section UTF16.
Local Open Scope Z_scope.

Lemma land_1023 (x : Z) : Z.land x 1023 = x mod 1024.
Proof. change 1023 with (Z.ones 10). now rewrite Z.land_ones. Qed.

Lemma shiftr_10 (x : Z) : Z.shiftr x 10 = x / 1024.
Proof. now rewrite Z.shiftr_div_pow2. Qed.

Lemma to_wchar_small (v : Z) : 0 ≤ v < 65536 → Str.to_wchar v = v.
Proof. intros Hv. unfold Str.to_wchar. now apply Z.mod_small. Qed.

(** The surrogate pair [EncodeUTF16] stores, in arithmetic. *)
Lemma EncodeUTF16_pair (c : Z) :
  0x10000 ≤ c < 0x110000 →
  Str.EncodeUTF16 c
  = [0xd800 + (c - 0x10000) / 1024; 0xdc00 + (c - 0x10000) mod 1024].
Proof.
  intros Hc. unfold Str.EncodeUTF16.
  rewrite (proj2 (Z.ltb_ge c 0x10000)) by lia.
  rewrite (Z.mod_small (c - 0x10000)) by lia.
  rewrite !land_1023, shiftr_10.
  rewrite (lor_prefix 0xd800 54 10), (lor_prefix 0xdc00 55 10)
    by (reflexivity || lia || (simpl (2 ^ _); Z.div_mod_to_equations; lia)).
  rewrite !to_wchar_small by (Z.div_mod_to_equations; lia).
  do 2 f_equal. Z.div_mod_to_equations. lia.
Qed.

(** [DecodeUTF16] never puts a surrogate pair together: the test
    [word1 < 0xd800 || word1 >= 0xe00] holds for every word, so a first
    word that is no low surrogate is returned as it is and one word is
    consumed.  So whatever it returns is below [0x10000]; a character
    below [0x10000] that is no low surrogate comes back from its
    encoding, while for every character from [0x10000] on the high
    surrogate of its encoding is returned in its place. *)
Theorem DecodeUTF16_never_pairs (before after : list Z) :
  (∀ mem src v next, Str.DecodeUTF16 mem src = Some (v, next) → 0 ≤ v < 0x10000)
  ∧ (∀ c, 0 ≤ c < 0x10000 → ¬ (0xdc00 ≤ c < 0xe000) →
       Str.DecodeUTF16 (before ++ Str.EncodeUTF16 c ++ after) (length before)
       = Some (c, S (length before)))
  ∧ (∀ c, 0x10000 ≤ c < 0x110000 →
       length (Str.EncodeUTF16 c) = 2%nat
       ∧ Str.DecodeUTF16 (before ++ Str.EncodeUTF16 c ++ after) (length before)
         = Some (0xd800 + (c - 0x10000) / 1024, S (length before))
       ∧ 0xd800 + (c - 0x10000) / 1024 < 0xdc00).
Proof.
  split; [|split].
  - intros mem src v next. unfold Str.DecodeUTF16.
    destruct (mem !! src) as [w|]; [|discriminate]. cbn [mbind option_bind].
    pose proof (Z.mod_pos_bound w 65536 ltac:(lia)) as Hw.
    fold (Str.to_wchar w) in Hw.
    destruct (_ && _).
    { destruct (Str.skipLowSurrogates _); [|discriminate]. cbn.
      intros [= <- _]. unfold Str.QUESTION_MARK. lia. }
    destruct (Z.ltb_spec (Str.to_wchar w) 0xd800); cbn [orb].
    { intros [= <- _]. lia. }
    destruct (Z.leb_spec 0xe00 (Str.to_wchar w)); [|lia].
    intros [= <- _]. lia.
  - intros c Hc Hlow. unfold Str.EncodeUTF16.
    rewrite (proj2 (Z.ltb_lt c 0x10000)) by lia.
    rewrite to_wchar_small by lia. unfold Str.DecodeUTF16.
    rewrite (lookup_app_r before _ (length before)), Nat.sub_diag by lia.
    cbn [app lookup list_lookup].
    cbn [mbind option_bind]. rewrite to_wchar_small by lia.
    destruct (Z.leb_spec 0xdc00 c), (Z.ltb_spec c 0xe000); cbn [andb]; try lia;
      destruct (Z.ltb_spec c 0xd800), (Z.leb_spec 0xe00 c); cbn [orb];
      reflexivity || lia.
  - intros c Hc. rewrite EncodeUTF16_pair by exact Hc.
    split; [reflexivity|]. split; [|Z.div_mod_to_equations; lia].
    unfold Str.DecodeUTF16.
    rewrite (lookup_app_r before _ (length before)), Nat.sub_diag by lia.
    cbn [app lookup list_lookup].
    cbn [mbind option_bind].
    rewrite to_wchar_small by (Z.div_mod_to_equations; lia).
    rewrite (proj2 (Z.ltb_lt _ 0xe000)) by (Z.div_mod_to_equations; lia).
    rewrite (proj2 (Z.leb_gt 0xdc00 _)) by (Z.div_mod_to_equations; lia).
    rewrite (proj2 (Z.leb_le 0xe00 _)) by (Z.div_mod_to_equations; lia).
    cbn [andb]. now rewrite orb_true_r.
Qed.
End UTF16.

Section SplitFacts.
Variable separator : Z.

Lemma scan_run (stop : Z → bool) (run : list Z) :
  ∀ before rest,
    Forall (λ c, stop c = false) run →
    (∀ c, head rest = Some c → stop c = true) →
    Str.scan (length (run ++ rest)) (before ++ run ++ rest) stop (length before)
    = length before + length run.
Proof.
  induction run as [|c run IH]; intros before rest Hrun Hrest.
  - cbn [app length]. rewrite Nat.add_0_r. destruct rest as [|c rest]; [reflexivity|].
    cbn [length Str.scan]. rewrite lookup_app_r, Nat.sub_diag by lia.
    cbn. now rewrite (Hrest c eq_refl).
  - apply Forall_cons in Hrun as [Hc Hrun].
    cbn [app length Str.scan]. rewrite lookup_app_r, Nat.sub_diag by lia.
    cbn [lookup list_lookup]. rewrite Hc.
    specialize (IH (before ++ [c]) rest Hrun Hrest).
    replace (length (before ++ [c])) with (S (length before)) in IH
      by (rewrite length_app; cbn; lia).
    rewrite <- app_assoc in IH. cbn [app] in IH. rewrite IH. lia.
Qed.

Lemma field_no_separator (p : list Z) :
  separator ∉ p → Forall (λ c, (c =? separator)%Z = false) p.
Proof.
  intros Hp. apply Forall_forall. intros c Hc. apply Z.eqb_neq. now intros ->.
Qed.

Lemma separators_run (n : nat) :
  Forall (λ c, negb (c =? separator)%Z = false) (replicate n separator).
Proof.
  apply Forall_replicate. now rewrite Z.eqb_refl.
Qed.

Lemma fields_start (fields : list (list Z * nat)) (c : Z) :
  Forall (λ f, f.1 ≠ [] ∧ separator ∉ f.1) fields →
  head (flat_map (λ f, f.1 ++ replicate f.2 separator) fields) = Some c →
  negb (c =? separator)%Z = true.
Proof.
  destruct 1 as [|[p gap] fs [Hne Hp] _]; [discriminate|].
  cbn. destruct p as [|c' p]; [done|]. cbn. intros [= ->].
  apply negb_true_iff, Z.eqb_neq. intros ->. apply Hp. left.
Qed.

Lemma Split_loop_fields (fields : list (list Z * nat)) :
  ∀ before rounds ret,
    Str.fieldsOK separator fields → length fields ≤ rounds →
    Str.Split_loop rounds
      (before ++ flat_map (λ f, f.1 ++ replicate f.2 separator) fields)
      separator (length before) ret
    = Some (ret ++ fields.*1).
Proof.
  induction fields as [|[p gap] fs IH]; intros before rounds ret [Hok Hgaps] Hrounds.
  - cbn [flat_map fmap list_fmap]. rewrite !app_nil_r.
    destruct rounds; cbn [Str.Split_loop]; now rewrite Nat.ltb_irrefl.
  - apply Forall_cons in Hok as [[Hne Hp] Hok]. cbn [fst snd] in Hne, Hp.
    destruct rounds as [|rounds]; [cbn in Hrounds; lia|].
    set (tail := flat_map (λ f, f.1 ++ replicate f.2 separator) fs).
    assert (Hstr : before ++ flat_map (λ f, f.1 ++ replicate f.2 separator)
                                      ((p, gap) :: fs)
                   = before ++ p ++ (replicate gap separator ++ tail)).
    { cbn [flat_map fst snd]. now rewrite <- app_assoc. }
    rewrite Hstr. cbn [Str.Split_loop].
    assert (Hp0 : 0 < length p) by (destruct p; [done|cbn; lia]).
    rewrite (proj2 (Nat.ltb_lt _ _)) by (rewrite !length_app; lia).
    replace (length (before ++ p ++ replicate gap separator ++ tail) - length before)
      with (length (p ++ replicate gap separator ++ tail))
      by (rewrite !length_app; lia).
    assert (Hgap : gap = 0 → fs = []).
    { intros ->. destruct fs as [|f fs]; [reflexivity|].
      specialize (Hgaps 0 (p, 0) eq_refl). cbn in Hgaps. lia. }
    rewrite (scan_run _ p before (replicate gap separator ++ tail)
               (field_no_separator p Hp)).
    2:{ intros c. destruct gap as [|gap].
        - unfold tail. rewrite (Hgap eq_refl). discriminate.
        - cbn. intros [= <-]. apply Z.eqb_refl. }
    destruct (decide (gap = 0 ∧ fs = [])) as [[-> ->]|Hmore].
    { cbn [replicate app flat_map]. unfold tail. cbn [flat_map].
      rewrite !app_nil_r, length_app, Nat.eqb_refl.
      now rewrite drop_app_length. }
    assert (Hgap1 : 0 < gap).
    { destruct gap; [|lia]. destruct Hmore. split; [reflexivity|now apply Hgap]. }
    rewrite (proj2 (Nat.eqb_neq _ _)) by (rewrite !length_app, length_replicate; lia).
    replace (length (before ++ p ++ replicate gap separator ++ tail)
             - (length before + length p))
      with (length (replicate gap separator ++ tail))
      by (rewrite !length_app; lia).
    rewrite (app_assoc before p).
    rewrite <- (length_app before p).
    rewrite (scan_run _ (replicate gap separator) (before ++ p) tail
               (separators_run gap))
      by (intros c; apply fields_start; exact Hok).
    assert (Epiece : take (length (before ++ p) - length before)
                       (drop (length before)
                          ((before ++ p) ++ replicate gap separator ++ tail)) = p).
    { rewrite length_app, Nat.add_comm, Nat.add_sub, <- app_assoc, drop_app_length.
      apply take_app_length. }
    rewrite Epiece, <- length_app, (app_assoc (before ++ p)).
    unfold tail. rewrite IH.
    + rewrite <- app_assoc. reflexivity.
    + split; [exact Hok|]. intros i f Hi Hlt.
      apply (Hgaps (S i) f Hi). cbn. lia.
    + cbn in Hrounds. lia.
Qed.

(** [Split] returns the fields of the text: for a text laid out as some
    leading separators and then fields, none empty or holding the
    separator, each but the last followed by one separator at least (the
    last by any number), the result is the list of the fields.  So
    leading and trailing separators and runs of separators give no empty
    string. *)
Theorem Split_fields (leading : nat) (fields : list (list Z * nat)) :
  Str.fieldsOK separator fields →
  Str.Split (Str.laidOut separator leading fields) separator = Some fields.*1.
Proof.
  intros Hok. unfold Str.Split, Str.laidOut.
  pose proof (scan_run (λ c, negb (c =? separator)%Z) (replicate leading separator)
                [] (flat_map (λ f, f.1 ++ replicate f.2 separator) fields)
                (separators_run leading)) as Hscan.
  cbn [app length] in Hscan. rewrite Hscan
    by (intros c; apply fields_start; exact (proj1 Hok)).
  rewrite Nat.add_0_l.
  rewrite Split_loop_fields; [reflexivity|exact Hok|].
  rewrite length_app. destruct Hok as [Hok _].
  clear Hscan. induction Hok as [|[p gap] fs [Hne _] _ IH]; cbn; [lia|].
  rewrite !length_app. destruct p; [done|]. cbn. lia.
Qed.
End SplitFacts.

(** *** The properties of the string functions on concrete input *)

Lemma defs64_sizesFit (bytes : list Z) :
  (Z.of_nat (length bytes) < 2 ^ 64)%Z →
  @Str.sizesFit Str.defs64 (Str.ofBytes bytes).
Proof.
  intros Hlen. split.
  - reflexivity.
  - split; reflexivity.
  - unfold Str.Length. cbn [Str.length Str.ofBytes Str.NPOS Str.defs64]. lia.
Qed.

Lemma asciiLower_byte (c : Z) : (0 ≤ c < 256 → 0 ≤ Str.asciiLower c < 256)%Z.
Proof.
  intros Hc. unfold Str.asciiLower.
  destruct (Z.leb_spec 65 c), (Z.leb_spec c 90); cbn [andb]; lia.
Qed.

Lemma asciiLower_zero (c : Z) : (0 ≤ c < 256)%Z → Str.asciiLower c = 0%Z ↔ c = 0%Z.
Proof.
  intros Hc. unfold Str.asciiLower.
  destruct (Z.leb_spec 65 c), (Z.leb_spec c 90); cbn [andb]; lia.
Qed.

Lemma Find_char_first_witness :
  ∃ r, @Str.Find_char Str.defs64 (Str.ofBytes [97; 98; 99; 97]%Z) 65 1 false = Some r.
Proof.
  assert (Hb : Forall (λ b, (0 ≤ b < 256)%Z) [97; 98; 99; 97]%Z)
    by (repeat constructor; lia).
  assert (Hlen : (Z.of_nat (length [97; 98; 99; 97]%Z) < 2 ^ 64)%Z) by (cbn; lia).
  assert (Hstart : (0 ≤ 1)%Z) by lia.
  destruct (@Find_char_first Str.defs64 _ 65 1 false (ofBytes_wellFormed _ Hb)
              (defs64_sizesFit _ Hlen) Hstart) as (r & E & _).
  exists r. exact E.
Defined.

Lemma FindLast_char_last_witness :
  ∃ r, @Str.FindLast_char Str.defs64 (Str.ofBytes [97; 98; 99; 97]%Z) 120 9 true
       = Some r.
Proof.
  assert (Hb : Forall (λ b, (0 ≤ b < 256)%Z) [97; 98; 99; 97]%Z)
    by (repeat constructor; lia).
  assert (Hlen : (Z.of_nat (length [97; 98; 99; 97]%Z) < 2 ^ 64)%Z) by (cbn; lia).
  assert (Hstart : (0 ≤ 9)%Z) by lia.
  destruct (@FindLast_char_last Str.defs64 _ 120 9 true (ofBytes_wellFormed _ Hb)
              (defs64_sizesFit _ Hlen) Hstart) as (r & E & _).
  exists r. exact E.
Defined.

Lemma Find_first_occurrence_witness :
  ∃ r, @Str.Find Str.defs64 (Str.ofBytes [97; 97; 98; 97; 97; 99]%Z)
         (Str.ofBytes [97; 97; 99]%Z) 0 true = Some r
       ∧ (Str.Length (Str.ofBytes [97; 97; 99]%Z) = 0%Z → r = @Str.NPOS Str.defs64).
Proof.
  assert (Hb : Forall (λ b, (0 ≤ b < 256)%Z) [97; 97; 98; 97; 97; 99]%Z)
    by (repeat constructor; lia).
  assert (Hb' : Forall (λ b, (0 ≤ b < 256)%Z) [97; 97; 99]%Z)
    by (repeat constructor; lia).
  assert (Hlen : (Z.of_nat (length [97; 97; 98; 97; 97; 99]%Z) < 2 ^ 64)%Z)
    by (cbn; lia).
  assert (Hstart : (0 ≤ 0)%Z) by lia.
  destruct (@Find_first_occurrence Str.defs64 _ _ 0 true (ofBytes_wellFormed _ Hb)
              (ofBytes_wellFormed _ Hb') (defs64_sizesFit _ Hlen) Hstart)
    as (r & E & Hempty & _).
  exists r. exact (conj E Hempty).
Defined.

Lemma FindLast_last_occurrence_witness :
  ∃ r, @Str.FindLast Str.defs64 (Str.ofBytes [97; 98; 97; 98]%Z)
         (Str.ofBytes [97; 98]%Z) 100 true = Some r
       ∧ (Str.Length (Str.ofBytes [97; 98]%Z) = 0%Z → r = @Str.NPOS Str.defs64).
Proof.
  assert (Hb : Forall (λ b, (0 ≤ b < 256)%Z) [97; 98; 97; 98]%Z)
    by (repeat constructor; lia).
  assert (Hb' : Forall (λ b, (0 ≤ b < 256)%Z) [97; 98]%Z)
    by (repeat constructor; lia).
  assert (Hlen : (Z.of_nat (length [97; 98; 97; 98]%Z) < 2 ^ 64)%Z) by (cbn; lia).
  assert (Hstart : (0 ≤ 100)%Z) by lia.
  destruct (@FindLast_last_occurrence Str.defs64 _ _ 100 true (ofBytes_wellFormed _ Hb)
              (ofBytes_wellFormed _ Hb') (defs64_sizesFit _ Hlen) Hstart)
    as (r & E & Hempty & _).
  exists r. exact (conj E Hempty).
Defined.

Lemma StartsWith_EndsWith_witness :
  ∃ b, @Str.StartsWith Str.defs64 (Str.ofBytes [97; 98; 97; 98]%Z) (Str.ofBytes [])
         true = Some b
       ∧ (b = true ↔
          (0 < Str.Length (Str.ofBytes []))%Z
          ∧ @Str.occursAt Str.defs64 (Str.ofBytes [97; 98; 97; 98]%Z) (Str.ofBytes [])
              true 0).
Proof.
  assert (Hb : Forall (λ b, (0 ≤ b < 256)%Z) [97; 98; 97; 98]%Z)
    by (repeat constructor; lia).
  assert (Hb' : Forall (λ b, (0 ≤ b < 256)%Z) []) by constructor.
  assert (Hlen : (Z.of_nat (length [97; 98; 97; 98]%Z) < 2 ^ 64)%Z) by (cbn; lia).
  exact (proj1 (@StartsWith_EndsWith Str.defs64 _ _ true (ofBytes_wellFormed _ Hb)
                  (ofBytes_wellFormed _ Hb') (defs64_sizesFit _ Hlen))).
Defined.

Lemma Compare_ignoring_case_witness :
  ∃ r, @Str.Compare Str.defs64 (Some (Str.CString [65; 98]%Z))
         (Some (Str.CString [97; 66]%Z)) false = Some r
       ∧ (r = 0%Z ↔ @Str.ToLower Str.defs64 <$> [65; 98]%Z
                     = @Str.ToLower Str.defs64 <$> [97; 66]%Z).
Proof.
  assert (Ha : Forall (λ c, (0 < c < 256)%Z) [65; 98]%Z) by (repeat constructor; lia).
  assert (Hb : Forall (λ c, (0 < c < 256)%Z) [97; 66]%Z) by (repeat constructor; lia).
  destruct (@Compare_ignoring_case Str.defs64 asciiLower_byte asciiLower_zero
              _ _ Ha Hb) as (r & E & _ & _ & Hiff).
  exists r. exact (conj E Hiff).
Defined.

Lemma DecodeUTF16_never_pairs_witness :
  length (Str.EncodeUTF16 0x1f600) = 2
  ∧ Str.DecodeUTF16 ([65%Z] ++ Str.EncodeUTF16 0x1f600 ++ []) (length [65%Z])
    = Some ((0xd800 + (0x1f600 - 0x10000) / 1024)%Z, S (length [65%Z])).
Proof.
  pose proof (DecodeUTF16_never_pairs [65%Z] []) as (_ & _ & Hpair).
  assert (Hc : (0x10000 ≤ 0x1f600 < 0x110000)%Z) by lia.
  destruct (Hpair _ Hc) as (Hlen & Hdec & _).
  exact (conj Hlen Hdec).
Defined.

Lemma Split_fields_witness :
  Str.Split (Str.laidOut 44 2 [([97; 98]%Z, 1); ([99]%Z, 3); ([100; 101]%Z, 0)]) 44
  = Some [[97; 98]; [99]; [100; 101]]%Z.
Proof.
  assert (Hok : Str.fieldsOK 44 [([97; 98]%Z, 1); ([99]%Z, 3); ([100; 101]%Z, 0)]).
  { split.
    - repeat constructor; try discriminate; cbn;
        rewrite list_elem_of_In; cbn; intros Hin;
        repeat (destruct Hin as [Hin|Hin]; [discriminate|]); exact Hin.
    - intros [|[|[|i]]] f; cbn; intros [= <-]; cbn; lia. }
  exact (Split_fields 44 2 _ Hok).
Defined.

(** ** [WString]: the conversion from a [String] *)

Section WideStringFacts.
Local Open Scope Z_scope.
Variable newArray : nat → list Z.
Hypothesis newArray_length : ∀ n : nat, length (newArray n) = n.

Lemma drop_last_cell (a : list Z) (n : nat) (x : Z) :
  length a = S n → a !! n = Some x → drop n a = [x].
Proof.
  intros Hlen Hx. rewrite (drop_S _ _ _ Hx), drop_ge by lia. reflexivity.
Qed.

(** The loop writes one cell for each character [LengthUTF8] counts: with
    that many cells left in the array every write is inside it, and the
    cells written hold the characters the walk of [ByteOffsetUTF8] and
    [NextUTF8Char] finds. *)
Lemma WString_fill_spec (s : Str.String) (Hwf : Str.wellFormed s) (rounds : nat) :
  ∀ byteOffset dest a ret n,
    (byteOffset ≤ Str.length s)%nat → (Str.length s - byteOffset ≤ rounds)%nat →
    Str.LengthUTF8_loop rounds (Str.buffer s) byteOffset (Str.length s) ret = Some n →
    (dest + (n - ret) ≤ length a)%nat →
    ∃ chars,
      Str.WString_fill rounds s byteOffset dest (Some a)
      = Some (Some (take dest a ++ chars ++ drop (dest + length chars) a))
      ∧ length chars = (n - ret)%nat
      ∧ ∀ i, (i < length chars)%nat →
             ∃ off, Str.ByteOffsetUTF8_loop i s byteOffset = Some off
                    ∧ fst <$> Str.NextUTF8Char s off = chars !! i.
Proof.
  induction rounds as [|rounds IH]; intros byteOffset dest a ret n Hoff Hrounds;
    cbn [Str.LengthUTF8_loop Str.WString_fill];
    destruct (Nat.ltb_spec byteOffset (Str.length s)) as [Hin|Hout];
    try lia.
  1, 3: intros [= <-] Hroom; exists []; cbn [length app];
    rewrite Nat.add_0_r, take_drop;
    (split; [reflexivity|split; [lia|intros i Hi; cbn in Hi; lia]]).
  unfold Str.NextUTF8Char.
  destruct (DecodeUTF8_in_string s Hwf byteOffset Hin) as (ch & next & E & Hnext & _).
  rewrite E. cbn [mbind option_bind].
  intros Hn Hroom.
  destruct (LengthUTF8_loop_in_string s Hwf rounds next (S ret))
    as (n' & Hn' & Hbound & _); [lia|lia|].
  rewrite Hn in Hn'. injection Hn' as <-.
  destruct (Nat.ltb_spec dest (length a)) as [Hdest|]; [|lia].
  destruct (IH next (S dest) (<[dest := ch]> a) (S ret) n) as (chars & -> & Hlen & Hchars);
    [lia|lia|exact Hn|rewrite length_insert; lia|].
  exists (ch :: chars). split; [|split].
  - rewrite (take_S_r (<[dest := ch]> a) dest ch)
      by (apply list_lookup_insert_eq; exact Hdest).
    rewrite take_insert_ge by lia. rewrite drop_insert_lt by lia.
    cbn [length]. rewrite <- app_assoc. cbn [app].
    now replace (dest + S (length chars))%nat with (S dest + length chars)%nat by lia.
  - cbn [length]. lia.
  - intros [|i] Hi.
    + exists byteOffset. split; [reflexivity|].
      unfold Str.NextUTF8Char. now rewrite E.
    + cbn [length] in Hi. destruct (Hchars i) as (off & Hoff' & Hat); [lia|].
      exists off. split; [|exact Hat].
      cbn [Str.ByteOffsetUTF8_loop].
      destruct (Nat.ltb_spec byteOffset (Str.length s)); [|lia].
      unfold Str.NextUTF8Char. now rewrite E.
Qed.

Lemma AtUTF8_in_row (chars : list Z) (index : nat) (c : Z) :
  Forall (λ c, 0 ≤ c < 2 ^ 32) chars → chars !! index = Some c →
  Str.AtUTF8 (Str.ofBytes (Str.encodeAll chars)) index = Some (c mod 2 ^ 31).
Proof.
  intros Hall Hc. unfold Str.AtUTF8, Str.ByteOffsetUTF8.
  pose proof (ByteOffsetUTF8_loop_in_row index [] chars Hall) as Hoff.
  change (Str.ByteOffsetUTF8_loop index (Str.ofBytes (Str.encodeAll chars)) 0
          = Some (length (Str.encodeAll (take index chars)))) in Hoff.
  rewrite Hoff.
  cbn [mbind option_bind].
  unfold Str.NextUTF8Char. rewrite ofBytes_buffer.
  rewrite <- (take_drop_middle chars index c Hc) at 1.
  rewrite decode_in_row; [reflexivity|].
  rewrite Forall_lookup in Hall. exact (Hall index c Hc).
Qed.

(** The conversion of a well-formed [String] to a [WString] allocates
    [LengthUTF8() + 1] cells and writes each of them once, none outside
    the array: the result holds the characters [AtUTF8] finds, one by
    one, and the zero that [Resize] has put after them.  Of the empty
    string the result is the null buffer, and nothing is written. *)
Theorem WString_of_String (str : Str.String) :
  Str.wellFormed str →
  ∃ n, Str.LengthUTF8 str = Some n
       ∧ (n = 0%nat → Str.WString_of newArray str = Some (Str.mkWString 0 None))
       ∧ ((0 < n)%nat →
          ∃ chars, Str.WString_of newArray str
                   = Some (Str.mkWString n (Some (chars ++ [0])))
                   ∧ length chars = n
                   ∧ ∀ i, (i < n)%nat → Str.AtUTF8 str i = chars !! i).
Proof using newArray_length.
  intros Hwf. unfold Str.WString_of, Str.LengthUTF8.
  destruct (LengthUTF8_loop_in_string str Hwf (Str.length str) 0 0)
    as (n & Hn & Hbound & Hpos); [lia|lia|].
  exists n. split; [exact Hn|]. rewrite Hn. cbn [mbind option_bind].
  unfold Str.WString_Resize. split.
  - intros ->. cbn [Nat.eqb Str.wbuffer Str.wlength].
    assert (El : Str.length str = 0%nat).
    { destruct (Str.length str); [reflexivity|]. specialize (Hpos ltac:(lia)). lia. }
    rewrite El. cbn [Str.WString_fill]. now rewrite El.
  - intros Hn0. destruct (Nat.eqb_spec n 0) as [|_]; [lia|].
    cbn [Str.wbuffer Str.wlength].
    set (a := <[n := 0]> (newArray (n + 1))).
    assert (Hlen : length a = S n).
    { unfold a. rewrite length_insert, newArray_length. lia. }
    assert (Hlast : a !! n = Some 0).
    { unfold a. apply list_lookup_insert_eq. rewrite newArray_length. lia. }
    destruct (WString_fill_spec str Hwf (Str.length str) 0 0 a 0 n)
      as (chars & -> & Hchars & Hat); [lia|lia|exact Hn|lia|].
    cbn [mbind option_bind take app Nat.add].
    rewrite Nat.sub_0_r in Hchars. rewrite Hchars.
    rewrite (drop_last_cell a n 0 Hlen Hlast).
    exists chars. split; [reflexivity|]. split; [exact Hchars|].
    intros i Hi. destruct (Hat i) as (off & Hoff & <-); [lia|].
    unfold Str.AtUTF8, Str.ByteOffsetUTF8. now rewrite Hoff.
Qed.
End WideStringFacts.

Lemma WString_of_String_witness :
  ∃ n, Str.LengthUTF8 (Str.ofBytes (Str.encodeAll [0x41; 0x20ac]%Z)) = Some n
       ∧ (0 < n →
          ∃ chars, Str.WString_of (λ n, replicate n 0%Z)
                     (Str.ofBytes (Str.encodeAll [0x41; 0x20ac]%Z))
                   = Some (Str.mkWString n (Some (chars ++ [0%Z])))
                   ∧ length chars = n).
Proof.
  assert (Hnew : ∀ n : nat, length (replicate n 0%Z) = n)
    by (intros n; apply length_replicate).
  assert (Hb : Forall (λ b, (0 ≤ b < 256)%Z) (Str.encodeAll [0x41; 0x20ac]%Z))
    by (vm_compute; repeat constructor; discriminate).
  destruct (WString_of_String (λ n, replicate n 0%Z) Hnew _ (ofBytes_wellFormed _ Hb))
    as (n & Hn & _ & Hchars).
  exists n. split; [exact Hn|]. intros Hpos.
  destruct (Hchars Hpos) as (chars & E & Hlen & _).
  exists chars. split; [exact E|exact Hlen].
Defined.

(** ** [String]: the buffer and its capacity *)

Section BufferFacts.
Context `{Str.MemoryDefs} `{Str.StringDefs}.
Hypothesis Hmem : Str.memoryFits.

Lemma half_up (c : nat) : 2 * Nat.shiftr (c + 1) 1 ≤ c + 1 ∧ c ≤ 2 * Nat.shiftr (c + 1) 1.
Proof.
  rewrite Nat.shiftr_div_pow2. change (2 ^ 1) with 2.
  pose proof (Nat.div_mod_eq (c + 1) 2) as E.
  pose proof (Nat.mod_upper_bound (c + 1) 2 ltac:(lia)) as B.
  lia.
Qed.

(** The capacity grows by half of itself until the new length and the
    terminator fit, and then is less than one and a half times what is
    needed. *)
Lemma Resize_grow_spec (newLength rounds : nat) :
  ∀ capacity, 1 ≤ capacity → newLength + 1 - capacity ≤ rounds →
    ∃ c, Str.Resize_grow rounds capacity newLength = Some c
         ∧ newLength + 1 ≤ c ∧ capacity ≤ c
         ∧ (newLength + 1 ≤ capacity → c = capacity)
         ∧ (capacity < newLength + 1 → 2 * c ≤ 3 * newLength + 1).
Proof.
  induction rounds as [|rounds IH]; intros capacity Hpos Hrounds;
    cbn [Str.Resize_grow];
    destruct (Nat.ltb_spec capacity (newLength + 1)) as [Hlt|Hge];
    try (exists capacity; split; [reflexivity|lia]); [lia|].
  pose proof (half_up capacity) as Hhalf.
  destruct (IH (capacity + Nat.shiftr (capacity + 1) 1))
    as (c & -> & Hc & Hle & Hsame & Hbound); [lia|lia|].
  exists c. split; [reflexivity|]. split; [exact Hc|]. split; [lia|].
  split; [lia|]. intros _.
  destruct (Nat.lt_ge_cases (capacity + Nat.shiftr (capacity + 1) 1) (newLength + 1))
    as [Hmore|Hdone]; [exact (Hbound Hmore)|].
  rewrite (Hsame Hdone). lia.
Qed.

Lemma Resize_finish_spec (s : Str.String) (newLength : nat) :
  Forall (λ c, (0 ≤ c < 256)%Z) (Str.buffer s) →
  newLength < length (Str.buffer s) →
  Str.Resize_finish s newLength
  = Some (Str.mkString newLength (Str.capacity s) (<[newLength := 0%Z]> (Str.buffer s)))
  ∧ Str.wellFormed
      (Str.mkString newLength (Str.capacity s) (<[newLength := 0%Z]> (Str.buffer s))).
Proof.
  intros Hbytes Hroom. unfold Str.Resize_finish.
  destruct (Nat.ltb_spec newLength (length (Str.buffer s))); [|lia].
  split; [reflexivity|]. split; cbn [Str.buffer Str.length].
  - apply Forall_insert; [exact Hbytes|lia].
  - now rewrite length_insert.
  - now apply list_lookup_insert_eq.
Qed.

Lemma Resize_spec (s : Str.String) (newLength : nat) :
  Str.wellFormed s → Str.allocated s →
  ∃ s', Str.Resize s newLength = Some s'
        ∧ Str.wellFormed s' ∧ Str.allocated s'
        ∧ Str.length s' = newLength
        ∧ take (Str.length s `min` newLength) (Str.buffer s')
          = take (Str.length s `min` newLength) (Str.buffer s)
        ∧ Str.capacity s ≤ Str.capacity s'
        ∧ (newLength < Str.capacity s → Str.capacity s' = Str.capacity s)
        ∧ (Str.capacity s' = 0 ↔ Str.capacity s = 0 ∧ newLength = 0)
        ∧ (0 < Str.capacity s ≤ newLength →
           2 * Str.capacity s' ≤ 3 * newLength + 1).
Proof using Hmem.
  intros [Hbytes Hroom Hend] Halloc. unfold Str.allocated in Halloc.
  destruct Hmem as [Hnew Hnewbytes Hcopy _]. unfold Str.Resize.
  destruct (Nat.eqb_spec (Str.capacity s) 0) as [Hc0|Hc].
  - destruct (Nat.eqb_spec newLength 0) as [->|Hn].
    + exists s. split; [reflexivity|]. split; [now split|].
      split; [unfold Str.allocated; now rewrite Hc0|].
      split; [lia|]. split; [reflexivity|]. split; [lia|]. split; [lia|].
      split; [tauto|lia].
    + set (c := if newLength + 1 <? Str.MIN_CAPACITY then Str.MIN_CAPACITY
                else newLength + 1).
      assert (Hcap : newLength + 1 ≤ c).
      { unfold c. destruct (Nat.ltb_spec (newLength + 1) Str.MIN_CAPACITY); lia. }
      destruct (Resize_finish_spec
                  (Str.mkString (Str.length s) c (Str.newChars c)) newLength)
        as [-> Hwf]; cbn [Str.buffer Str.capacity];
        [apply Hnewbytes|rewrite Hnew; lia|].
      eexists. split; [reflexivity|]. split; [exact Hwf|].
      cbn [Str.buffer Str.capacity Str.length]. split.
      { unfold Str.allocated. cbn [Str.buffer Str.capacity].
        rewrite length_insert, Hnew. destruct (Nat.eqb_spec c 0); [lia|reflexivity]. }
      split; [reflexivity|]. split.
      { replace (Str.length s) with 0 by lia. reflexivity. }
      split; [lia|]. split; [lia|]. split; [lia|lia].
  - destruct (Nat.eqb_spec (Str.capacity s) 0) as [|_]; [contradiction|].
    destruct (Nat.eqb_spec newLength 0) as [->|Hn]; cbn [negb andb].
    + cbn [mbind option_bind].
      destruct (Resize_finish_spec s 0) as [-> Hwf]; [exact Hbytes|lia|].
      eexists. split; [reflexivity|]. split; [exact Hwf|].
      cbn [Str.buffer Str.capacity Str.length]. split.
      { unfold Str.allocated. cbn [Str.buffer Str.capacity].
        rewrite length_insert, Halloc.
        destruct (Nat.eqb_spec (Str.capacity s) 0); [lia|reflexivity]. }
      split; [reflexivity|]. rewrite Nat.min_0_r. split; [reflexivity|].
      split; [lia|]. split; [lia|]. split; [lia|lia].
    + destruct (Nat.ltb_spec (Str.capacity s) (newLength + 1)) as [Hgrow|Hfits].
      * destruct (Resize_grow_spec newLength (newLength + 1) (Str.capacity s))
          as (c & -> & Hc1 & Hc2 & _ & Hbound); [lia|lia|].
        cbn [mbind option_bind].
        assert (Hcopied :
          (if negb (Str.length s =? 0)
           then Str.CopyChars (Str.newChars c) 0 (Str.buffer s) 0 (Str.length s)
           else Some (Str.newChars c))
          = Some (take (Str.length s) (Str.buffer s)
                  ++ drop (Str.length s) (Str.newChars c))).
        { destruct (Nat.eqb_spec (Str.length s) 0) as [->|_]; cbn [negb].
          - now rewrite take_0, drop_0.
          - rewrite Hcopy by (rewrite ?Hnew; lia).
            now rewrite take_0, drop_0. }
        rewrite Hcopied. cbn [mbind option_bind].
        set (b := take (Str.length s) (Str.buffer s)
                  ++ drop (Str.length s) (Str.newChars c)).
        assert (Hb : length b = c).
        { unfold b. rewrite length_app, length_take, length_drop, Hnew. lia. }
        destruct (Resize_finish_spec (Str.mkString (Str.length s) c b) newLength)
          as [-> Hwf]; cbn [Str.buffer Str.capacity].
        { unfold b. apply Forall_app. split.
          - now apply Forall_take.
          - apply Forall_drop, Hnewbytes. }
        { lia. }
        eexists. split; [reflexivity|]. split; [exact Hwf|].
        cbn [Str.buffer Str.capacity Str.length]. split.
        { unfold Str.allocated. cbn [Str.buffer Str.capacity].
          rewrite length_insert, Hb. destruct (Nat.eqb_spec c 0); [lia|reflexivity]. }
        split; [reflexivity|]. split.
        { rewrite Nat.min_l by lia. rewrite take_insert_ge by lia.
          unfold b. rewrite take_app_le by (rewrite length_take; lia).
          rewrite take_take. now rewrite Nat.min_id. }
        split; [lia|]. split; [lia|]. split; [lia|]. intros _. apply Hbound. lia.
      * cbn [mbind option_bind].
        destruct (Resize_finish_spec s newLength) as [-> Hwf]; [exact Hbytes|lia|].
        eexists. split; [reflexivity|]. split; [exact Hwf|].
        cbn [Str.buffer Str.capacity Str.length]. split.
        { unfold Str.allocated. cbn [Str.buffer Str.capacity].
          rewrite length_insert, Halloc.
          destruct (Nat.eqb_spec (Str.capacity s) 0); [lia|reflexivity]. }
        split; [reflexivity|]. split.
        { rewrite take_insert_ge by lia. reflexivity. }
        split; [lia|]. split; [lia|]. split; [lia|lia].
Qed.

Lemma Resize_fresh (s s' : Str.String) (newLength : nat) :
  Str.capacity s = 0 → Str.Resize s newLength = Some s' →
  Str.capacity s' ≤ Str.MIN_CAPACITY `max` (newLength + 1)
  ∧ (newLength = 0 → Str.capacity s' = 0).
Proof.
  intros Hc. unfold Str.Resize. rewrite Hc. cbn [Nat.eqb].
  destruct (Nat.eqb_spec newLength 0) as [->|Hn].
  - intros [= <-]. split; [lia|intros _; exact Hc].
  - unfold Str.Resize_finish. cbn [Str.buffer Str.capacity].
    destruct (_ <? _); [|discriminate]. intros [= <-]. cbn [Str.capacity].
    split; [|lia]. destruct (Nat.ltb_spec (newLength + 1) Str.MIN_CAPACITY); lia.
Qed.

(** The capacity after [Resize]: what it was, or the least capacity, or at
    most twice the new length. *)
Lemma Resize_bound (s s' : Str.String) (newLength : nat) :
  Str.Resize s newLength = Some s' →
  Str.capacity s'
  ≤ Str.capacity s `max` (Str.MIN_CAPACITY `max` (2 * newLength)).
Proof.
  destruct (Nat.eq_dec (Str.capacity s) 0) as [Hc0|Hc].
  { intros E. destruct (Resize_fresh s s' newLength Hc0 E) as [Hle Hz].
    destruct (Nat.eq_dec newLength 0) as [Hn|Hn]; [rewrite (Hz Hn)|]; lia. }
  unfold Str.Resize. destruct (Nat.eqb_spec (Str.capacity s) 0) as [|_]; [contradiction|].
  assert (Hfinish : ∀ t, Str.Resize_finish t newLength = Some s' →
                         Str.capacity s' = Str.capacity t).
  { intros t. unfold Str.Resize_finish. destruct (_ <? _); [|discriminate].
    now intros [= <-]. }
  destruct (Nat.eqb_spec newLength 0) as [->|Hn]; cbn [negb andb].
  - cbn [mbind option_bind]. intros E. rewrite (Hfinish s E). lia.
  - destruct (Nat.ltb_spec (Str.capacity s) (newLength + 1)) as [Hgrow|Hfits];
      cbn [mbind option_bind]; [|intros E; rewrite (Hfinish s E); lia].
    destruct (Resize_grow_spec newLength (newLength + 1) (Str.capacity s))
      as (c & -> & _ & _ & _ & Hbound); [lia|lia|].
    cbn [mbind option_bind].
    destruct (if negb (Str.length s =? 0) then _ else _) as [b|];
      cbn [mbind option_bind]; [|discriminate].
    intros E. rewrite (Hfinish _ E). cbn [Str.capacity]. specialize (Hbound Hgrow). lia.
Qed.


(** [Reserve] and [Compact] on a well-formed string always succeed and
    keep the characters and the terminator: [Reserve] sets the capacity
    to what is asked for, or to what the string needs if that is more,
    and [Compact] leaves no spare capacity, and a string without buffer
    as it is. *)
Theorem Reserve_Compact (s : Str.String) :
  Str.wellFormed s → Str.allocated s →
  (∀ newCapacity,
     ∃ s', Str.Reserve s newCapacity = Some s'
           ∧ Str.wellFormed s' ∧ Str.allocated s'
           ∧ Str.length s' = Str.length s ∧ Str.content s' = Str.content s
           ∧ Str.capacity s' = newCapacity `max` (Str.length s + 1))
  ∧ (∃ s', Str.Compact s = Some s'
           ∧ Str.wellFormed s' ∧ Str.allocated s'
           ∧ Str.length s' = Str.length s ∧ Str.content s' = Str.content s
           ∧ Str.capacity s'
             = if Str.capacity s =? 0 then 0 else Str.length s + 1).
Proof using Hmem.
  intros Hwf Halloc.
  assert (HReserve : ∀ newCapacity,
     ∃ s', Str.Reserve s newCapacity = Some s'
           ∧ Str.wellFormed s' ∧ Str.allocated s'
           ∧ Str.length s' = Str.length s ∧ Str.content s' = Str.content s
           ∧ Str.capacity s' = newCapacity `max` (Str.length s + 1)).
  { intros newCapacity. destruct Hwf as [Hbytes Hroom Hend].
    destruct Hmem as [Hnew Hnewbytes Hcopy _]. unfold Str.Reserve.
    set (c := if newCapacity <? Str.length s + 1 then Str.length s + 1
              else newCapacity).
    assert (Hc : c = newCapacity `max` (Str.length s + 1)).
    { unfold c. destruct (Nat.ltb_spec newCapacity (Str.length s + 1)); lia. }
    destruct (Nat.eqb_spec c (Str.capacity s)) as [Hsame|Hother].
    { exists s. split; [reflexivity|]. split; [now split|]. split; [exact Halloc|].
      split; [reflexivity|]. split; [reflexivity|]. lia. }
    rewrite Hcopy by (rewrite ?Hnew; lia). cbn [mbind option_bind].
    rewrite take_0, drop_0. cbn [app Nat.add].
    eexists. split; [reflexivity|].
    assert (Hlen : length (take (Str.length s + 1) (Str.buffer s)
                           ++ drop (Str.length s + 1) (Str.newChars c)) = c).
    { rewrite length_app, length_take, length_drop, Hnew. lia. }
    split; [split; cbn [Str.buffer Str.length]|].
    - apply Forall_app. split; [now apply Forall_take|apply Forall_drop, Hnewbytes].
    - lia.
    - rewrite lookup_app_l by (rewrite length_take; lia).
      rewrite lookup_take_lt by lia. exact Hend.
    - split.
      { unfold Str.allocated. cbn [Str.buffer Str.capacity]. rewrite Hlen.
        destruct (Nat.eqb_spec c 0); [lia|reflexivity]. }
      split; [reflexivity|]. split; [|exact Hc].
      unfold Str.content. cbn [Str.buffer Str.length].
      rewrite take_app_le by (rewrite length_take; lia).
      rewrite take_take. f_equal. lia. }
  split; [exact HReserve|].
  unfold Str.Compact. destruct (Nat.eqb_spec (Str.capacity s) 0) as [Hc0|Hc]; cbn [negb].
  - exists s. split; [reflexivity|]. split; [exact Hwf|]. split; [exact Halloc|].
    split; [reflexivity|]. split; [reflexivity|exact Hc0].
  - destruct (HReserve (Str.length s + 1)) as (s' & -> & Hwf' & Ha' & Hl & Hcont & Hcap).
    exists s'. split; [reflexivity|]. split; [exact Hwf'|]. split; [exact Ha'|].
    split; [exact Hl|]. split; [exact Hcont|]. lia.
Qed.

Lemma EMPTY_wellFormed : Str.wellFormed Str.EMPTY ∧ Str.allocated Str.EMPTY.
Proof.
  split; [split; cbn|reflexivity]; [repeat constructor; lia|lia|reflexivity].
Qed.

Lemma content_window (s : Str.String) (pos n : nat) :
  pos + n ≤ Str.length s →
  take n (drop pos (Str.buffer s)) = take n (drop pos (Str.content s)).
Proof.
  intros Hin. unfold Str.content.
  rewrite !take_drop_commute, take_take. f_equal. f_equal. lia.
Qed.

(** What [Substring] does after the test of [pos]: a new string of
    [numChars] characters, filled from [pos] on. *)
Lemma Substring_copy (s : Str.String) (pos numChars : nat) :
  Str.wellFormed s → pos + numChars ≤ Str.length s →
  ∃ r, (ret ← Str.Resize Str.EMPTY numChars;
        buffer' ← Str.CopyChars (Str.buffer ret) 0 (Str.buffer s) pos (Str.length ret);
        Some (Str.mkString (Str.length ret) (Str.capacity ret) buffer')) = Some r
       ∧ Str.wellFormed r ∧ Str.allocated r
       ∧ Str.length r = numChars
       ∧ Str.content r = take numChars (drop pos (Str.content s)).
Proof using Hmem.
  intros [Hbytes Hroom Hend] Hin.
  destruct (Resize_spec Str.EMPTY numChars (proj1 EMPTY_wellFormed)
              (proj2 EMPTY_wellFormed))
    as (ret & -> & [Hb' Hroom' Hend'] & Ha' & Hl' & _).
  cbn [mbind option_bind]. destruct Hmem as [_ _ Hcopy _].
  rewrite Hcopy by lia. cbn [mbind option_bind]. rewrite take_0. cbn [app Nat.add].
  rewrite Hl' in *.
  assert (Hwin : length (take numChars (drop pos (Str.buffer s))) = numChars).
  { rewrite length_take, length_drop. lia. }
  eexists. split; [reflexivity|]. split; [split; cbn [Str.buffer Str.length]|].
  - apply Forall_app. split; [now apply Forall_take, Forall_drop|now apply Forall_drop].
  - rewrite length_app, Hwin, length_drop. lia.
  - rewrite lookup_app_r by lia. rewrite Hwin, Nat.sub_diag, lookup_drop, Nat.add_0_r.
    exact Hend'.
  - split.
    { unfold Str.allocated in *. cbn [Str.buffer Str.capacity].
      rewrite length_app, Hwin, length_drop. rewrite <- Ha'. lia. }
    split; [reflexivity|]. unfold Str.content at 1. cbn [Str.buffer Str.length].
    rewrite take_app_le by lia. rewrite take_ge by lia.
    now apply content_window.
Qed.

Lemma Substring_spec (s : Str.String) (pos numChars : nat) :
  Str.wellFormed s →
  ∃ r, Str.Substring s pos numChars = Some r
       ∧ Str.wellFormed r ∧ Str.allocated r
       ∧ Str.content r = take numChars (drop pos (Str.content s)).
Proof using Hmem.
  intros Hwf. unfold Str.Substring.
  assert (Hcontent : length (Str.content s) = Str.length s).
  { unfold Str.content. rewrite length_take. destruct Hwf. lia. }
  destruct (Nat.ltb_spec pos (Str.length s)) as [Hin|Hout].
  - destruct (Nat.ltb_spec (Str.length s) (pos + numChars)) as [Hlong|Hshort].
    + destruct (Substring_copy s pos (Str.length s - pos) Hwf) as (r & -> & Hr & Ha & _ & Hc);
        [lia|].
      exists r. split; [reflexivity|]. split; [exact Hr|]. split; [exact Ha|].
      rewrite Hc. rewrite !take_ge by (rewrite length_drop; lia). reflexivity.
    + destruct (Substring_copy s pos numChars Hwf) as (r & -> & Hr & Ha & _ & Hc); [lia|].
      exists r. split; [reflexivity|]. split; [exact Hr|]. split; [exact Ha|exact Hc].
  - exists Str.EMPTY. split; [reflexivity|]. split; [apply EMPTY_wellFormed|].
    split; [apply EMPTY_wellFormed|].
    rewrite drop_ge by lia. now rewrite take_nil.
Qed.

Lemma Substring_capacity (s r : Str.String) (pos numChars : nat) :
  Str.Substring s pos numChars = Some r →
  Str.capacity r ≤ Str.MIN_CAPACITY `max` (Str.length s + 1).
Proof.
  unfold Str.Substring. destruct (Nat.ltb_spec pos (Str.length s)) as [Hin|Hout];
    [|intros [= <-]; cbn; lia].
  set (n := if Str.length s <? pos + numChars then Str.length s - pos else numChars).
  assert (Hn : n ≤ Str.length s).
  { unfold n. destruct (Nat.ltb_spec (Str.length s) (pos + numChars)); lia. }
  destruct (Str.Resize Str.EMPTY n) as [ret|] eqn:E; cbn [mbind option_bind];
    [|discriminate].
  destruct (Str.CopyChars _ _ _ _ _); cbn [mbind option_bind]; [|discriminate].
  intros [= <-]. cbn [Str.capacity].
  destruct (Resize_fresh Str.EMPTY ret n eq_refl E) as [Hle _]. lia.
Qed.

Lemma Substring_from_capacity (s r : Str.String) (pos : nat) :
  Str.Substring_from s pos = Some r →
  Str.capacity r ≤ Str.MIN_CAPACITY `max` (Str.length s + 1).
Proof.
  unfold Str.Substring_from. destruct (Nat.ltb_spec pos (Str.length s)) as [Hin|Hout];
    [|intros [= <-]; cbn; lia].
  destruct (Str.Resize Str.EMPTY (Str.length s - pos)) as [ret|] eqn:E;
    cbn [mbind option_bind]; [|discriminate].
  destruct (Str.CopyChars _ _ _ _ _); cbn [mbind option_bind]; [|discriminate].
  intros [= <-]. cbn [Str.capacity].
  destruct (Resize_fresh Str.EMPTY ret _ eq_refl E) as [Hle _]. lia.
Qed.


Lemma not_blank (c : Z) :
  negb (c =? 32)%Z && negb (c =? 9)%Z = negb (Str.blank c).
Proof. unfold Str.blank. now rewrite negb_orb. Qed.

Lemma Trimmed_start_spec (s : Str.String) (rounds : nat) :
  Str.wellFormed s →
  ∀ trimStart trimEnd,
    trimStart ≤ trimEnd ≤ Str.length s → trimEnd - trimStart ≤ rounds →
    ∃ k, Str.Trimmed_start rounds s trimStart trimEnd = Some k
         ∧ trimStart ≤ k ≤ trimEnd
         ∧ (∀ i c, trimStart ≤ i < k → Str.buffer s !! i = Some c →
                   Str.blank c = true)
         ∧ (k < trimEnd → ∃ c, Str.buffer s !! k = Some c ∧ Str.blank c = false).
Proof.
  intros [_ Hroom _].
  induction rounds as [|rounds IH]; intros trimStart trimEnd Hle Hrounds;
    cbn [Str.Trimmed_start];
    destruct (Nat.ltb_spec trimStart trimEnd) as [Hlt|Hge];
    try (exists trimStart; split; [reflexivity|split; [lia|split; intros; lia]]);
    [lia|].
  destruct (lookup_lt_is_Some_2 (Str.buffer s) trimStart) as [c Hc]; [lia|].
  rewrite Hc. cbn [mbind option_bind]. rewrite not_blank.
  destruct (Str.blank c) eqn:Eb; cbn [negb].
  - destruct (IH (S trimStart) trimEnd) as (k & -> & Hk & Hlead & Hstop); [lia|lia|].
    exists k. split; [reflexivity|]. split; [lia|]. split; [|exact Hstop].
    intros i c' Hi Hc'. destruct (decide (i = trimStart)) as [->|Hne].
    + rewrite Hc in Hc'. now injection Hc' as <-.
    + apply (Hlead i c'); [lia|exact Hc'].
  - exists trimStart. split; [reflexivity|]. split; [lia|]. split; [intros; lia|].
    intros _. exists c. split; [exact Hc|exact Eb].
Qed.

Lemma Trimmed_end_spec (s : Str.String) (trimStart rounds : nat) :
  Str.wellFormed s →
  ∀ trimEnd,
    trimStart ≤ trimEnd ≤ Str.length s → trimEnd - trimStart ≤ rounds →
    ∃ e, Str.Trimmed_end rounds s trimStart trimEnd = Some e
         ∧ trimStart ≤ e ≤ trimEnd
         ∧ (∀ i c, e ≤ i < trimEnd → Str.buffer s !! i = Some c →
                   Str.blank c = true)
         ∧ (trimStart < e →
            ∃ c, Str.buffer s !! (e - 1) = Some c ∧ Str.blank c = false).
Proof.
  intros [_ Hroom _].
  induction rounds as [|rounds IH]; intros trimEnd Hle Hrounds;
    cbn [Str.Trimmed_end];
    destruct (Nat.ltb_spec trimStart trimEnd) as [Hlt|Hge];
    try (exists trimEnd; split; [reflexivity|split; [lia|split; intros; lia]]);
    [lia|].
  destruct (lookup_lt_is_Some_2 (Str.buffer s) (trimEnd - 1)) as [c Hc]; [lia|].
  rewrite Hc. cbn [mbind option_bind]. rewrite not_blank.
  destruct (Str.blank c) eqn:Eb; cbn [negb].
  - destruct (IH (trimEnd - 1)) as (e & -> & He & Htrail & Hstop); [lia|lia|].
    exists e. split; [reflexivity|]. split; [lia|]. split; [|exact Hstop].
    intros i c' Hi Hc'. destruct (decide (i = trimEnd - 1)) as [->|Hne].
    + rewrite Hc in Hc'. now injection Hc' as <-.
    + apply (Htrail i c'); [lia|exact Hc'].
  - exists trimEnd. split; [reflexivity|]. split; [lia|]. split; [intros; lia|].
    intros _. exists c. split; [exact Hc|exact Eb].
Qed.

(** [Trimmed] on a well-formed string always succeeds and returns the
    string without the spaces and tabs at its two ends: what it leaves
    out before and behind is blank, and what it returns neither starts
    nor ends with a blank.  Of a string of blanks nothing is left. *)
Theorem Trimmed_blanks (s : Str.String) :
  Str.wellFormed s →
  ∃ r lead trail,
    Str.Trimmed s = Some r
    ∧ Str.wellFormed r ∧ Str.allocated r
    ∧ Str.content s = lead ++ Str.content r ++ trail
    ∧ Forall (λ c, Str.blank c = true) lead
    ∧ Forall (λ c, Str.blank c = true) trail
    ∧ (∀ c, head (Str.content r) = Some c → Str.blank c = false)
    ∧ (∀ c, last (Str.content r) = Some c → Str.blank c = false).
Proof using Hmem.
  intros Hwf. unfold Str.Trimmed.
  assert (Hcontent : length (Str.content s) = Str.length s).
  { unfold Str.content. rewrite length_take. destruct Hwf. lia. }
  assert (Hat : ∀ i c, Str.content s !! i = Some c → Str.buffer s !! i = Some c).
  { intros i c Hi. unfold Str.content in Hi.
    apply lookup_take_Some in Hi. tauto. }
  destruct (Trimmed_start_spec s (Str.length s) Hwf 0 (Str.length s))
    as (k & -> & Hk & Hlead & Hfirst); [lia|lia|].
  cbn [mbind option_bind].
  destruct (Trimmed_end_spec s k (Str.length s) Hwf (Str.length s))
    as (e & -> & He & Htrail & Hlast); [lia|lia|].
  cbn [mbind option_bind].
  destruct (Substring_spec s k (e - k) Hwf) as (r & -> & Hr & Ha & Hc).
  exists r, (take k (Str.content s)), (drop e (Str.content s)).
  split; [reflexivity|]. split; [exact Hr|]. split; [exact Ha|]. rewrite Hc.
  split; [|split; [|split; [|split]]].
  - rewrite <- (take_drop k (Str.content s)) at 1. f_equal.
    rewrite <- (take_drop (e - k) (drop k (Str.content s))) at 1. f_equal.
    rewrite drop_drop. f_equal. lia.
  - apply Forall_lookup. intros i c Hi. apply lookup_take_Some in Hi as [Hi Hik].
    apply (Hlead i c); [lia|]. now apply Hat.
  - apply Forall_lookup. intros i c Hi. rewrite lookup_drop in Hi.
    apply (Htrail (e + i) c); [|now apply Hat].
    apply lookup_lt_Some in Hi. lia.
  - intros c Hhead. rewrite head_lookup in Hhead.
    apply lookup_take_Some in Hhead as [Hhead Hlt].
    rewrite lookup_drop, Nat.add_0_r in Hhead. apply Hat in Hhead.
    destruct Hfirst as (c' & Hc' & Hb); [lia|].
    rewrite Hhead in Hc'. now injection Hc' as <-.
  - intros c Hl. rewrite last_lookup in Hl.
    rewrite length_take, length_drop, Hcontent in Hl.
    apply lookup_take_Some in Hl as [Hl Hlt].
    rewrite lookup_drop in Hl. apply Hat in Hl.
    destruct Hlast as (c' & Hc' & Hb); [lia|].
    replace (k + Nat.pred ((e - k) `min` (Str.length s - k))) with (e - 1) in Hl by lia.
    rewrite Hl in Hc'. now injection Hc' as <-.
Qed.

Ltac lens :=
  repeat first [ rewrite length_app | rewrite length_take | rewrite length_drop
               | rewrite length_insert ].
Ltac look :=
  repeat first
    [ rewrite lookup_take_lt by (lens; lia)
    | rewrite lookup_take_ge by (lens; lia)
    | rewrite lookup_drop
    | rewrite lookup_app_l by (lens; lia)
    | rewrite lookup_app_r by (lens; lia) ];
  lens.

(** The move of the tail inside the buffer, by [MoveRange] on a buffer
    that holds the string. *)
Lemma moved_tail (b : list Z) (pos numChars srcLength tail : nat) :
  pos + numChars + tail < length b → pos + srcLength + tail < length b →
  let b' := take (pos + srcLength) b ++ take tail (drop (pos + numChars) b)
            ++ drop (pos + srcLength + tail) b in
  length b' = length b
  ∧ (∀ i, i < pos → b' !! i = b !! i)
  ∧ (∀ j, j < tail → b' !! (pos + srcLength + j) = b !! (pos + numChars + j))
  ∧ (∀ i, pos + srcLength + tail ≤ i → b' !! i = b !! i).
Proof.
  intros Hold Hnew b'. unfold b'. split; [lens; lia|]. split; [|split].
  - intros i Hi. now look.
  - intros j Hj. look. f_equal. lia.
  - intros i Hi. look. f_equal. lia.
Qed.

Lemma moved_tail_bytes (b : list Z) (pos numChars srcLength tail : nat) :
  Forall (λ c, (0 ≤ c < 256)%Z) b →
  Forall (λ c, (0 ≤ c < 256)%Z)
    (take (pos + srcLength) b ++ take tail (drop (pos + numChars) b)
     ++ drop (pos + srcLength + tail) b).
Proof.
  intros Hb. rewrite !Forall_app.
  repeat split; auto using Forall_take, Forall_drop.
Qed.

Lemma same_prefix (a b : list Z) (m i : nat) :
  take m a = take m b → i < m → a !! i = b !! i.
Proof.
  intros E Hi. rewrite <- (lookup_take_lt a m i), <- (lookup_take_lt b m i) by lia.
  now rewrite E.
Qed.

(** What [Replace] does before it copies: the string gets its new
    length, with the characters before [pos] and those behind the range
    in their new places. *)
Lemma Replace_room (s : Str.String) (pos numChars srcLength : nat) :
  Str.wellFormed s → Str.allocated s → pos + numChars ≤ Str.length s →
  ∃ s2,
    (if pos + numChars <? Str.length s then
       s ← (if (Z.of_nat srcLength - Z.of_nat numChars <? 0)%Z then
              buffer' ← Str.MoveRange (Str.buffer s) (pos + srcLength) (pos + numChars)
                          (Str.length s - pos - numChars);
              Str.Resize (Str.mkString (Str.length s) (Str.capacity s) buffer')
                (Z.to_nat (Z.of_nat (Str.length s)
                           + (Z.of_nat srcLength - Z.of_nat numChars)))
            else Some s);
       (if (0 <? Z.of_nat srcLength - Z.of_nat numChars)%Z then
          s ← Str.Resize s (Z.to_nat (Z.of_nat (Str.length s)
                                      + (Z.of_nat srcLength - Z.of_nat numChars)));
          buffer' ← Str.MoveRange (Str.buffer s) (pos + srcLength) (pos + numChars)
                      (Str.length s - pos - numChars
                       - Z.to_nat (Z.of_nat srcLength - Z.of_nat numChars));
          Some (Str.mkString (Str.length s) (Str.capacity s) buffer')
        else Some s)
     else Str.Resize s (Z.to_nat (Z.of_nat (Str.length s)
                                  + (Z.of_nat srcLength - Z.of_nat numChars))))
    = Some s2
    ∧ Str.wellFormed s2 ∧ Str.allocated s2
    ∧ Str.length s2 = pos + srcLength + (Str.length s - pos - numChars)
    ∧ (∀ i, i < pos → Str.buffer s2 !! i = Str.buffer s !! i)
    ∧ (∀ j, j < Str.length s - pos - numChars →
            Str.buffer s2 !! (pos + srcLength + j)
            = Str.buffer s !! (pos + numChars + j)).
Proof using Hmem.
  intros Hwf Halloc Hin.
  assert (Hnew : Z.to_nat (Z.of_nat (Str.length s)
                           + (Z.of_nat srcLength - Z.of_nat numChars))
                 = pos + srcLength + (Str.length s - pos - numChars)) by lia.
  rewrite Hnew. set (tail := Str.length s - pos - numChars) in *.
  pose proof (Str.wf_bytes s Hwf) as Hbytes. pose proof (Str.wf_room s Hwf) as Hroom.
  pose proof (Str.wf_end s Hwf) as Hend.
  pose proof (@Str.MoveRange_moves _ Hmem) as Hmove.
  destruct (Nat.ltb_spec (pos + numChars) (Str.length s)) as [Hinner|Hlast].
  - destruct (Z.ltb_spec (Z.of_nat srcLength - Z.of_nat numChars) 0) as [Hshrink|Hnot].
    + destruct (Z.ltb_spec 0 (Z.of_nat srcLength - Z.of_nat numChars)); [lia|].
      rewrite Hmove by (unfold tail; lia). cbn [mbind option_bind].
      destruct (moved_tail (Str.buffer s) pos numChars srcLength tail)
        as (Hlen & Hfront & Htail & Hrest); [unfold tail; lia|unfold tail; lia|].
      set (b1 := take (pos + srcLength) (Str.buffer s)
                 ++ take tail (drop (pos + numChars) (Str.buffer s))
                 ++ drop (pos + srcLength + tail) (Str.buffer s)) in *.
      destruct (Resize_spec (Str.mkString (Str.length s) (Str.capacity s) b1)
                  (pos + srcLength + tail))
        as (s2 & -> & Hwf2 & Ha2 & Hl2 & Hkeep & _).
      { split; cbn [Str.buffer Str.length].
        - apply moved_tail_bytes, Hbytes.
        - lia.
        - rewrite Hrest by (unfold tail; lia). exact Hend. }
      { unfold Str.allocated in *. cbn [Str.buffer Str.capacity]. now rewrite Hlen. }
      cbn [mbind option_bind Str.buffer Str.length] in *.
      rewrite Nat.min_r in Hkeep by (unfold tail; lia).
      exists s2. split; [reflexivity|]. split; [exact Hwf2|]. split; [exact Ha2|].
      split; [exact Hl2|]. split.
      * intros i Hi. rewrite (same_prefix _ _ _ i Hkeep) by lia. now apply Hfront.
      * intros j Hj. rewrite (same_prefix _ _ _ _ Hkeep) by lia. now apply Htail.
    + cbn [mbind option_bind].
      destruct (Z.ltb_spec 0 (Z.of_nat srcLength - Z.of_nat numChars)) as [Hgrow|Hsame].
      * rewrite Hnew.
        destruct (Resize_spec s (pos + srcLength + tail) Hwf Halloc)
          as (s1 & -> & Hwf1 & Ha1 & Hl1 & Hkeep & _).
        cbn [mbind option_bind].
        rewrite Nat.min_l in Hkeep by (unfold tail; lia).
        pose proof (Str.wf_room s1 Hwf1) as Hroom1.
        pose proof (Str.wf_end s1 Hwf1) as Hend1.
        replace (Str.length s1 - pos - numChars
                 - Z.to_nat (Z.of_nat srcLength - Z.of_nat numChars))
          with tail by (unfold tail; lia).
        rewrite Hmove by (unfold tail in *; lia). cbn [mbind option_bind].
        destruct (moved_tail (Str.buffer s1) pos numChars srcLength tail)
          as (Hlen & Hfront & Htail & Hrest);
          [unfold tail in *; lia|unfold tail in *; lia|].
        eexists. split; [reflexivity|]. split; [split; cbn [Str.buffer Str.length]|].
        -- apply moved_tail_bytes, (Str.wf_bytes s1 Hwf1).
        -- lia.
        -- rewrite Hrest by lia. exact Hend1.
        -- cbn [Str.buffer Str.length Str.capacity]. split.
           { unfold Str.allocated in *. cbn [Str.buffer Str.capacity]. now rewrite Hlen. }
           split; [exact Hl1|]. split.
           ++ intros i Hi. rewrite Hfront by exact Hi.
              apply (same_prefix _ _ _ i Hkeep). unfold tail in *. lia.
           ++ intros j Hj. rewrite Htail by exact Hj.
              apply (same_prefix _ _ _ _ Hkeep). unfold tail in *. lia.
      * exists s. split; [reflexivity|]. split; [exact Hwf|]. split; [exact Halloc|].
        split; [unfold tail; lia|]. split; [reflexivity|].
        intros j Hj. f_equal. lia.
  - destruct (Resize_spec s (pos + srcLength + tail) Hwf Halloc)
      as (s2 & -> & Hwf2 & Ha2 & Hl2 & Hkeep & _).
    exists s2. split; [reflexivity|]. split; [exact Hwf2|]. split; [exact Ha2|].
    split; [exact Hl2|]. split.
    + intros i Hi. apply (same_prefix _ _ _ i Hkeep). unfold tail. lia.
    + intros j Hj. unfold tail in Hj. lia.
Qed.

Lemma Replace_chars_spec (s : Str.String) (pos numChars : nat) (srcStart : list Z)
    (srcLength : nat) :
  Str.wellFormed s → Str.allocated s → pos + numChars ≤ Str.length s →
  Forall (λ c, (0 ≤ c < 256)%Z) srcStart → srcLength ≤ length srcStart →
  ∃ r, Str.Replace_chars s pos numChars srcStart srcLength = Some r
       ∧ Str.wellFormed r ∧ Str.allocated r
       ∧ Str.content r
         = take pos (Str.content s) ++ take srcLength srcStart
           ++ drop (pos + numChars) (Str.content s).
Proof using Hmem.
  intros Hwf Halloc Hin Hsrc Hlen. unfold Str.Replace_chars. cbv zeta.
  destruct (Replace_room s pos numChars srcLength Hwf Halloc Hin)
    as (s2 & -> & Hwf2 & Ha2 & Hl2 & Hfront & Htail).
  cbn [mbind option_bind].
  pose proof (Str.wf_room s Hwf) as Hroom.
  pose proof (Str.wf_room s2 Hwf2) as Hroom2.
  pose proof (Str.wf_end s2 Hwf2) as Hend2.
  rewrite (@Str.CopyChars_copies _ Hmem) by lia. cbn [mbind option_bind].
  rewrite drop_0.
  assert (Hb3 : length (take pos (Str.buffer s2) ++ take srcLength srcStart
                        ++ drop (pos + srcLength) (Str.buffer s2))
                = length (Str.buffer s2)) by (lens; lia).
  eexists. split; [reflexivity|]. split; [split; cbn [Str.buffer Str.length]|].
  - pose proof (Str.wf_bytes s2 Hwf2) as Hbytes2.
    rewrite !Forall_app. repeat split; auto using Forall_take, Forall_drop.
  - lia.
  - look. rewrite <- Hend2. f_equal. lia.
  - split.
    { unfold Str.allocated in *. cbn [Str.buffer Str.capacity]. now rewrite Hb3. }
    unfold Str.content. cbn [Str.buffer Str.length].
    apply list_eq. intros i.
    destruct (Nat.lt_ge_cases i pos) as [Hi|Hi]; [look; now apply Hfront|].
    destruct (Nat.lt_ge_cases i (pos + srcLength)) as [Hi2|Hi2];
      [look; f_equal; lia|].
    destruct (Nat.lt_ge_cases i (Str.length s2)) as [Hi3|Hi3].
    + look. 
      replace (pos + srcLength + (i - pos `min` length (Str.buffer s2)
                                    - srcLength `min` length srcStart))
        with (pos + srcLength + (i - pos - srcLength)) by lia.
      rewrite Htail by lia. f_equal. lia.
    + rewrite lookup_take_ge by lia. symmetry. apply lookup_ge_None_2. lens. lia.
Qed.

Lemma Replace_chars_capacity (s r : Str.String) (pos numChars : nat)
    (srcStart : list Z) (srcLength : nat) :
  Str.Replace_chars s pos numChars srcStart srcLength = Some r →
  Str.capacity r
  ≤ Str.capacity s
    `max` (Str.MIN_CAPACITY
           `max` (2 * Z.to_nat (Z.of_nat (Str.length s)
                                + (Z.of_nat srcLength - Z.of_nat numChars)))).
Proof.
  unfold Str.Replace_chars. cbv zeta.
  set (N := Z.to_nat (Z.of_nat (Str.length s)
                      + (Z.of_nat srcLength - Z.of_nat numChars))).
  assert (Hroom : ∀ s2,
    (if pos + numChars <? Str.length s then
       s ← (if (Z.of_nat srcLength - Z.of_nat numChars <? 0)%Z then
              buffer' ← Str.MoveRange (Str.buffer s) (pos + srcLength) (pos + numChars)
                          (Str.length s - pos - numChars);
              Str.Resize (Str.mkString (Str.length s) (Str.capacity s) buffer') N
            else Some s);
       (if (0 <? Z.of_nat srcLength - Z.of_nat numChars)%Z then
          s ← Str.Resize s (Z.to_nat (Z.of_nat (Str.length s)
                                      + (Z.of_nat srcLength - Z.of_nat numChars)));
          buffer' ← Str.MoveRange (Str.buffer s) (pos + srcLength) (pos + numChars)
                      (Str.length s - pos - numChars
                       - Z.to_nat (Z.of_nat srcLength - Z.of_nat numChars));
          Some (Str.mkString (Str.length s) (Str.capacity s) buffer')
        else Some s)
     else Str.Resize s N) = Some s2 →
    Str.capacity s2 ≤ Str.capacity s `max` (Str.MIN_CAPACITY `max` (2 * N))).
  { intros s2.
    destruct (pos + numChars <? Str.length s); [|apply Resize_bound].
    destruct (Z.ltb_spec (Z.of_nat srcLength - Z.of_nat numChars) 0) as [Hshrink|Hnot].
    - destruct (Z.ltb_spec 0 (Z.of_nat srcLength - Z.of_nat numChars)); [lia|].
      destruct (Str.MoveRange _ _ _ _) as [b|]; cbn [mbind option_bind]; [|discriminate].
      destruct (Str.Resize _ N) as [s1|] eqn:E; cbn [mbind option_bind]; [|discriminate].
      intros [= <-]. apply Resize_bound in E. exact E.
    - cbn [mbind option_bind].
      destruct (Z.ltb_spec 0 (Z.of_nat srcLength - Z.of_nat numChars));
        [|intros [= <-]; lia].
      fold N. destruct (Str.Resize s N) as [s1|] eqn:E; cbn [mbind option_bind];
        [|discriminate].
      destruct (Str.MoveRange _ _ _ _) as [b|]; cbn [mbind option_bind]; [|discriminate].
      intros [= <-]. apply Resize_bound in E. exact E. }
  match goal with
  | |- (?m ≫= _) = Some r → _ => destruct m as [s2|] eqn:E
  end; cbn [mbind option_bind]; [|discriminate].
  destruct (Str.CopyChars _ _ _ _ _); cbn [mbind option_bind]; [|discriminate].
  intros [= <-]. cbn [Str.capacity]. exact (Hroom s2 eq_refl).
Qed.

End BufferFacts.

Lemma memory8_fits : @Str.memoryFits Str.memory8.
Proof.
  split; cbn [Str.newChars Str.CopyChars Str.MoveRange Str.memory8].
  - intros n. apply length_replicate.
  - intros n. apply Forall_replicate. lia.
  - intros dest d src s n Hd Hs. unfold Str.copyChars.
    destruct (Nat.leb_spec (d + n) (length dest)); [|lia].
    destruct (Nat.leb_spec (s + n) (length src)); [|lia]. reflexivity.
  - intros buffer dest src n Hd Hs. unfold Str.moveRange, Str.copyChars.
    destruct (Nat.leb_spec (dest + n) (length buffer)); [|lia].
    destruct (Nat.leb_spec (src + n) (length buffer)); [|lia]. reflexivity.
Qed.

Lemma ofBytes_allocated (bytes : list Z) : Str.allocated (Str.ofBytes bytes).
Proof.
  unfold Str.allocated, Str.ofBytes. cbn [Str.buffer Str.capacity Nat.eqb].
  rewrite length_app. cbn [length]. lia.
Qed.


Lemma Reserve_Compact_witness :
  ∃ s', @Str.Reserve Str.memory8 (Str.ofBytes [104; 105]%Z) 16 = Some s'
        ∧ Str.content s' = Str.content (Str.ofBytes [104; 105]%Z)
        ∧ Str.capacity s' = 16 `max` (Str.length (Str.ofBytes [104; 105]%Z) + 1).
Proof.
  assert (Hb : Forall (λ b, (0 ≤ b < 256)%Z) [104; 105]%Z) by (repeat constructor; lia).
  destruct (@Reserve_Compact Str.memory8 memory8_fits (Str.ofBytes [104; 105]%Z)
              (ofBytes_wellFormed _ Hb) (ofBytes_allocated _)) as [HReserve _].
  destruct (HReserve 16) as (s' & E & _ & _ & _ & Hc & Hcap).
  exists s'. split; [exact E|]. split; [exact Hc|exact Hcap].
Defined.


Lemma Trimmed_blanks_witness :
  ∃ r lead trail,
    @Str.Trimmed Str.memory8 (Str.ofBytes [32; 9; 104; 32; 105; 9]%Z) = Some r
    ∧ Str.content (Str.ofBytes [32; 9; 104; 32; 105; 9]%Z) = lead ++ Str.content r ++ trail
    ∧ Forall (λ c, Str.blank c = true) lead
    ∧ Forall (λ c, Str.blank c = true) trail.
Proof.
  assert (Hb : Forall (λ b, (0 ≤ b < 256)%Z) [32; 9; 104; 32; 105; 9]%Z)
    by (repeat constructor; lia).
  destruct (@Trimmed_blanks Str.memory8 memory8_fits _ (ofBytes_wellFormed _ Hb))
    as (r & lead & trail & E & _ & _ & Hc & Hlead & Htrail & _).
  exists r, lead, trail. split; [exact E|]. split; [exact Hc|]. split; assumption.
Defined.

